(** * mediastreamer2 [src/ice.c]: the ICE connectivity-check engine

    A shallow embedding of the check-list manager, the connectivity-check
    engine and the Ta-paced scheduler of [ice.c], followed by the properties
    proved about them.

    Conventions of the embedding.
    - Machine integers are [Z]; every place where the C code can wrap is
      written out with [uint w].
    - A check list owns two arenas, one of candidates and one of candidate
      pairs; a C pointer is an index into the arena, a nullable pointer an
      [option].  Dereferencing NULL (or an index outside the arena) is
      undefined behaviour in C: every function that dereferences returns an
      [option], and [None] stands for that undefined behaviour.
    - What the C code sends on the wire and the calls of the success
      callback are recorded in two ghost fields of the check list
      ([cl_sent], [success_cb_calls]).
    - Results of collaborators outside [ice.c] (the STUN codec, libc's
      resolver, the random source) are inputs: pure ones are fields of the
      class [Collaborators], the others are carried by the events. *)

From Stdlib Require Import ZArith Lia Ascii String Sorted.
From Stdlib Require Import DecimalString DecimalN HexadecimalString.
From stdpp Require Import base tactics option list strings.

Local Open Scope Z_scope.

(** ** Machine arithmetic *)

(** Conversion to an unsigned integer of [w] bits. *)
Definition uint (w : Z) (x : Z) : Z := x mod 2 ^ w.

(** C's logical negation, as used by the [MSCompareFunc] helpers. *)
Definition lnot (b : bool) : Z := if b then 0 else 1.

(** ** C strings

    A [char] array is a [string]; reading past its end yields NUL, as the
    arrays of [ice.c] are zeroed before they are filled. *)

Definition NUL : ascii := Ascii.zero.

Definition char_code (c : ascii) : Z := Z.of_N (N_of_ascii c).

Definition peek (s : string) : ascii :=
  match s with EmptyString => NUL | String c _ => c end.

Definition advance (s : string) : string :=
  match s with EmptyString => EmptyString | String _ t => t end.

Fixpoint strlen (s : string) : nat :=
  match s with
  | EmptyString => 0%nat
  | String c t => if Ascii.eqb c NUL then 0%nat else S (strlen t)
  end.

Fixpoint strncmp (s1 s2 : string) (n : nat) : Z :=
  match n with
  | O => 0
  | S n' =>
      let c1 := peek s1 in
      let c2 := peek s2 in
      if negb (Ascii.eqb c1 c2) then char_code c1 - char_code c2
      else if Ascii.eqb c1 NUL then 0
      else strncmp (advance s1) (advance s2) n'
  end.

Definition strcmp (s1 s2 : string) : Z := strncmp s1 s2 (S (strlen s1)).

(** [strchr s c]: offset of the first [c] before the terminating NUL. *)
Fixpoint strchr (s : string) (c : ascii) : option nat :=
  match s with
  | EmptyString => None
  | String a t =>
      if Ascii.eqb a NUL then None
      else if Ascii.eqb a c then Some 0%nat
      else S <$> strchr t c
  end.

(** [strncpy] into a zeroed array: the first [n] bytes of the C string. *)
Fixpoint strncpy (src : string) (n : nat) : string :=
  match n, src with
  | O, _ => EmptyString
  | _, EmptyString => EmptyString
  | S n', String c t =>
      if Ascii.eqb c NUL then EmptyString else String c (strncpy t n')
  end.

(** [memcpy] of [n] bytes into a zeroed array. *)
Fixpoint memcpy (src : string) (n : nat) : string :=
  match n, src with
  | O, _ => EmptyString
  | _, EmptyString => EmptyString
  | S n', String c t => String c (memcpy t n')
  end.

(** The idiom [(strlen(a) == strlen(b)) && (strcmp(a, b) == 0)]. *)
Definition same_string (a b : string) : bool :=
  (strlen a =? strlen b)%nat && (strcmp a b =? 0).

(** ** The MSList primitive

    [MSList] is the list primitive of the repository ([mscommon.c], which
    is not part of [src/]).  A list of the model is the sequence of the
    [data] fields of the C list. *)
Module MSList.

(** Modelled from the spec: the "single heterogeneous list primitive";
    [ms_list_append] adds an element at the end of the list. *)
Definition ms_list_append {A} (l : list A) (x : A) : list A := l ++ [x].

(** Modelled from the spec: the number of elements, as in
    "size(check list)". *)
Definition ms_list_size {A} (l : list A) : Z := Z.of_nat (length l).

(** Modelled from the spec: the element at a position of the list. *)
Definition ms_list_nth_data {A} (l : list A) (n : nat) : option A := l !! n.

(** Modelled from the spec: the first element on which the compare
    function returns 0, as the lookups of the spec ("find the pair whose
    transaction ID matches") use it.  The compare function dereferences its
    arguments, so it may fail; the elements after the first match are not
    visited. *)
Fixpoint ms_list_find_custom {A} (cmp : A → option Z) (l : list A)
  : option (option A) :=
  match l with
  | [] => Some None
  | x :: tl =>
      r ← cmp x;
      if r =? 0 then Some (Some x) else ms_list_find_custom cmp tl
  end.

(** Modelled from the spec: the first element that is the pointer [x]. *)
Definition ms_list_find (l : list nat) (x : nat) : option nat :=
  if bool_decide (x ∈ l) then Some x else None.

(** Modelled from the spec: [ms_list_remove] unlinks the first element
    whose data is [x]. *)
Fixpoint ms_list_remove (l : list nat) (x : nat) : list nat :=
  match l with
  | [] => []
  | y :: tl => if bool_decide (y = x) then tl else y :: ms_list_remove tl x
  end.

(** Modelled from the spec: the insertion "ordered by descending pair
    priority": with the compare functions of [ice.c] the new element goes
    before the first element [it] with [compare(data, it) <= 0]. *)
Fixpoint ms_list_insert_sorted {A} (l : list A) (data : A)
    (cmp : A → A → option Z) : option (list A) :=
  match l with
  | [] => Some [data]
  | it :: tl =>
      r ← cmp data it;
      if r <=? 0 then Some (data :: it :: tl)
      else (it ::.) <$> ms_list_insert_sorted tl data cmp
  end.

End MSList.
Import MSList.

(** ** Constants of [ice.c] *)

Definition ICE_MAX_NB_CANDIDATES : Z := 10.
Definition ICE_MAX_NB_CANDIDATE_PAIRS : Z :=
  ICE_MAX_NB_CANDIDATES * ICE_MAX_NB_CANDIDATES.
Definition ICE_MIN_COMPONENTID : Z := 1.
Definition ICE_MAX_COMPONENTID : Z := 256.
Definition ICE_INVALID_COMPONENTID : Z := 0.
Definition ICE_DEFAULT_TA_DURATION : Z := 20.
Definition ICE_DEFAULT_RTO_DURATION : Z := 100.
Definition ICE_DEFAULT_KEEPALIVE_TIMEOUT : Z := 15.
Definition ICE_MAX_RETRANSMISSIONS : Z := 7.

(** ** Data model *)

Inductive IceRole := IR_Controlling | IR_Controlled.

Inductive IceCandidateType :=
  | ICT_HostCandidate
  | ICT_ServerReflexiveCandidate
  | ICT_PeerReflexiveCandidate
  | ICT_RelayedCandidate.

Inductive IceCandidatePairState :=
  | ICP_Waiting
  | ICP_InProgress
  | ICP_Succeeded
  | ICP_Failed
  | ICP_Frozen.

Inductive IceCheckListState := ICL_Running | ICL_Completed | ICL_Failed.

Inductive IceSessionState := IS_Stopped | IS_Running | IS_Completed | IS_Failed.

#[global] Instance IceRole_eq_dec : EqDecision IceRole.
Proof. solve_decision. Defined.
#[global] Instance IceCandidateType_eq_dec : EqDecision IceCandidateType.
Proof. solve_decision. Defined.
#[global] Instance IceCandidatePairState_eq_dec : EqDecision IceCandidatePairState.
Proof. solve_decision. Defined.
#[global] Instance IceCheckListState_eq_dec : EqDecision IceCheckListState.
Proof. solve_decision. Defined.
#[global] Instance IceSessionState_eq_dec : EqDecision IceSessionState.
Proof. solve_decision. Defined.

(** [type_preference_values], indexed by the candidate type. *)
Definition type_preference_values (t : IceCandidateType) : Z :=
  match t with
  | ICT_HostCandidate => 126
  | ICT_ServerReflexiveCandidate => 100
  | ICT_PeerReflexiveCandidate => 110
  | ICT_RelayedCandidate => 0
  end.

Record IceTransportAddress := mkTaddr {
  ip : string;
  port : Z
}.

(** A candidate.  [cand_base] is the nullable [base] pointer. *)
Record IceCandidate := mkCandidate {
  cand_taddr : IceTransportAddress;
  cand_type : IceCandidateType;
  cand_componentID : Z;
  cand_priority : Z;
  cand_foundation : string;
  cand_base : option nat;
  cand_is_default : bool
}.

(** A candidate pair.  [pair_local] can become NULL when a server
    reflexive candidate without base is replaced by its base. *)
Record IceCandidatePair := mkPair {
  pair_local : option nat;
  pair_remote : nat;
  pair_state : IceCandidatePairState;
  pair_priority : Z;
  transactionID : Z;
  transmission_time : Z;
  rto : Z;
  retransmissions : Z;
  pair_role : IceRole;
  pair_is_default : bool;
  is_nominated : bool;
  wait_transaction_timeout : bool
}.

Record IceValidCandidatePair := mkValid {
  valid : nat;
  generated_from : nat
}.

Record IcePairFoundation := mkFoundation {
  fnd_local : string;
  fnd_remote : string
}.

(** What [sendMessage] put on the wire (ghost). *)
Inductive Wire :=
  | WireBindingRequest (pair : nat) (tr_id : Z) (priority : Z)
      (use_candidate : bool) (r : IceRole) (tie_breaker : Z)
  | WireBindingResponse (tr_id : Z)
  | WireErrorResponse (tr_id : Z) (err_class err_num : Z)
  | WireIndication (pair : nat).

Record IceCheckList := mkCheckList {
  cl_candidates : list IceCandidate;
  cl_pair_arena : list IceCandidatePair;
  cl_remote_ufrag : option string;
  cl_remote_pwd : option string;
  local_candidates : list nat;
  remote_candidates : list nat;
  pairs : list nat;
  triggered_checks_queue : list nat;
  check_list : list nat;
  valid_list : list IceValidCandidatePair;
  componentIDs : list nat;
  foundations : list IcePairFoundation;
  cl_state : IceCheckListState;
  ta_time : Z;
  keepalive_time : Z;
  foundation_generator : Z;
  cl_sent : list Wire;
  success_cb_calls : nat
}.

Record IceSession := mkSession {
  streams : list IceCheckList;
  sess_state : IceSessionState;
  role : IceRole;
  tie_breaker : Z;
  ta : Z;
  keepalive_timeout : Z;
  max_connectivity_checks : Z;
  local_ufrag : string;
  local_pwd : string;
  remote_ufrag : option string;
  remote_pwd : option string;
  ticker_time : Z
}.

(** ** Field updates

    [set_f v x] is the C assignment [x->f = v]. *)

Definition set_cand_type (v : IceCandidateType) (x : IceCandidate) : IceCandidate :=
  mkCandidate (cand_taddr x) v (cand_componentID x) (cand_priority x)
    (cand_foundation x) (cand_base x) (cand_is_default x).

Definition set_cand_priority (v : Z) (x : IceCandidate) : IceCandidate :=
  mkCandidate (cand_taddr x) (cand_type x) (cand_componentID x) v
    (cand_foundation x) (cand_base x) (cand_is_default x).

Definition set_cand_foundation (v : string) (x : IceCandidate) : IceCandidate :=
  mkCandidate (cand_taddr x) (cand_type x) (cand_componentID x)
    (cand_priority x) v (cand_base x) (cand_is_default x).

Definition set_cand_base (v : option nat) (x : IceCandidate) : IceCandidate :=
  mkCandidate (cand_taddr x) (cand_type x) (cand_componentID x)
    (cand_priority x) (cand_foundation x) v (cand_is_default x).

Definition set_cand_is_default (v : bool) (x : IceCandidate) : IceCandidate :=
  mkCandidate (cand_taddr x) (cand_type x) (cand_componentID x)
    (cand_priority x) (cand_foundation x) (cand_base x) v.

Definition set_pair_local (v : option nat) (x : IceCandidatePair) : IceCandidatePair :=
  mkPair v (pair_remote x) (pair_state x) (pair_priority x) (transactionID
    x) (transmission_time x) (rto x) (retransmissions x) (pair_role x)
    (pair_is_default x) (is_nominated x) (wait_transaction_timeout x).

Definition set_pair_remote (v : nat) (x : IceCandidatePair) : IceCandidatePair :=
  mkPair (pair_local x) v (pair_state x) (pair_priority x) (transactionID x)
    (transmission_time x) (rto x) (retransmissions x) (pair_role x)
    (pair_is_default x) (is_nominated x) (wait_transaction_timeout x).

Definition set_pair_state (v : IceCandidatePairState) (x : IceCandidatePair) : IceCandidatePair :=
  mkPair (pair_local x) (pair_remote x) v (pair_priority x) (transactionID
    x) (transmission_time x) (rto x) (retransmissions x) (pair_role x)
    (pair_is_default x) (is_nominated x) (wait_transaction_timeout x).

Definition set_pair_priority (v : Z) (x : IceCandidatePair) : IceCandidatePair :=
  mkPair (pair_local x) (pair_remote x) (pair_state x) v (transactionID x)
    (transmission_time x) (rto x) (retransmissions x) (pair_role x)
    (pair_is_default x) (is_nominated x) (wait_transaction_timeout x).

Definition set_transactionID (v : Z) (x : IceCandidatePair) : IceCandidatePair :=
  mkPair (pair_local x) (pair_remote x) (pair_state x) (pair_priority x) v
    (transmission_time x) (rto x) (retransmissions x) (pair_role x)
    (pair_is_default x) (is_nominated x) (wait_transaction_timeout x).

Definition set_transmission_time (v : Z) (x : IceCandidatePair) : IceCandidatePair :=
  mkPair (pair_local x) (pair_remote x) (pair_state x) (pair_priority x)
    (transactionID x) v (rto x) (retransmissions x) (pair_role x)
    (pair_is_default x) (is_nominated x) (wait_transaction_timeout x).

Definition set_rto (v : Z) (x : IceCandidatePair) : IceCandidatePair :=
  mkPair (pair_local x) (pair_remote x) (pair_state x) (pair_priority x)
    (transactionID x) (transmission_time x) v (retransmissions x) (pair_role
    x) (pair_is_default x) (is_nominated x) (wait_transaction_timeout x).

Definition set_retransmissions (v : Z) (x : IceCandidatePair) : IceCandidatePair :=
  mkPair (pair_local x) (pair_remote x) (pair_state x) (pair_priority x)
    (transactionID x) (transmission_time x) (rto x) v (pair_role x)
    (pair_is_default x) (is_nominated x) (wait_transaction_timeout x).

Definition set_pair_role (v : IceRole) (x : IceCandidatePair) : IceCandidatePair :=
  mkPair (pair_local x) (pair_remote x) (pair_state x) (pair_priority x)
    (transactionID x) (transmission_time x) (rto x) (retransmissions x) v
    (pair_is_default x) (is_nominated x) (wait_transaction_timeout x).

Definition set_pair_is_default (v : bool) (x : IceCandidatePair) : IceCandidatePair :=
  mkPair (pair_local x) (pair_remote x) (pair_state x) (pair_priority x)
    (transactionID x) (transmission_time x) (rto x) (retransmissions x)
    (pair_role x) v (is_nominated x) (wait_transaction_timeout x).

Definition set_is_nominated (v : bool) (x : IceCandidatePair) : IceCandidatePair :=
  mkPair (pair_local x) (pair_remote x) (pair_state x) (pair_priority x)
    (transactionID x) (transmission_time x) (rto x) (retransmissions x)
    (pair_role x) (pair_is_default x) v (wait_transaction_timeout x).

Definition set_wait_transaction_timeout (v : bool) (x : IceCandidatePair) : IceCandidatePair :=
  mkPair (pair_local x) (pair_remote x) (pair_state x) (pair_priority x)
    (transactionID x) (transmission_time x) (rto x) (retransmissions x)
    (pair_role x) (pair_is_default x) (is_nominated x) v.

Definition set_cl_candidates (v : list IceCandidate) (x : IceCheckList) : IceCheckList :=
  mkCheckList v (cl_pair_arena x) (cl_remote_ufrag x) (cl_remote_pwd x)
    (local_candidates x) (remote_candidates x) (pairs x)
    (triggered_checks_queue x) (check_list x) (valid_list x) (componentIDs
    x) (foundations x) (cl_state x) (ta_time x) (keepalive_time x)
    (foundation_generator x) (cl_sent x) (success_cb_calls x).

Definition set_cl_pair_arena (v : list IceCandidatePair) (x : IceCheckList) : IceCheckList :=
  mkCheckList (cl_candidates x) v (cl_remote_ufrag x) (cl_remote_pwd x)
    (local_candidates x) (remote_candidates x) (pairs x)
    (triggered_checks_queue x) (check_list x) (valid_list x) (componentIDs
    x) (foundations x) (cl_state x) (ta_time x) (keepalive_time x)
    (foundation_generator x) (cl_sent x) (success_cb_calls x).

Definition set_cl_remote_ufrag (v : option string) (x : IceCheckList) : IceCheckList :=
  mkCheckList (cl_candidates x) (cl_pair_arena x) v (cl_remote_pwd x)
    (local_candidates x) (remote_candidates x) (pairs x)
    (triggered_checks_queue x) (check_list x) (valid_list x) (componentIDs
    x) (foundations x) (cl_state x) (ta_time x) (keepalive_time x)
    (foundation_generator x) (cl_sent x) (success_cb_calls x).

Definition set_cl_remote_pwd (v : option string) (x : IceCheckList) : IceCheckList :=
  mkCheckList (cl_candidates x) (cl_pair_arena x) (cl_remote_ufrag x) v
    (local_candidates x) (remote_candidates x) (pairs x)
    (triggered_checks_queue x) (check_list x) (valid_list x) (componentIDs
    x) (foundations x) (cl_state x) (ta_time x) (keepalive_time x)
    (foundation_generator x) (cl_sent x) (success_cb_calls x).

Definition set_local_candidates (v : list nat) (x : IceCheckList) : IceCheckList :=
  mkCheckList (cl_candidates x) (cl_pair_arena x) (cl_remote_ufrag x)
    (cl_remote_pwd x) v (remote_candidates x) (pairs x)
    (triggered_checks_queue x) (check_list x) (valid_list x) (componentIDs
    x) (foundations x) (cl_state x) (ta_time x) (keepalive_time x)
    (foundation_generator x) (cl_sent x) (success_cb_calls x).

Definition set_remote_candidates (v : list nat) (x : IceCheckList) : IceCheckList :=
  mkCheckList (cl_candidates x) (cl_pair_arena x) (cl_remote_ufrag x)
    (cl_remote_pwd x) (local_candidates x) v (pairs x)
    (triggered_checks_queue x) (check_list x) (valid_list x) (componentIDs
    x) (foundations x) (cl_state x) (ta_time x) (keepalive_time x)
    (foundation_generator x) (cl_sent x) (success_cb_calls x).

Definition set_pairs (v : list nat) (x : IceCheckList) : IceCheckList :=
  mkCheckList (cl_candidates x) (cl_pair_arena x) (cl_remote_ufrag x)
    (cl_remote_pwd x) (local_candidates x) (remote_candidates x) v
    (triggered_checks_queue x) (check_list x) (valid_list x) (componentIDs
    x) (foundations x) (cl_state x) (ta_time x) (keepalive_time x)
    (foundation_generator x) (cl_sent x) (success_cb_calls x).

Definition set_triggered_checks_queue (v : list nat) (x : IceCheckList) : IceCheckList :=
  mkCheckList (cl_candidates x) (cl_pair_arena x) (cl_remote_ufrag x)
    (cl_remote_pwd x) (local_candidates x) (remote_candidates x) (pairs x) v
    (check_list x) (valid_list x) (componentIDs x) (foundations x) (cl_state
    x) (ta_time x) (keepalive_time x) (foundation_generator x) (cl_sent x)
    (success_cb_calls x).

Definition set_check_list (v : list nat) (x : IceCheckList) : IceCheckList :=
  mkCheckList (cl_candidates x) (cl_pair_arena x) (cl_remote_ufrag x)
    (cl_remote_pwd x) (local_candidates x) (remote_candidates x) (pairs x)
    (triggered_checks_queue x) v (valid_list x) (componentIDs x)
    (foundations x) (cl_state x) (ta_time x) (keepalive_time x)
    (foundation_generator x) (cl_sent x) (success_cb_calls x).

Definition set_valid_list (v : list IceValidCandidatePair) (x : IceCheckList) : IceCheckList :=
  mkCheckList (cl_candidates x) (cl_pair_arena x) (cl_remote_ufrag x)
    (cl_remote_pwd x) (local_candidates x) (remote_candidates x) (pairs x)
    (triggered_checks_queue x) (check_list x) v (componentIDs x)
    (foundations x) (cl_state x) (ta_time x) (keepalive_time x)
    (foundation_generator x) (cl_sent x) (success_cb_calls x).

Definition set_componentIDs (v : list nat) (x : IceCheckList) : IceCheckList :=
  mkCheckList (cl_candidates x) (cl_pair_arena x) (cl_remote_ufrag x)
    (cl_remote_pwd x) (local_candidates x) (remote_candidates x) (pairs x)
    (triggered_checks_queue x) (check_list x) (valid_list x) v (foundations
    x) (cl_state x) (ta_time x) (keepalive_time x) (foundation_generator x)
    (cl_sent x) (success_cb_calls x).

Definition set_foundations (v : list IcePairFoundation) (x : IceCheckList) : IceCheckList :=
  mkCheckList (cl_candidates x) (cl_pair_arena x) (cl_remote_ufrag x)
    (cl_remote_pwd x) (local_candidates x) (remote_candidates x) (pairs x)
    (triggered_checks_queue x) (check_list x) (valid_list x) (componentIDs
    x) v (cl_state x) (ta_time x) (keepalive_time x) (foundation_generator
    x) (cl_sent x) (success_cb_calls x).

Definition set_cl_state (v : IceCheckListState) (x : IceCheckList) : IceCheckList :=
  mkCheckList (cl_candidates x) (cl_pair_arena x) (cl_remote_ufrag x)
    (cl_remote_pwd x) (local_candidates x) (remote_candidates x) (pairs x)
    (triggered_checks_queue x) (check_list x) (valid_list x) (componentIDs
    x) (foundations x) v (ta_time x) (keepalive_time x)
    (foundation_generator x) (cl_sent x) (success_cb_calls x).

Definition set_ta_time (v : Z) (x : IceCheckList) : IceCheckList :=
  mkCheckList (cl_candidates x) (cl_pair_arena x) (cl_remote_ufrag x)
    (cl_remote_pwd x) (local_candidates x) (remote_candidates x) (pairs x)
    (triggered_checks_queue x) (check_list x) (valid_list x) (componentIDs
    x) (foundations x) (cl_state x) v (keepalive_time x)
    (foundation_generator x) (cl_sent x) (success_cb_calls x).

Definition set_keepalive_time (v : Z) (x : IceCheckList) : IceCheckList :=
  mkCheckList (cl_candidates x) (cl_pair_arena x) (cl_remote_ufrag x)
    (cl_remote_pwd x) (local_candidates x) (remote_candidates x) (pairs x)
    (triggered_checks_queue x) (check_list x) (valid_list x) (componentIDs
    x) (foundations x) (cl_state x) (ta_time x) v (foundation_generator x)
    (cl_sent x) (success_cb_calls x).

Definition set_foundation_generator (v : Z) (x : IceCheckList) : IceCheckList :=
  mkCheckList (cl_candidates x) (cl_pair_arena x) (cl_remote_ufrag x)
    (cl_remote_pwd x) (local_candidates x) (remote_candidates x) (pairs x)
    (triggered_checks_queue x) (check_list x) (valid_list x) (componentIDs
    x) (foundations x) (cl_state x) (ta_time x) (keepalive_time x) v
    (cl_sent x) (success_cb_calls x).

Definition set_cl_sent (v : list Wire) (x : IceCheckList) : IceCheckList :=
  mkCheckList (cl_candidates x) (cl_pair_arena x) (cl_remote_ufrag x)
    (cl_remote_pwd x) (local_candidates x) (remote_candidates x) (pairs x)
    (triggered_checks_queue x) (check_list x) (valid_list x) (componentIDs
    x) (foundations x) (cl_state x) (ta_time x) (keepalive_time x)
    (foundation_generator x) v (success_cb_calls x).

Definition set_success_cb_calls (v : nat) (x : IceCheckList) : IceCheckList :=
  mkCheckList (cl_candidates x) (cl_pair_arena x) (cl_remote_ufrag x)
    (cl_remote_pwd x) (local_candidates x) (remote_candidates x) (pairs x)
    (triggered_checks_queue x) (check_list x) (valid_list x) (componentIDs
    x) (foundations x) (cl_state x) (ta_time x) (keepalive_time x)
    (foundation_generator x) (cl_sent x) v.

Definition set_streams (v : list IceCheckList) (x : IceSession) : IceSession :=
  mkSession v (sess_state x) (role x) (tie_breaker x) (ta x)
    (keepalive_timeout x) (max_connectivity_checks x) (local_ufrag x)
    (local_pwd x) (remote_ufrag x) (remote_pwd x) (ticker_time x).

Definition set_sess_state (v : IceSessionState) (x : IceSession) : IceSession :=
  mkSession (streams x) v (role x) (tie_breaker x) (ta x) (keepalive_timeout
    x) (max_connectivity_checks x) (local_ufrag x) (local_pwd x)
    (remote_ufrag x) (remote_pwd x) (ticker_time x).

Definition set_role (v : IceRole) (x : IceSession) : IceSession :=
  mkSession (streams x) (sess_state x) v (tie_breaker x) (ta x)
    (keepalive_timeout x) (max_connectivity_checks x) (local_ufrag x)
    (local_pwd x) (remote_ufrag x) (remote_pwd x) (ticker_time x).

Definition set_keepalive_timeout (v : Z) (x : IceSession) : IceSession :=
  mkSession (streams x) (sess_state x) (role x) (tie_breaker x) (ta x) v
    (max_connectivity_checks x) (local_ufrag x) (local_pwd x) (remote_ufrag
    x) (remote_pwd x) (ticker_time x).

Definition set_max_connectivity_checks (v : Z) (x : IceSession) : IceSession :=
  mkSession (streams x) (sess_state x) (role x) (tie_breaker x) (ta x)
    (keepalive_timeout x) v (local_ufrag x) (local_pwd x) (remote_ufrag x)
    (remote_pwd x) (ticker_time x).

Definition set_local_ufrag (v : string) (x : IceSession) : IceSession :=
  mkSession (streams x) (sess_state x) (role x) (tie_breaker x) (ta x)
    (keepalive_timeout x) (max_connectivity_checks x) v (local_pwd x)
    (remote_ufrag x) (remote_pwd x) (ticker_time x).

Definition set_local_pwd (v : string) (x : IceSession) : IceSession :=
  mkSession (streams x) (sess_state x) (role x) (tie_breaker x) (ta x)
    (keepalive_timeout x) (max_connectivity_checks x) (local_ufrag x) v
    (remote_ufrag x) (remote_pwd x) (ticker_time x).

Definition set_remote_ufrag (v : option string) (x : IceSession) : IceSession :=
  mkSession (streams x) (sess_state x) (role x) (tie_breaker x) (ta x)
    (keepalive_timeout x) (max_connectivity_checks x) (local_ufrag x)
    (local_pwd x) v (remote_pwd x) (ticker_time x).

Definition set_remote_pwd (v : option string) (x : IceSession) : IceSession :=
  mkSession (streams x) (sess_state x) (role x) (tie_breaker x) (ta x)
    (keepalive_timeout x) (max_connectivity_checks x) (local_ufrag x)
    (local_pwd x) (remote_ufrag x) v (ticker_time x).

Definition set_ticker_time (v : Z) (x : IceSession) : IceSession :=
  mkSession (streams x) (sess_state x) (role x) (tie_breaker x) (ta x)
    (keepalive_timeout x) (max_connectivity_checks x) (local_ufrag x)
    (local_pwd x) (remote_ufrag x) (remote_pwd x) v.

(** ** STUN messages and packet events

    [stun.h] and oRTP's event structures are not under [src/]; the records
    below hold the fields that [ice.c] reads or writes. *)

Record StunMessage := mkStunMessage {
  msgType : Z;
  msgLength : Z;
  tr_id : Z;
  hasMessageIntegrity : bool;
  messageIntegrity_hash : Z;
  hasUsername : bool;
  username : string;
  username_sizeValue : nat;
  hasFingerprint : bool;
  hasPriority : bool;
  msg_priority : Z;
  hasIceControlling : bool;
  iceControlling : Z;
  hasIceControlled : bool;
  iceControlled : Z;
  hasUseCandidate : bool;
  hasXorMappedAddress : bool;
  xorMappedAddress_addr : Z;
  xorMappedAddress_port : Z;
  hasErrorCode : bool;
  errorClass : Z;
  errorNumber : Z
}.

(** The message classes of RFC 5389 (bits 4 and 8 of the message type),
    as the [STUN_IS_*] macros test them. *)
Definition STUN_IS_REQUEST (t : Z) : bool := Z.land t 0x0110 =? 0x0000.
Definition STUN_IS_INDICATION (t : Z) : bool := Z.land t 0x0110 =? 0x0010.
Definition STUN_IS_SUCCESS_RESP (t : Z) : bool := Z.land t 0x0110 =? 0x0100.
Definition STUN_IS_ERR_RESP (t : Z) : bool := Z.land t 0x0110 =? 0x0110.

Inductive OrtpSocketType := OrtpRTPSocket | OrtpRTCPSocket | OrtpOtherSocket.

Inductive SockFamily := AF_INET | AF_INET6 | AF_OTHER.

(** [packet]: the bytes between [b_rptr] and [b_wptr]; [ipi_addr],
    [sin_addr] and [sin_port] are in host byte order. *)
Record OrtpEventData := mkEvent {
  packet : list Z;
  ipi_addr : Z;
  socket_type : OrtpSocketType;
  ss_family : SockFamily;
  sin_addr : Z;
  sin_port : Z
}.

Record RtpSession := mkRtpSession {
  rtp_socket : Z;
  rtcp_socket : Z;
  loc_port : Z
}.

(** The pure collaborators of [ice.c]: the STUN codec, libc and the
    allocator.  [ms_new_pair] is the content of a block that [ms_new]
    returns (not initialised); [sizeof_ip] and [sizeof_foundation] are the
    sizes of the [ip] and [foundation] arrays declared in [ice.h]. *)
Class Collaborators := {
  stunParseMessage : list Z → option StunMessage;
  stunParseHostName : string → Z → Z * Z;
  stunCalculateIntegrity_shortterm : list Z → string → Z;
  stunEncodeMessage_ok : Wire → bool;
  inet_ntoa : Z → string;
  getnameinfo : SockFamily → Z → option string;
  ms_new_pair : IceCandidatePair;
  sizeof_ip : nat;
  sizeof_foundation : nat
}.

(** The random source, as seen by one entry point of the engine:
    [stunBuildReqSimple_tr_id p] is the transaction ID drawn for a new
    request on pair [p], [random_draws] the successive 64-bit values that
    [ice_generate_arbitrary_foundation] builds from [random()]. *)
Record Oracle := mkOracle {
  stunBuildReqSimple_tr_id : nat → Z;
  random_draws : list Z
}.

(** [snprintf (buf, size, "%s", s)]. *)
Definition snprintf_s (size : nat) (s : string) : string :=
  strncpy s (size - 1).

(** [printf]'s [%u] and [%llx]. *)
Definition fmt_u (n : Z) : string :=
  DecimalString.NilZero.string_of_uint (N.to_uint (Z.to_N n)).
Definition fmt_llx (n : Z) : string :=
  HexadecimalString.NilZero.string_of_uint (N.to_hex_uint (Z.to_N n)).

(** [ms_list_for_each2] with a function that can fail. *)
Fixpoint for_each2 {A S} (f : A → S → option S) (l : list A) (st : S)
  : option S :=
  match l with
  | [] => Some st
  | x :: tl => st' ← f x st; for_each2 f tl st'
  end.

(** ** The engine *)

Section Engine.

Context `{Collaborators}.

(** *** Arena access *)

Definition get_cand (cl : IceCheckList) (c : nat) : option IceCandidate :=
  cl_candidates cl !! c.

Definition get_pair (cl : IceCheckList) (p : nat) : option IceCandidatePair :=
  cl_pair_arena cl !! p.

Definition put_pair (p : nat) (x : IceCandidatePair) (cl : IceCheckList)
  : IceCheckList :=
  set_cl_pair_arena (<[p := x]> (cl_pair_arena cl)) cl.

Definition put_cand (c : nat) (x : IceCandidate) (cl : IceCheckList)
  : IceCheckList :=
  set_cl_candidates (<[c := x]> (cl_candidates cl)) cl.

(** [pair->local] and [pair->remote], dereferenced. *)
Definition local_of (cl : IceCheckList) (pair : IceCandidatePair)
  : option IceCandidate :=
  c ← pair_local pair; get_cand cl c.

Definition remote_of (cl : IceCheckList) (pair : IceCandidatePair)
  : option IceCandidate :=
  get_cand cl (pair_remote pair).

(** [ms_new] followed by the append to [cl->pairs] that every caller of
    [ice_pair_new] performs: the new pair gets the next index of the arena. *)
Definition alloc_pair (x : IceCandidatePair) (cl : IceCheckList)
  : nat * IceCheckList :=
  let p := length (cl_pair_arena cl) in
  (p, set_pairs (ms_list_append (pairs cl) p)
        (set_cl_pair_arena (cl_pair_arena cl ++ [x]) cl)).

Definition get_stream (k : nat) (s : IceSession) : option IceCheckList :=
  streams s !! k.

Definition put_stream (k : nat) (cl : IceCheckList) (s : IceSession)
  : IceSession :=
  set_streams (<[k := cl]> (streams s)) s.

(** *** Check list initialisation *)

Definition ice_check_list_new : IceCheckList :=
  {| cl_candidates := []; cl_pair_arena := [];
     cl_remote_ufrag := None; cl_remote_pwd := None;
     local_candidates := []; remote_candidates := []; pairs := [];
     triggered_checks_queue := []; check_list := []; valid_list := [];
     componentIDs := []; foundations := [];
     cl_state := ICL_Running; ta_time := 0; keepalive_time := 0;
     foundation_generator := 1;
     cl_sent := []; success_cb_calls := 0%nat |}.

(** *** Pair priority and pair creation *)

Definition ice_compute_pair_priority (r : IceRole) (cl : IceCheckList)
    (pair : IceCandidatePair) : option IceCandidatePair :=
  l ← local_of cl pair;
  rm ← remote_of cl pair;
  let '(G, D) :=
    match r with
    | IR_Controlling => (cand_priority l, cand_priority rm)
    | IR_Controlled => (cand_priority rm, cand_priority l)
    end in
  Some (set_pair_priority
          (uint 64 (Z.lor (Z.lor (uint 64 (Z.shiftl (Z.min G D) 32))
                                 (uint 64 (Z.shiftl (Z.max G D) 1)))
                          (if G >? D then 1 else 0)))
          pair).

Definition ice_pair_set_state (state : IceCandidatePairState)
    (pair : IceCandidatePair) : IceCandidatePair :=
  if decide (pair_state pair ≠ state) then
    let pair := set_pair_state state pair in
    match state with
    | ICP_Failed | ICP_Waiting => set_transactionID 0 pair
    | ICP_InProgress | ICP_Succeeded | ICP_Frozen => pair
    end
  else pair.

Definition ice_pair_new (s : IceSession) (cl : IceCheckList)
    (local_candidate remote_candidate : nat) : option IceCandidatePair :=
  let pair := ms_new_pair in
  let pair := set_pair_local (Some local_candidate) pair in
  let pair := set_pair_remote remote_candidate pair in
  let pair := ice_pair_set_state ICP_Frozen pair in
  let pair := set_pair_is_default false pair in
  let pair := set_is_nominated false pair in
  let pair := set_wait_transaction_timeout false pair in
  l ← local_of cl pair;
  rm ← remote_of cl pair;
  let pair :=
    if cand_is_default l && cand_is_default rm
    then set_pair_is_default true pair
    else set_pair_is_default false pair in
  let pair := set_transactionID 0 pair in
  let pair := set_rto ICE_DEFAULT_RTO_DURATION pair in
  let pair := set_retransmissions 0 pair in
  let pair := set_pair_role (role s) pair in
  ice_compute_pair_priority (role s) cl pair.

(** *** Triggered checks queue *)

Definition ice_check_list_queue_triggered_check (p : nat) (cl : IceCheckList)
  : IceCheckList :=
  match ms_list_find (triggered_checks_queue cl) p with
  | Some _ => cl
  | None =>
      set_triggered_checks_queue
        (ms_list_append (triggered_checks_queue cl) p) cl
  end.

Definition ice_check_list_pop_triggered_check (cl : IceCheckList)
  : option nat * IceCheckList :=
  match triggered_checks_queue cl with
  | [] => (None, cl)
  | p :: tl => (Some p, set_triggered_checks_queue tl cl)
  end.

(** *** Session accessors *)

Definition ice_check_list_local_ufrag (s : IceSession) : string :=
  local_ufrag s.

Definition ice_check_list_local_pwd (s : IceSession) : string := local_pwd s.

Definition ice_check_list_remote_ufrag (s : IceSession) (cl : IceCheckList)
  : option string :=
  match cl_remote_ufrag cl with Some u => Some u | None => remote_ufrag s end.

Definition ice_check_list_remote_pwd (s : IceSession) (cl : IceCheckList)
  : option string :=
  match cl_remote_pwd cl with Some u => Some u | None => remote_pwd s end.

Definition ice_compute_pair_priority_at (r : IceRole) (p : nat)
    (cl : IceCheckList) : option IceCheckList :=
  pair ← get_pair cl p;
  pair' ← ice_compute_pair_priority r cl pair;
  Some (put_pair p pair' cl).

Definition ice_check_list_compute_pair_priorities (r : IceRole)
    (cl : IceCheckList) : option IceCheckList :=
  for_each2 (ice_compute_pair_priority_at r) (pairs cl) cl.

Definition ice_session_compute_pair_priorities (s : IceSession)
  : option IceSession :=
  l ← mapM (ice_check_list_compute_pair_priorities (role s)) (streams s);
  Some (set_streams l s).

Definition ice_session_set_role (r : IceRole) (s : IceSession)
  : option IceSession :=
  if decide (role s ≠ r)
  then ice_session_compute_pair_priorities (set_role r s)
  else Some s.

Definition ice_session_set_max_connectivity_checks (n : Z) (s : IceSession)
  : IceSession :=
  set_max_connectivity_checks n s.

Definition ice_session_set_keepalive_timeout (timeout : Z) (s : IceSession)
  : IceSession :=
  let timeout :=
    if timeout <? ICE_DEFAULT_KEEPALIVE_TIMEOUT
    then ICE_DEFAULT_KEEPALIVE_TIMEOUT else timeout in
  set_keepalive_timeout timeout s.

Definition ice_session_add_check_list (cl : IceCheckList) (s : IceSession)
  : IceSession :=
  set_streams (ms_list_append (streams s) cl) s.

(** *** STUN packets handling *)

Definition sendMessage (w : Wire) (cl : IceCheckList) : IceCheckList :=
  set_cl_sent (w :: cl_sent cl) cl.

(** The part of [ice_send_binding_request] after the retransmission
    bookkeeping: choice of the socket, construction of the request and
    emission.  [pair] is the content of [*pair] at that point.  The
    USERNAME and password of the request are not part of the [Wire]
    descriptor. *)
Definition ice_send_binding_request_emit (s : IceSession) (o : Oracle)
    (rtp : RtpSession) (p : nat) (pair : IceCandidatePair)
    (cl : IceCheckList) : option IceCheckList :=
  l ← local_of cl pair;
  if (cand_componentID l =? 1) || (cand_componentID l =? 2) then
    rm ← remote_of cl pair;
    let priority :=
      Z.lor (Z.land (cand_priority l) 0x00ffffff)
            (Z.shiftl (type_preference_values ICT_PeerReflexiveCandidate) 24) in
    let use_candidate :=
      bool_decide (role s = IR_Controlling) && is_nominated pair in
    let id :=
      if decide (pair_state pair = ICP_InProgress)
      then transactionID pair
      else stunBuildReqSimple_tr_id o p in
    let msg :=
      WireBindingRequest p id priority use_candidate (role s) (tie_breaker s) in
    if stunEncodeMessage_ok msg then
      let pair := set_transactionID id pair in
      let cl := sendMessage msg cl in
      let pair :=
        if decide (pair_state pair ≠ ICP_InProgress) then
          let pair := set_rto ICE_DEFAULT_RTO_DURATION pair in
          let pair := set_retransmissions 0 pair in
          let pair := set_pair_role (role s) pair in
          ice_pair_set_state ICP_InProgress pair
        else pair in
      Some (put_pair p pair cl)
    else Some (put_pair p pair cl)
  else Some (put_pair p pair cl).

(** [retransmissions] is a [uint8_t] and [rto] a [uint32_t] in [ice.h]. *)
Definition ice_send_binding_request (s : IceSession) (o : Oracle)
    (rtp : RtpSession) (p : nat) (cl : IceCheckList) : option IceCheckList :=
  pair ← get_pair cl p;
  if decide (pair_state pair = ICP_InProgress) then
    if wait_transaction_timeout pair then
      let pair := set_wait_transaction_timeout false pair in
      let pair := ice_pair_set_state ICP_Waiting pair in
      Some (ice_check_list_queue_triggered_check p (put_pair p pair cl))
    else
      let pair := set_retransmissions (uint 8 (retransmissions pair + 1)) pair in
      if retransmissions pair >? ICE_MAX_RETRANSMISSIONS then
        Some (put_pair p (ice_pair_set_state ICP_Failed pair) cl)
      else
        let pair := set_rto (uint 32 (Z.shiftl (rto pair) 1)) pair in
        let pair := set_transmission_time (ticker_time s) pair in
        ice_send_binding_request_emit s o rtp p pair cl
  else ice_send_binding_request_emit s o rtp p pair cl.

Definition ice_get_socket_from_rtp_session (rtp : RtpSession)
    (evt : OrtpEventData) : Z :=
  match socket_type evt with
  | OrtpRTPSocket => rtp_socket rtp
  | OrtpRTCPSocket => rtcp_socket rtp
  | OrtpOtherSocket => -1
  end.

Definition ice_get_recv_port_from_rtp_session (rtp : RtpSession)
    (evt : OrtpEventData) : Z :=
  match socket_type evt with
  | OrtpRTPSocket => loc_port rtp
  | OrtpRTCPSocket => loc_port rtp + 1
  | OrtpOtherSocket => -1
  end.

Definition ice_send_binding_response (rtp : RtpSession) (evt : OrtpEventData)
    (msg : StunMessage) (cl : IceCheckList) : IceCheckList :=
  let socket := ice_get_socket_from_rtp_session rtp evt in
  if socket <? 0 then cl
  else
    let response := WireBindingResponse (tr_id msg) in
    if stunEncodeMessage_ok response then sendMessage response cl else cl.

Definition ice_send_error_response (rtp : RtpSession) (evt : OrtpEventData)
    (msg : StunMessage) (err_class err_num : Z) (cl : IceCheckList)
  : IceCheckList :=
  let socket := ice_get_socket_from_rtp_session rtp evt in
  if socket <? 0 then cl
  else
    let response := WireErrorResponse (tr_id msg) err_class err_num in
    if stunEncodeMessage_ok response then sendMessage response cl else cl.

Definition ice_send_indication (rtp : RtpSession) (p : nat)
    (cl : IceCheckList) : option IceCheckList :=
  pair ← get_pair cl p;
  l ← local_of cl pair;
  if (cand_componentID l =? 1) || (cand_componentID l =? 2) then
    rm ← remote_of cl pair;
    let indication := WireIndication p in
    if stunEncodeMessage_ok indication
    then Some (sendMessage indication cl) else Some cl
  else Some cl.

(** [componentID] is the value that an element of [cl->componentIDs]
    points to; [short-circuit]: the local candidate is read only for a
    nominated pair. *)
Definition ice_find_nominated_valid_pair_from_componentID
    (cl : IceCheckList) (componentID : Z) (valid_pair : IceValidCandidatePair)
  : option Z :=
  pair ← get_pair cl (valid valid_pair);
  if is_nominated pair then
    l ← local_of cl pair;
    Some (lnot (cand_componentID l =? componentID))
  else Some (lnot false).

Definition ice_send_keepalive_packet_for_componentID (rtp : RtpSession)
    (cid_ptr : nat) (cl : IceCheckList) : option IceCheckList :=
  c ← get_cand cl cid_ptr;
  elem ← ms_list_find_custom
            (ice_find_nominated_valid_pair_from_componentID cl
               (cand_componentID c))
            (valid_list cl);
  match elem with
  | Some valid_pair => ice_send_indication rtp (valid valid_pair) cl
  | None => Some cl
  end.

Definition ice_send_keepalive_packets (rtp : RtpSession) (cl : IceCheckList)
  : option IceCheckList :=
  for_each2 (ice_send_keepalive_packet_for_componentID rtp)
    (componentIDs cl) cl.

Definition ice_compare_transport_addresses (ta1 ta2 : IceTransportAddress)
  : Z :=
  lnot ((port ta1 =? port ta2)
        && (strlen (ip ta1) =? strlen (ip ta2))%nat
        && (strcmp (ip ta1) (ip ta2) =? 0)).

Definition ice_find_candidate_from_transport_address (cl : IceCheckList)
    (taddr : IceTransportAddress) (c : nat) : option Z :=
  candidate ← get_cand cl c;
  Some (ice_compare_transport_addresses (cand_taddr candidate) taddr).

(** *** Add candidates *)

(** The [MSList **list] argument of [ice_add_candidate]. *)
Inductive CandidateList := LocalCandidates | RemoteCandidates.

Definition candidate_list (which : CandidateList) (cl : IceCheckList)
  : list nat :=
  match which with
  | LocalCandidates => local_candidates cl
  | RemoteCandidates => remote_candidates cl
  end.

Definition set_candidate_list (which : CandidateList) (l : list nat)
    (cl : IceCheckList) : IceCheckList :=
  match which with
  | LocalCandidates => set_local_candidates l cl
  | RemoteCandidates => set_remote_candidates l cl
  end.

(** Assignment through a candidate pointer known to be valid. *)
Definition alter_cand (f : IceCandidate → IceCandidate) (c : nat)
    (cl : IceCheckList) : IceCheckList :=
  set_cl_candidates (alter f c (cl_candidates cl)) cl.

Definition ice_add_candidate (which : CandidateList) (type : string)
    (ip : string) (port : Z) (componentID : Z) (cl : IceCheckList)
  : option nat * IceCheckList :=
  if ms_list_size (candidate_list which cl) >=? ICE_MAX_NB_CANDIDATES then
    (None, cl)
  else
    let candidate_type :=
      if strcmp type "host" =? 0 then Some ICT_HostCandidate
      else if strcmp type "srflx" =? 0 then Some ICT_ServerReflexiveCandidate
      else if strcmp type "prflx" =? 0 then Some ICT_PeerReflexiveCandidate
      else if strcmp type "relay" =? 0 then Some ICT_RelayedCandidate
      else None in
    match candidate_type with
    | None => (None, cl)
    | Some t =>
        let c := length (cl_candidates cl) in
        let iplen := Nat.min (strlen ip) sizeof_ip in
        let candidate :=
          {| cand_taddr := mkTaddr (strncpy ip iplen) port;
             cand_type := t;
             cand_componentID := componentID;
             cand_priority := 0;
             cand_foundation := EmptyString;
             cand_base :=
               match t with
               | ICT_HostCandidate | ICT_RelayedCandidate => Some c
               | _ => None
               end;
             cand_is_default := false |} in
        (Some c,
         set_candidate_list which
           (ms_list_append (candidate_list which cl) c)
           (set_cl_candidates (cl_candidates cl ++ [candidate]) cl))
    end.

Definition ice_compute_candidate_priority (candidate : IceCandidate)
  : IceCandidate :=
  let type_preference := type_preference_values (cand_type candidate) in
  let local_preference := 65535 in
  set_cand_priority
    (uint 32 (Z.lor (Z.lor (Z.shiftl type_preference 24)
                           (Z.shiftl local_preference 8))
                    (256 - cand_componentID candidate)))
    candidate.

Definition ice_find_componentID (cl : IceCheckList) (cid2 : Z) (cid1 : nat)
  : option Z :=
  c1 ← get_cand cl cid1;
  Some (lnot (cand_componentID c1 =? cid2)).

(** [componentID] points into the candidate [c]. *)
Definition ice_add_componentID (c : nat) (cl : IceCheckList)
  : option IceCheckList :=
  candidate ← get_cand cl c;
  elem ← ms_list_find_custom
            (ice_find_componentID cl (cand_componentID candidate))
            (componentIDs cl);
  match elem with
  | None => Some (set_componentIDs (ms_list_append (componentIDs cl) c) cl)
  | Some _ => Some cl
  end.

Definition ice_add_local_candidate (type : string) (ip : string) (port : Z)
    (componentID : Z) (base : option nat) (cl : IceCheckList)
  : option (option nat * IceCheckList) :=
  match ice_add_candidate LocalCandidates type ip port componentID cl with
  | (None, cl) => Some (None, cl)
  | (Some c, cl) =>
      let cl :=
        alter_cand
          (λ candidate,
             match cand_base candidate with
             | None => set_cand_base base candidate
             | Some _ => candidate
             end) c cl in
      let cl := alter_cand ice_compute_candidate_priority c cl in
      cl ← ice_add_componentID c cl;
      Some (Some c, cl)
  end.

Definition ice_add_remote_candidate (type : string) (ip : string) (port : Z)
    (componentID : Z) (priority : Z) (foundation : string)
    (cl : IceCheckList) : option nat * IceCheckList :=
  match ice_add_candidate RemoteCandidates type ip port componentID cl with
  | (None, cl) => (None, cl)
  | (Some c, cl) =>
      let cl :=
        alter_cand
          (λ candidate,
             if priority =? 0 then ice_compute_candidate_priority candidate
             else set_cand_priority priority candidate) c cl in
      let cl :=
        alter_cand
          (set_cand_foundation (strncpy foundation (sizeof_foundation - 1)))
          c cl in
      (Some c, cl)
  end.

(** *** Candidates foundations *)

(** [c2] is the candidate whose foundation is computed, [c1] an element of
    the local candidates; the conjunction is evaluated left to right. *)
Definition ice_find_candidate_with_same_foundation (cl : IceCheckList)
    (c2 : option nat) (c1 : nat) : option Z :=
  if bool_decide (Some c1 ≠ c2) then
    x1 ← get_cand cl c1;
    match cand_base x1 with
    | None => Some 1
    | Some b1 =>
        p2 ← c2;
        x2 ← get_cand cl p2;
        match cand_base x2 with
        | None => Some 1
        | Some b2 =>
            if bool_decide (cand_type x1 = cand_type x2) then
              y1 ← get_cand cl b1;
              y2 ← get_cand cl b2;
              if same_string (ip (cand_taddr y1)) (ip (cand_taddr y2))
              then Some 0 else Some 1
            else Some 1
        end
    end
  else Some 1.

(** [candidate] is NULL when [ice_add_local_candidate] failed. *)
Definition ice_compute_candidate_foundation (candidate : option nat)
    (cl : IceCheckList) : option IceCheckList :=
  l ← ms_list_find_custom (ice_find_candidate_with_same_foundation cl candidate)
        (local_candidates cl);
  let assign_new :=
    c ← candidate;
    _ ← get_cand cl c;
    Some (set_foundation_generator (uint 32 (foundation_generator cl + 1))
            (alter_cand
               (set_cand_foundation
                  (snprintf_s (sizeof_foundation - 1)
                     (fmt_u (foundation_generator cl)))) c cl)) in
  match l with
  | Some other =>
      other_candidate ← get_cand cl other;
      if (0 <? strlen (cand_foundation other_candidate))%nat then
        c ← candidate;
        _ ← get_cand cl c;
        Some (alter_cand
                (set_cand_foundation
                   (strncpy (cand_foundation other_candidate)
                      (sizeof_foundation - 1))) c cl)
      else assign_new
  | None => assign_new
  end.

Definition ice_check_list_compute_candidates_foundations (cl : IceCheckList)
  : option IceCheckList :=
  for_each2 (λ c, ice_compute_candidate_foundation (Some c))
    (local_candidates cl) cl.

(** *** Form candidate pairs *)

Definition ice_compare_pair_priorities (cl : IceCheckList) (p1 p2 : nat)
  : option Z :=
  x1 ← get_pair cl p1;
  x2 ← get_pair cl p2;
  Some (if pair_priority x1 <? pair_priority x2 then 1 else 0).

(** The inner [while] of [ice_form_candidate_pairs]: one local candidate
    against the remaining remote candidates. *)
Fixpoint ice_form_candidate_pairs_remote (s : IceSession)
    (local_candidate : nat) (remote_list : list nat) (cl : IceCheckList)
  : option IceCheckList :=
  match remote_list with
  | [] => Some cl
  | remote_candidate :: remote_list =>
      l ← get_cand cl local_candidate;
      r ← get_cand cl remote_candidate;
      cl ← (if cand_componentID l =? cand_componentID r then
              pair ← ice_pair_new s cl local_candidate remote_candidate;
              Some (alloc_pair pair cl).2
            else Some cl);
      ice_form_candidate_pairs_remote s local_candidate remote_list cl
  end.

Fixpoint ice_form_candidate_pairs_local (s : IceSession)
    (local_list : list nat) (cl : IceCheckList) : option IceCheckList :=
  match local_list with
  | [] => Some cl
  | local_candidate :: local_list =>
      cl ← ice_form_candidate_pairs_remote s local_candidate
             (remote_candidates cl) cl;
      ice_form_candidate_pairs_local s local_list cl
  end.

Definition ice_form_candidate_pairs (s : IceSession) (cl : IceCheckList)
  : option IceCheckList :=
  ice_form_candidate_pairs_local s (local_candidates cl) cl.

Definition ice_replace_srflx_by_base_in_pair (p : nat) (cl : IceCheckList)
  : option IceCheckList :=
  pair ← get_pair cl p;
  l ← local_of cl pair;
  if bool_decide (cand_type l = ICT_ServerReflexiveCandidate)
  then Some (put_pair p (set_pair_local (cand_base l) pair) cl)
  else Some cl.

Definition ice_compare_candidates (c1 c2 : IceCandidate) : Z :=
  lnot (bool_decide (cand_type c1 = cand_type c2)
        && (ice_compare_transport_addresses (cand_taddr c1) (cand_taddr c2) =? 0)
        && (cand_componentID c1 =? cand_componentID c2)
        && (cand_priority c1 =? cand_priority c2)).

(** [p2] is the pair looked for, [p1] the element of the list. *)
Definition ice_compare_pairs (cl : IceCheckList) (p2 : nat) (p1 : nat)
  : option Z :=
  x1 ← get_pair cl p1;
  x2 ← get_pair cl p2;
  l1 ← local_of cl x1;
  l2 ← local_of cl x2;
  if ice_compare_candidates l1 l2 =? 0 then
    r1 ← remote_of cl x1;
    r2 ← remote_of cl x2;
    Some (lnot (ice_compare_candidates r1 r2 =? 0))
  else Some (lnot false).

(** Returns 1 when [pair] has to be removed from the list [pairs]. *)
Definition ice_prune_duplicate_pair (cl : IceCheckList) (pair : nat)
    (pairs : list nat) : option Z :=
  other_pair ← ms_list_find_custom (ice_compare_pairs cl pair) pairs;
  match other_pair with
  | Some other =>
      other_candidate_pair ← get_pair cl other;
      x ← get_pair cl pair;
      if pair_priority other_candidate_pair >? pair_priority x
      then Some 1 else Some 0
  | None => Some 0
  end.

(** The loop of [ice_prune_candidate_pairs] over [cl->pairs].  The list is
    [kept ++ rest], [rest] starting at the loop variable.  Every pair is in
    [cl->pairs] once, so [ms_list_remove] unlinks the current element; when
    that element was the head, [next->prev] is NULL and the loop stops. *)
Fixpoint ice_prune_duplicate_pairs (cl : IceCheckList) (kept rest : list nat)
  : option (list nat) :=
  match rest with
  | [] => Some kept
  | p :: rest' =>
      r ← ice_prune_duplicate_pair cl p (kept ++ rest);
      if r =? 0 then ice_prune_duplicate_pairs cl (kept ++ [p]) rest'
      else
        match kept with
        | [] => Some rest'
        | _ => ice_prune_duplicate_pairs cl kept rest'
        end
  end.

Definition ice_create_check_list (pair : nat) (cl : IceCheckList)
  : option IceCheckList :=
  l ← ms_list_insert_sorted (check_list cl) pair
        (ice_compare_pair_priorities cl);
  Some (set_check_list l cl).

(** The pairs removed to respect the limit are freed but stay in
    [cl->pairs]; the arena keeps their last content. *)
Definition ice_prune_candidate_pairs (s : IceSession) (cl : IceCheckList)
  : option IceCheckList :=
  cl ← for_each2 ice_replace_srflx_by_base_in_pair (pairs cl) cl;
  l ← ice_prune_duplicate_pairs cl [] (pairs cl);
  let cl := set_pairs l cl in
  cl ← for_each2 ice_create_check_list (pairs cl) cl;
  let nb_pairs := ms_list_size (check_list cl) in
  if nb_pairs >? max_connectivity_checks s then
    let nb_pairs_to_remove := nb_pairs - max_connectivity_checks s in
    Some (set_check_list
            (take (length (check_list cl) - Z.to_nat nb_pairs_to_remove)
               (check_list cl)) cl)
  else Some cl.

Definition ice_find_pair_foundation (f2 f1 : IcePairFoundation) : Z :=
  lnot (same_string (fnd_local f1) (fnd_local f2)
        && same_string (fnd_remote f1) (fnd_remote f2)).

Definition ice_generate_pair_foundations_list (p : nat) (cl : IceCheckList)
  : option IceCheckList :=
  pair ← get_pair cl p;
  l ← local_of cl pair;
  r ← remote_of cl pair;
  let foundation :=
    {| fnd_local := strncpy (cand_foundation l) (sizeof_foundation - 1);
       fnd_remote := strncpy (cand_foundation r) (sizeof_foundation - 1) |} in
  elem ← ms_list_find_custom (λ f, Some (ice_find_pair_foundation foundation f))
            (foundations cl);
  match elem with
  | None => Some (set_foundations (ms_list_append (foundations cl) foundation) cl)
  | Some _ => Some cl
  end.

(** The accumulator of [ice_compute_pairs_states]; its [foundations] field
    is written once and never read. *)
Record Foundations_Pair_Priority_ComponentID := mkFc {
  fc_foundations : list IcePairFoundation;
  fc_pair : option nat;
  fc_priority : Z;
  fc_componentID : Z
}.

Definition ice_find_lowest_componentid_pair_with_specified_foundation
    (cl : IceCheckList) (p : nat) (fc : Foundations_Pair_Priority_ComponentID)
  : option Foundations_Pair_Priority_ComponentID :=
  if fc_componentID fc =? ICE_INVALID_COMPONENTID then
    pair ← get_pair cl p;
    l ← local_of cl pair;
    Some (mkFc (fc_foundations fc) (Some p) (pair_priority pair)
            (cand_componentID l))
  else
    pair ← get_pair cl p;
    l ← local_of cl pair;
    if (cand_componentID l <? fc_componentID fc)
       && (pair_priority pair >? fc_priority fc)
    then Some (mkFc (fc_foundations fc) (Some p) (pair_priority pair)
                 (cand_componentID l))
    else Some fc.

Definition ice_compute_pairs_states (cl : IceCheckList) : option IceCheckList :=
  let fc := mkFc (foundations cl) None 0 ICE_INVALID_COMPONENTID in
  fc ← for_each2 (ice_find_lowest_componentid_pair_with_specified_foundation cl)
         (check_list cl) fc;
  match fc_pair fc with
  | Some p =>
      pair ← get_pair cl p;
      Some (put_pair p (ice_pair_set_state ICP_Waiting pair) cl)
  | None => Some cl
  end.

(** [k] is the position of the check list in [session->streams]. *)
Definition ice_check_list_pair_candidates (s : IceSession) (k : nat)
    (cl : IceCheckList) : option IceCheckList :=
  let first_media_stream := bool_decide (k = 0%nat) in
  cl ← ice_form_candidate_pairs s cl;
  cl ← ice_prune_candidate_pairs s cl;
  cl ← for_each2 ice_generate_pair_foundations_list (check_list cl) cl;
  if first_media_stream then ice_compute_pairs_states cl else Some cl.

Fixpoint ice_session_pair_candidates_from (s : IceSession) (k : nat)
    (l : list IceCheckList) : option (list IceCheckList) :=
  match l with
  | [] => Some []
  | cl :: tl =>
      cl' ← ice_check_list_pair_candidates s k cl;
      tl' ← ice_session_pair_candidates_from s (S k) tl;
      Some (cl' :: tl')
  end.

Definition ice_session_pair_candidates (s : IceSession) : option IceSession :=
  l ← ice_session_pair_candidates_from s 0 (streams s);
  Some (set_sess_state IS_Running (set_streams l s)).

(** *** Conclude ICE processing *)

Definition ice_perform_regular_nomination (valid_pair : IceValidCandidatePair)
    (cl : IceCheckList) : option IceCheckList :=
  v ← get_pair cl (valid valid_pair);
  if negb (is_nominated v) then
    g ← get_pair cl (generated_from valid_pair);
    let cl := put_pair (generated_from valid_pair) (set_is_nominated true g) cl in
    Some (ice_check_list_queue_triggered_check (generated_from valid_pair) cl)
  else Some cl.

(** The test of [ice_remove_waiting_and_frozen_pairs_from_list]; the local
    candidate is read only when the state matches. *)
Definition waiting_or_frozen_with_componentID (cl : IceCheckList)
    (componentID : Z) (p : nat) : option bool :=
  pair ← get_pair cl p;
  if bool_decide (pair_state pair = ICP_Waiting)
     || bool_decide (pair_state pair = ICP_Frozen) then
    l ← local_of cl pair;
    Some (cand_componentID l =? componentID)
  else Some false.

(** The loop body after the first element: an element that is removed has
    a predecessor, and the loop goes on with its successor. *)
Fixpoint ice_remove_waiting_and_frozen_pairs_rest (cl : IceCheckList)
    (componentID : Z) (l : list nat) : option (list nat) :=
  match l with
  | [] => Some []
  | p :: tl =>
      b ← waiting_or_frozen_with_componentID cl componentID p;
      tl' ← ice_remove_waiting_and_frozen_pairs_rest cl componentID tl;
      Some (if b : bool then tl' else p :: tl')
  end.

(** When the head of the list is removed, [next->prev] is NULL and the
    loop stops: the elements after it are not examined. *)
Definition ice_remove_waiting_and_frozen_pairs_from_list (cl : IceCheckList)
    (componentID : Z) (l : list nat) : option (list nat) :=
  match l with
  | [] => Some []
  | p :: tl =>
      b ← waiting_or_frozen_with_componentID cl componentID p;
      if b : bool then Some tl
      else (p ::.) <$> ice_remove_waiting_and_frozen_pairs_rest cl componentID tl
  end.

Definition ice_stop_retransmission_for_in_progress_pair (componentID : Z)
    (p : nat) (cl : IceCheckList) : option IceCheckList :=
  pair ← get_pair cl p;
  if bool_decide (pair_state pair = ICP_InProgress) then
    l ← local_of cl pair;
    if cand_componentID l =? componentID
    then Some (put_pair p (set_retransmissions ICE_MAX_RETRANSMISSIONS pair) cl)
    else Some cl
  else Some cl.

Definition ice_conclude_waiting_frozen_and_inprogress_pairs
    (valid_pair : IceValidCandidatePair) (cl : IceCheckList)
  : option IceCheckList :=
  v ← get_pair cl (valid valid_pair);
  if is_nominated v then
    l ← local_of cl v;
    let componentID := cand_componentID l in
    cl1 ← ice_remove_waiting_and_frozen_pairs_from_list cl componentID
            (check_list cl);
    let cl := set_check_list cl1 cl in
    q ← ice_remove_waiting_and_frozen_pairs_from_list cl componentID
          (triggered_checks_queue cl);
    let cl := set_triggered_checks_queue q cl in
    for_each2 (ice_stop_retransmission_for_in_progress_pair componentID)
      (check_list cl) cl
  else Some cl.

Definition ice_find_nominated_valid_pair_for_componentID (cl : IceCheckList)
    (cid_ptr : nat) (result : bool) : option bool :=
  c ← get_cand cl cid_ptr;
  elem ← ms_list_find_custom
            (ice_find_nominated_valid_pair_from_componentID cl
               (cand_componentID c))
            (valid_list cl);
  match elem with
  | None => Some false
  | Some _ => Some (result : bool)
  end.

Definition ice_find_not_failed_or_succeeded_pair (cl : IceCheckList) (p : nat)
  : option Z :=
  pair ← get_pair cl p;
  Some (lnot (bool_decide (pair_state pair ≠ ICP_Failed)
              && bool_decide (pair_state pair ≠ ICP_Succeeded))).

Definition ice_check_all_pairs_in_failed_or_succeeded_state
    (cl : IceCheckList) (p : nat) (result : bool) : option bool :=
  elem ← ms_list_find_custom (ice_find_not_failed_or_succeeded_pair cl)
            (check_list cl);
  match elem with
  | Some _ => Some false
  | None => Some result
  end.

(** The call of [cl->success_cb] is counted in [success_cb_calls]. *)
Definition ice_conclude_processing (s : IceSession) (cl : IceCheckList)
  : option IceCheckList :=
  cl ← (if bool_decide (role s = IR_Controlling)
        then for_each2 ice_perform_regular_nomination (valid_list cl) cl
        else Some cl);
  cl ← for_each2 ice_conclude_waiting_frozen_and_inprogress_pairs
         (valid_list cl) cl;
  result ← for_each2 (ice_find_nominated_valid_pair_for_componentID cl)
             (componentIDs cl) true;
  if result : bool then
    if decide (cl_state cl ≠ ICL_Completed) then
      let cl := set_cl_state ICL_Completed cl in
      let cl := set_success_cb_calls (S (success_cb_calls cl)) cl in
      Some (set_keepalive_time (ticker_time s) cl)
    else Some cl
  else
    result ← for_each2 (ice_check_all_pairs_in_failed_or_succeeded_state cl)
               (check_list cl) true;
    if result : bool then
      if decide (cl_state cl ≠ ICL_Failed)
      then Some (set_cl_state ICL_Failed cl)
      else Some cl
    else Some cl.

(** *** Incoming binding requests *)

(** The checks return the C return value and the check list, whose
    [cl_sent] has the error response when one was sent. *)
Definition ice_check_received_binding_request_attributes (rtp : RtpSession)
    (evt : OrtpEventData) (msg : StunMessage) (cl : IceCheckList)
  : Z * IceCheckList :=
  if negb (hasMessageIntegrity msg)
  then (-1, ice_send_error_response rtp evt msg 4 0 cl)
  else if negb (hasUsername msg)
  then (-1, ice_send_error_response rtp evt msg 4 0 cl)
  else if negb (hasFingerprint msg)
  then (-1, ice_send_error_response rtp evt msg 4 0 cl)
  else if negb (hasPriority msg)
  then (-1, ice_send_error_response rtp evt msg 4 0 cl)
  else if negb (hasIceControlling msg) && negb (hasIceControlled msg)
  then (-1, ice_send_error_response rtp evt msg 4 0 cl)
  else (0, cl).

(** The length field (bytes 2 and 3, network order) is rewritten without
    the FINGERPRINT attribute while the HMAC is computed. *)
Definition ice_check_received_binding_request_integrity (s : IceSession)
    (rtp : RtpSession) (evt : OrtpEventData) (msg : StunMessage)
    (cl : IceCheckList) : Z * IceCheckList :=
  let mp := packet evt in
  let newlen := uint 16 (msgLength msg - 8) in
  let mp' := <[3%nat := newlen mod 256]> (<[2%nat := newlen / 256]> mp) in
  let hmac :=
    stunCalculateIntegrity_shortterm
      (take (Z.to_nat (Z.of_nat (length mp) - 24 - 8)) mp')
      (ice_check_list_local_pwd s) in
  if negb (messageIntegrity_hash msg =? hmac)
  then (-1, ice_send_error_response rtp evt msg 4 1 cl)
  else (0, cl).

(** [username] is a zeroed array of 256 bytes that receives the
    [sizeValue] bytes of the attribute. *)
Definition ice_check_received_binding_request_username (s : IceSession)
    (rtp : RtpSession) (evt : OrtpEventData) (msg : StunMessage)
    (cl : IceCheckList) : Z * IceCheckList :=
  let username := memcpy (username msg) (username_sizeValue msg) in
  match strchr username ":" with
  | None => (-1, ice_send_error_response rtp evt msg 4 1 cl)
  | Some colon =>
      if negb (strncmp username (ice_check_list_local_ufrag s) colon =? 0)
      then (-1, ice_send_error_response rtp evt msg 4 1 cl)
      else (0, cl)
  end.

(** [k] is the position in [session->streams] of the check list that
    received the request. *)
Definition ice_check_received_binding_request_role_conflict (k : nat)
    (rtp : RtpSession) (evt : OrtpEventData) (msg : StunMessage)
    (s : IceSession) : option (Z * IceSession) :=
  cl ← get_stream k s;
  if bool_decide (role s = IR_Controlling) && hasIceControlling msg then
    if tie_breaker s >=? iceControlling msg then
      Some (-1, put_stream k (ice_send_error_response rtp evt msg 4 87 cl) s)
    else
      s ← ice_session_set_role IR_Controlled s;
      Some (0, s)
  else if bool_decide (role s = IR_Controlled) && hasIceControlled msg then
    if tie_breaker s >=? iceControlled msg then
      s ← ice_session_set_role IR_Controlling s;
      Some (0, s)
    else
      Some (-1, put_stream k (ice_send_error_response rtp evt msg 4 87 cl) s)
  else Some (0, s).

Definition ice_fill_transport_address (ip : string) (port : Z)
  : IceTransportAddress :=
  mkTaddr (strncpy ip sizeof_ip) port.

Definition ice_find_candidate_from_foundation (cl : IceCheckList)
    (foundation : string) (c : nat) : option Z :=
  candidate ← get_cand cl c;
  Some (lnot (same_string (cand_foundation candidate) foundation)).

(** The [do ... while] loop draws until the foundation is new; [None] also
    when the draws of the oracle are used up before that. *)
Fixpoint ice_generate_arbitrary_foundation (draws : list Z) (len : nat)
    (cl : IceCheckList) (l : list nat) : option string :=
  match draws with
  | [] => None
  | r :: draws =>
      let foundation := snprintf_s len (fmt_llx (uint 64 r)) in
      elem ← ms_list_find_custom
                (ice_find_candidate_from_foundation cl foundation) l;
      match elem with
      | None => Some foundation
      | Some _ => ice_generate_arbitrary_foundation draws len cl l
      end
  end.

Definition ice_learn_peer_reflexive_candidate (o : Oracle)
    (evt : OrtpEventData) (msg : StunMessage) (taddr : IceTransportAddress)
    (cl : IceCheckList) : option (option nat * IceCheckList) :=
  let learn (componentID : Z) :=
    elem ← ms_list_find_custom
              (ice_find_candidate_from_transport_address cl taddr)
              (remote_candidates cl);
    match elem with
    | None =>
        foundation ← ice_generate_arbitrary_foundation (random_draws o) 32 cl
                        (remote_candidates cl);
        Some (ice_add_remote_candidate "prflx" (ip taddr) (port taddr)
                componentID (msg_priority msg) foundation cl)
    | Some _ => Some (None, cl)
    end in
  match socket_type evt with
  | OrtpRTPSocket => learn 1
  | OrtpRTCPSocket => learn 2
  | OrtpOtherSocket => Some (None, cl)
  end.

Definition ice_find_pair_from_candidates (cl : IceCheckList)
    (local remote : nat) (p : nat) : option Z :=
  pair ← get_pair cl p;
  Some (lnot (bool_decide (pair_local pair = Some local)
              && bool_decide (pair_remote pair = remote))).

Definition ice_trigger_connectivity_check_on_binding_request (s : IceSession)
    (rtp : RtpSession) (evt : OrtpEventData) (prflx_candidate : option nat)
    (remote_taddr : IceTransportAddress) (cl : IceCheckList)
  : option (option nat * IceCheckList) :=
  let recvport := ice_get_recv_port_from_rtp_session rtp evt in
  if recvport <? 0 then Some (None, cl)
  else
    let local_taddr :=
      ice_fill_transport_address (inet_ntoa (ipi_addr evt)) recvport in
    elem ← ms_list_find_custom
              (ice_find_candidate_from_transport_address cl local_taddr)
              (local_candidates cl);
    match elem with
    | None => Some (None, cl)
    | Some local =>
        remote ← match prflx_candidate with
                 | Some c => Some (Some c)
                 | None =>
                     ms_list_find_custom
                       (ice_find_candidate_from_transport_address cl
                          remote_taddr)
                       (remote_candidates cl)
                 end;
        match remote with
        | None => Some (None, cl)
        | Some remote =>
            elem ← ms_list_find_custom
                      (ice_find_pair_from_candidates cl local remote)
                      (check_list cl);
            match elem with
            | None =>
                x ← ice_pair_new s cl local remote;
                let '(p, cl) := alloc_pair x cl in
                l ← ms_list_insert_sorted (check_list cl) p
                      (ice_compare_pair_priorities cl);
                let cl := set_check_list l cl in
                x ← get_pair cl p;
                let cl := put_pair p (ice_pair_set_state ICP_Waiting x) cl in
                Some (Some p, ice_check_list_queue_triggered_check p cl)
            | Some p =>
                x ← get_pair cl p;
                match pair_state x with
                | ICP_Waiting | ICP_Frozen | ICP_Failed =>
                    let cl :=
                      put_pair p (ice_pair_set_state ICP_Waiting x) cl in
                    Some (Some p, ice_check_list_queue_triggered_check p cl)
                | ICP_InProgress =>
                    Some (Some p,
                          put_pair p (set_wait_transaction_timeout true x) cl)
                | ICP_Succeeded => Some (Some p, cl)
                end
            end
        end
    end.

Definition ice_update_nominated_flag_on_binding_request (s : IceSession)
    (msg : StunMessage) (p : nat) (cl : IceCheckList) : option IceCheckList :=
  if hasUseCandidate msg && bool_decide (role s = IR_Controlled) then
    x ← get_pair cl p;
    match pair_state x with
    | ICP_Succeeded => Some (put_pair p (set_is_nominated true x) cl)
    | ICP_Waiting | ICP_Frozen | ICP_InProgress | ICP_Failed => Some cl
    end
  else Some cl.

Definition ice_handle_received_binding_request (k : nat) (o : Oracle)
    (rtp : RtpSession) (evt : OrtpEventData) (msg : StunMessage)
    (src6host : string) (s : IceSession) : option IceSession :=
  cl ← get_stream k s;
  let '(r, cl) := ice_check_received_binding_request_attributes rtp evt msg cl in
  if r <? 0 then Some (put_stream k cl s) else
  let '(r, cl) := ice_check_received_binding_request_integrity s rtp evt msg cl in
  if r <? 0 then Some (put_stream k cl s) else
  let '(r, cl) := ice_check_received_binding_request_username s rtp evt msg cl in
  if r <? 0 then Some (put_stream k cl s) else
  '(r, s) ← ice_check_received_binding_request_role_conflict k rtp evt msg
              (put_stream k cl s);
  if r <? 0 then Some s else
  cl ← get_stream k s;
  let taddr := ice_fill_transport_address src6host (sin_port evt) in
  '(prflx_candidate, cl) ← ice_learn_peer_reflexive_candidate o evt msg taddr cl;
  '(triggered, cl) ← ice_trigger_connectivity_check_on_binding_request s rtp
                       evt prflx_candidate taddr cl;
  cl ← match triggered with
       | Some p => ice_update_nominated_flag_on_binding_request s msg p cl
       | None => Some cl
       end;
  let cl := ice_send_binding_response rtp evt msg cl in
  cl ← ice_conclude_processing s cl;
  Some (put_stream k cl s).

(** *** Incoming binding responses *)

Definition ice_find_pair_from_transactionID (cl : IceCheckList)
    (transactionID' : Z) (p : nat) : option Z :=
  x ← get_pair cl p;
  Some (lnot (transactionID x =? transactionID')).

(** Returns the C return value and the check list. *)
Definition ice_check_received_binding_response_addresses (rtp : RtpSession)
    (evt : OrtpEventData) (p : nat) (cl : IceCheckList)
  : option (Z * IceCheckList) :=
  let recvport := ice_get_recv_port_from_rtp_session rtp evt in
  if recvport <? 0 then Some (-1, cl)
  else
    x ← get_pair cl p;
    rm ← remote_of cl x;
    let dest :=
      stunParseHostName (ip (cand_taddr rm)) (port (cand_taddr rm)) in
    l ← local_of cl x;
    let local := stunParseHostName (ip (cand_taddr l)) recvport in
    if negb (sin_addr evt =? dest.1) || negb (sin_port evt =? dest.2)
       || negb (ipi_addr evt =? local.1)
       || negb (local.2 =? port (cand_taddr l))
    then Some (-1, put_pair p (ice_pair_set_state ICP_Failed x) cl)
    else Some (0, cl).

Definition ice_check_received_binding_response_attributes (msg : StunMessage)
  : Z :=
  if negb (hasUsername msg) then -1
  else if negb (hasFingerprint msg) then -1
  else if negb (hasXorMappedAddress msg) then -1
  else 0.

(** [ice_compute_candidate_foundation] receives the result of
    [ice_add_local_candidate] unchecked. *)
Definition ice_discover_peer_reflexive_candidate (p : nat) (msg : StunMessage)
    (cl : IceCheckList) : option (option nat * IceCheckList) :=
  let taddr :=
    mkTaddr (snprintf_s sizeof_ip (inet_ntoa (xorMappedAddress_addr msg)))
      (xorMappedAddress_port msg) in
  elem ← ms_list_find_custom
            (ice_find_candidate_from_transport_address cl taddr)
            (local_candidates cl);
  match elem with
  | None =>
      x ← get_pair cl p;
      l ← local_of cl x;
      '(candidate, cl) ← ice_add_local_candidate "prflx" (ip taddr)
                           (port taddr) (cand_componentID l) (pair_local x) cl;
      cl ← ice_compute_candidate_foundation candidate cl;
      Some (candidate, cl)
  | Some _ => Some (None, cl)
  end.

Definition ice_compare_valid_pair_priorities (cl : IceCheckList)
    (vp1 vp2 : IceValidCandidatePair) : option Z :=
  ice_compare_pair_priorities cl (valid vp1) (valid vp2).

Definition ice_find_valid_pair (vp2 vp1 : IceValidCandidatePair) : Z :=
  lnot (bool_decide (valid vp1 = valid vp2)
        && bool_decide (generated_from vp1 = generated_from vp2)).

Definition ice_construct_valid_pair (s : IceSession) (rtp : RtpSession)
    (evt : OrtpEventData) (prflx_candidate : option nat)
    (succeeded_pair : nat) (cl : IceCheckList)
  : option (option nat * IceCheckList) :=
  local ← match prflx_candidate with
          | Some c => Some (Some c)
          | None =>
              let recvport := ice_get_recv_port_from_rtp_session rtp evt in
              if recvport <? 0 then Some None
              else
                let local_taddr :=
                  ice_fill_transport_address (inet_ntoa (ipi_addr evt))
                    recvport in
                ms_list_find_custom
                  (ice_find_candidate_from_transport_address cl local_taddr)
                  (local_candidates cl)
          end;
  match local with
  | None => Some (None, cl)
  | Some local =>
      sp ← get_pair cl succeeded_pair;
      let remote := pair_remote sp in
      elem ← ms_list_find_custom
                (ice_find_pair_from_candidates cl local remote)
                (check_list cl);
      '(p, cl) ← match elem with
                 | None =>
                     x ← ice_pair_new s cl local remote;
                     Some (alloc_pair x cl)
                 | Some p => Some (p, cl)
                 end;
      let valid_pair := mkValid p succeeded_pair in
      elem ← ms_list_find_custom (λ vp, Some (ice_find_valid_pair valid_pair vp))
                (valid_list cl);
      match elem with
      | None =>
          l ← ms_list_insert_sorted (valid_list cl) valid_pair
                (ice_compare_valid_pair_priorities cl);
          Some (Some p, set_valid_list l cl)
      | Some _ => Some (Some p, cl)
      end
  end.

Definition ice_compare_pair_foundations (cl : IceCheckList) (p1 p2 : nat)
  : option Z :=
  x1 ← get_pair cl p1;
  x2 ← get_pair cl p2;
  l1 ← local_of cl x1;
  l2 ← local_of cl x2;
  if same_string (cand_foundation l1) (cand_foundation l2) then
    r1 ← remote_of cl x1;
    r2 ← remote_of cl x2;
    Some (lnot (same_string (cand_foundation r1) (cand_foundation r2)))
  else Some (lnot false).

Definition ice_change_state_of_frozen_pairs_to_waiting (succeeded_pair : nat)
    (p : nat) (cl : IceCheckList) : option IceCheckList :=
  if bool_decide (p ≠ succeeded_pair) then
    x ← get_pair cl p;
    if bool_decide (pair_state x = ICP_Frozen) then
      r ← ice_compare_pair_foundations cl p succeeded_pair;
      if r =? 0
      then Some (put_pair p (ice_pair_set_state ICP_Waiting x) cl)
      else Some cl
    else Some cl
  else Some cl.

Definition ice_update_pair_states_on_binding_response (p : nat)
    (cl : IceCheckList) : option IceCheckList :=
  x ← get_pair cl p;
  let cl := put_pair p (ice_pair_set_state ICP_Succeeded x) cl in
  for_each2 (ice_change_state_of_frozen_pairs_to_waiting p) (check_list cl) cl.

(** [valid_pair] is NULL when [ice_construct_valid_pair] found no local
    candidate; it is dereferenced only on the two assignments. *)
Definition ice_update_nominated_flag_on_binding_response (s : IceSession)
    (valid_pair : option nat) (succeeded_pair : nat)
    (succeeded_pair_previous_state : IceCandidatePairState)
    (cl : IceCheckList) : option IceCheckList :=
  let nominate :=
    v ← valid_pair;
    x ← get_pair cl v;
    Some (put_pair v (set_is_nominated true x) cl) in
  match role s with
  | IR_Controlling =>
      sp ← get_pair cl succeeded_pair;
      if is_nominated sp then nominate else Some cl
  | IR_Controlled =>
      if bool_decide (succeeded_pair_previous_state = ICP_InProgress)
      then nominate else Some cl
  end.

Definition ice_handle_received_binding_response (s : IceSession)
    (rtp : RtpSession) (evt : OrtpEventData) (msg : StunMessage)
    (cl : IceCheckList) : option IceCheckList :=
  elem ← ms_list_find_custom (ice_find_pair_from_transactionID cl (tr_id msg))
            (check_list cl);
  match elem with
  | None => Some cl
  | Some succeeded_pair =>
      '(r, cl) ← ice_check_received_binding_response_addresses rtp evt
                  succeeded_pair cl;
      if r <? 0 then Some cl else
      if ice_check_received_binding_response_attributes msg <? 0 then Some cl
      else
        sp ← get_pair cl succeeded_pair;
        let succeeded_pair_previous_state := pair_state sp in
        '(prflx_candidate, cl) ← ice_discover_peer_reflexive_candidate
                                  succeeded_pair msg cl;
        '(valid_pair, cl) ← ice_construct_valid_pair s rtp evt prflx_candidate
                             succeeded_pair cl;
        cl ← ice_update_pair_states_on_binding_response succeeded_pair cl;
        cl ← ice_update_nominated_flag_on_binding_response s valid_pair
               succeeded_pair succeeded_pair_previous_state cl;
        ice_conclude_processing s cl
  end.

(** *** Incoming error responses *)

Definition ice_handle_received_error_response (k : nat) (msg : StunMessage)
    (s : IceSession) : option IceSession :=
  cl ← get_stream k s;
  elem ← ms_list_find_custom (ice_find_pair_from_transactionID cl (tr_id msg))
            (check_list cl);
  match elem with
  | None => Some s
  | Some p =>
      x ← get_pair cl p;
      let x := ice_pair_set_state ICP_Failed x in
      let s := put_stream k (put_pair p x cl) s in
      s ← (if hasErrorCode msg && (errorClass msg =? 4)
              && (errorNumber msg =? 87) then
             s ← match pair_role x with
                 | IR_Controlling => ice_session_set_role IR_Controlled s
                 | IR_Controlled => ice_session_set_role IR_Controlling s
                 end;
             cl ← get_stream k s;
             x ← get_pair cl p;
             let cl := put_pair p (ice_pair_set_state ICP_Waiting x) cl in
             Some (put_stream k (ice_check_list_queue_triggered_check p cl) s)
           else Some s);
      cl ← get_stream k s;
      cl ← ice_conclude_processing s cl;
      Some (put_stream k cl s)
  end.

(** The entry point for a packet received on check list [k].  For an
    [AF_INET6] peer [udp_remote] stays NULL and is dereferenced after
    [getnameinfo]. *)
Definition ice_handle_stun_packet (k : nat) (o : Oracle) (rtp : RtpSession)
    (evt : OrtpEventData) (s : IceSession) : option IceSession :=
  match stunParseMessage (packet evt) with
  | None => Some s
  | Some msg =>
      match ss_family evt with
      | AF_OTHER => Some s
      | family =>
          match getnameinfo family (sin_addr evt) with
          | None => Some s
          | Some src6host =>
              match family with
              | AF_INET =>
                  if STUN_IS_REQUEST (msgType msg) then
                    ice_handle_received_binding_request k o rtp evt msg
                      src6host s
                  else if STUN_IS_SUCCESS_RESP (msgType msg) then
                    cl ← get_stream k s;
                    cl ← ice_handle_received_binding_response s rtp evt msg cl;
                    Some (put_stream k cl s)
                  else if STUN_IS_ERR_RESP (msgType msg) then
                    ice_handle_received_error_response k msg s
                  else Some s
              | _ => None
              end
          end
      end
  end.

(** *** Global process *)

Definition ice_handle_connectivity_check_retransmission (s : IceSession)
    (o : Oracle) (rtp : RtpSession) (time : Z) (p : nat) (cl : IceCheckList)
  : option IceCheckList :=
  x ← get_pair cl p;
  if bool_decide (pair_state x = ICP_InProgress)
     && (uint 64 (time - transmission_time x) >=? rto x)
  then ice_send_binding_request s o rtp p cl
  else Some cl.

Definition ice_find_pair_from_state (cl : IceCheckList)
    (state : IceCandidatePairState) (p : nat) : option Z :=
  x ← get_pair cl p;
  Some (lnot (bool_decide (pair_state x = state))).

Definition ice_check_retransmissions_pending (cl : IceCheckList) (p : nat)
    (retransmissions_pending : bool) : option bool :=
  x ← get_pair cl p;
  if bool_decide (pair_state x = ICP_InProgress)
     && (retransmissions x <=? ICE_MAX_RETRANSMISSIONS)
  then Some true else Some retransmissions_pending.

(** The [ICL_Running] case of [ice_check_list_process], which the
    [ICL_Completed] case falls through to. *)
Definition ice_check_list_process_running (s : IceSession) (o : Oracle)
    (rtp : RtpSession) (curtime : Z) (cl : IceCheckList)
  : option IceCheckList :=
  cl ← for_each2 (ice_handle_connectivity_check_retransmission s o rtp curtime)
         (check_list cl) cl;
  if uint 64 (curtime - ta_time cl) <? ta s then Some cl
  else
    let cl := set_ta_time curtime cl in
    match ice_check_list_pop_triggered_check cl with
    | (Some p, cl) => ice_send_binding_request s o rtp p cl
    | (None, cl) =>
        let conclude (cl : IceCheckList) :=
          pending ← for_each2 (ice_check_retransmissions_pending cl)
                      (check_list cl) false;
          if pending : bool then Some cl else ice_conclude_processing s cl in
        if decide (cl_state cl = ICL_Running) then
          elem ← ms_list_find_custom (ice_find_pair_from_state cl ICP_Waiting)
                    (check_list cl);
          match elem with
          | Some p => ice_send_binding_request s o rtp p cl
          | None =>
              elem ← ms_list_find_custom
                        (ice_find_pair_from_state cl ICP_Frozen)
                        (check_list cl);
              match elem with
              | Some p => ice_send_binding_request s o rtp p cl
              | None => conclude cl
              end
          end
        else conclude cl
    end.

(** [ice_check_list_process] on a check list of the session [s], whose
    [ticker_time] is the current time. *)
Definition ice_check_list_process (s : IceSession) (o : Oracle)
    (rtp : RtpSession) (cl : IceCheckList) : option IceCheckList :=
  if bool_decide (sess_state s = IS_Stopped)
     || bool_decide (sess_state s = IS_Failed) then Some cl
  else
    let curtime := ticker_time s in
    match cl_state cl with
    | ICL_Completed =>
        cl ← (if uint 64 (curtime - keepalive_time cl)
                 >=? keepalive_timeout s * 1000 then
                cl ← ice_send_keepalive_packets rtp cl;
                Some (set_keepalive_time curtime cl)
              else Some cl);
        ice_check_list_process_running s o rtp curtime cl
    | ICL_Running => ice_check_list_process_running s o rtp curtime cl
    | ICL_Failed => Some cl
    end.

(** *** Events

    The engine is driven by the ticker and by the packets that the RTP
    layer delivers; the ticker's time only moves forward. *)
Inductive Event :=
  | EvTick (time : Z)
  | EvProcess (k : nat) (o : Oracle) (rtp : RtpSession)
  | EvStunPacket (k : nat) (o : Oracle) (rtp : RtpSession) (evt : OrtpEventData).

Definition step (s : IceSession) (e : Event) : option IceSession :=
  match e with
  | EvTick time =>
      if ticker_time s <=? time then Some (set_ticker_time time s) else None
  | EvProcess k o rtp =>
      cl ← get_stream k s;
      cl ← ice_check_list_process s o rtp cl;
      Some (put_stream k cl s)
  | EvStunPacket k o rtp evt => ice_handle_stun_packet k o rtp evt s
  end.

Fixpoint run (s : IceSession) (l : list Event) : option IceSession :=
  match l with
  | [] => Some s
  | e :: l => s ← step s e; run s l
  end.

(** ** Predicates of the properties *)

(** Successive calls of [ice_send_binding_request] for the pair [p], one
    per element of [l] (the session, the random source and the RTP session
    at the time of the call). *)
Fixpoint retransmit (l : list (IceSession * Oracle * RtpSession)) (p : nat)
    (cl : IceCheckList) : option IceCheckList :=
  match l with
  | [] => Some cl
  | (s, o, rtp) :: l =>
      cl ← ice_send_binding_request s o rtp p cl;
      retransmit l p cl
  end.

(** The binding requests among the messages sent. *)
Fixpoint count_requests (l : list Wire) : nat :=
  match l with
  | [] => 0%nat
  | WireBindingRequest _ _ _ _ _ _ :: l => S (count_requests l)
  | _ :: l => count_requests l
  end.

Definition requests_sent (cl : IceCheckList) : nat :=
  count_requests (cl_sent cl).

(** The relation between a pair and its transaction ID. *)
Definition zero_when_waiting_or_failed (x : IceCandidatePair) : Prop :=
  pair_state x = ICP_Waiting ∨ pair_state x = ICP_Failed → transactionID x = 0.

Definition nonzero_when_succeeded (x : IceCandidatePair) : Prop :=
  pair_state x = ICP_Succeeded → transactionID x ≠ 0.

Definition transaction_ok (x : IceCandidatePair) : Prop :=
  zero_when_waiting_or_failed x ∧ nonzero_when_succeeded x.

Definition transactions_ok (cl : IceCheckList) : Prop :=
  Forall transaction_ok (cl_pair_arena cl).

(** The event is not a binding success response with a transaction ID of
    zero. *)
Definition response_id_nonzero (e : Event) : bool :=
  match e with
  | EvStunPacket _ _ _ evt =>
      match stunParseMessage (packet evt) with
      | Some msg =>
          negb (STUN_IS_SUCCESS_RESP (msgType msg)) || negb (tr_id msg =? 0)
      | None => true
      end
  | _ => true
  end.

Definition candidates_bounded (cl : IceCheckList) : Prop :=
  (length (local_candidates cl) ≤ Z.to_nat ICE_MAX_NB_CANDIDATES)%nat
  ∧ (length (remote_candidates cl) ≤ Z.to_nat ICE_MAX_NB_CANDIDATES)%nat.

(** [componentID] is registered in [cl->componentIDs]. *)
Definition registered (cl : IceCheckList) (componentID : Z) : bool :=
  existsb (λ c, match get_cand cl c with
                | Some cand => cand_componentID cand =? componentID
                | None => false
                end) (componentIDs cl).

(** The pointers of [cl->componentIDs], [cl->local_candidates] and
    [cl->check_list] are valid, no pair of the check list has a NULL local
    candidate, and the componentID of every local candidate, and of the
    local candidate of every pair of the check list, is registered. *)
Definition components_registered (cl : IceCheckList) : bool :=
  forallb (λ c, bool_decide (is_Some (get_cand cl c))) (componentIDs cl)
  && forallb (λ c, match get_cand cl c with
                   | Some cand => registered cl (cand_componentID cand)
                   | None => false
                   end) (local_candidates cl)
  && forallb (λ p, match get_pair cl p with
                   | Some x =>
                       match local_of cl x with
                       | Some l => registered cl (cand_componentID l)
                       | None => false
                       end
                   | None => false
                   end) (check_list cl).

(** The valid list has a nominated pair for [componentID]. *)
Definition nominated_for (cl : IceCheckList) (componentID : Z) : Prop :=
  ∃ vp x l, vp ∈ valid_list cl ∧ get_pair cl (valid vp) = Some x
            ∧ is_nominated x = true ∧ local_of cl x = Some l
            ∧ cand_componentID l = componentID.

Definition all_nominated (cl : IceCheckList) : Prop :=
  ∀ componentID, registered cl componentID = true → nominated_for cl componentID.

(** The success callback was called once if the check list is Completed,
    and never otherwise. *)
Definition callback_ok (cl : IceCheckList) : Prop :=
  (cl_state cl = ICL_Completed → success_cb_calls cl = 1%nat ∧ all_nominated cl)
  ∧ (cl_state cl ≠ ICL_Completed → success_cb_calls cl = 0%nat).

Definition engine_inv (cl : IceCheckList) : Prop :=
  components_registered cl = true ∧ callback_ok cl.

(** What the engine does to a pair that exists already: its candidates
    stay, a nomination is not withdrawn. *)
Definition pair_step_weak (x x' : IceCandidatePair) : Prop :=
  pair_local x' = pair_local x ∧ pair_remote x' = pair_remote x
  ∧ (is_nominated x = true → is_nominated x' = true).

(** The same, for the steps that also keep the relation between the state
    and the transaction ID. *)
Definition pair_step (x x' : IceCandidatePair) : Prop :=
  pair_step_weak x x' ∧ (transaction_ok x → transaction_ok x').

(** The footprint of the functions that only write into existing pairs,
    the triggered checks queue, the timers and the wire. *)
Definition pairs_only_with (R : IceCandidatePair → IceCandidatePair → Prop)
    (cl cl' : IceCheckList) : Prop :=
  cl_candidates cl' = cl_candidates cl
  ∧ local_candidates cl' = local_candidates cl
  ∧ remote_candidates cl' = remote_candidates cl
  ∧ pairs cl' = pairs cl
  ∧ check_list cl' = check_list cl
  ∧ valid_list cl' = valid_list cl
  ∧ componentIDs cl' = componentIDs cl
  ∧ cl_state cl' = cl_state cl
  ∧ success_cb_calls cl' = success_cb_calls cl
  ∧ Forall2 R (cl_pair_arena cl) (cl_pair_arena cl').

Definition pairs_only : IceCheckList → IceCheckList → Prop :=
  pairs_only_with pair_step.

(** The footprint of the conclusion, the check list state and the callback
    apart: pairs can also leave the check list. *)
Definition shrinks (cl cl' : IceCheckList) : Prop :=
  cl_candidates cl' = cl_candidates cl
  ∧ local_candidates cl' = local_candidates cl
  ∧ remote_candidates cl' = remote_candidates cl
  ∧ valid_list cl' = valid_list cl
  ∧ componentIDs cl' = componentIDs cl
  ∧ sublist (check_list cl') (check_list cl)
  ∧ Forall2 pair_step (cl_pair_arena cl) (cl_pair_arena cl').

(** The footprint of the functions that can also create candidates, pairs
    and valid pairs. *)
Definition evolves (cl cl' : IceCheckList) : Prop :=
  (∀ c cand, get_cand cl c = Some cand →
     ∃ cand', get_cand cl' c = Some cand'
              ∧ cand_componentID cand' = cand_componentID cand)
  ∧ (∀ p x, get_pair cl p = Some x →
       ∃ x', get_pair cl' p = Some x' ∧ pair_step_weak x x')
  ∧ (∀ vp, vp ∈ valid_list cl → vp ∈ valid_list cl')
  ∧ (∀ c, c ∈ componentIDs cl → c ∈ componentIDs cl').

(** [evolves], with the bound on the candidate lists, and without a new
    registered componentID. *)
Definition grows (cl cl' : IceCheckList) : Prop :=
  evolves cl cl'
  ∧ (candidates_bounded cl → candidates_bounded cl')
  ∧ (components_registered cl = true →
     components_registered cl' = true
     ∧ ∀ cid, registered cl' cid = true → registered cl cid = true).

(** [grows], without a change of the check list state or a call of the
    success callback. *)
Definition quiet (cl cl' : IceCheckList) : Prop :=
  grows cl cl'
  ∧ cl_state cl' = cl_state cl
  ∧ success_cb_calls cl' = success_cb_calls cl.

(** The check list state and the count of callback calls are the same. *)
Definition same_state (cl cl' : IceCheckList) : Prop :=
  cl_state cl' = cl_state cl ∧ success_cb_calls cl' = success_cb_calls cl.

(** [cl'] is [cl] with other contents in the candidate arena. *)
Definition cands_only (cl cl' : IceCheckList) : Prop :=
  evolves cl cl'
  ∧ cl_pair_arena cl' = cl_pair_arena cl
  ∧ local_candidates cl' = local_candidates cl
  ∧ remote_candidates cl' = remote_candidates cl
  ∧ check_list cl' = check_list cl
  ∧ valid_list cl' = valid_list cl
  ∧ componentIDs cl' = componentIDs cl
  ∧ same_state cl cl'.

(** What a part of the engine does to a check list of the session: [tx]
    tells whether it keeps the relation between states and transaction
    IDs, [n] bounds the number of pairs that enter the check list; the
    count of callback calls does not go down. *)
Definition step_summary (tx : bool) (n : nat) (cl cl' : IceCheckList) : Prop :=
  (tx = true → transactions_ok cl → transactions_ok cl')
  ∧ (engine_inv cl → engine_inv cl')
  ∧ (candidates_bounded cl → candidates_bounded cl')
  ∧ (length (check_list cl') ≤ n + length (check_list cl))%nat
  ∧ (success_cb_calls cl ≤ success_cb_calls cl')%nat.

End Engine.

(** ** The pair priority of RFC 5245, 5.7.2 *)

(** The formula as the specification writes it, on unbounded integers. *)
Definition pair_priority_formula (G D : Z) : Z :=
  Z.lor (Z.lor (Z.shiftl (Z.min G D) 32) (Z.shiftl (Z.max G D) 1))
        (if G >? D then 1 else 0).

(** The priorities of the candidates of the controlling and of the
    controlled agent, for the agent of role [r] with the local candidate
    [l] and the remote candidate [rm]. *)
Definition controlling_priority (r : IceRole) (l rm : IceCandidate) : Z :=
  match r with
  | IR_Controlling => cand_priority l
  | IR_Controlled => cand_priority rm
  end.

Definition controlled_priority (r : IceRole) (l rm : IceCandidate) : Z :=
  match r with
  | IR_Controlling => cand_priority rm
  | IR_Controlled => cand_priority l
  end.

(** ** The order of the check list *)

(** The priority of the pair [p] is not lower than that of [q]. *)
Definition priority_ge (cl : IceCheckList) (p q : nat) : Prop :=
  ∀ x y, get_pair cl p = Some x → get_pair cl q = Some y →
         pair_priority y ≤ pair_priority x.

(** The priorities do not go up along the list [l] of pairs. *)
Definition priorities_descend (cl : IceCheckList) (l : list nat) : Prop :=
  StronglySorted (priority_ge cl) l.

(** ** The rest of the set-up interface, and the result accessors *)

Section Interface.
Context `{Collaborators}.

Definition ICE_MAX_UFRAG_LEN : nat := 256.
Definition ICE_MAX_PWD_LEN : nat := 256.

(** [candidate_type_values], read by [ice_candidate_type]. *)
Definition candidate_type_values (t : IceCandidateType) : string :=
  match t with
  | ICT_HostCandidate => "host"
  | ICT_ServerReflexiveCandidate => "srflx"
  | ICT_PeerReflexiveCandidate => "prflx"
  | ICT_RelayedCandidate => "relay"
  end.

Definition ice_candidate_type (candidate : IceCandidate) : string :=
  candidate_type_values (cand_type candidate).

Definition ice_check_list_state (cl : IceCheckList) : IceCheckListState :=
  cl_state cl.

(** *** Credentials *)

(** [ice_set_credentials]: the new contents of [*ufrag] and [*pwd], each
    the first [len] bytes of the argument followed by a NUL. *)
Definition ice_set_credentials (ufrag_str pwd_str : string) : string * string :=
  let len_ufrag := Nat.min (strlen ufrag_str) ICE_MAX_UFRAG_LEN in
  let len_pwd := Nat.min (strlen pwd_str) ICE_MAX_PWD_LEN in
  (strncpy ufrag_str len_ufrag, strncpy pwd_str len_pwd).

Definition ice_check_list_set_remote_credentials (ufrag pwd : string)
    (cl : IceCheckList) : IceCheckList :=
  let '(u, p) := ice_set_credentials ufrag pwd in
  set_cl_remote_pwd (Some p) (set_cl_remote_ufrag (Some u) cl).

Definition ice_session_set_local_credentials (ufrag pwd : string)
    (s : IceSession) : IceSession :=
  let '(u, p) := ice_set_credentials ufrag pwd in
  set_local_pwd p (set_local_ufrag u s).

Definition ice_session_set_remote_credentials (ufrag pwd : string)
    (s : IceSession) : IceSession :=
  let '(u, p) := ice_set_credentials ufrag pwd in
  set_remote_pwd (Some p) (set_remote_ufrag (Some u) s).

Definition ice_session_local_ufrag (s : IceSession) : string := local_ufrag s.
Definition ice_session_local_pwd (s : IceSession) : string := local_pwd s.
Definition ice_session_remote_ufrag (s : IceSession) : option string :=
  remote_ufrag s.
Definition ice_session_remote_pwd (s : IceSession) : option string :=
  remote_pwd s.

(** *** Default candidates *)

Definition ice_find_default_local_candidate (cl : IceCheckList) (c : nat)
  : option Z :=
  candidate ← get_cand cl c;
  Some (lnot ((cand_componentID candidate =? 1) && cand_is_default candidate)).

Definition ice_check_list_default_local_candidate (cl : IceCheckList)
  : option (option nat) :=
  ms_list_find_custom (ice_find_default_local_candidate cl)
    (local_candidates cl).

Definition ice_find_candidate_from_type_and_componentID (cl : IceCheckList)
    (type : IceCandidateType) (componentID : Z) (c : nat) : option Z :=
  candidate ← get_cand cl c;
  Some (lnot (bool_decide (cand_type candidate = type)
              && (cand_componentID candidate =? componentID))).

(** The body of the loop of [ice_choose_local_or_remote_default_candidates]
    for the componentID [i]. *)
Definition ice_choose_default_candidate (lst : list nat) (i : Z)
    (cl : IceCheckList) : option IceCheckList :=
  l ← ms_list_find_custom
         (ice_find_candidate_from_type_and_componentID cl ICT_RelayedCandidate i)
         lst;
  l ← match l with
       | None =>
           ms_list_find_custom
             (ice_find_candidate_from_type_and_componentID cl
                ICT_ServerReflexiveCandidate i) lst
       | Some c => Some (Some c)
       end;
  l ← match l with
       | None =>
           ms_list_find_custom
             (ice_find_candidate_from_type_and_componentID cl
                ICT_HostCandidate i) lst
       | Some c => Some (Some c)
       end;
  match l with
  | Some c => Some (alter_cand (set_cand_is_default true) c cl)
  | None => Some cl
  end.

(** The componentIDs from [ICE_MIN_COMPONENTID] to [ICE_MAX_COMPONENTID]. *)
Definition all_componentIDs : list Z :=
  Z.of_nat <$> seq (Z.to_nat ICE_MIN_COMPONENTID)
                 (Z.to_nat ICE_MAX_COMPONENTID).

Definition ice_choose_local_or_remote_default_candidates (lst : list nat)
    (cl : IceCheckList) : option IceCheckList :=
  for_each2 (ice_choose_default_candidate lst) all_componentIDs cl.

Definition ice_check_list_choose_default_candidates (cl : IceCheckList)
  : option IceCheckList :=
  cl ← ice_choose_local_or_remote_default_candidates (local_candidates cl) cl;
  ice_choose_local_or_remote_default_candidates (remote_candidates cl) cl.

Definition ice_session_choose_default_candidates (s : IceSession)
  : option IceSession :=
  l ← mapM ice_check_list_choose_default_candidates (streams s);
  Some (set_streams l s).

Definition ice_session_compute_candidates_foundations (s : IceSession)
  : option IceSession :=
  l ← mapM ice_check_list_compute_candidates_foundations (streams s);
  Some (set_streams l s).

(** *** Bases of the server reflexive candidates *)

Definition ice_find_host_candidate (cl : IceCheckList) (componentID : Z)
    (c : nat) : option Z :=
  candidate ← get_cand cl c;
  if bool_decide (cand_type candidate = ICT_HostCandidate)
     && (cand_componentID candidate =? componentID)
  then Some 0 else Some 1.

(** [base] is dereferenced only for a server reflexive candidate without
    a base. *)
Definition ice_set_base_for_srflx_candidate (base : nat) (c : nat)
    (cl : IceCheckList) : option IceCheckList :=
  candidate ← get_cand cl c;
  if bool_decide (cand_type candidate = ICT_ServerReflexiveCandidate)
     && bool_decide (cand_base candidate = None)
  then
    b ← get_cand cl base;
    if cand_componentID candidate =? cand_componentID b
    then Some (alter_cand (set_cand_base (Some base)) c cl)
    else Some cl
  else Some cl.

(** [componentID] points into a candidate, as the elements of
    [cl->componentIDs] do. *)
Definition ice_set_base_for_srflx_candidate_with_componentID
    (componentID : nat) (cl : IceCheckList) : option IceCheckList :=
  cid ← get_cand cl componentID;
  elem ← ms_list_find_custom
            (ice_find_host_candidate cl (cand_componentID cid))
            (local_candidates cl);
  match elem with
  | Some base =>
      for_each2 (ice_set_base_for_srflx_candidate base) (local_candidates cl) cl
  | None => Some cl
  end.

Definition ice_check_list_set_base_for_srflx_candidates (cl : IceCheckList)
  : option IceCheckList :=
  for_each2 ice_set_base_for_srflx_candidate_with_componentID
    (componentIDs cl) cl.

Definition ice_session_set_base_for_srflx_candidates (s : IceSession)
  : option IceSession :=
  l ← mapM ice_check_list_set_base_for_srflx_candidates (streams s);
  Some (set_streams l s).

(** *** Result accessors *)

Definition ice_get_valid_pair_for_componentID (cl : IceCheckList)
    (componentID : nat) (lst : list nat) : option (list nat) :=
  cid ← get_cand cl componentID;
  elem ← ms_list_find_custom
            (ice_find_nominated_valid_pair_from_componentID cl
               (cand_componentID cid)) (valid_list cl);
  match elem with
  | Some valid_pair => Some (ms_list_append lst (valid valid_pair))
  | None => Some lst
  end.

Definition ice_get_valid_pairs (cl : IceCheckList) : option (list nat) :=
  for_each2 (ice_get_valid_pair_for_componentID cl) (componentIDs cl) [].

(** The buffer and the two integers that the caller of
    [ice_get_remote_addr_and_ports_from_valid_pairs] passes by address. *)
Record Addr_Ports := mkAddrPorts {
  addr : list ascii;
  rtp_port : Z;
  rtcp_port : Z
}.

(** [strncpy(dst, src, n)] into a buffer that is not zeroed: [n] bytes are
    written, the bytes of [src] up to its NUL and then NULs; the rest of
    the buffer stays.  Writing past the end of the buffer is undefined. *)
Fixpoint strncpy_bytes (src : string) (n : nat) : list ascii :=
  match n with
  | O => []
  | S n' =>
      match src with
      | EmptyString => NUL :: strncpy_bytes EmptyString n'
      | String c t =>
          if Ascii.eqb c NUL then NUL :: strncpy_bytes EmptyString n'
          else c :: strncpy_bytes t n'
      end
  end.

Definition strncpy_into (dst : list ascii) (src : string) (n : nat)
  : option (list ascii) :=
  if (n <=? length dst)%nat then Some (strncpy_bytes src n ++ drop n dst)
  else None.

Definition ice_get_addr_and_ports_from_valid_pair (cl : IceCheckList)
    (addr_len : nat) (p : nat) (addr_ports : Addr_Ports)
  : option Addr_Ports :=
  pair ← get_pair cl p;
  l ← local_of cl pair;
  if cand_componentID l =? 1 then
    rm ← remote_of cl pair;
    a ← strncpy_into (addr addr_ports) (ip (cand_taddr rm)) addr_len;
    Some (mkAddrPorts a (port (cand_taddr rm)) (rtcp_port addr_ports))
  else if cand_componentID l =? 2 then
    rm ← remote_of cl pair;
    Some (mkAddrPorts (addr addr_ports) (rtp_port addr_ports)
            (port (cand_taddr rm)))
  else Some addr_ports.

Definition ice_get_remote_addr_and_ports_from_valid_pairs (cl : IceCheckList)
    (addr_len : nat) (addr_ports : Addr_Ports) : option Addr_Ports :=
  ice_pairs ← ice_get_valid_pairs cl;
  for_each2 (ice_get_addr_and_ports_from_valid_pair cl addr_len) ice_pairs
    addr_ports.

End Interface.

(** ** What the conclusion does to a check list *)

Section Conclusion.

Context `{Collaborators}.

(** [x'] is [x] but for the nomination, which is not withdrawn, and for the
    count of retransmissions. *)
Definition pair_concluded (x x' : IceCandidatePair) : Prop :=
  x' = set_retransmissions (retransmissions x')
         (set_is_nominated (is_nominated x') x)
  ∧ (is_nominated x = true → is_nominated x' = true).

(** The footprint of [ice_conclude_processing]. *)
Definition concludes (cl cl' : IceCheckList) : Prop :=
  cl_candidates cl' = cl_candidates cl
  ∧ local_candidates cl' = local_candidates cl
  ∧ remote_candidates cl' = remote_candidates cl
  ∧ pairs cl' = pairs cl
  ∧ valid_list cl' = valid_list cl
  ∧ componentIDs cl' = componentIDs cl
  ∧ cl_sent cl' = cl_sent cl
  ∧ sublist (check_list cl') (check_list cl)
  ∧ Forall2 pair_concluded (cl_pair_arena cl) (cl_pair_arena cl').

(** The pair [p] is in the Failed or in the Succeeded state. *)
Definition pair_finished (cl : IceCheckList) (p : nat) : Prop :=
  ∃ x, get_pair cl p = Some x
       ∧ (pair_state x = ICP_Failed ∨ pair_state x = ICP_Succeeded).

(** [x'] is [x] but for its priority. *)
Definition pair_reprioritised (x x' : IceCandidatePair) : Prop :=
  x' = set_pair_priority (pair_priority x') x.

(** [cl'] is [cl] but for the priorities of its pairs. *)
Definition reprioritised (cl cl' : IceCheckList) : Prop :=
  cl' = set_cl_pair_arena (cl_pair_arena cl') cl
  ∧ Forall2 pair_reprioritised (cl_pair_arena cl) (cl_pair_arena cl').

(** The local and the remote candidate [l] and [r] have the same
    componentID. *)
Definition same_componentID (cl : IceCheckList) (l r : nat) : bool :=
  match get_cand cl l, get_cand cl r with
  | Some a, Some b => cand_componentID a =? cand_componentID b
  | _, _ => false
  end.

(** The local and remote candidates to pair, in the order of the lists. *)
Definition candidate_products (cl : IceCheckList) : list (nat * nat) :=
  l ← local_candidates cl;
  r ← remote_candidates cl;
  if same_componentID cl l r then [(l, r)] else [].

(** [cl] with the pairs [acc] allocated after its own. *)
Definition with_pairs (cl : IceCheckList) (acc : list IceCandidatePair)
  : IceCheckList :=
  set_pairs (pairs cl ++ seq (length (cl_pair_arena cl)) (length acc))
    (set_cl_pair_arena (cl_pair_arena cl ++ acc) cl).

(** What [ice_pair_new] leaves in a pair, its candidates apart. *)
Definition pair_is_new (s : IceSession) (cl : IceCheckList)
    (x : IceCandidatePair) : Prop :=
  pair_state x = ICP_Frozen ∧ transactionID x = 0
  ∧ is_nominated x = false ∧ retransmissions x = 0
  ∧ rto x = ICE_DEFAULT_RTO_DURATION ∧ pair_role x = role s
  ∧ wait_transaction_timeout x = false
  ∧ ice_compute_pair_priority (role s) cl x = Some x.



(** The bytes of a C string, up to its NUL. *)
Definition c_string (s : string) : string := strncpy s (strlen s).






(** [cl'] is [cl] but for candidates that have become default. *)
Definition defaults_only (cl cl' : IceCheckList) : Prop :=
  cl' = set_cl_candidates (cl_candidates cl') cl
  ∧ Forall2 (λ x x', x' = set_cand_is_default (cand_is_default x') x
                     ∧ (cand_is_default x = true → cand_is_default x' = true))
      (cl_candidates cl) (cl_candidates cl').

(** The order in which [ice_choose_local_or_remote_default_candidates]
    looks for the default candidate of a componentID: relayed, then server
    reflexive, then host; a peer reflexive candidate is not looked for. *)
Definition default_rank (t : IceCandidateType) : Z :=
  match t with
  | ICT_RelayedCandidate => 3
  | ICT_ServerReflexiveCandidate => 2
  | ICT_HostCandidate => 1
  | ICT_PeerReflexiveCandidate => 0
  end.

(** The candidate of [lst] that is made the default one for the
    componentID [i]. *)
Definition default_target (cl : IceCheckList) (lst : list nat) (i : Z)
  : option (option nat) :=
  l ← ms_list_find_custom
         (ice_find_candidate_from_type_and_componentID cl ICT_RelayedCandidate i)
         lst;
  l ← match l with
       | None =>
           ms_list_find_custom
             (ice_find_candidate_from_type_and_componentID cl
                ICT_ServerReflexiveCandidate i) lst
       | Some c => Some (Some c)
       end;
  match l with
  | None =>
      ms_list_find_custom
        (ice_find_candidate_from_type_and_componentID cl ICT_HostCandidate i)
        lst
  | Some c => Some (Some c)
  end.

(** [cl'] is [cl] but for the bases of its candidates. *)
Definition bases_only (cl cl' : IceCheckList) : Prop :=
  cl' = set_cl_candidates (cl_candidates cl') cl
  ∧ Forall2 (λ x x', x' = set_cand_base (cand_base x') x)
      (cl_candidates cl) (cl_candidates cl').

(** The pair [q], whose content before the response is [y], after the
    loop of [ice_update_pair_states_on_binding_response] for the succeeded
    pair [p] over the list [l]. *)
Definition state_after_response (cl : IceCheckList) (p : nat) (l : list nat)
    (q : nat) (y : IceCandidatePair) : IceCandidatePair :=
  if decide (q ≠ p ∧ q ∈ l ∧ pair_state y = ICP_Frozen
             ∧ ice_compare_pair_foundations cl q p = Some 0)
  then ice_pair_set_state ICP_Waiting y
  else if decide (q = p) then ice_pair_set_state ICP_Succeeded y else y.

(** The local candidate [c], whose content is [x], after
    [ice_check_list_set_base_for_srflx_candidates]: a server reflexive
    candidate without a base, whose componentID is registered, gets the
    first host candidate of its componentID as its base. *)
Definition base_after (cl : IceCheckList) (c : nat) (x : IceCandidate)
  : IceCandidate :=
  match ms_list_find_custom
          (ice_find_host_candidate cl (cand_componentID x))
          (local_candidates cl) with
  | Some (Some b) =>
      if decide (c ∈ local_candidates cl
                 ∧ cand_type x = ICT_ServerReflexiveCandidate
                 ∧ cand_base x = None
                 ∧ registered cl (cand_componentID x) = true)
      then set_cand_base (Some b) x else x
  | _ => x
  end.

End Conclusion.

(** ** A session to run the engine on

    Collaborators with a toy wire format, and small sessions built with the
    functions of the engine. *)
Module Demo.

Definition addr1 : Z := 167772161.
Definition addr2 : Z := 167772162.
Definition addr9 : Z := 3405803781.

Definition parse_ip (ip : string) : Z :=
  if String.eqb ip "10.0.0.1" then addr1
  else if String.eqb ip "10.0.0.2" then addr2
  else if String.eqb ip "203.0.113.5" then addr9
  else 0.

Definition print_ip (a : Z) : string :=
  if a =? addr1 then "10.0.0.1"
  else if a =? addr2 then "10.0.0.2"
  else if a =? addr9 then "203.0.113.5"
  else "0.0.0.0".

Definition user (code : Z) : string :=
  if code =? 0 then "LLLLLLLL:RRRRRRRR"
  else if code =? 1 then "LLLL:RRRRRRRR"
  else if code =? 2 then ":RRRRRRRR"
  else if code =? 3 then "LLLLLLLLRRRRRRRR"
  else "XXXXXXXX:RRRRRRRR".

(** A toy wire format: one number per field of the message. *)
Definition decode (ty id hash u prio ctl tie usecand xaddr xport ecl enum : Z)
  : StunMessage :=
  {| msgType := ty; msgLength := 0; tr_id := id;
     hasMessageIntegrity := true; messageIntegrity_hash := hash;
     hasUsername := true; username := user u;
     username_sizeValue := String.length (user u);
     hasFingerprint := true;
     hasPriority := true; msg_priority := prio;
     hasIceControlling := ctl =? 1; iceControlling := tie;
     hasIceControlled := ctl =? 2; iceControlled := tie;
     hasUseCandidate := usecand =? 1;
     hasXorMappedAddress := true;
     xorMappedAddress_addr := xaddr; xorMappedAddress_port := xport;
     hasErrorCode := negb (ecl =? 0);
     errorClass := ecl; errorNumber := enum |}.

Definition parse (bytes : list Z) : option StunMessage :=
  match bytes with
  | [ty; id; hash; u; prio; ctl; tie; usecand; xaddr; xport; ecl; enum] =>
      Some (decode ty id hash u prio ctl tie usecand xaddr xport ecl enum)
  | _ => None
  end.

Definition junk_pair : IceCandidatePair :=
  {| pair_local := None; pair_remote := 77; pair_state := ICP_Succeeded;
     pair_priority := 5; transactionID := 12345; transmission_time := 0;
     rto := 3; retransmissions := 200; pair_role := IR_Controlled;
     pair_is_default := true; is_nominated := true;
     wait_transaction_timeout := true |}.

#[export] Instance collaborators : Collaborators :=
  {| stunParseMessage := parse;
     stunParseHostName := λ ip dflt, (parse_ip ip, dflt);
     stunCalculateIntegrity_shortterm := λ _ _, 0;
     stunEncodeMessage_ok := λ _, true;
     inet_ntoa := print_ip;
     getnameinfo := λ _ a, Some (print_ip a);
     ms_new_pair := junk_pair;
     sizeof_ip := 64;
     sizeof_foundation := 32 |}.

Definition session0 : IceSession :=
  {| streams := []; sess_state := IS_Stopped; role := IR_Controlling;
     tie_breaker := 20; ta := ICE_DEFAULT_TA_DURATION;
     keepalive_timeout := ICE_DEFAULT_KEEPALIVE_TIMEOUT;
     max_connectivity_checks := ICE_MAX_NB_CANDIDATE_PAIRS;
     local_ufrag := "LLLLLLLL"; local_pwd := "llllllllllllllllllllllll";
     remote_ufrag := Some "RRRRRRRR"%string;
     remote_pwd := Some "rrrrrrrrrrrrrrrrrrrrrrrr"%string;
     ticker_time := 0 |}.

Definition oracle : Oracle :=
  {| stunBuildReqSimple_tr_id := λ p, 1000 + Z.of_nat p;
     random_draws := [255; 4096] |}.

Definition rtp : RtpSession :=
  {| rtp_socket := 3; rtcp_socket := 4; loc_port := 5000 |}.

(** One check list with a host candidate per component on each side. *)
Definition cl_two_components : option IceCheckList :=
  '(_, cl) ← ice_add_local_candidate "host" "10.0.0.1" 5000 1 None
               ice_check_list_new;
  '(_, cl) ← ice_add_local_candidate "host" "10.0.0.1" 5001 2 None cl;
  let '(_, cl) := ice_add_remote_candidate "host" "10.0.0.2" 6000 1 0 "1" cl in
  let '(_, cl) := ice_add_remote_candidate "host" "10.0.0.2" 6001 2 0 "1" cl in
  ice_check_list_compute_candidates_foundations cl.

Definition session_two_components : option IceSession :=
  cl ← cl_two_components;
  ice_session_pair_candidates (ice_session_add_check_list cl session0).

(** One local candidate and two remote candidates of the same component
    with different foundations. *)
Definition cl_two_foundations : option IceCheckList :=
  '(_, cl) ← ice_add_local_candidate "host" "10.0.0.1" 5000 1 None
               ice_check_list_new;
  let '(_, cl) := ice_add_remote_candidate "host" "10.0.0.2" 6000 1 0 "1" cl in
  let '(_, cl) := ice_add_remote_candidate "host" "10.0.0.2" 6002 1 0 "2" cl in
  ice_check_list_compute_candidates_foundations cl.

Definition session_two_foundations : option IceSession :=
  cl ← cl_two_foundations;
  ice_session_pair_candidates (ice_session_add_check_list cl session0).

(** One candidate on each side, and a limit of one connectivity check. *)
Definition cl_one_pair : option IceCheckList :=
  '(_, cl) ← ice_add_local_candidate "host" "10.0.0.1" 5000 1 None
               ice_check_list_new;
  let '(_, cl) := ice_add_remote_candidate "host" "10.0.0.2" 6000 1 0 "1" cl in
  ice_check_list_compute_candidates_foundations cl.

Definition session_one_check : option IceSession :=
  cl ← cl_one_pair;
  ice_session_pair_candidates
    (ice_session_add_check_list cl
       (ice_session_set_max_connectivity_checks 1 session0)).

(** Packets in the toy wire format, and the messages they decode to. *)
Definition binding_request (id u ctl tie usecand : Z) : list Z :=
  [0x0001; id; 0; u; 1845501695; ctl; tie; usecand; 0; 0; 0; 0].

Definition binding_request_message (id u ctl tie usecand : Z) : StunMessage :=
  decode 0x0001 id 0 u 1845501695 ctl tie usecand 0 0 0 0.

Definition success_response (id xaddr xport : Z) : list Z :=
  [0x0101; id; 0; 0; 0; 0; 0; 0; xaddr; xport; 0; 0].

Definition success_response_message (id xaddr xport : Z) : StunMessage :=
  decode 0x0101 id 0 0 0 0 0 0 xaddr xport 0 0.

(** A packet for 10.0.0.1, received on the RTP socket. *)
Definition received (bytes : list Z) (src_addr src_port : Z) : OrtpEventData :=
  {| packet := bytes; ipi_addr := addr1; socket_type := OrtpRTPSocket;
     ss_family := AF_INET; sin_addr := src_addr; sin_port := src_port |}.

(** The results of the set-up, where it succeeds. *)
Definition the_check_list (cl : option IceCheckList) : IceCheckList :=
  default ice_check_list_new cl.

Definition the_session (s : option IceSession) : IceSession :=
  default session0 s.

(** The session with one pair, after the events [l]. *)
Definition after (l : list Event) : IceSession :=
  the_session (s ← session_one_check; run s l).

(** The check list of a session with one check list. *)
Definition stream0 (s : IceSession) : IceCheckList :=
  the_check_list (get_stream 0 s).

(** The first connectivity check of the session with one pair. *)
Definition first_check : list Event :=
  [EvTick 20; EvProcess 0 oracle rtp].

(** The candidates of [cl_one_pair] and its pair while the first check is
    in progress. *)
Definition host_local : IceCandidate :=
  {| cand_taddr := mkTaddr "10.0.0.1" 5000; cand_type := ICT_HostCandidate;
     cand_componentID := 1; cand_priority := 2130706431;
     cand_foundation := "1"; cand_base := Some 0%nat;
     cand_is_default := false |}.

Definition host_remote : IceCandidate :=
  {| cand_taddr := mkTaddr "10.0.0.2" 6000; cand_type := ICT_HostCandidate;
     cand_componentID := 1; cand_priority := 2130706431;
     cand_foundation := "1"; cand_base := Some 1%nat;
     cand_is_default := false |}.

Definition pair_in_progress : IceCandidatePair :=
  {| pair_local := Some 0%nat; pair_remote := 1; pair_state := ICP_InProgress;
     pair_priority := 9151314442783293438; transactionID := 1000;
     transmission_time := 0; rto := 100; retransmissions := 0;
     pair_role := IR_Controlling; pair_is_default := false;
     is_nominated := false; wait_transaction_timeout := false |}.

(** The session with one pair, for an agent in the controlled role. *)
Definition session_controlled : option IceSession :=
  cl ← cl_one_pair;
  ice_session_pair_candidates
    (ice_session_add_check_list cl (set_role IR_Controlled session0)).

(** The pairs of [cl_two_foundations] formed, before the pruning. *)
Definition session_limit_1 : IceSession :=
  ice_session_set_max_connectivity_checks 1 session0.

Definition cl_formed : IceCheckList :=
  the_check_list (cl ← cl_two_foundations;
                  ice_form_candidate_pairs session_limit_1 cl).

Definition cl_pruned : IceCheckList :=
  the_check_list (ice_prune_candidate_pairs session_limit_1 cl_formed).

(** A check list whose candidate lists are full. *)
Fixpoint add_candidates (n : nat) (cl : IceCheckList) : IceCheckList :=
  match n with
  | O => cl
  | S n =>
      let cl := add_candidates n cl in
      let cl :=
        match ice_add_local_candidate "host" "10.0.0.1"
                (5000 + Z.of_nat n) 1 None cl with
        | Some (_, cl) => cl
        | None => cl
        end in
      (ice_add_remote_candidate "host" "10.0.0.2" (6000 + Z.of_nat n) 1 0
         "1" cl).2
  end.

Definition cl_full : IceCheckList := add_candidates 10 ice_check_list_new.

(** A check list whose candidates have no foundation yet: a host
    candidate for each of the components 1 and 2, a server reflexive
    candidate without base and a relayed candidate for the component 1,
    and a remote host candidate for each component. *)
Definition cl_raw : IceCheckList :=
  the_check_list
    ('(_, cl) ← ice_add_local_candidate "host" "10.0.0.1" 5000 1 None
                 ice_check_list_new;
     '(_, cl) ← ice_add_local_candidate "host" "10.0.0.1" 5001 2 None cl;
     '(_, cl) ← ice_add_local_candidate "srflx" "203.0.113.5" 7000 1 None cl;
     '(_, cl) ← ice_add_local_candidate "relay" "10.0.0.2" 8000 1 None cl;
     let '(_, cl) :=
       ice_add_remote_candidate "host" "10.0.0.2" 6000 1 0 "1" cl in
     let '(_, cl) :=
       ice_add_remote_candidate "host" "10.0.0.2" 6001 2 0 "1" cl in
     Some cl).

(** An error response in the toy wire format. *)
Definition error_response_message (id ecl enum : Z) : StunMessage :=
  decode 0x0111 id 0 0 0 0 0 0 0 0 ecl enum.

(** The events that complete the session with one pair: the check, its
    response, the check that nominates the pair and its response. *)
Definition nomination : list Event :=
  first_check
  ++ [EvStunPacket 0 oracle rtp
        (received (success_response 1000 addr1 5000) addr2 6000);
      EvTick 40; EvProcess 0 oracle rtp;
      EvStunPacket 0 oracle rtp
        (received (success_response 1000 addr1 5000) addr2 6000)].

(** The buffer and the ports that the caller of
    [ice_get_remote_addr_and_ports_from_valid_pairs] provides. *)
Definition no_addr_ports : Addr_Ports :=
  {| addr := replicate 16 "x"%char; rtp_port := 0; rtcp_port := 0 |}.

End Demo.

(** * Properties *)

Section Properties.
Context `{Collaborators}.

(** ** Stepping through the option monad *)

Ltac step_opt :=
  repeat first
    [ progress simplify_option_eq
    | case_match
    | match goal with
      | H : context [let '(_, _) := ?x in _] |- _ => destruct x eqn:?
      | |- context [let '(_, _) := ?x in _] => destruct x eqn:?
      end ].

Lemma for_each2_inv {A S} (P : S → Prop) (f : A → S → option S) l st st' :
  (∀ x a b, P a → f x a = Some b → P b) →
  P st → for_each2 f l st = Some st' → P st'.
Proof.
  intros Hf. revert st. induction l as [|x l IH]; intros st HP Hr; simpl in Hr.
  - by simplify_eq.
  - destruct (f x st) eqn:E; simplify_option_eq. eauto.
Qed.

(** Variant for a relation with the initial state. *)
Lemma for_each2_rel {A S} (R : S → S → Prop) (f : A → S → option S) l st st' :
  (∀ a, R a a) → (∀ a b c, R a b → R b c → R a c) →
  (∀ x a b, f x a = Some b → R a b) →
  for_each2 f l st = Some st' → R st st'.
Proof.
  intros Hrefl Htrans Hf.
  apply (for_each2_inv (R st)); eauto.
Qed.

(** ** [ice_pair_set_state] *)

Lemma ice_pair_set_state_fields st x :
  pair_state (ice_pair_set_state st x) = st
  ∧ pair_local (ice_pair_set_state st x) = pair_local x
  ∧ pair_remote (ice_pair_set_state st x) = pair_remote x
  ∧ pair_priority (ice_pair_set_state st x) = pair_priority x
  ∧ is_nominated (ice_pair_set_state st x) = is_nominated x
  ∧ retransmissions (ice_pair_set_state st x) = retransmissions x
  ∧ rto (ice_pair_set_state st x) = rto x
  ∧ pair_role (ice_pair_set_state st x) = pair_role x
  ∧ wait_transaction_timeout (ice_pair_set_state st x)
    = wait_transaction_timeout x
  ∧ transmission_time (ice_pair_set_state st x) = transmission_time x.
Proof.
  unfold ice_pair_set_state. destruct (decide _) as [?|Heq].
  - by destruct st.
  - apply dec_stable in Heq. by rewrite Heq.
Qed.

Lemma pair_state_set_state st x : pair_state (ice_pair_set_state st x) = st.
Proof. apply ice_pair_set_state_fields. Qed.
Lemma pair_local_set_state st x :
  pair_local (ice_pair_set_state st x) = pair_local x.
Proof. apply ice_pair_set_state_fields. Qed.
Lemma pair_remote_set_state st x :
  pair_remote (ice_pair_set_state st x) = pair_remote x.
Proof. apply ice_pair_set_state_fields. Qed.
Lemma is_nominated_set_state st x :
  is_nominated (ice_pair_set_state st x) = is_nominated x.
Proof. apply ice_pair_set_state_fields. Qed.
Lemma retransmissions_set_state st x :
  retransmissions (ice_pair_set_state st x) = retransmissions x.
Proof. apply ice_pair_set_state_fields. Qed.
Lemma rto_set_state st x : rto (ice_pair_set_state st x) = rto x.
Proof. apply ice_pair_set_state_fields. Qed.

Lemma transactionID_set_state st x :
  transactionID (ice_pair_set_state st x)
  = if decide (pair_state x ≠ st)
    then match st with
         | ICP_Failed | ICP_Waiting => 0
         | _ => transactionID x
         end
    else transactionID x.
Proof. unfold ice_pair_set_state. destruct (decide _); by destruct st. Qed.

(** ** The transaction ID of a pair *)

Lemma transaction_ok_ext x y :
  pair_state y = pair_state x → transactionID y = transactionID x →
  transaction_ok x → transaction_ok y.
Proof.
  unfold transaction_ok, zero_when_waiting_or_failed, nonzero_when_succeeded.
  intros -> ->. done.
Qed.

Lemma transaction_ok_in_progress x :
  pair_state x = ICP_InProgress → transaction_ok x.
Proof.
  unfold transaction_ok, zero_when_waiting_or_failed, nonzero_when_succeeded.
  intros ->. split; [intros [?|?]|]; done.
Qed.

Lemma transaction_ok_frozen x : pair_state x = ICP_Frozen → transaction_ok x.
Proof.
  unfold transaction_ok, zero_when_waiting_or_failed, nonzero_when_succeeded.
  intros ->. split; [intros [?|?]|]; done.
Qed.

Lemma transaction_ok_set_state st x :
  st ≠ ICP_Succeeded → transaction_ok x →
  transaction_ok (ice_pair_set_state st x).
Proof.
  unfold transaction_ok, zero_when_waiting_or_failed, nonzero_when_succeeded.
  intros Hst [Hz Hn]. rewrite pair_state_set_state, transactionID_set_state.
  destruct (decide (pair_state x ≠ st)) as [Hne|Heq].
  - split; [|done]. intros Hw. destruct st; try done; by destruct Hw.
  - apply dec_stable in Heq. subst st. done.
Qed.

(** ** The footprints *)

Lemma pair_step_weak_refl x : pair_step_weak x x.
Proof. by unfold pair_step_weak. Qed.

Lemma pair_step_weak_trans x y z :
  pair_step_weak x y → pair_step_weak y z → pair_step_weak x z.
Proof.
  unfold pair_step_weak. intros (?&?&?) (?&?&?).
  repeat split; try congruence; auto.
Qed.

Lemma pair_step_refl x : pair_step x x.
Proof. split; [apply pair_step_weak_refl|done]. Qed.

Lemma pair_step_trans x y z : pair_step x y → pair_step y z → pair_step x z.
Proof.
  intros [? ?] [? ?]. split; [by eapply pair_step_weak_trans|auto].
Qed.

Lemma pair_step_is_weak x y : pair_step x y → pair_step_weak x y.
Proof. by intros [? _]. Qed.

Section with_relation.
Context {A : Type} (R : A → A → Prop).
Context (R_refl : ∀ x, R x x) (R_trans : ∀ x y z, R x y → R y z → R x z).

Lemma steps_refl (l : list A) : Forall2 R l l.
Proof. apply Forall_Forall2_diag, Forall_forall. intros. apply R_refl. Qed.

Lemma steps_trans (l1 l2 l3 : list A) :
  Forall2 R l1 l2 → Forall2 R l2 l3 → Forall2 R l1 l3.
Proof.
  intros H1. revert l3. induction H1; intros l3 H2; inversion H2; subst;
    constructor; eauto.
Qed.

Lemma steps_insert (l : list A) p x x' :
  l !! p = Some x → R x x' → Forall2 R l (<[p := x']> l).
Proof.
  intros Hl Hs. rewrite <- (list_insert_id l p x Hl) at 1.
  apply Forall2_insert; [apply steps_refl|done].
Qed.

End with_relation.

Section with_pair_relation.
Context (R : IceCandidatePair → IceCandidatePair → Prop).
Context (R_refl : ∀ x, R x x) (R_trans : ∀ x y z, R x y → R y z → R x z).

Lemma pairs_only_with_refl cl : pairs_only_with R cl cl.
Proof. unfold pairs_only_with. repeat split; auto using steps_refl. Qed.

Lemma pairs_only_with_trans a b c :
  pairs_only_with R a b → pairs_only_with R b c → pairs_only_with R a c.
Proof.
  unfold pairs_only_with.
  intros (?&?&?&?&?&?&?&?&?&?) (?&?&?&?&?&?&?&?&?&?).
  repeat split; try congruence. eauto using steps_trans.
Qed.

Lemma pairs_only_with_put_pair cl p x x' :
  get_pair cl p = Some x → R x x' → pairs_only_with R cl (put_pair p x' cl).
Proof.
  intros Hp Hs. unfold pairs_only_with, put_pair; simpl.
  repeat split; auto. by eapply steps_insert.
Qed.

Lemma for_each2_pairs_only_with {A}
    (f : A → IceCheckList → option IceCheckList) l cl cl' :
  (∀ x a b, f x a = Some b → pairs_only_with R a b) →
  for_each2 f l cl = Some cl' → pairs_only_with R cl cl'.
Proof.
  intros Hf. apply for_each2_rel;
    [apply pairs_only_with_refl|apply pairs_only_with_trans|done].
Qed.
End with_pair_relation.

Lemma pairs_only_with_mono (R1 R2 : IceCandidatePair → IceCandidatePair → Prop)
    cl cl' :
  (∀ x y, R1 x y → R2 x y) → pairs_only_with R1 cl cl' → pairs_only_with R2 cl cl'.
Proof.
  unfold pairs_only_with. intros HR (?&?&?&?&?&?&?&?&?&?).
  repeat split; try done. eapply Forall2_impl; eauto.
Qed.

Lemma pairs_only_refl cl : pairs_only cl cl.
Proof. apply pairs_only_with_refl, pair_step_refl. Qed.

Lemma pairs_only_trans a b c : pairs_only a b → pairs_only b c → pairs_only a c.
Proof. apply pairs_only_with_trans, pair_step_trans. Qed.

Lemma pairs_only_put_pair cl p x x' :
  get_pair cl p = Some x → pair_step x x' → pairs_only cl (put_pair p x' cl).
Proof. apply pairs_only_with_put_pair, pair_step_refl. Qed.

Lemma for_each2_pairs_only {A} (f : A → IceCheckList → option IceCheckList)
    l cl cl' :
  (∀ x a b, f x a = Some b → pairs_only a b) →
  for_each2 f l cl = Some cl' → pairs_only cl cl'.
Proof.
  apply for_each2_pairs_only_with; [apply pair_step_refl|apply pair_step_trans].
Qed.

Lemma pairs_only_queue p cl :
  pairs_only cl (ice_check_list_queue_triggered_check p cl).
Proof.
  unfold ice_check_list_queue_triggered_check. case_match.
  - apply pairs_only_refl.
  - unfold pairs_only, pairs_only_with; simpl.
    repeat split; auto using steps_refl, pair_step_refl.
Qed.

Lemma pairs_only_sendMessage w cl : pairs_only cl (sendMessage w cl).
Proof.
  unfold pairs_only, pairs_only_with, sendMessage; simpl.
  repeat split; auto using steps_refl, pair_step_refl.
Qed.

(** Closes [pair_step x x'] when [x'] is built from [x] by assignments
    and by a change of state other than to Succeeded. *)
Ltac transaction_ok_tac :=
  first
    [ assumption
    | apply transaction_ok_in_progress;
      rewrite ?pair_state_set_state; simpl; done
    | apply transaction_ok_set_state; [done|transaction_ok_tac]
    | eapply transaction_ok_ext; [| |eassumption];
      simpl; rewrite ?pair_state_set_state; simpl; done ].

Ltac pair_step_tac :=
  split;
  [ unfold pair_step_weak; simpl;
    rewrite ?pair_local_set_state, ?pair_remote_set_state,
      ?is_nominated_set_state;
    simpl; auto
  | intros ?; transaction_ok_tac ].

Ltac pairs_only_tac :=
  repeat first
    [ apply pairs_only_refl
    | apply pairs_only_queue
    | apply pairs_only_sendMessage
    | (eapply pairs_only_put_pair; [eassumption | pair_step_tac]; fail)
    | (eapply pairs_only_trans; [| apply pairs_only_queue])
    | (eapply pairs_only_trans; [apply pairs_only_sendMessage |])
    ].

Lemma put_pair_sendMessage p x w cl :
  put_pair p x (sendMessage w cl) = sendMessage w (put_pair p x cl).
Proof. done. Qed.

Lemma pairs_only_send_emit s o rtp p x x0 cl cl' :
  get_pair cl p = Some x0 → pair_step x0 x →
  ice_send_binding_request_emit s o rtp p x cl = Some cl' → pairs_only cl cl'.
Proof.
  unfold ice_send_binding_request_emit. intros Hp Hx Hs.
  step_opt; rewrite ?put_pair_sendMessage;
    try (eapply pairs_only_trans; [|apply pairs_only_sendMessage]);
    (eapply pairs_only_put_pair; [eassumption|]);
    (eapply pair_step_trans; [eassumption|]); pair_step_tac.
Qed.

Lemma pairs_only_send s o rtp p cl cl' :
  ice_send_binding_request s o rtp p cl = Some cl' → pairs_only cl cl'.
Proof.
  unfold ice_send_binding_request. intros Hs.
  destruct (get_pair cl p) as [x|] eqn:Hp; simplify_option_eq;
    repeat case_match; simplify_eq.
  - eapply pairs_only_trans; [|apply pairs_only_queue].
    eapply pairs_only_put_pair; [eassumption|pair_step_tac].
  - eapply pairs_only_put_pair; [eassumption|pair_step_tac].
  - eapply pairs_only_send_emit; [eassumption| |eassumption]. pair_step_tac.
  - eapply pairs_only_send_emit; [eassumption| |eassumption]. pair_step_tac.
Qed.



Lemma pairs_only_retransmission s o rtp time p cl cl' :
  ice_handle_connectivity_check_retransmission s o rtp time p cl = Some cl' →
  pairs_only cl cl'.
Proof.
  unfold ice_handle_connectivity_check_retransmission. intros Hs.
  step_opt; first [apply pairs_only_refl | by eapply pairs_only_send].
Qed.

Lemma pairs_only_send_indication rtp p cl cl' :
  ice_send_indication rtp p cl = Some cl' → pairs_only cl cl'.
Proof.
  unfold ice_send_indication. intros Hs. step_opt; pairs_only_tac.
Qed.

Lemma pairs_only_keepalive rtp cl cl' :
  ice_send_keepalive_packets rtp cl = Some cl' → pairs_only cl cl'.
Proof.
  unfold ice_send_keepalive_packets.
  apply for_each2_pairs_only.
  intros c a b. unfold ice_send_keepalive_packet_for_componentID. intros Hs.
  step_opt; eauto using pairs_only_send_indication, pairs_only_refl.
Qed.

Lemma pairs_only_send_binding_response rtp evt msg cl :
  pairs_only cl (ice_send_binding_response rtp evt msg cl).
Proof. unfold ice_send_binding_response. step_opt; pairs_only_tac. Qed.

Lemma pairs_only_send_error_response rtp evt msg c n cl :
  pairs_only cl (ice_send_error_response rtp evt msg c n cl).
Proof. unfold ice_send_error_response. step_opt; pairs_only_tac. Qed.

Lemma pairs_only_check_attributes rtp evt msg cl :
  pairs_only cl (ice_check_received_binding_request_attributes rtp evt msg cl).2.
Proof.
  unfold ice_check_received_binding_request_attributes.
  step_opt; simpl; auto using pairs_only_send_error_response, pairs_only_refl.
Qed.

Lemma pairs_only_check_integrity s rtp evt msg cl :
  pairs_only cl (ice_check_received_binding_request_integrity s rtp evt msg cl).2.
Proof.
  unfold ice_check_received_binding_request_integrity.
  step_opt; simpl; auto using pairs_only_send_error_response, pairs_only_refl.
Qed.

Lemma pairs_only_check_username s rtp evt msg cl :
  pairs_only cl (ice_check_received_binding_request_username s rtp evt msg cl).2.
Proof.
  unfold ice_check_received_binding_request_username.
  step_opt; simpl; auto using pairs_only_send_error_response, pairs_only_refl.
Qed.

Lemma pairs_only_nominated_on_request s msg p cl cl' :
  ice_update_nominated_flag_on_binding_request s msg p cl = Some cl' →
  pairs_only cl cl'.
Proof.
  unfold ice_update_nominated_flag_on_binding_request. intros Hs.
  step_opt; pairs_only_tac.
Qed.

Lemma pairs_only_response_addresses rtp evt p cl r cl' :
  ice_check_received_binding_response_addresses rtp evt p cl = Some (r, cl') →
  pairs_only cl cl'.
Proof.
  unfold ice_check_received_binding_response_addresses. intros Hs.
  step_opt; pairs_only_tac.
Qed.

Lemma pairs_only_frozen_to_waiting sp p cl cl' :
  ice_change_state_of_frozen_pairs_to_waiting sp p cl = Some cl' →
  pairs_only cl cl'.
Proof.
  unfold ice_change_state_of_frozen_pairs_to_waiting. intros Hs.
  step_opt; pairs_only_tac.
Qed.

Lemma pairs_only_states_on_response_with
    (R : IceCandidatePair → IceCandidatePair → Prop) p x cl cl' :
  (∀ x, R x x) → (∀ x y z, R x y → R y z → R x z) →
  (∀ x y, pair_step x y → R x y) →
  get_pair cl p = Some x → R x (ice_pair_set_state ICP_Succeeded x) →
  ice_update_pair_states_on_binding_response p cl = Some cl' →
  pairs_only_with R cl cl'.
Proof.
  unfold ice_update_pair_states_on_binding_response.
  intros Hrefl Htrans Hsub Hp Hx Hs. rewrite Hp in Hs.
  cbn [mbind option_bind] in Hs.
  apply (pairs_only_with_trans R Htrans _
           (put_pair p (ice_pair_set_state ICP_Succeeded x) cl)).
  - by eapply pairs_only_with_put_pair.
  - eapply pairs_only_with_mono; [exact Hsub|].
    eapply for_each2_pairs_only; [|exact Hs].
    intros ? ? ? Hf. exact (pairs_only_frozen_to_waiting _ _ _ _ Hf).
Qed.

Lemma pairs_only_weak_states_on_response p cl cl' :
  ice_update_pair_states_on_binding_response p cl = Some cl' →
  pairs_only_with pair_step_weak cl cl'.
Proof.
  intros Hs. destruct (get_pair cl p) as [x|] eqn:Hp.
  - eapply pairs_only_states_on_response_with; eauto using pair_step_weak_refl,
      pair_step_weak_trans, pair_step_is_weak.
    unfold pair_step_weak.
    by rewrite pair_local_set_state, pair_remote_set_state, is_nominated_set_state.
  - unfold ice_update_pair_states_on_binding_response in Hs.
    by rewrite Hp in Hs.
Qed.

Lemma pairs_only_states_on_response p x cl cl' :
  get_pair cl p = Some x → transactionID x ≠ 0 →
  ice_update_pair_states_on_binding_response p cl = Some cl' →
  pairs_only cl cl'.
Proof.
  intros Hp Hx. apply (pairs_only_states_on_response_with pair_step p x);
    [apply pair_step_refl|apply pair_step_trans|done|done|].
  split.
  - unfold pair_step_weak.
    by rewrite pair_local_set_state, pair_remote_set_state, is_nominated_set_state.
  - intros _. unfold transaction_ok, zero_when_waiting_or_failed,
      nonzero_when_succeeded.
    rewrite pair_state_set_state, transactionID_set_state.
    split; [intros [?|?]; done|]. intros _. by case_decide.
Qed.

Lemma pairs_only_nominated_on_response s v sp st cl cl' :
  ice_update_nominated_flag_on_binding_response s v sp st cl = Some cl' →
  pairs_only cl cl'.
Proof.
  unfold ice_update_nominated_flag_on_binding_response. intros Hs.
  step_opt; pairs_only_tac.
Qed.

Lemma pairs_only_priority_at r p cl cl' :
  ice_compute_pair_priority_at r p cl = Some cl' → pairs_only cl cl'.
Proof.
  unfold ice_compute_pair_priority_at, ice_compute_pair_priority. intros Hs.
  step_opt; pairs_only_tac.
Qed.

Lemma pairs_only_compute_priorities r cl cl' :
  ice_check_list_compute_pair_priorities r cl = Some cl' → pairs_only cl cl'.
Proof.
  unfold ice_check_list_compute_pair_priorities.
  apply for_each2_pairs_only. intros. by eapply pairs_only_priority_at.
Qed.

Lemma pairs_only_regular_nomination vp cl cl' :
  ice_perform_regular_nomination vp cl = Some cl' → pairs_only cl cl'.
Proof.
  unfold ice_perform_regular_nomination. intros Hs.
  step_opt; pairs_only_tac.
Qed.

Lemma pairs_only_stop_retransmission cid p cl cl' :
  ice_stop_retransmission_for_in_progress_pair cid p cl = Some cl' →
  pairs_only cl cl'.
Proof.
  unfold ice_stop_retransmission_for_in_progress_pair. intros Hs.
  step_opt; pairs_only_tac.
Qed.


(** ** Searching a list *)

Lemma find_custom_Some {A} (cmp : A → option Z) l x :
  ms_list_find_custom cmp l = Some (Some x) → x ∈ l ∧ cmp x = Some 0.
Proof.
  induction l as [|y l IH]; simpl; [done|].
  destruct (cmp y) as [r|] eqn:E; simpl; [|done].
  destruct (r =? 0) eqn:Er.
  - intros [= ->]. apply Z.eqb_eq in Er. subst. split; [left|done].
  - intros Hf. destruct (IH Hf). split; [by right|done].
Qed.

Lemma find_custom_None {A} (cmp : A → option Z) l :
  ms_list_find_custom cmp l = Some None →
  ∀ x, x ∈ l → ∃ r, cmp x = Some r ∧ r ≠ 0.
Proof.
  induction l as [|y l IH]; simpl; [intros _ x Hx; by apply elem_of_nil in Hx|].
  destruct (cmp y) as [r|] eqn:E; simpl; [|done].
  destruct (r =? 0) eqn:Er; [done|].
  intros Hf x Hx. apply elem_of_cons in Hx as [->|Hx]; [|by apply IH].
  exists r. split; [done|]. by apply Z.eqb_neq.
Qed.

Lemma insert_sorted_perm {A} (cmp : A → A → option Z) l x l' :
  ms_list_insert_sorted l x cmp = Some l' → l' ≡ₚ x :: l.
Proof.
  revert l'. induction l as [|y l IH]; simpl; intros l'.
  - by intros [= <-].
  - destruct (cmp x y) as [r|]; simpl; [|done].
    destruct (r <=? 0); [by intros [= <-]|].
    destruct (ms_list_insert_sorted l x cmp) as [l0|]; simpl; [|done].
    intros [= <-]. rewrite (IH l0 eq_refl). apply perm_swap.
Qed.

(** ** Registered and nominated components *)

Lemma registered_true cl cid :
  registered cl cid = true ↔
  ∃ c cand, c ∈ componentIDs cl ∧ get_cand cl c = Some cand
            ∧ cand_componentID cand = cid.
Proof.
  unfold registered. induction (componentIDs cl) as [|c l IH]; simpl.
  - split; [done|]. intros (c&?&Hc&_). by apply elem_of_nil in Hc.
  - rewrite orb_true_iff, IH. split.
    + intros [Hc|(c'&cand&?&?&?)].
      * destruct (get_cand cl c) as [cand|] eqn:E; [|done].
        apply Z.eqb_eq in Hc. exists c, cand. split; [left|done].
      * exists c', cand. split; [by right|done].
    + intros (c'&cand&Hc&Hg&Hcid). apply elem_of_cons in Hc as [->|Hc].
      * left. rewrite Hg. by apply Z.eqb_eq.
      * right. by exists c', cand.
Qed.

Lemma forallb_true {A} (f : A → bool) l :
  forallb f l = true ↔ ∀ x, x ∈ l → f x = true.
Proof.
  induction l as [|y l IH]; simpl.
  - split; [|done]. intros _ x Hx. by apply elem_of_nil in Hx.
  - rewrite andb_true_iff, IH. split.
    + intros [? ?] x Hx. apply elem_of_cons in Hx as [->|?]; auto.
    + intros Hx. split; [apply Hx; left|intros; apply Hx; by right].
Qed.

Lemma components_registered_true cl :
  components_registered cl = true ↔
  (∀ c, c ∈ componentIDs cl → is_Some (get_cand cl c))
  ∧ (∀ c, c ∈ local_candidates cl →
       ∃ cand, get_cand cl c = Some cand
               ∧ registered cl (cand_componentID cand) = true)
  ∧ (∀ p, p ∈ check_list cl →
       ∃ x l, get_pair cl p = Some x ∧ local_of cl x = Some l
              ∧ registered cl (cand_componentID l) = true).
Proof.
  unfold components_registered.
  rewrite !andb_true_iff, !forallb_true. split.
  - intros [[H1 H2] H3]. split; [|split].
    + intros c Hc. specialize (H1 c Hc). by apply bool_decide_eq_true in H1.
    + intros c Hc. specialize (H2 c Hc).
      destruct (get_cand cl c) as [cand|]; [eauto|done].
    + intros p Hp. specialize (H3 p Hp).
      destruct (get_pair cl p) as [x|]; [|done].
      destruct (local_of cl x) as [l|] eqn:E; [eauto|done].
  - intros (H1&H2&H3). split; [split|].
    + intros c Hc. apply bool_decide_eq_true. auto.
    + intros c Hc. destruct (H2 c Hc) as (cand&->&?). done.
    + intros p Hp. destruct (H3 p Hp) as (x&l&->&->&?). done.
Qed.

Lemma evolves_refl cl : evolves cl cl.
Proof.
  unfold evolves. repeat split; eauto using pair_step_weak_refl.
Qed.

Lemma evolves_trans a b c : evolves a b → evolves b c → evolves a c.
Proof.
  intros (A1&A2&A3&A4) (B1&B2&B3&B4). repeat split; auto.
  - intros i cand Hi. destruct (A1 _ _ Hi) as (cand1&H1&E1).
    destruct (B1 _ _ H1) as (cand2&H2&E2). exists cand2. split; [done|congruence].
  - intros p x Hp. destruct (A2 _ _ Hp) as (x1&H1&E1).
    destruct (B2 _ _ H1) as (x2&H2&E2). exists x2.
    split; [done|by eapply pair_step_weak_trans].
Qed.

Lemma evolves_local_of cl cl' x x' l :
  evolves cl cl' → pair_step_weak x x' → local_of cl x = Some l →
  ∃ l', local_of cl' x' = Some l' ∧ cand_componentID l' = cand_componentID l.
Proof.
  intros (E1&_) (Hl&_) Hx. unfold local_of in *. rewrite Hl.
  destruct (pair_local x) as [c|]; [|done]. simpl in *. eauto.
Qed.

Lemma registered_mono cl cl' cid :
  evolves cl cl' → registered cl cid = true → registered cl' cid = true.
Proof.
  intros (E1&_&_&E4). rewrite !registered_true.
  intros (c&cand&Hc&Hg&Hcid). destruct (E1 _ _ Hg) as (cand'&?&?).
  exists c, cand'. repeat split; auto. congruence.
Qed.

Lemma nominated_for_mono cl cl' cid :
  evolves cl cl' → nominated_for cl cid → nominated_for cl' cid.
Proof.
  intros Hev (vp&x&l&Hvp&Hx&Hn&Hl&Hcid).
  pose proof Hev as (E1&E2&E3&E4).
  destruct (E2 _ _ Hx) as (x'&Hx'&Hstep).
  destruct (evolves_local_of _ _ _ _ _ Hev Hstep Hl) as (l'&Hl'&?).
  exists vp, x', l'. repeat split; auto; [by apply Hstep|congruence].
Qed.

Lemma all_nominated_mono cl cl' :
  evolves cl cl' →
  (∀ cid, registered cl' cid = true → registered cl cid = true) →
  all_nominated cl → all_nominated cl'.
Proof.
  intros Hev Hreg Hall cid Hcid. eapply nominated_for_mono; eauto.
Qed.

(** ** Consequences of the footprints *)

Lemma steps_transactions_ok l l' :
  Forall2 pair_step l l' → Forall transaction_ok l → Forall transaction_ok l'.
Proof.
  induction 1 as [|x y l l' [_ Hxy]]; inversion 1; subst; constructor; auto.
Qed.

Lemma shrinks_refl cl : shrinks cl cl.
Proof.
  unfold shrinks. repeat split; auto using steps_refl, pair_step_refl.
Qed.

Lemma shrinks_trans a b c : shrinks a b → shrinks b c → shrinks a c.
Proof.
  unfold shrinks. intros (?&?&?&?&?&?&?) (?&?&?&?&?&?&?).
  repeat split; try congruence.
  - by etrans.
  - eapply steps_trans; eauto using pair_step_trans.
Qed.

Lemma pairs_only_shrinks cl cl' : pairs_only cl cl' → shrinks cl cl'.
Proof.
  unfold pairs_only, pairs_only_with, shrinks. intros (?&?&?&?&Hc&?&?&?&?&?).
  repeat split; try done. by rewrite Hc.
Qed.

Lemma shrinks_transactions_ok cl cl' :
  shrinks cl cl' → transactions_ok cl → transactions_ok cl'.
Proof.
  intros (_&_&_&_&_&_&Hs). unfold transactions_ok. by apply steps_transactions_ok.
Qed.

Lemma shrinks_length cl cl' :
  shrinks cl cl' → (length (check_list cl') ≤ length (check_list cl))%nat.
Proof. intros (_&_&_&_&_&Hs&_). by apply sublist_length. Qed.

Lemma steps_evolve (R : IceCandidatePair → IceCandidatePair → Prop) l l' p x :
  (∀ x y, R x y → pair_step_weak x y) →
  Forall2 R l l' → l !! p = Some x →
  ∃ x', l' !! p = Some x' ∧ pair_step_weak x x'.
Proof.
  intros HR HF Hp. destruct (Forall2_lookup_l _ _ _ _ _ HF Hp) as (x'&?&?).
  eauto.
Qed.

Lemma shrinks_evolves cl cl' : shrinks cl cl' → evolves cl cl'.
Proof.
  intros (Hc&_&_&Hv&Hi&_&Hs). unfold evolves, get_cand, get_pair.
  rewrite Hc, Hv, Hi. repeat split; eauto.
  intros p x Hp. eapply (steps_evolve pair_step); eauto using pair_step_is_weak.
Qed.

Lemma shrinks_registered cl cl' cid :
  shrinks cl cl' → registered cl' cid = registered cl cid.
Proof.
  intros (Hc&_&_&_&Hi&_). unfold registered, get_cand. by rewrite Hc, Hi.
Qed.

Lemma shrinks_grows cl cl' : shrinks cl cl' → grows cl cl'.
Proof.
  intros Hs. pose proof (shrinks_evolves _ _ Hs) as Hev.
  pose proof Hs as (Hc&Hl&Hr&Hv&Hi&Hsub&Hst).
  split; [done|]. split.
  - unfold candidates_bounded. by rewrite Hl, Hr.
  - intros Hreg. split; [|intros cid; by rewrite (shrinks_registered _ _ _ Hs)].
    apply components_registered_true in Hreg as (H1&H2&H3).
    apply components_registered_true. split; [|split].
    + intros c. unfold get_cand. rewrite Hi, Hc. apply H1.
    + intros c. rewrite Hl. intros Hin. destruct (H2 c Hin) as (cand&?&?).
      exists cand. unfold get_cand in *. rewrite Hc.
      by rewrite (shrinks_registered _ _ _ Hs).
    + intros p Hin. eapply elem_of_sublist in Hin; [|exact Hsub].
      destruct (H3 p Hin) as (x&l&Hx&Hlo&?).
      destruct Hev as (E1&E2&_). destruct (E2 _ _ Hx) as (x'&Hx'&Hstep).
      exists x', l. split; [done|]. split.
      * unfold local_of, get_cand in *. rewrite Hc.
        destruct Hstep as (->&_). done.
      * by rewrite (shrinks_registered _ _ _ Hs).
Qed.

Lemma grows_refl cl : grows cl cl.
Proof. split; [apply evolves_refl|]. split; auto. Qed.

Lemma grows_trans a b c : grows a b → grows b c → grows a c.
Proof.
  intros (A1&A2&A3) (B1&B2&B3). split; [by eapply evolves_trans|].
  split; [auto|]. intros Ha. destruct (A3 Ha) as [Hb Hab].
  destruct (B3 Hb) as [Hc Hbc]. split; auto.
Qed.

Lemma quiet_refl cl : quiet cl cl.
Proof. split; [apply grows_refl|done]. Qed.

Lemma quiet_trans a b c : quiet a b → quiet b c → quiet a c.
Proof.
  intros (A1&A2&A3) (B1&B2&B3). split; [by eapply grows_trans|].
  split; congruence.
Qed.

Lemma pairs_only_quiet cl cl' : pairs_only cl cl' → quiet cl cl'.
Proof.
  intros Hp. split; [by apply shrinks_grows, pairs_only_shrinks|].
  destruct Hp as (?&?&?&?&?&?&?&?&?&?). done.
Qed.


(** ** Conclusion *)

Lemma remove_rest_sublist cl cid l l' :
  ice_remove_waiting_and_frozen_pairs_rest cl cid l = Some l' → sublist l' l.
Proof.
  revert l'. induction l as [|p l IH]; simpl; intros l'.
  - intros [= <-]. constructor.
  - destruct (waiting_or_frozen_with_componentID cl cid p) as [b|]; [|done].
    simpl. destruct (ice_remove_waiting_and_frozen_pairs_rest cl cid l)
      as [l0|]; [|done].
    simpl. intros [= <-]. destruct b; [apply sublist_cons|apply sublist_skip]; auto.
Qed.

Lemma remove_from_list_sublist cl cid l l' :
  ice_remove_waiting_and_frozen_pairs_from_list cl cid l = Some l' →
  sublist l' l.
Proof.
  destruct l as [|p l]; simpl.
  - intros [= <-]. constructor.
  - destruct (waiting_or_frozen_with_componentID cl cid p) as [b|]; [|done].
    simpl. destruct b.
    + intros [= <-]. by apply sublist_cons.
    + destruct (ice_remove_waiting_and_frozen_pairs_rest cl cid l)
        as [l0|] eqn:E; [|done].
      simpl. intros [= <-]. apply sublist_skip. by eapply remove_rest_sublist.
Qed.

Lemma shrinks_set_check_list l cl :
  sublist l (check_list cl) → shrinks cl (set_check_list l cl).
Proof.
  intros Hl. unfold shrinks; simpl.
  repeat split; auto using steps_refl, pair_step_refl.
Qed.

Lemma shrinks_set_queue q cl : shrinks cl (set_triggered_checks_queue q cl).
Proof.
  unfold shrinks; simpl. repeat split; auto using steps_refl, pair_step_refl.
Qed.

Lemma pairs_only_same_state cl cl' : pairs_only cl cl' → same_state cl cl'.
Proof. intros (?&?&?&?&?&?&?&?&?&?). by split. Qed.

Lemma same_state_trans a b c : same_state a b → same_state b c → same_state a c.
Proof. intros [? ?] [? ?]. split; congruence. Qed.

Lemma conclude_pairs_shrinks vp cl cl' :
  ice_conclude_waiting_frozen_and_inprogress_pairs vp cl = Some cl' →
  shrinks cl cl' ∧ same_state cl cl'.
Proof.
  unfold ice_conclude_waiting_frozen_and_inprogress_pairs. intros Hs.
  destruct (get_pair cl (valid vp)) as [v|]; [|done]. simpl in Hs.
  destruct (is_nominated v); [|simplify_eq; split; [apply shrinks_refl|done]].
  destruct (local_of cl v) as [l|]; [|done]. simpl in Hs.
  destruct (ice_remove_waiting_and_frozen_pairs_from_list cl
              (cand_componentID l) (check_list cl)) as [l1|] eqn:E1; [|done].
  simpl in Hs.
  destruct (ice_remove_waiting_and_frozen_pairs_from_list
              (set_check_list l1 cl) (cand_componentID l)
              (triggered_checks_queue cl)) as [q|] eqn:E2; [|done].
  simpl in Hs.
  assert (pairs_only (set_triggered_checks_queue q (set_check_list l1 cl)) cl')
    as Hp.
  { eapply for_each2_pairs_only; [|exact Hs].
    intros ? ? ? Hf. exact (pairs_only_stop_retransmission _ _ _ _ Hf). }
  split.
  - eapply shrinks_trans; [|by apply pairs_only_shrinks].
    eapply shrinks_trans; [|apply shrinks_set_queue].
    apply shrinks_set_check_list. by eapply remove_from_list_sublist.
  - by destruct (pairs_only_same_state _ _ Hp).
Qed.

Lemma nominated_found cl cid vp :
  ms_list_find_custom (ice_find_nominated_valid_pair_from_componentID cl cid)
    (valid_list cl) = Some (Some vp) →
  nominated_for cl cid.
Proof.
  intros Hf. apply find_custom_Some in Hf as [Hin Hc].
  unfold ice_find_nominated_valid_pair_from_componentID in Hc.
  destruct (get_pair cl (valid vp)) as [x|] eqn:Hx; [|done]. simpl in Hc.
  destruct (is_nominated x) eqn:Hn; [|done].
  destruct (local_of cl x) as [l|] eqn:Hl; [|done]. simpl in Hc.
  destruct (cand_componentID l =? cid) eqn:E; [|done].
  apply Z.eqb_eq in E. by exists vp, x, l.
Qed.

Lemma nominated_not_found cl cid :
  ms_list_find_custom (ice_find_nominated_valid_pair_from_componentID cl cid)
    (valid_list cl) = Some None →
  ¬ nominated_for cl cid.
Proof.
  intros Hf (vp&x&l&Hin&Hx&Hn&Hl&Hcid).
  destruct (find_custom_None _ _ Hf vp Hin) as (r&Hc&Hr).
  unfold ice_find_nominated_valid_pair_from_componentID in Hc.
  rewrite Hx in Hc. simpl in Hc. rewrite Hn, Hl in Hc. simpl in Hc.
  apply Z.eqb_eq in Hcid. rewrite Hcid in Hc. by simplify_eq.
Qed.

(** The completion test of [ice_conclude_processing]. *)
Lemma completion_test cl l b r :
  for_each2 (ice_find_nominated_valid_pair_for_componentID cl) l b = Some r →
  (r = true → b = true ∧
     ∀ c cand, c ∈ l → get_cand cl c = Some cand →
               nominated_for cl (cand_componentID cand))
  ∧ (r = false → b = false ∨
       ∃ c cand, c ∈ l ∧ get_cand cl c = Some cand
                 ∧ ¬ nominated_for cl (cand_componentID cand)).
Proof.
  revert b. induction l as [|c l IH]; cbn [for_each2]; intros b.
  - intros [= <-]. split; [|intros; by left]. intros ->. split; [done|].
    intros c cand Hc. by apply elem_of_nil in Hc.
  - destruct (ice_find_nominated_valid_pair_for_componentID cl c b)
      as [b'|] eqn:Hb; [|done].
    cbn [mbind option_bind]. intros Hr. destruct (IH _ Hr) as [IH1 IH2].
    unfold ice_find_nominated_valid_pair_for_componentID in Hb.
    destruct (get_cand cl c) as [cand|] eqn:Hc; [|done].
    cbn [mbind option_bind] in Hb.
    destruct (ms_list_find_custom _ (valid_list cl)) as [[vp|]|] eqn:Hf;
      [| |done]; cbn [mbind option_bind] in Hb; simplify_eq.
    + split.
      * intros Ht. destruct (IH1 Ht) as [-> Hall]. split; [done|].
        intros c' cand' Hin Hg. apply elem_of_cons in Hin as [->|Hin]; [|eauto].
        rewrite Hc in Hg. simplify_eq. by eapply nominated_found.
      * intros Hfalse. destruct (IH2 Hfalse) as [?|(c'&cand'&?&?&?)]; [by left|].
        right. exists c', cand'. split; [by right|done].
    + split.
      * intros Ht. by destruct (IH1 Ht).
      * intros _. right. exists c, cand. split; [left|].
        split; [done|]. by apply nominated_not_found.
Qed.

Lemma completion_test_all cl r :
  for_each2 (ice_find_nominated_valid_pair_for_componentID cl)
    (componentIDs cl) true = Some r →
  (r = true → all_nominated cl) ∧ (r = false → ¬ all_nominated cl).
Proof.
  intros Hr. destruct (completion_test _ _ _ _ Hr) as [H1 H2]. split.
  - intros Ht cid Hreg. destruct (H1 Ht) as [_ Hall].
    apply registered_true in Hreg as (c&cand&?&?&<-). eauto.
  - intros Hf Hall. destruct (H2 Hf) as [?|(c&cand&Hin&Hg&Hn)]; [done|].
    apply Hn, Hall, registered_true. eauto.
Qed.

Lemma conclude_cases s cl cl' :
  ice_conclude_processing s cl = Some cl' →
  ∃ cl1, shrinks cl cl1 ∧ same_state cl cl1 ∧
    (cl' = cl1
     ∨ (cl_state cl1 ≠ ICL_Completed ∧ all_nominated cl1
        ∧ cl' = set_keepalive_time (ticker_time s)
                  (set_success_cb_calls (S (success_cb_calls cl1))
                     (set_cl_state ICL_Completed cl1)))
     ∨ (¬ all_nominated cl1 ∧ cl' = set_cl_state ICL_Failed cl1)).
Proof.
  unfold ice_conclude_processing. intros Hs.
  destruct (if bool_decide (role s = IR_Controlling)
            then for_each2 ice_perform_regular_nomination (valid_list cl) cl
            else Some cl) as [cla|] eqn:Ha; [|done].
  simpl in Hs.
  assert (pairs_only cl cla) as Hpa.
  { destruct (bool_decide _); [|simplify_eq; apply pairs_only_refl].
    eapply for_each2_pairs_only; [|exact Ha].
    intros ? ? ? Hf. exact (pairs_only_regular_nomination _ _ _ Hf). }
  destruct (for_each2 ice_conclude_waiting_frozen_and_inprogress_pairs
              (valid_list cla) cla) as [cl1|] eqn:Hb; [|done].
  simpl in Hs.
  assert (shrinks cla cl1 ∧ same_state cla cl1) as [Hsh Hst].
  { eapply (for_each2_inv (λ b, shrinks cla b ∧ same_state cla b));
      [|split; [apply shrinks_refl|done]|exact Hb].
    intros vp a b [? ?] Hf. apply conclude_pairs_shrinks in Hf as [? ?].
    split; [by eapply shrinks_trans|by eapply same_state_trans]. }
  exists cl1. split; [eapply shrinks_trans; [by apply pairs_only_shrinks|done]|].
  split; [eapply same_state_trans; [by apply pairs_only_same_state|done]|].
  destruct (for_each2 (ice_find_nominated_valid_pair_for_componentID cl1)
              (componentIDs cl1) true) as [r|] eqn:Hr; [|done].
  simpl in Hs. apply completion_test_all in Hr as [Hr1 Hr2].
  destruct r.
  - destruct (decide (cl_state cl1 ≠ ICL_Completed)); simplify_eq;
      [right; left; auto|by left].
  - destruct (for_each2 (ice_check_all_pairs_in_failed_or_succeeded_state cl1)
                (check_list cl1) true) as [r'|]; [|done].
    simpl in Hs. destruct r'; [|simplify_eq; by left].
    destruct (decide (cl_state cl1 ≠ ICL_Failed)); simplify_eq;
      [right; right; auto|by left].
Qed.


Lemma transactions_ok_same_arena cl cl' :
  cl_pair_arena cl' = cl_pair_arena cl → transactions_ok cl → transactions_ok cl'.
Proof. unfold transactions_ok. by intros ->. Qed.

Lemma conclude_engine_inv s cl cl' :
  ice_conclude_processing s cl = Some cl' → engine_inv cl → engine_inv cl'.
Proof.
  intros Hs [Hreg [Hc1 Hc2]].
  apply conclude_cases in Hs as (cl1&Hsh&[Hst Hcalls]&Hcases).
  destruct (shrinks_grows _ _ Hsh) as (Hev&_&Hg).
  destruct (Hg Hreg) as [Hreg1 Hnew].
  assert (callback_ok cl1) as [Hd1 Hd2].
  { split; rewrite Hst, Hcalls; [|done].
    intros Hcomp. destruct (Hc1 Hcomp). split; [done|].
    by eapply all_nominated_mono. }
  destruct Hcases as [->|[(Hne&Hall&->)|(Hnall&->)]].
  - done.
  - split; [done|]. split; simpl; [|done].
    intros _. split; [by rewrite Hd2|done].
  - split; [done|]. split; simpl; [done|].
    intros _. apply Hd2. intros Hcomp. by destruct (Hd1 Hcomp).
Qed.

Lemma conclude_summary tx s cl cl' :
  ice_conclude_processing s cl = Some cl' → step_summary tx 0 cl cl'.
Proof.
  intros Hs. pose proof (conclude_engine_inv _ _ _ Hs) as Hinv.
  apply conclude_cases in Hs as (cl1&Hsh&[_ Hcalls]&Hcases).
  assert (cl_pair_arena cl' = cl_pair_arena cl1
          ∧ check_list cl' = check_list cl1
          ∧ local_candidates cl' = local_candidates cl1
          ∧ remote_candidates cl' = remote_candidates cl1) as (Ha&Hc&Hl&Hr).
  { by destruct Hcases as [->|[(_&_&->)|(_&->)]]. }
  split; [|split; [done|split; [|split]]].
  - intros _ Hok. eapply transactions_ok_same_arena; [exact Ha|].
    by eapply shrinks_transactions_ok.
  - unfold candidates_bounded. rewrite Hl, Hr.
    destruct Hsh as (_&->&->&_). done.
  - rewrite Hc. by apply shrinks_length.
  - rewrite <- Hcalls.
    destruct Hcases as [->|[(_&_&->)|(_&->)]]; simpl; lia.
Qed.

(** ** New candidates and new pairs *)

Lemma ice_compute_pair_priority_result r cl x x' :
  ice_compute_pair_priority r cl x = Some x' →
  ∃ v, x' = set_pair_priority v x.
Proof.
  unfold ice_compute_pair_priority. intros Hs.
  destruct (local_of cl x); [|done]. destruct (remote_of cl x); [|done].
  simpl in Hs. destruct r; simplify_eq; eauto.
Qed.

Lemma ice_pair_new_fields s cl lc rc x :
  ice_pair_new s cl lc rc = Some x →
  pair_state x = ICP_Frozen ∧ transactionID x = 0
  ∧ pair_local x = Some lc ∧ pair_remote x = rc ∧ is_nominated x = false.
Proof.
  unfold ice_pair_new. intros Hs.
  destruct (local_of cl _) as [l|]; [|done]. cbn [mbind option_bind] in Hs.
  destruct (remote_of cl _) as [rm|]; [|done]. cbn [mbind option_bind] in Hs.
  apply ice_compute_pair_priority_result in Hs as [v ->].
  destruct (cand_is_default l && cand_is_default rm); simpl;
    rewrite ?pair_state_set_state, ?pair_local_set_state,
      ?pair_remote_set_state, ?is_nominated_set_state; done.
Qed.

Lemma components_registered_evolves cl cl' :
  evolves cl cl' → components_registered cl = true →
  (∀ c, c ∈ componentIDs cl' →
     c ∈ componentIDs cl
     ∨ ∃ cand, get_cand cl' c = Some cand
               ∧ registered cl (cand_componentID cand) = true) →
  (∀ c, c ∈ local_candidates cl' →
     c ∈ local_candidates cl
     ∨ ∃ cand, get_cand cl' c = Some cand
               ∧ registered cl' (cand_componentID cand) = true) →
  (∀ p, p ∈ check_list cl' →
     p ∈ check_list cl
     ∨ ∃ x l, get_pair cl' p = Some x ∧ local_of cl' x = Some l
              ∧ registered cl' (cand_componentID l) = true) →
  components_registered cl' = true
  ∧ ∀ cid, registered cl' cid = true → registered cl cid = true.
Proof.
  intros Hev Hreg Hids Hloc Hchk.
  pose proof Hev as (E1&E2&E3&E4).
  apply components_registered_true in Hreg as (H1&H2&H3).
  split.
  - apply components_registered_true. split; [|split].
    + intros c Hc. destruct (Hids c Hc) as [Hold|(cand&->&_)]; [|done].
      destruct (H1 c Hold) as [cand Hcand].
      destruct (E1 _ _ Hcand) as (cand'&->&_). done.
    + intros c Hc. destruct (Hloc c Hc) as [Hold|?]; [|done].
      destruct (H2 c Hold) as (cand&Hcand&Hr).
      destruct (E1 _ _ Hcand) as (cand'&Hcand'&Hcid).
      exists cand'. split; [done|]. rewrite Hcid. by eapply registered_mono.
    + intros p Hp. destruct (Hchk p Hp) as [Hold|?]; [|done].
      destruct (H3 p Hold) as (x&l&Hx&Hl&Hr).
      destruct (E2 _ _ Hx) as (x'&Hx'&Hstep).
      destruct (evolves_local_of _ _ _ _ _ Hev Hstep Hl) as (l'&Hl'&Hcid).
      exists x', l'. repeat split; auto. rewrite Hcid.
      by eapply registered_mono.
  - intros cid. rewrite !registered_true. intros (c&cand&Hc&Hg&Hcid).
    destruct (Hids c Hc) as [Hold|(cand'&Hg'&Hr)].
    + destruct (H1 c Hold) as [cand0 Hcand0].
      destruct (E1 _ _ Hcand0) as (cand'&Hg'&Hcid').
      exists c, cand0. repeat split; auto. congruence.
    + apply registered_true. congruence.
Qed.


Lemma quiet_of_evolves cl cl' :
  evolves cl cl' →
  componentIDs cl' = componentIDs cl →
  local_candidates cl' = local_candidates cl →
  check_list cl' = check_list cl →
  (candidates_bounded cl → candidates_bounded cl') →
  same_state cl cl' →
  quiet cl cl'.
Proof.
  intros Hev Hi Hl Hc Hb [Hst Hcalls]. split; [|done]. split; [done|].
  split; [done|]. intros Hreg.
  apply components_registered_evolves; auto.
  - rewrite Hi. auto.
  - rewrite Hl. auto.
  - rewrite Hc. auto.
Qed.

Lemma evolves_alter_cand f c cl :
  (∀ x, cand_componentID (f x) = cand_componentID x) →
  evolves cl (alter_cand f c cl).
Proof.
  intros Hf. unfold evolves, alter_cand, get_cand, get_pair; simpl.
  repeat split; eauto using pair_step_weak_refl.
  intros i cand Hi. destruct (decide (c = i)) as [->|Hne].
  - exists (f cand). rewrite list_lookup_alter_eq, Hi. by split.
  - exists cand. by rewrite list_lookup_alter_ne.
Qed.

Lemma evolves_append_cand which l cand cl :
  evolves cl (set_candidate_list which l
                (set_cl_candidates (cl_candidates cl ++ [cand]) cl)).
Proof.
  unfold evolves, get_cand, get_pair. destruct which; simpl;
    repeat split; eauto using pair_step_weak_refl;
    intros i c Hi; exists c; (split; [|done]); by apply lookup_app_l_Some.
Qed.

Lemma ice_add_candidate_cases which ty ip port cid cl r cl' :
  ice_add_candidate which ty ip port cid cl = (r, cl') →
  (r = None ∧ cl' = cl)
  ∨ ∃ cand, r = Some (length (cl_candidates cl))
            ∧ cand_componentID cand = cid
            ∧ (length (candidate_list which cl) < 10)%nat
            ∧ cl' = set_candidate_list which
                      (candidate_list which cl ++ [length (cl_candidates cl)])
                      (set_cl_candidates (cl_candidates cl ++ [cand]) cl).
Proof.
  unfold ice_add_candidate, ms_list_size, ICE_MAX_NB_CANDIDATES, ms_list_append.
  destruct (_ >=? 10) eqn:Hlen; [intros [= <- <-]; by left|].
  assert (length (candidate_list which cl) < 10)%nat by lia.
  repeat case_match; intros [= <- <-]; try (by left); right;
    eexists; (split; [done|]); (split; [|done]); done.
Qed.

Lemma cid_compute_candidate_priority x :
  cand_componentID (ice_compute_candidate_priority x) = cand_componentID x.
Proof. done. Qed.

Lemma quiet_same cl :
  quiet cl cl ∧ cl_pair_arena cl = cl_pair_arena cl
  ∧ check_list cl = check_list cl.
Proof. split; [apply quiet_refl|done]. Qed.

Lemma ice_add_remote_candidate_quiet ty ip port cid prio f cl r cl' :
  ice_add_remote_candidate ty ip port cid prio f cl = (r, cl') →
  quiet cl cl' ∧ cl_pair_arena cl' = cl_pair_arena cl
  ∧ check_list cl' = check_list cl.
Proof.
  unfold ice_add_remote_candidate.
  destruct (ice_add_candidate _ _ _ _ _ _) as [[c|] cl1] eqn:Ha;
    apply ice_add_candidate_cases in Ha as [[? ->]|(cand&?&Hcid&Hlen&->)];
    simplify_eq; intros Heq; injection Heq as <- <-; [|apply quiet_same].
  split; [|done]. apply quiet_of_evolves; try done.
  - eapply evolves_trans; [apply (evolves_append_cand RemoteCandidates)|].
    eapply evolves_trans; [|apply evolves_alter_cand; done].
    apply evolves_alter_cand. intros x. by destruct (prio =? 0).
  - unfold candidates_bounded, ICE_MAX_NB_CANDIDATES; simpl in *.
    rewrite length_app; simpl. lia.
Qed.

Lemma learn_quiet o evt msg taddr cl r cl' :
  ice_learn_peer_reflexive_candidate o evt msg taddr cl = Some (r, cl') →
  quiet cl cl' ∧ cl_pair_arena cl' = cl_pair_arena cl
  ∧ check_list cl' = check_list cl.
Proof.
  unfold ice_learn_peer_reflexive_candidate. intros Hs.
  destruct (socket_type evt); simplify_eq; [| |apply quiet_same];
    (destruct (ms_list_find_custom _ (remote_candidates cl)) as [[?|]|];
     [| |done]; simpl in Hs; simplify_eq; [apply quiet_same|]);
    (destruct (ice_generate_arbitrary_foundation _ _ _ _); [|done]);
    simpl in Hs; simplify_eq; by eapply ice_add_remote_candidate_quiet.
Qed.

Lemma evolves_alloc_pair x cl :
  evolves cl (alloc_pair x cl).2.
Proof.
  unfold evolves, alloc_pair, get_cand, get_pair; simpl.
  repeat split; eauto using pair_step_weak_refl.
  intros p y Hp. exists y. split; [by apply lookup_app_l_Some|].
  apply pair_step_weak_refl.
Qed.

Lemma transactions_ok_alloc_pair x cl :
  transaction_ok x → transactions_ok cl → transactions_ok (alloc_pair x cl).2.
Proof.
  unfold transactions_ok, alloc_pair; simpl. intros Hx Hcl.
  apply Forall_app. split; [done|]. by constructor.
Qed.

Lemma construct_valid_pair_quiet s rtp evt prflx sp cl r cl' :
  ice_construct_valid_pair s rtp evt prflx sp cl = Some (r, cl') →
  quiet cl cl' ∧ check_list cl' = check_list cl
  ∧ (transactions_ok cl → transactions_ok cl')
  ∧ (∀ p x, get_pair cl p = Some x → get_pair cl' p = Some x).
Proof.
  unfold ice_construct_valid_pair. intros Hs.
  destruct (match prflx with Some c => _ | None => _ end) as [[local|]|];
    [| |done]; cbn [mbind option_bind] in Hs;
    [|injection Hs as <- <-; split; [apply quiet_refl|by repeat split]].
  destruct (get_pair cl sp) as [spx|]; [|done]. cbn [mbind option_bind] in Hs.
  destruct (ms_list_find_custom _ (check_list cl)) as [elem|]; [|done].
  cbn [mbind option_bind] in Hs.
  destruct (match elem with Some p => _ | None => _ end)
    as [[p cl1]|] eqn:Hnew; [|done].
  cbn [mbind option_bind] in Hs.
  assert (evolves cl cl1 ∧ check_list cl1 = check_list cl
          ∧ componentIDs cl1 = componentIDs cl
          ∧ local_candidates cl1 = local_candidates cl
          ∧ remote_candidates cl1 = remote_candidates cl
          ∧ same_state cl cl1 ∧ valid_list cl1 = valid_list cl
          ∧ (transactions_ok cl → transactions_ok cl1)
          ∧ (∀ p x, get_pair cl p = Some x → get_pair cl1 p = Some x))
    as (Hev&Hc&Hi&Hl&Hr&Hst&Hv&Htx&Hold).
  { destruct elem as [q|]; simplify_eq.
    - split; [apply evolves_refl|]. repeat split; auto.
    - destruct (ice_pair_new s cl local (pair_remote spx)) as [x|] eqn:Hx;
        [|done]. simpl in Hnew.
      apply ice_pair_new_fields in Hx as (Hfz&_).
      assert (cl1 = (alloc_pair x cl).2) as -> by (by injection Hnew as <-).
      split; [apply evolves_alloc_pair|]. repeat split; auto.
      + intros. apply transactions_ok_alloc_pair; [|done].
        by apply transaction_ok_frozen.
      + intros q y Hq. unfold get_pair, alloc_pair; simpl.
        by apply lookup_app_l_Some. }
  assert (∃ l, cl' = set_valid_list l cl1 ∧ ∀ vp, vp ∈ valid_list cl1 → vp ∈ l)
    as (l&->&Hsub).
  { destruct (ms_list_find_custom _ (valid_list cl1)) as [[?|]|]; [| |done];
      cbn [mbind option_bind] in Hs.
    - injection Hs as <- <-. exists (valid_list cl1).
      split; [by destruct cl1|done].
    - destruct (ms_list_insert_sorted _ _ _) as [l|] eqn:Hins; [|done].
      simpl in Hs. injection Hs as <- <-. exists l. split; [done|].
      intros vp Hvp. apply insert_sorted_perm in Hins. rewrite Hins. by right. }
  split; [|by repeat split].
  apply quiet_of_evolves; simpl; try done.
  - eapply evolves_trans; [exact Hev|].
    unfold evolves, get_cand, get_pair; simpl.
    repeat split; eauto using pair_step_weak_refl.
  - unfold candidates_bounded; simpl. by rewrite Hl, Hr.
Qed.


Lemma cands_only_alter f c cl :
  (∀ x, cand_componentID (f x) = cand_componentID x) →
  cands_only cl (alter_cand f c cl).
Proof.
  intros Hf. split; [by apply evolves_alter_cand|]. by repeat split.
Qed.

Lemma evolves_set_foundation_generator v cl :
  evolves cl (set_foundation_generator v cl).
Proof.
  unfold evolves, get_cand, get_pair; simpl.
  repeat split; eauto using pair_step_weak_refl.
Qed.

Lemma compute_foundation_cands_only c cl cl' :
  ice_compute_candidate_foundation (Some c) cl = Some cl' → cands_only cl cl'.
Proof.
  unfold ice_compute_candidate_foundation. intros Hs.
  destruct (ms_list_find_custom _ (local_candidates cl)) as [l|]; [|done].
  cbn [mbind option_bind] in Hs.
  assert (∀ cl',
    (get_cand cl c ≫= λ _,
       Some (set_foundation_generator (uint 32 (foundation_generator cl + 1))
               (alter_cand
                  (set_cand_foundation
                     (snprintf_s (sizeof_foundation - 1)
                        (fmt_u (foundation_generator cl)))) c cl)))
    = Some cl' → cands_only cl cl') as Hnew.
  { intros cl0 H0. destruct (get_cand cl c); [|done]. simpl in H0.
    injection H0 as <-.
    split; [|by repeat split].
    eapply evolves_trans; [|apply evolves_set_foundation_generator].
    by apply evolves_alter_cand. }
  destruct l as [other|]; [|by apply Hnew].
  destruct (get_cand cl other) as [oc|]; [|done]. cbn [mbind option_bind] in Hs.
  destruct (0 <? strlen (cand_foundation oc))%nat; [|by apply Hnew].
  destruct (get_cand cl c); [|done]. simpl in Hs. injection Hs as <-.
  by apply cands_only_alter.
Qed.

Lemma compute_foundation_null cl :
  ice_compute_candidate_foundation None cl = None.
Proof.
  unfold ice_compute_candidate_foundation.
  destruct (ms_list_find_custom _ _) as [[other|]|]; simpl; try done.
  destruct (get_cand cl other); simpl; [|done]. by case_match.
Qed.

Lemma get_cand_alter_cand f c cl :
  get_cand (alter_cand f c cl) c = f <$> get_cand cl c.
Proof. unfold get_cand, alter_cand; simpl. apply list_lookup_alter_eq. Qed.

Lemma add_componentID_cases c cl cl' :
  ice_add_componentID c cl = Some cl' →
  cl' = cl ∨ cl' = set_componentIDs (componentIDs cl ++ [c]) cl.
Proof.
  unfold ice_add_componentID. intros Hs.
  destruct (get_cand cl c); [|done]. cbn [mbind option_bind] in Hs.
  destruct (ms_list_find_custom _ _) as [[?|]|]; [| |done]; simpl in Hs;
    injection Hs as <-; auto.
Qed.

Lemma add_local_candidate_cases ty ip port cid base cl r cl' :
  ice_add_local_candidate ty ip port cid base cl = Some (r, cl') →
  (r = None ∧ cl' = cl)
  ∨ (r = Some (length (cl_candidates cl))
     ∧ (length (local_candidates cl) < 10)%nat
     ∧ evolves cl cl'
     ∧ (∃ cand, get_cand cl' (length (cl_candidates cl)) = Some cand
                ∧ cand_componentID cand = cid)
     ∧ local_candidates cl'
       = local_candidates cl ++ [length (cl_candidates cl)]
     ∧ (componentIDs cl' = componentIDs cl
        ∨ componentIDs cl' = componentIDs cl ++ [length (cl_candidates cl)])
     ∧ remote_candidates cl' = remote_candidates cl
     ∧ check_list cl' = check_list cl
     ∧ cl_pair_arena cl' = cl_pair_arena cl
     ∧ same_state cl cl').
Proof.
  unfold ice_add_local_candidate.
  destruct (ice_add_candidate _ _ _ _ _ _) as [[c|] cl1] eqn:Ha;
    apply ice_add_candidate_cases in Ha as [[? ->]|(cand&?&Hcid&Hlen&->)];
    simplify_eq; [|intros Heq; injection Heq as <- <-; by left].
  set (c := length (cl_candidates cl)).
  set (f1 := λ candidate : IceCandidate,
               match cand_base candidate with
               | Some _ => candidate
               | None => set_cand_base base candidate
               end).
  set (cl2 := alter_cand ice_compute_candidate_priority c
                (alter_cand f1 c _)).
  intros Hs. destruct (ice_add_componentID c cl2) as [cl3|] eqn:Hadd; [|done].
  simpl in Hs. injection Hs as <- <-. right.
  assert (evolves cl cl2) as Hev.
  { eapply evolves_trans; [apply (evolves_append_cand LocalCandidates)|].
    eapply evolves_trans; apply evolves_alter_cand; [|done].
    intros x. unfold f1. by destruct (cand_base x). }
  assert (∃ cand', get_cand cl2 c = Some cand'
                    ∧ cand_componentID cand' = cand_componentID cand)
    as (cand'&Hc'&Hcid').
  { unfold cl2. rewrite !get_cand_alter_cand.
    unfold get_cand; simpl. rewrite lookup_app_r by done.
    replace (c - length (cl_candidates cl))%nat with 0%nat by (unfold c; lia).
    simpl. eexists. split; [done|]. unfold f1. simpl.
    by destruct (cand_base cand). }
  split; [done|]. split; [done|].
  apply add_componentID_cases in Hadd as [->| ->].
  - split; [done|]. split; [eauto|]. by repeat split; auto.
  - split.
    { eapply evolves_trans; [exact Hev|].
      unfold evolves, get_cand, get_pair; simpl.
      repeat split; eauto using pair_step_weak_refl.
      intros i Hi. apply elem_of_app. by left. }
    split; [eauto|]. by repeat split; auto.
Qed.


Lemma discover_quiet p msg cl r cl' :
  p ∈ check_list cl →
  ice_discover_peer_reflexive_candidate p msg cl = Some (r, cl') →
  quiet cl cl' ∧ cl_pair_arena cl' = cl_pair_arena cl
  ∧ check_list cl' = check_list cl.
Proof.
  unfold ice_discover_peer_reflexive_candidate. intros Hp Hs.
  destruct (ms_list_find_custom _ (local_candidates cl)) as [[?|]|]; [| |done];
    cbn [mbind option_bind] in Hs; [injection Hs as <- <-; apply quiet_same|].
  destruct (get_pair cl p) as [x|] eqn:Hx; [|done].
  cbn [mbind option_bind] in Hs.
  destruct (local_of cl x) as [l|] eqn:Hl; [|done].
  cbn [mbind option_bind] in Hs.
  destruct (ice_add_local_candidate _ _ _ _ _ _) as [[c cl1]|] eqn:Ha; [|done].
  cbn [mbind option_bind] in Hs.
  destruct (ice_compute_candidate_foundation c cl1) as [cl2|] eqn:Hf; [|done].
  simpl in Hs. injection Hs as <- <-.
  apply add_local_candidate_cases in Ha
    as [[-> ->]|(->&Hlen&Hev1&(cand&Hcand&Hcid)&Hl1&Hi1&Hr1&Hc1&Ha1&Hst1)].
  { by rewrite compute_foundation_null in Hf. }
  apply compute_foundation_cands_only in Hf
    as (Hev2&Ha2&Hl2&Hr2&Hc2&Hv2&Hi2&Hst2).
  split; [|split; congruence].
  assert (evolves cl cl2) as Hev by (by eapply evolves_trans).
  split; [|by eapply same_state_trans]. split; [done|]. split.
  - unfold candidates_bounded, ICE_MAX_NB_CANDIDATES.
    rewrite Hl2, Hr2, Hl1, Hr1, length_app. simpl. lia.
  - intros Hreg.
    assert (registered cl (cand_componentID l) = true) as Hregl.
    { apply components_registered_true in Hreg as (_&_&H3).
      destruct (H3 p Hp) as (x'&l'&Hx'&Hl'&?). congruence. }
    destruct Hev2 as (E1&_). destruct (E1 _ _ Hcand) as (cand2&Hcand2&Hcid2).
    apply components_registered_evolves; try done.
    + rewrite Hi2. intros i Hi. destruct Hi1 as [Hi1|Hi1]; rewrite Hi1 in Hi;
        [by left|].
      apply elem_of_app in Hi as [?|Hi]; [by left|].
      apply list_elem_of_singleton in Hi as ->. right.
      exists cand2. split; [done|]. congruence.
    + rewrite Hl2, Hl1. intros i Hi.
      apply elem_of_app in Hi as [?|Hi]; [by left|].
      apply list_elem_of_singleton in Hi as ->. right.
      exists cand2. split; [done|]. rewrite Hcid2, Hcid.
      by eapply registered_mono.
    + rewrite Hc2, Hc1. auto.
Qed.

Lemma sendMessage_eq w cl : sendMessage w cl = set_cl_sent (w :: cl_sent cl) cl.
Proof. done. Qed.

Lemma get_pair_alloc x cl :
  get_pair (alloc_pair x cl).2 (alloc_pair x cl).1 = Some x.
Proof.
  unfold get_pair, alloc_pair; simpl. rewrite lookup_app_r by done.
  by rewrite Nat.sub_diag.
Qed.

Lemma trigger_summary s rtp evt prflx taddr cl r cl' :
  ice_trigger_connectivity_check_on_binding_request s rtp evt prflx taddr cl
  = Some (r, cl') →
  quiet cl cl' ∧ (transactions_ok cl → transactions_ok cl')
  ∧ (length (check_list cl') ≤ S (length (check_list cl)))%nat.
Proof.
  unfold ice_trigger_connectivity_check_on_binding_request. intros Hs.
  assert (quiet cl cl ∧ (transactions_ok cl → transactions_ok cl)
          ∧ (length (check_list cl) ≤ S (length (check_list cl)))%nat) as Hsame.
  { split; [apply quiet_refl|]. split; [done|lia]. }
  assert (∀ cl', pairs_only cl cl' →
            quiet cl cl' ∧ (transactions_ok cl → transactions_ok cl')
            ∧ (length (check_list cl') ≤ S (length (check_list cl)))%nat)
    as Hpairs.
  { intros cl0 Hp. split; [by apply pairs_only_quiet|]. split.
    - by apply shrinks_transactions_ok, pairs_only_shrinks.
    - destruct Hp as (_&_&_&_&->&_). lia. }
  destruct (_ <? 0); [by injection Hs as <- <-|].
  destruct (ms_list_find_custom _ (local_candidates cl)) as [[local|]|] eqn:Hfl;
    [| |done]; cbn [mbind option_bind] in Hs; [|by injection Hs as <- <-].
  apply find_custom_Some in Hfl as [Hlocal _].
  destruct (match prflx with Some c => _ | None => _ end) as [[remote|]|];
    [| |done]; cbn [mbind option_bind] in Hs; [|by injection Hs as <- <-].
  destruct (ms_list_find_custom _ (check_list cl)) as [[p|]|]; [| |done];
    cbn [mbind option_bind] in Hs.
  - (* the pair is in the check list *)
    destruct (get_pair cl p) as [x|] eqn:Hx; [|done].
    cbn [mbind option_bind] in Hs.
    destruct (pair_state x) eqn:Hst; injection Hs as <- <-; apply Hpairs;
      pairs_only_tac.
  - (* a new pair *)
    destruct (ice_pair_new s cl local remote) as [x|] eqn:Hnew; [|done].
    cbn [mbind option_bind] in Hs.
    apply ice_pair_new_fields in Hnew as (Hfz&_&Hxl&_).
    pose proof (get_pair_alloc x cl) as Hget.
    pose proof (evolves_alloc_pair x cl) as Hev1.
    pose proof (transactions_ok_alloc_pair x cl (transaction_ok_frozen x Hfz))
      as Htx1.
    destruct (alloc_pair x cl) as [p cl1] eqn:Halloc. simpl in Hget, Hev1, Htx1.
    assert (check_list cl1 = check_list cl
            ∧ componentIDs cl1 = componentIDs cl
            ∧ local_candidates cl1 = local_candidates cl
            ∧ remote_candidates cl1 = remote_candidates cl
            ∧ same_state cl cl1) as (Hc1&Hi1&Hl1&Hr1&Hst1).
    { unfold alloc_pair in Halloc. by injection Halloc as <- <-. }
    destruct (ms_list_insert_sorted (check_list cl1) p _) as [l|] eqn:Hins;
      [|done].
    cbn [mbind option_bind] in Hs. apply insert_sorted_perm in Hins.
    change (get_pair (set_check_list l cl1) p) with (get_pair cl1 p) in Hs.
    rewrite Hget in Hs. cbn [mbind option_bind] in Hs. injection Hs as <- <-.
    set (cl2 := set_check_list l cl1).
    assert (pairs_only cl2
              (ice_check_list_queue_triggered_check p
                 (put_pair p (ice_pair_set_state ICP_Waiting x) cl2))) as Hp.
    { eapply pairs_only_trans; [|apply pairs_only_queue].
      eapply pairs_only_put_pair; [exact Hget|pair_step_tac]. }
    set (cl3 := ice_check_list_queue_triggered_check p _) in *.
    pose proof Hp as (Hp1&Hp2&Hp3&Hp4&Hp5&Hp6&Hp7&Hp8&Hp9&Hp10).
    assert (evolves cl cl3) as Hev.
    { eapply evolves_trans; [exact Hev1|].
      apply (evolves_trans _ cl2); [|by apply shrinks_evolves, pairs_only_shrinks].
      unfold evolves, get_cand, get_pair; simpl.
      repeat split; eauto using pair_step_weak_refl. }
    split; [|split].
    + split; [|destruct Hst1 as [Hs1 Hs2];
                split; [rewrite Hp8; exact Hs1|rewrite Hp9; exact Hs2]].
      split; [done|]. split.
      * unfold candidates_bounded. rewrite Hp2, Hp3. simpl. by rewrite Hl1, Hr1.
      * intros Hreg. apply components_registered_evolves; try done.
        -- rewrite Hp7. simpl. rewrite Hi1. auto.
        -- rewrite Hp2. simpl. rewrite Hl1. auto.
        -- rewrite Hp5. simpl. intros q Hq. rewrite Hins in Hq.
           apply elem_of_cons in Hq as [->|Hq]; [|left; congruence].
           right. apply components_registered_true in Hreg as (_&H2&_).
           destruct (H2 local Hlocal) as (cand&Hcand&Hregc).
           pose proof Hev as (E1&E2&_).
           destruct (E1 _ _ Hcand) as (cand'&Hcand'&Hcid).
           destruct (Forall2_lookup_l _ _ _ _ _ Hp10 Hget) as (x'&Hx'&[Hw _]).
           exists x', cand'. split; [done|]. split.
           ++ unfold local_of. destruct Hw as (->&_). rewrite Hxl. done.
           ++ rewrite Hcid. by eapply registered_mono.
    + intros Hok. eapply shrinks_transactions_ok;
        [by apply pairs_only_shrinks|]. by apply Htx1.
    + rewrite Hp5. simpl. rewrite Hins. simpl. rewrite Hc1. lia.
Qed.


(** ** Summaries *)

Lemma quiet_engine_inv cl cl' : quiet cl cl' → engine_inv cl → engine_inv cl'.
Proof.
  intros ((Hev&_&Hg)&Hst&Hcalls) [Hreg [Hc1 Hc2]].
  destruct (Hg Hreg) as [Hreg' Hnew]. split; [done|].
  split; rewrite Hst, Hcalls; [|done].
  intros Hcomp. destruct (Hc1 Hcomp). split; [done|].
  by eapply all_nominated_mono.
Qed.

Lemma quiet_bounded cl cl' :
  quiet cl cl' → candidates_bounded cl → candidates_bounded cl'.
Proof. by intros ((_&Hb&_)&_). Qed.

Lemma summary_refl tx n cl : step_summary tx n cl cl.
Proof. split; [done|split; [done|split; [done|split; lia]]]. Qed.

Lemma summary_trans tx n m a b c :
  step_summary tx n a b → step_summary tx m b c → step_summary tx (n + m) a c.
Proof.
  intros (A1&A2&A3&A4&A5) (B1&B2&B3&B4&B5).
  split; [auto|split; [auto|split; [auto|split; lia]]].
Qed.

Lemma summary_weaken tx tx' n m cl cl' :
  (tx' = true → tx = true) → (n ≤ m)%nat →
  step_summary tx n cl cl' → step_summary tx' m cl cl'.
Proof.
  intros Htx Hn (A1&A2&A3&A4&A5).
  split; [auto|split; [auto|split; [auto|split; lia]]].
Qed.

Lemma quiet_summary tx cl cl' :
  quiet cl cl' → (tx = true → transactions_ok cl → transactions_ok cl') →
  check_list cl' = check_list cl → step_summary tx 0 cl cl'.
Proof.
  intros Hq Htx Hc. split; [done|].
  split; [by apply quiet_engine_inv|]. split; [by apply quiet_bounded|].
  split; [rewrite Hc; lia|]. destruct Hq as (_&_&->). lia.
Qed.

Lemma pairs_only_summary tx cl cl' : pairs_only cl cl' → step_summary tx 0 cl cl'.
Proof.
  intros Hp. apply quiet_summary; [by apply pairs_only_quiet| |].
  - intros _. by apply shrinks_transactions_ok, pairs_only_shrinks.
  - by destruct Hp as (_&_&_&_&->&_).
Qed.

Lemma pairs_only_weak_quiet cl cl' :
  pairs_only_with pair_step_weak cl cl' → quiet cl cl'.
Proof.
  intros (Hc&Hl&Hr&_&Hk&Hv&Hi&Hst&Hcalls&Hs).
  apply quiet_of_evolves; try done.
  - unfold evolves, get_cand, get_pair. rewrite Hc, Hv, Hi.
    repeat split; eauto. intros p x Hp.
    by eapply (steps_evolve pair_step_weak).
  - unfold candidates_bounded. by rewrite Hl, Hr.
Qed.

Lemma for_each2_summary {A} tx
    (f : A → IceCheckList → option IceCheckList) l cl cl' :
  (∀ x a b, f x a = Some b → step_summary tx 0 a b) →
  for_each2 f l cl = Some cl' → step_summary tx 0 cl cl'.
Proof.
  intros Hf. apply for_each2_rel; [apply summary_refl| |done].
  intros a b c Hab Hbc. apply (summary_trans tx 0 0 a b c Hab Hbc).
Qed.

(** ** Handlers on one check list *)

Lemma response_addresses_ok rtp evt p cl cl' :
  ice_check_received_binding_response_addresses rtp evt p cl = Some (0, cl') →
  cl' = cl.
Proof.
  unfold ice_check_received_binding_response_addresses. intros Hs.
  step_opt; done.
Qed.

Lemma find_transaction cl id p :
  ms_list_find_custom (ice_find_pair_from_transactionID cl id) (check_list cl)
  = Some (Some p) →
  p ∈ check_list cl ∧ ∃ x, get_pair cl p = Some x ∧ transactionID x = id.
Proof.
  intros Hf. apply find_custom_Some in Hf as [Hin Hc]. split; [done|].
  unfold ice_find_pair_from_transactionID in Hc.
  destruct (get_pair cl p) as [x|]; [|done]. simpl in Hc.
  destruct (transactionID x =? id) eqn:E; [|done].
  apply Z.eqb_eq in E. eauto.
Qed.

Lemma response_summary s rtp evt msg cl cl' :
  ice_handle_received_binding_response s rtp evt msg cl = Some cl' →
  step_summary (negb (tr_id msg =? 0)) 0 cl cl'.
Proof.
  unfold ice_handle_received_binding_response. intros Hs.
  set (tx := negb (tr_id msg =? 0)).
  destruct (ms_list_find_custom _ (check_list cl)) as [[sp|]|] eqn:Hf;
    [| |done]; cbn [mbind option_bind] in Hs;
    [|injection Hs as <-; apply summary_refl].
  apply find_transaction in Hf as (Hin&x&Hx&Hid).
  destruct (ice_check_received_binding_response_addresses rtp evt sp cl)
    as [[r cl1]|] eqn:Haddr; [|done].
  cbn [mbind option_bind] in Hs.
  destruct (r <? 0) eqn:Hr.
  { injection Hs as <-. eapply pairs_only_summary.
    by eapply pairs_only_response_addresses. }
  assert (r = 0) as ->.
  { unfold ice_check_received_binding_response_addresses in Haddr.
    step_opt; done. }
  apply response_addresses_ok in Haddr as ->.
  clear Hr.
  destruct (ice_check_received_binding_response_attributes msg <? 0);
    [injection Hs as <-; apply summary_refl|].
  rewrite Hx in Hs. cbn [mbind option_bind] in Hs.
  destruct (ice_discover_peer_reflexive_candidate sp msg cl)
    as [[prflx cl2]|] eqn:Hd; [|done].
  cbn [mbind option_bind] in Hs.
  apply discover_quiet in Hd as (Hq2&Ha2&Hc2); [|done].
  destruct (ice_construct_valid_pair s rtp evt prflx sp cl2)
    as [[vp cl3]|] eqn:Hv; [|done].
  cbn [mbind option_bind] in Hs.
  apply construct_valid_pair_quiet in Hv as (Hq3&Hc3&Htx3&Hold3).
  destruct (ice_update_pair_states_on_binding_response sp cl3)
    as [cl4|] eqn:Hu; [|done].
  cbn [mbind option_bind] in Hs.
  destruct (ice_update_nominated_flag_on_binding_response s vp sp
              (pair_state x) cl4) as [cl5|] eqn:Hn; [|done].
  cbn [mbind option_bind] in Hs.
  assert (get_pair cl3 sp = Some x) as Hx3.
  { apply Hold3. unfold get_pair. by rewrite Ha2. }
  pose proof (pairs_only_weak_states_on_response _ _ _ Hu) as Hw4.
  pose proof (pairs_only_nominated_on_response _ _ _ _ _ _ Hn) as Hp5.
  apply (summary_weaken tx tx (0 + 0) 0); [done|lia|].
  eapply summary_trans; [|by eapply conclude_summary].
  apply quiet_summary.
  - eapply quiet_trans; [exact Hq2|]. eapply quiet_trans; [exact Hq3|].
    eapply quiet_trans; [by apply pairs_only_weak_quiet|].
    by apply pairs_only_quiet.
  - intros Htx Hok. unfold tx in Htx. apply negb_true_iff, Z.eqb_neq in Htx.
    eapply shrinks_transactions_ok; [by apply pairs_only_shrinks|].
    eapply shrinks_transactions_ok;
      [eapply pairs_only_shrinks, pairs_only_states_on_response; eauto;
       congruence|].
    apply Htx3. by eapply transactions_ok_same_arena.
  - destruct Hp5 as (_&_&_&_&->&_). destruct Hw4 as (_&_&_&_&->&_).
    congruence.
Qed.


Lemma pairs_only_set_ta_time t cl : pairs_only cl (set_ta_time t cl).
Proof.
  unfold pairs_only, pairs_only_with; simpl.
  repeat split; auto using steps_refl, pair_step_refl.
Qed.

Lemma pairs_only_set_keepalive_time t cl :
  pairs_only cl (set_keepalive_time t cl).
Proof.
  unfold pairs_only, pairs_only_with; simpl.
  repeat split; auto using steps_refl, pair_step_refl.
Qed.

Lemma pairs_only_set_queue q cl :
  pairs_only cl (set_triggered_checks_queue q cl).
Proof.
  unfold pairs_only, pairs_only_with; simpl.
  repeat split; auto using steps_refl, pair_step_refl.
Qed.

Lemma process_running_summary tx s o rtp curtime cl cl' :
  ice_check_list_process_running s o rtp curtime cl = Some cl' →
  step_summary tx 0 cl cl'.
Proof.
  unfold ice_check_list_process_running. intros Hs.
  destruct (for_each2 _ (check_list cl) cl) as [cl1|] eqn:Hr; [|done].
  cbn [mbind option_bind] in Hs.
  assert (pairs_only cl cl1) as Hp1.
  { eapply for_each2_pairs_only; [|exact Hr].
    intros ? ? ? Hf. exact (pairs_only_retransmission _ _ _ _ _ _ _ Hf). }
  apply (summary_weaken tx tx (0 + 0) 0); [done|lia|].
  eapply summary_trans; [by apply pairs_only_summary|].
  destruct (_ <? ta s); [injection Hs as <-; apply summary_refl|].
  apply (summary_weaken tx tx (0 + 0) 0); [done|lia|].
  eapply summary_trans; [apply pairs_only_summary, (pairs_only_set_ta_time curtime)|].
  set (cl2 := set_ta_time curtime cl1) in *.
  assert (∀ p a b, ice_send_binding_request s o rtp p a = Some b →
            step_summary tx 0 a b) as Hsend.
  { intros p a b Hf. by eapply pairs_only_summary, pairs_only_send. }
  assert (∀ a b,
    (for_each2 (ice_check_retransmissions_pending a) (check_list a) false
     ≫= λ pending : bool,
          if pending then Some a else ice_conclude_processing s a) = Some b →
    step_summary tx 0 a b) as Hconcl.
  { intros a b Hf. destruct (for_each2 _ _ false) as [pending|]; [|done].
    simpl in Hf. destruct pending; [injection Hf as <-; apply summary_refl|].
    by eapply conclude_summary. }
  unfold ice_check_list_pop_triggered_check in Hs.
  destruct (triggered_checks_queue cl2) as [|p q] eqn:Hq.
  - destruct (decide (cl_state cl2 = ICL_Running)); [|by apply Hconcl].
    destruct (ms_list_find_custom (ice_find_pair_from_state cl2 ICP_Waiting)
                (check_list cl2)) as [[p|]|]; [| |done];
      cbn [mbind option_bind] in Hs; [by eapply Hsend|].
    destruct (ms_list_find_custom (ice_find_pair_from_state cl2 ICP_Frozen)
                (check_list cl2)) as [[p|]|]; [| |done];
      cbn [mbind option_bind] in Hs; [by eapply Hsend|].
    by apply Hconcl.
  - apply (summary_weaken tx tx (0 + 0) 0); [done|lia|].
    eapply summary_trans; [apply pairs_only_summary, (pairs_only_set_queue q)|].
    by eapply Hsend.
Qed.

Lemma process_summary tx s o rtp cl cl' :
  ice_check_list_process s o rtp cl = Some cl' → step_summary tx 0 cl cl'.
Proof.
  unfold ice_check_list_process. intros Hs.
  destruct (_ || _); [injection Hs as <-; apply summary_refl|].
  destruct (cl_state cl).
  - by eapply process_running_summary.
  - destruct (if uint 64 _ >=? _ then _ else _) as [cl1|] eqn:Hk; [|done].
    cbn [mbind option_bind] in Hs.
    apply (summary_weaken tx tx (0 + 0) 0); [done|lia|].
    eapply summary_trans; [|by eapply process_running_summary].
    apply pairs_only_summary.
    destruct (_ >=? _); [|injection Hk as <-; apply pairs_only_refl].
    destruct (ice_send_keepalive_packets rtp cl) as [cl0|] eqn:Hka; [|done].
    simpl in Hk. injection Hk as <-.
    eapply pairs_only_trans; [by eapply pairs_only_keepalive|].
    apply pairs_only_set_keepalive_time.
  - injection Hs as <-. apply summary_refl.
Qed.

(** ** The session *)

Lemma streams_summary_refl tx n (l : list IceCheckList) :
  Forall2 (step_summary tx n) l l.
Proof. apply Forall_Forall2_diag, Forall_forall. intros. apply summary_refl. Qed.

Lemma streams_summary_trans tx n m (l1 l2 l3 : list IceCheckList) :
  Forall2 (step_summary tx n) l1 l2 → Forall2 (step_summary tx m) l2 l3 →
  Forall2 (step_summary tx (n + m)) l1 l3.
Proof.
  intros H1. revert l3. induction H1; intros l3 H2; inversion H2; subst;
    constructor; eauto using summary_trans.
Qed.

Lemma streams_summary_weaken tx tx' n m (l1 l2 : list IceCheckList) :
  (tx' = true → tx = true) → (n ≤ m)%nat →
  Forall2 (step_summary tx n) l1 l2 → Forall2 (step_summary tx' m) l1 l2.
Proof.
  intros Htx Hn HF. eapply Forall2_impl; [exact HF|].
  intros ? ?. by apply summary_weaken.
Qed.

Lemma put_stream_summary tx n k cl cl' s :
  get_stream k s = Some cl → step_summary tx n cl cl' →
  Forall2 (step_summary tx n) (streams s) (streams (put_stream k cl' s)).
Proof.
  intros Hk Hs. unfold put_stream; simpl.
  rewrite <- (list_insert_id (streams s) k cl Hk) at 1.
  apply Forall2_insert; [apply streams_summary_refl|done].
Qed.

Lemma get_put_stream k cl cl' s :
  get_stream k s = Some cl → get_stream k (put_stream k cl' s) = Some cl'.
Proof.
  unfold get_stream, put_stream; simpl. intros Hk.
  apply list_lookup_insert_eq. by eapply lookup_lt_Some.
Qed.

Lemma put_put_stream k cl cl' s :
  put_stream k cl' (put_stream k cl s) = put_stream k cl' s.
Proof.
  unfold put_stream; simpl. by rewrite list_insert_insert_eq.
Qed.

Lemma set_role_summary tx r s s' :
  ice_session_set_role r s = Some s' →
  Forall2 (step_summary tx 0) (streams s) (streams s').
Proof.
  unfold ice_session_set_role, ice_session_compute_pair_priorities. intros Hs.
  destruct (decide (role s ≠ r)); [|injection Hs as <-; apply streams_summary_refl].
  simpl in Hs. destruct (mapM _ (streams s)) as [l|] eqn:Hm; [|done].
  simpl in Hs. injection Hs as <-. simpl.
  apply mapM_Some in Hm. eapply Forall2_impl; [exact Hm|].
  intros a b Hab. simpl in Hab.
  by eapply pairs_only_summary, pairs_only_compute_priorities.
Qed.

Lemma update_stream_summary tx n m k cl cl' s0 s :
  Forall2 (step_summary tx n) (streams s0) (streams s) →
  get_stream k s = Some cl → step_summary tx m cl cl' →
  Forall2 (step_summary tx (n + m)) (streams s0) (streams (put_stream k cl' s)).
Proof.
  intros H0 Hk Hs. eapply streams_summary_trans; [exact H0|].
  by eapply put_stream_summary.
Qed.

Lemma role_conflict_summary tx k rtp evt msg s r s' :
  ice_check_received_binding_request_role_conflict k rtp evt msg s
  = Some (r, s') →
  Forall2 (step_summary tx 0) (streams s) (streams s').
Proof.
  unfold ice_check_received_binding_request_role_conflict. intros Hs.
  destruct (get_stream k s) as [cl|] eqn:Hk; [|done]. simpl in Hs.
  assert (Herr : ∀ c n, Forall2 (step_summary tx 0) (streams s)
            (streams (put_stream k (ice_send_error_response rtp evt msg c n cl) s))).
  { intros c n. eapply put_stream_summary; [done|].
    apply pairs_only_summary, pairs_only_send_error_response. }
  repeat case_match; simplify_option_eq;
    eauto using streams_summary_refl, set_role_summary.
Qed.

Lemma request_summary tx k o rtp evt msg src6host s s' :
  ice_handle_received_binding_request k o rtp evt msg src6host s = Some s' →
  Forall2 (step_summary tx 1) (streams s) (streams s').
Proof.
  unfold ice_handle_received_binding_request. intros Hs.
  destruct (get_stream k s) as [cl|] eqn:Hk; [|done]. cbn [mbind option_bind] in Hs.
  pose proof (pairs_only_check_attributes rtp evt msg cl) as H1.
  destruct (ice_check_received_binding_request_attributes rtp evt msg cl)
    as [r1 cl1]. simpl in H1.
  assert (S1 : ∀ cl', pairs_only cl cl' →
            Forall2 (step_summary tx 1) (streams s) (streams (put_stream k cl' s))).
  { intros cl' Hp. eapply put_stream_summary; [done|].
    eapply summary_weaken; [| |by apply pairs_only_summary]; [done|lia]. }
  destruct (r1 <? 0); [injection Hs as <-; by apply S1|].
  pose proof (pairs_only_check_integrity s rtp evt msg cl1) as H2.
  destruct (ice_check_received_binding_request_integrity s rtp evt msg cl1)
    as [r2 cl2]. simpl in H2.
  pose proof (pairs_only_trans _ _ _ H1 H2) as H12.
  destruct (r2 <? 0); [injection Hs as <-; by apply S1|].
  pose proof (pairs_only_check_username s rtp evt msg cl2) as H3.
  destruct (ice_check_received_binding_request_username s rtp evt msg cl2)
    as [r3 cl3]. simpl in H3.
  pose proof (pairs_only_trans _ _ _ H12 H3) as H123.
  destruct (r3 <? 0); [injection Hs as <-; by apply S1|].
  destruct (ice_check_received_binding_request_role_conflict k rtp evt msg
              (put_stream k cl3 s)) as [[r4 s4]|] eqn:H4; [|done].
  cbn [mbind option_bind] in Hs.
  apply (role_conflict_summary tx) in H4.
  assert (S4 : Forall2 (step_summary tx 0) (streams s) (streams s4)).
  { apply (streams_summary_trans tx 0 0 _ (streams (put_stream k cl3 s)));
      [|done].
    eapply put_stream_summary; [done|]. by apply pairs_only_summary. }
  destruct (r4 <? 0).
  { injection Hs as <-. eapply streams_summary_weaken; [| |exact S4]; [done|lia]. }
  destruct (get_stream k s4) as [cl4|] eqn:Hk4; [|done].
  cbn [mbind option_bind] in Hs.
  destruct (ice_learn_peer_reflexive_candidate _ _ _ _ cl4) as [[prflx cl5]|]
    eqn:H5; [|done].
  cbn [mbind option_bind] in Hs.
  destruct (ice_trigger_connectivity_check_on_binding_request _ _ _ _ _ cl5)
    as [[triggered cl6]|] eqn:H6; [|done].
  cbn [mbind option_bind] in Hs.
  destruct (match triggered with Some p => _ | None => _ end) as [cl7|] eqn:H7;
    [|done].
  cbn [mbind option_bind] in Hs.
  destruct (ice_conclude_processing s4 _) as [cl8|] eqn:H8; [|done].
  cbn [mbind option_bind] in Hs. injection Hs as <-.
  apply (update_stream_summary tx 0 1 k cl4); [done..|].
  apply learn_quiet in H5 as (Q5&A5&C5).
  apply trigger_summary in H6 as (Q6&T6&L6).
  assert (P7 : pairs_only cl6 cl7).
  { destruct triggered; [by eapply pairs_only_nominated_on_request|].
    injection H7 as <-. apply pairs_only_refl. }
  apply (conclude_summary tx) in H8.
  apply (summary_trans tx 0 1 _ cl5).
  { apply quiet_summary; [done| |done].
    unfold transactions_ok. by rewrite A5. }
  apply (summary_trans tx 1 0 _ cl6).
  { split; [auto|]. split; [by apply quiet_engine_inv|].
    split; [by apply quiet_bounded|]. split; [lia|].
    destruct Q6 as (_&_&->). lia. }
  apply (summary_trans tx 0 0 _ cl7); [by apply pairs_only_summary|].
  apply (summary_trans tx 0 0 _ (ice_send_binding_response rtp evt msg cl7));
    [|done].
  apply pairs_only_summary, pairs_only_send_binding_response.
Qed.

Lemma pair_step_failed x : pair_step x (ice_pair_set_state ICP_Failed x).
Proof.
  split.
  - unfold pair_step_weak.
    by rewrite pair_local_set_state, pair_remote_set_state,
      is_nominated_set_state.
  - by apply transaction_ok_set_state.
Qed.

Lemma pair_step_waiting x : pair_step x (ice_pair_set_state ICP_Waiting x).
Proof.
  split.
  - unfold pair_step_weak.
    by rewrite pair_local_set_state, pair_remote_set_state,
      is_nominated_set_state.
  - by apply transaction_ok_set_state.
Qed.

Lemma error_response_summary tx k msg s s' :
  ice_handle_received_error_response k msg s = Some s' →
  Forall2 (step_summary tx 0) (streams s) (streams s').
Proof.
  unfold ice_handle_received_error_response. intros Hs.
  destruct (get_stream k s) as [cl|] eqn:Hk; [|done].
  cbn [mbind option_bind] in Hs.
  destruct (ms_list_find_custom _ (check_list cl)) as [[p|]|]; [| |done];
    cbn [mbind option_bind] in Hs;
    [|injection Hs as <-; apply streams_summary_refl].
  destruct (get_pair cl p) as [x|] eqn:Hp; [|done].
  cbn [mbind option_bind] in Hs.
  set (s1 := put_stream k (put_pair p (ice_pair_set_state ICP_Failed x) cl) s)
    in Hs.
  assert (S1 : Forall2 (step_summary tx 0) (streams s) (streams s1)).
  { eapply put_stream_summary; [done|]. apply pairs_only_summary.
    eapply pairs_only_put_pair; [done|]. apply pair_step_failed. }
  match type of Hs with
  | mbind _ ?m = _ => destruct m as [s2|] eqn:H2; [|done]
  end.
  cbn [mbind option_bind] in Hs.
  assert (S2 : Forall2 (step_summary tx 0) (streams s) (streams s2)).
  { destruct (_ && _) in H2; [|by injection H2 as <-].
    match type of H2 with
    | mbind _ ?m = _ => destruct m as [s3|] eqn:H3; [|done]
    end.
    cbn [mbind option_bind] in H2.
    assert (S3 : Forall2 (step_summary tx 0) (streams s1) (streams s3)).
    { destruct (pair_role _); by eapply set_role_summary. }
    destruct (get_stream k s3) as [cl3|] eqn:Hk3; [|done].
    cbn [mbind option_bind] in H2.
    destruct (get_pair cl3 p) as [x3|] eqn:Hp3; [|done].
    cbn [mbind option_bind] in H2. injection H2 as <-.
    apply (streams_summary_trans tx 0 0 _ (streams s1)); [done|].
    apply (update_stream_summary tx 0 0 k cl3); [done..|].
    apply pairs_only_summary.
    apply (pairs_only_trans _
             (put_pair p (ice_pair_set_state ICP_Waiting x3) cl3));
      [|apply pairs_only_queue].
    eapply pairs_only_put_pair; [done|]. apply pair_step_waiting. }
  destruct (get_stream k s2) as [cl2|] eqn:Hk2; [|done].
  cbn [mbind option_bind] in Hs.
  destruct (ice_conclude_processing s2 cl2) as [cl4|] eqn:H4; [|done].
  cbn [mbind option_bind] in Hs. injection Hs as <-.
  apply (update_stream_summary tx 0 0 k cl2); [done..|].
  by eapply conclude_summary.
Qed.

Lemma stun_packet_summary k o rtp evt s s' :
  ice_handle_stun_packet k o rtp evt s = Some s' →
  Forall2 (step_summary (response_id_nonzero (EvStunPacket k o rtp evt)) 1)
    (streams s) (streams s').
Proof.
  unfold ice_handle_stun_packet, response_id_nonzero. intros Hs.
  destruct (stunParseMessage (packet evt)) as [msg|];
    [|injection Hs as <-; apply streams_summary_refl].
  destruct (ss_family evt); [| |injection Hs as <-; apply streams_summary_refl].
  2:{ by destruct (getnameinfo _ _); [|injection Hs as <-;
                                         apply streams_summary_refl]. }
  destruct (getnameinfo _ _) as [src6host|];
    [|injection Hs as <-; apply streams_summary_refl].
  destruct (STUN_IS_REQUEST _); [by eapply request_summary|].
  destruct (STUN_IS_SUCCESS_RESP _).
  - destruct (get_stream k s) as [cl|] eqn:Hk; [|done].
    cbn [mbind option_bind] in Hs.
    destruct (ice_handle_received_binding_response s rtp evt msg cl)
      as [cl'|] eqn:Hr; [|done].
    cbn [mbind option_bind] in Hs. injection Hs as <-.
    eapply put_stream_summary; [done|]. apply response_summary in Hr.
    eapply summary_weaken; [| |exact Hr]; [done|lia].
  - destruct (STUN_IS_ERR_RESP _);
      [|injection Hs as <-; apply streams_summary_refl].
    eapply streams_summary_weaken; [| |by eapply error_response_summary];
      [done|lia].
Qed.

Lemma step_streams_summary s e s' :
  step s e = Some s' →
  Forall2 (step_summary (response_id_nonzero e) 1) (streams s) (streams s').
Proof.
  destruct e as [time|k o rtp|k o rtp evt]; intros Hs;
    [simpl in *..|by apply stun_packet_summary].
  - destruct (_ <=? _); [|done]. injection Hs as <-. apply streams_summary_refl.
  - destruct (get_stream k s) as [cl|] eqn:Hk; [|done].
    cbn [mbind option_bind] in Hs.
    destruct (ice_check_list_process s o rtp cl) as [cl'|] eqn:Hr; [|done].
    cbn [mbind option_bind] in Hs. injection Hs as <-.
    eapply put_stream_summary; [done|].
    eapply summary_weaken; [| |by eapply (process_summary true)]; [done|lia].
Qed.

Lemma run_streams_summary s l s' :
  run s l = Some s' →
  Forall2 (step_summary (forallb response_id_nonzero l) (length l))
    (streams s) (streams s').
Proof.
  revert s. induction l as [|e l IH]; simpl; intros s Hs.
  - injection Hs as <-. apply streams_summary_refl.
  - destruct (step s e) as [s1|] eqn:H1; [|done].
    cbn [mbind option_bind] in Hs.
    apply step_streams_summary in H1. apply IH in Hs.
    change (S (length l)) with (1 + length l)%nat.
    eapply streams_summary_trans.
    + eapply streams_summary_weaken; [| |exact H1]; [|lia].
      by intros [? ?]%andb_true_iff.
    + eapply streams_summary_weaken; [| |exact Hs]; [|lia].
      by intros [? ?]%andb_true_iff.
Qed.

(** ** Pair priority *)

Lemma lor_bound (n a b : Z) :
  0 ≤ n → 0 ≤ a < 2 ^ n → 0 ≤ b < 2 ^ n → 0 ≤ Z.lor a b < 2 ^ n.
Proof.
  intros Hn [Ha1 Ha2] [Hb1 Hb2]. split; [by apply Z.lor_nonneg|].
  destruct (decide (a = 0)) as [->|Ha]; [by rewrite Z.lor_0_l|].
  destruct (decide (b = 0)) as [->|Hb]; [by rewrite Z.lor_0_r|].
  apply Z.log2_lt_pow2.
  - pose proof (Z.lor_nonneg a b).
    assert (Z.lor a b ≠ 0) by (rewrite Z.lor_eq_0_iff; lia). lia.
  - rewrite Z.log2_lor by lia.
    apply Z.max_lub_lt; apply Z.log2_lt_pow2; lia.
Qed.

Lemma uint_small (w x : Z) : 0 ≤ x < 2 ^ w → uint w x = x.
Proof. intros. unfold uint. by apply Z.mod_small. Qed.

Lemma pair_priority_no_wrap G D :
  0 ≤ G < 2 ^ 32 → 0 ≤ D < 2 ^ 32 →
  uint 64 (Z.lor (Z.lor (uint 64 (Z.shiftl (Z.min G D) 32))
                        (uint 64 (Z.shiftl (Z.max G D) 1)))
                 (if G >? D then 1 else 0))
  = pair_priority_formula G D
  ∧ 0 ≤ pair_priority_formula G D < 2 ^ 64.
Proof.
  intros HG HD. unfold pair_priority_formula.
  assert (0 ≤ Z.shiftl (Z.min G D) 32 < 2 ^ 64) as H1.
  { rewrite Z.shiftl_mul_pow2 by lia. lia. }
  assert (0 ≤ Z.shiftl (Z.max G D) 1 < 2 ^ 64) as H2.
  { rewrite Z.shiftl_mul_pow2 by lia. lia. }
  assert (0 ≤ (if G >? D then 1 else 0) < 2 ^ 64) as H3.
  { destruct (G >? D); lia. }
  rewrite (uint_small 64 (Z.shiftl (Z.min G D) 32)) by done.
  rewrite (uint_small 64 (Z.shiftl (Z.max G D) 1)) by done.
  assert (0 ≤ Z.lor (Z.lor (Z.shiftl (Z.min G D) 32) (Z.shiftl (Z.max G D) 1))
        (if G >? D then 1 else 0) < 2 ^ 64) as H4.
  { apply lor_bound; [lia| |done]. apply lor_bound; [lia|done|done]. }
  split; [by apply uint_small|done].
Qed.

(** C9: the priority that [ice_compute_pair_priority] stores in a pair, and
    so the priority of a pair that [ice_pair_new] creates, is
    [(min(G,D) << 32) | (max(G,D) << 1) | (G > D ? 1 : 0)], where [G] is
    the priority of the candidate of the controlling side and [D] that of
    the controlled side, for the role given (the session role at that
    time); the candidate priorities are 32-bit values, and the result fits
    in 64 bits. *)
Theorem C9_pair_priority (r : IceRole) (s : IceSession) (cl : IceCheckList)
    (pair : IceCandidatePair) (lc rc : nat) (l rm : IceCandidate) :
  get_cand cl lc = Some l → get_cand cl rc = Some rm →
  0 ≤ cand_priority l < 2 ^ 32 → 0 ≤ cand_priority rm < 2 ^ 32 →
  pair_local pair = Some lc → pair_remote pair = rc →
  ice_compute_pair_priority r cl pair
  = Some (set_pair_priority
            (pair_priority_formula (controlling_priority r l rm)
               (controlled_priority r l rm)) pair)
  ∧ (∃ x, ice_pair_new s cl lc rc = Some x
          ∧ pair_priority x
            = pair_priority_formula (controlling_priority (role s) l rm)
                (controlled_priority (role s) l rm))
  ∧ 0 ≤ pair_priority_formula (controlling_priority r l rm)
          (controlled_priority r l rm) < 2 ^ 64.
Proof.
  intros Hl Hr Hpl Hpr Hxl Hxr.
  assert (∀ r x, pair_local x = Some lc → pair_remote x = rc →
            ice_compute_pair_priority r cl x
            = Some (set_pair_priority
                      (pair_priority_formula (controlling_priority r l rm)
                         (controlled_priority r l rm)) x)) as Hc.
  { intros r' x Hl' Hr'. unfold ice_compute_pair_priority, local_of, remote_of.
    rewrite Hl', Hr'. simpl. rewrite Hl, Hr. simpl.
    destruct r'; simpl; f_equal; f_equal; by apply pair_priority_no_wrap. }
  split; [by apply Hc|]. split.
  - unfold ice_pair_new, local_of, remote_of. simpl.
    rewrite pair_local_set_state, pair_remote_set_state. simpl.
    rewrite Hl, Hr. simpl.
    eexists. split; [apply Hc; destruct (_ && _); simpl;
      by rewrite ?pair_local_set_state, ?pair_remote_set_state|done].
  - destruct r; by apply pair_priority_no_wrap.
Qed.

(** ** Invariants of the runs *)

Lemma streams_transfer (P Q : IceCheckList → Prop)
    (R : IceCheckList → IceCheckList → Prop) (l1 l2 : list IceCheckList) :
  Forall2 R l1 l2 → (∀ a b, R a b → P a → Q b) → Forall P l1 → Forall Q l2.
Proof.
  intros HR Himp. induction HR; intros HP; [done|].
  inversion HP; subst. constructor; eauto.
Qed.

Lemma run_candidates_bounded s l s' :
  Forall candidates_bounded (streams s) → run s l = Some s' →
  Forall candidates_bounded (streams s').
Proof.
  intros Hb Hrun. apply run_streams_summary in Hrun.
  eapply streams_transfer; [exact Hrun| |exact Hb].
  by intros a b (_&_&Hab&_).
Qed.



(** ** Candidate lists *)

Lemma ice_add_candidate_full which type ip port componentID cl :
  (Z.to_nat ICE_MAX_NB_CANDIDATES ≤ length (candidate_list which cl))%nat →
  ice_add_candidate which type ip port componentID cl = (None, cl).
Proof.
  intros Hfull. unfold ice_add_candidate, ms_list_size.
  destruct (_ >=? _) eqn:E; [done|].
  unfold ICE_MAX_NB_CANDIDATES in *. lia.
Qed.

(** C10: when the list of local (of remote) candidates of a check list
    holds 10 candidates or more, [ice_add_candidate] on that list and
    [ice_add_local_candidate] ([ice_add_remote_candidate]) return NULL and
    leave the check list as it is, whatever the componentID and the other
    arguments; a check list whose two candidate lists hold at most 10
    candidates has that property after an addition; a new check list has
    it, and so has every check list of a session after a run of the engine
    from a session whose check lists have it. *)
Theorem C10_candidate_lists_bounded (type ip : string)
    (port componentID priority : Z) (foundation : string)
    (base : option nat) (cl : IceCheckList) :
  ((Z.to_nat ICE_MAX_NB_CANDIDATES ≤ length (local_candidates cl))%nat →
   ice_add_candidate LocalCandidates type ip port componentID cl = (None, cl)
   ∧ ice_add_local_candidate type ip port componentID base cl
     = Some (None, cl))
  ∧ ((Z.to_nat ICE_MAX_NB_CANDIDATES ≤ length (remote_candidates cl))%nat →
     ice_add_candidate RemoteCandidates type ip port componentID cl
     = (None, cl)
     ∧ ice_add_remote_candidate type ip port componentID priority foundation
         cl = (None, cl))
  ∧ (candidates_bounded cl →
     (∀ r cl',
        ice_add_local_candidate type ip port componentID base cl
        = Some (r, cl') → candidates_bounded cl')
     ∧ candidates_bounded
         (ice_add_remote_candidate type ip port componentID priority
            foundation cl).2)
  ∧ candidates_bounded ice_check_list_new
  ∧ (∀ s l s', Forall candidates_bounded (streams s) → run s l = Some s' →
               Forall candidates_bounded (streams s')).
Proof.
  split; [|split; [|split; [|split]]].
  - intros Hfull.
    pose proof (ice_add_candidate_full LocalCandidates type ip port
                  componentID cl Hfull) as Hadd.
    split; [done|]. unfold ice_add_local_candidate. by rewrite Hadd.
  - intros Hfull.
    pose proof (ice_add_candidate_full RemoteCandidates type ip port
                  componentID cl Hfull) as Hadd.
    split; [done|]. unfold ice_add_remote_candidate. by rewrite Hadd.
  - intros Hb. split.
    + intros r cl' Hadd.
      apply add_local_candidate_cases in Hadd
        as [[_ ->]|(_&Hlt&_&_&Hl&_&Hr&_)]; [done|].
      destruct Hb as [Hb1 Hb2]. unfold candidates_bounded.
      rewrite Hl, Hr, length_app. simpl.
      unfold ICE_MAX_NB_CANDIDATES in *. lia.
    + destruct (ice_add_remote_candidate type ip port componentID priority
                  foundation cl) as [r cl'] eqn:Hadd.
      apply ice_add_remote_candidate_quiet in Hadd as (Hq&_). simpl.
      by eapply quiet_bounded.
  - unfold candidates_bounded, ice_check_list_new; simpl.
    unfold ICE_MAX_NB_CANDIDATES. lia.
  - apply run_candidates_bounded.
Qed.

(** ** Binding responses *)

(** C5: a binding success response whose transaction ID matches the pair
    [p] of the check list, received on a socket whose reception port is
    known, whose source address and port are not those of the remote
    candidate of [p], or whose destination address and port are not those
    of the local candidate of [p]: [ice_handle_received_binding_response]
    returns the check list with [p] set to Failed and nothing else changed:
    the other pairs, the valid list, the check list, the candidates, the
    state of the check list, the count of callback calls and the messages
    sent are the same. *)
Theorem C5_non_symmetric_response (s : IceSession) (rtp : RtpSession)
    (evt : OrtpEventData) (msg : StunMessage) (cl : IceCheckList) (p : nat)
    (x : IceCandidatePair) (l rm : IceCandidate) :
  ms_list_find_custom (ice_find_pair_from_transactionID cl (tr_id msg))
    (check_list cl) = Some (Some p) →
  get_pair cl p = Some x → local_of cl x = Some l → remote_of cl x = Some rm →
  0 ≤ ice_get_recv_port_from_rtp_session rtp evt →
  (sin_addr evt, sin_port evt)
  ≠ stunParseHostName (ip (cand_taddr rm)) (port (cand_taddr rm))
  ∨ (ipi_addr evt, port (cand_taddr l))
    ≠ stunParseHostName (ip (cand_taddr l))
        (ice_get_recv_port_from_rtp_session rtp evt) →
  ice_handle_received_binding_response s rtp evt msg cl
  = Some (put_pair p (ice_pair_set_state ICP_Failed x) cl)
  ∧ pair_state <$> get_pair (put_pair p (ice_pair_set_state ICP_Failed x) cl) p
    = Some ICP_Failed
  ∧ (∀ q, q ≠ p →
       get_pair (put_pair p (ice_pair_set_state ICP_Failed x) cl) q
       = get_pair cl q)
  ∧ valid_list (put_pair p (ice_pair_set_state ICP_Failed x) cl)
    = valid_list cl
  ∧ check_list (put_pair p (ice_pair_set_state ICP_Failed x) cl)
    = check_list cl
  ∧ cl_candidates (put_pair p (ice_pair_set_state ICP_Failed x) cl)
    = cl_candidates cl
  ∧ cl_state (put_pair p (ice_pair_set_state ICP_Failed x) cl) = cl_state cl
  ∧ success_cb_calls (put_pair p (ice_pair_set_state ICP_Failed x) cl)
    = success_cb_calls cl
  ∧ cl_sent (put_pair p (ice_pair_set_state ICP_Failed x) cl) = cl_sent cl.
Proof.
  intros Hfind Hp Hl Hr Hport Hneq.
  split; [|split; [|split; [|done]]].
  - unfold ice_handle_received_binding_response. rewrite Hfind.
    cbn [mbind option_bind].
    unfold ice_check_received_binding_response_addresses.
    destruct (ice_get_recv_port_from_rtp_session rtp evt <? 0) eqn:E;
      [apply Z.ltb_lt in E; lia|].
    rewrite Hp. cbn [mbind option_bind].
    rewrite Hr. cbn [mbind option_bind]. rewrite Hl. cbn [mbind option_bind].
    destruct (stunParseHostName (ip (cand_taddr rm)) (port (cand_taddr rm)))
      as [da dp].
    destruct (stunParseHostName (ip (cand_taddr l)) _) as [la lp].
    cbn [fst snd].
    destruct (negb (sin_addr evt =? da) || negb (sin_port evt =? dp)
              || negb (ipi_addr evt =? la)
              || negb (lp =? port (cand_taddr l))) eqn:Hm.
    + cbn [mbind option_bind]. by destruct (-1 <? 0) eqn:E1.
    + exfalso. repeat (apply orb_false_iff in Hm as [Hm ?]).
      repeat match goal with
             | H : negb (_ =? _) = false |- _ =>
                 apply negb_false_iff, Z.eqb_eq in H
             end.
      destruct Hneq as [Hneq|Hneq]; apply Hneq; congruence.
  - unfold get_pair, put_pair; simpl.
    rewrite list_lookup_insert_eq by (by eapply lookup_lt_Some).
    simpl. by rewrite pair_state_set_state.
  - intros q Hq. unfold get_pair, put_pair; simpl.
    by rewrite list_lookup_insert_ne.
Qed.

(** ** Binding requests *)

Lemma ice_session_set_role_fields r s s' :
  ice_session_set_role r s = Some s' →
  role s' = r ∧ tie_breaker s' = tie_breaker s
  ∧ length (streams s') = length (streams s).
Proof.
  unfold ice_session_set_role, ice_session_compute_pair_priorities.
  intros Hs. destruct (decide (role s ≠ r)) as [Hne|Heq].
  - simpl in Hs. destruct (mapM _ (streams s)) as [l|] eqn:Hm; [|done].
    simpl in Hs. injection Hs as <-. simpl. split; [done|split; [done|]].
    apply mapM_Some, Forall2_length in Hm. done.
  - apply dec_stable in Heq. by injection Hs as <-.
Qed.

Lemma put_stream_id k cl s : get_stream k s = Some cl → put_stream k cl s = s.
Proof.
  unfold get_stream, put_stream. intros Hk. rewrite (list_insert_id _ _ _ Hk).
  by destruct s.
Qed.

Lemma check_attributes_ok rtp evt msg cl :
  (ice_check_received_binding_request_attributes rtp evt msg cl).1 = 0 →
  ice_check_received_binding_request_attributes rtp evt msg cl = (0, cl).
Proof.
  unfold ice_check_received_binding_request_attributes.
  repeat case_match; simpl; done.
Qed.

Lemma check_integrity_ok s rtp evt msg cl :
  (ice_check_received_binding_request_integrity s rtp evt msg cl).1 = 0 →
  ice_check_received_binding_request_integrity s rtp evt msg cl = (0, cl).
Proof.
  unfold ice_check_received_binding_request_integrity.
  repeat case_match; simpl; done.
Qed.

Lemma check_username_ok s rtp evt msg cl :
  (ice_check_received_binding_request_username s rtp evt msg cl).1 = 0 →
  ice_check_received_binding_request_username s rtp evt msg cl = (0, cl).
Proof.
  unfold ice_check_received_binding_request_username.
  repeat case_match; simpl; done.
Qed.

(** C2 (amended): a binding request received on the check list [k] of a
    session.  When the agent is Controlling and the request has
    ICE-CONTROLLING: if the tie-breaker of the agent is greater than or
    equal to the one of the request, the role conflict check sends the
    error (4,87) and returns -1, else it changes the role to Controlled and
    returns 0.  When the agent is Controlled and the request has
    ICE-CONTROLLED, the test is the same and the outcomes are exchanged: if
    the tie-breaker of the agent is greater than or equal to the one of the
    request, the role changes to Controlling and the check returns 0, else
    the check sends the error (4,87) and returns -1.  A change of role
    gives a session with the new role and the same tie-breaker; the error
    is the message put on the wire when the socket is known and the message
    can be encoded; and when the checks before the role conflict pass and
    the role conflict check returns -1, the handler of the request returns
    the session of the check: the request is dropped. *)
Theorem C2_role_conflict (k : nat) (o : Oracle) (rtp : RtpSession)
    (evt : OrtpEventData) (msg : StunMessage) (src6host : string)
    (s : IceSession) (cl : IceCheckList) :
  get_stream k s = Some cl →
  (role s = IR_Controlling → hasIceControlling msg = true →
   (iceControlling msg ≤ tie_breaker s →
    ice_check_received_binding_request_role_conflict k rtp evt msg s
    = Some (-1, put_stream k (ice_send_error_response rtp evt msg 4 87 cl) s))
   ∧ (tie_breaker s < iceControlling msg →
      ice_check_received_binding_request_role_conflict k rtp evt msg s
      = (λ s', (0, s')) <$> ice_session_set_role IR_Controlled s))
  ∧ (role s = IR_Controlled → hasIceControlled msg = true →
     (iceControlled msg ≤ tie_breaker s →
      ice_check_received_binding_request_role_conflict k rtp evt msg s
      = (λ s', (0, s')) <$> ice_session_set_role IR_Controlling s)
     ∧ (tie_breaker s < iceControlled msg →
        ice_check_received_binding_request_role_conflict k rtp evt msg s
        = Some (-1,
                put_stream k (ice_send_error_response rtp evt msg 4 87 cl) s)))
  ∧ (∀ r s', ice_session_set_role r s = Some s' →
             role s' = r ∧ tie_breaker s' = tie_breaker s
             ∧ length (streams s') = length (streams s))
  ∧ (0 ≤ ice_get_socket_from_rtp_session rtp evt →
     stunEncodeMessage_ok (WireErrorResponse (tr_id msg) 4 87) = true →
     cl_sent (ice_send_error_response rtp evt msg 4 87 cl)
     = WireErrorResponse (tr_id msg) 4 87 :: cl_sent cl)
  ∧ (∀ s1,
       (ice_check_received_binding_request_attributes rtp evt msg cl).1 = 0 →
       (ice_check_received_binding_request_integrity s rtp evt msg cl).1 = 0 →
       (ice_check_received_binding_request_username s rtp evt msg cl).1 = 0 →
       ice_check_received_binding_request_role_conflict k rtp evt msg s
       = Some (-1, s1) →
       ice_handle_received_binding_request k o rtp evt msg src6host s
       = Some s1).
Proof.
  intros Hk. unfold ice_check_received_binding_request_role_conflict.
  rewrite Hk. cbn [mbind option_bind].
  split; [|split; [|split; [|split]]].
  - intros -> ->. rewrite bool_decide_eq_true_2 by done. simpl.
    split; intros Htie.
    + by destruct (tie_breaker s >=? iceControlling msg) eqn:E;
        [|rewrite Z.geb_leb in E; apply Z.leb_gt in E; lia].
    + destruct (tie_breaker s >=? iceControlling msg) eqn:E;
        [rewrite Z.geb_leb in E; apply Z.leb_le in E; lia|].
      by destruct (ice_session_set_role IR_Controlled s).
  - intros Hrole ->. rewrite Hrole.
    rewrite bool_decide_eq_false_2 by done.
    rewrite bool_decide_eq_true_2 by done. simpl.
    split; intros Htie.
    + destruct (tie_breaker s >=? iceControlled msg) eqn:E;
        [|rewrite Z.geb_leb in E; apply Z.leb_gt in E; lia].
      by destruct (ice_session_set_role IR_Controlling s).
    + by destruct (tie_breaker s >=? iceControlled msg) eqn:E;
        [rewrite Z.geb_leb in E; apply Z.leb_le in E; lia|].
  - intros r s'. apply ice_session_set_role_fields.
  - intros Hsock Henc. unfold ice_send_error_response.
    destruct (ice_get_socket_from_rtp_session rtp evt <? 0) eqn:E;
      [apply Z.ltb_lt in E; lia|].
    by rewrite Henc.
  - intros s1 H1 H2 H3 Hconf. unfold ice_handle_received_binding_request.
    rewrite Hk. cbn [mbind option_bind].
    rewrite (check_attributes_ok _ _ _ _ H1). simpl.
    rewrite (check_integrity_ok _ _ _ _ _ H2). simpl.
    rewrite (check_username_ok _ _ _ _ _ H3). simpl.
    rewrite (put_stream_id _ _ _ Hk).
    unfold ice_check_received_binding_request_role_conflict.
    rewrite Hk. cbn [mbind option_bind]. rewrite Hconf.
    cbn [mbind option_bind]. done.
Qed.

(** ** Retransmissions *)

Lemma set_transactionID_id x : set_transactionID (transactionID x) x = x.
Proof. by destruct x. Qed.

Lemma get_put_pair p x cl :
  is_Some (get_pair cl p) → get_pair (put_pair p x cl) p = Some x.
Proof.
  unfold get_pair, put_pair; simpl. intros [y Hy].
  apply list_lookup_insert_eq. by eapply lookup_lt_Some.
Qed.

Lemma requests_sent_sendMessage w cl :
  (requests_sent cl ≤ requests_sent (sendMessage w cl) ≤ S (requests_sent cl))%nat.
Proof. unfold requests_sent, sendMessage; simpl. destruct w; simpl; lia. Qed.

(** The emission for a pair in progress: the pair is written back as it
    is, and one request at most is sent. *)
Lemma emit_in_progress s o rtp p x cl lc rc :
  is_Some (get_pair cl p) → pair_state x = ICP_InProgress →
  local_of cl x = Some lc → remote_of cl x = Some rc →
  ∃ cl',
    ice_send_binding_request_emit s o rtp p x cl = Some cl'
    ∧ get_pair cl' p = Some x
    ∧ cl_candidates cl' = cl_candidates cl
    ∧ (requests_sent cl ≤ requests_sent cl' ≤ S (requests_sent cl))%nat.
Proof.
  intros Hsome Hst Hl Hr. unfold ice_send_binding_request_emit.
  rewrite Hl. cbn [mbind option_bind].
  assert (Hput : ∀ cl0, cl_pair_arena cl0 = cl_pair_arena cl →
            get_pair (put_pair p x cl0) p = Some x).
  { intros cl0 Ha. apply get_put_pair. unfold get_pair in *. by rewrite Ha. }
  destruct ((cand_componentID lc =? 1) || (cand_componentID lc =? 2)).
  - rewrite Hr. cbn [mbind option_bind].
    rewrite (decide_True (P := pair_state x = ICP_InProgress)) by done.
    rewrite set_transactionID_id.
    rewrite (decide_False (P := pair_state x ≠ ICP_InProgress))
      by (intros Hne; by apply Hne).
    destruct (stunEncodeMessage_ok _).
    + eexists. split; [done|]. split; [by apply Hput|]. split; [done|].
      apply (requests_sent_sendMessage _ cl).
    + eexists. split; [done|]. split; [by apply Hput|]. split; [done|].
      unfold requests_sent; simpl. lia.
  - eexists. split; [done|]. split; [by apply Hput|]. split; [done|].
    unfold requests_sent; simpl. lia.
Qed.

(** A retransmission that stays within the limit. *)
Lemma retransmission_step s o rtp p cl x lc rc :
  get_pair cl p = Some x → pair_state x = ICP_InProgress →
  wait_transaction_timeout x = false →
  0 ≤ retransmissions x < ICE_MAX_RETRANSMISSIONS →
  local_of cl x = Some lc → remote_of cl x = Some rc →
  ∃ cl' x',
    ice_send_binding_request s o rtp p cl = Some cl'
    ∧ get_pair cl' p = Some x'
    ∧ pair_state x' = ICP_InProgress
    ∧ wait_transaction_timeout x' = false
    ∧ retransmissions x' = retransmissions x + 1
    ∧ rto x' = uint 32 (Z.shiftl (rto x) 1)
    ∧ transmission_time x' = ticker_time s
    ∧ transactionID x' = transactionID x
    ∧ local_of cl' x' = Some lc ∧ remote_of cl' x' = Some rc
    ∧ (requests_sent cl ≤ requests_sent cl' ≤ S (requests_sent cl))%nat.
Proof.
  intros Hp Hst Hw Hn Hl Hr. unfold ice_send_binding_request.
  rewrite Hp. cbn [mbind option_bind].
  rewrite (decide_True (P := pair_state x = ICP_InProgress)) by done.
  rewrite Hw.
  cbn [retransmissions set_retransmissions].
  unfold ICE_MAX_RETRANSMISSIONS in *.
  rewrite (uint_small 8 (retransmissions x + 1)) by lia.
  destruct (retransmissions x + 1 >? 7) eqn:E; [apply Z.gtb_lt in E; lia|].
  cbn [rto set_retransmissions].
  set (x1 := set_transmission_time (ticker_time s)
               (set_rto (uint 32 (Z.shiftl (rto x) 1))
                  (set_retransmissions (retransmissions x + 1) x))).
  destruct (emit_in_progress s o rtp p x1 cl lc rc)
    as (cl'&Hemit&Hp'&Hc'&Hreq); [by eexists|done..|].
  exists cl', x1. split; [exact Hemit|]. split; [done|].
  repeat (split; [done|]).
  split; [by rewrite <- Hl; unfold local_of, get_cand; rewrite Hc'|].
  split; [by rewrite <- Hr; unfold remote_of, get_cand; rewrite Hc'|done].
Qed.

(** The call that finds the limit reached. *)
Lemma retransmission_limit s o rtp p cl x :
  get_pair cl p = Some x → pair_state x = ICP_InProgress →
  wait_transaction_timeout x = false →
  retransmissions x = ICE_MAX_RETRANSMISSIONS →
  ice_send_binding_request s o rtp p cl
  = Some (put_pair p
            (ice_pair_set_state ICP_Failed
               (set_retransmissions (ICE_MAX_RETRANSMISSIONS + 1) x)) cl).
Proof.
  intros Hp Hst Hw Hn. unfold ice_send_binding_request.
  rewrite Hp. cbn [mbind option_bind].
  rewrite decide_True by done. rewrite Hw, Hn. by destruct x.
Qed.

Lemma retransmit_within_limit l p cl x lc rc :
  get_pair cl p = Some x → pair_state x = ICP_InProgress →
  wait_transaction_timeout x = false →
  0 ≤ retransmissions x → 0 ≤ rto x →
  rto x * 2 ^ Z.of_nat (length l) < 2 ^ 32 →
  local_of cl x = Some lc → remote_of cl x = Some rc →
  retransmissions x + Z.of_nat (length l) ≤ ICE_MAX_RETRANSMISSIONS →
  ∃ cl' x',
    retransmit l p cl = Some cl' ∧ get_pair cl' p = Some x'
    ∧ pair_state x' = ICP_InProgress
    ∧ wait_transaction_timeout x' = false
    ∧ retransmissions x' = retransmissions x + Z.of_nat (length l)
    ∧ rto x' = rto x * 2 ^ Z.of_nat (length l)
    ∧ transactionID x' = transactionID x
    ∧ local_of cl' x' = Some lc ∧ remote_of cl' x' = Some rc
    ∧ (requests_sent cl' ≤ requests_sent cl + length l)%nat.
Proof.
  revert cl x. induction l as [|[[s o] rtp] l IH]; intros cl x Hp Hst Hw Hn Hrto
    Hwrap Hl Hr Hlim.
  - exists cl, x. simpl. rewrite Z.add_0_r, Z.mul_1_r.
    repeat (split; [done|]). lia.
  - cbn [length] in *. rewrite Nat2Z.inj_succ in *.
    rewrite Z.pow_succ_r in * by lia.
    destruct (retransmission_step s o rtp p cl x lc rc)
      as (cl1&x1&Hsend&Hp1&Hst1&Hw1&Hn1&Hrto1&_&Hid1&Hl1&Hr1&Hreq1);
      [done..|unfold ICE_MAX_RETRANSMISSIONS in *; lia|done|done|].
    rewrite Z.shiftl_mul_pow2 in Hrto1 by lia.
    rewrite uint_small in Hrto1 by nia.
    destruct (IH cl1 x1) as (cl2&x2&Hrun&Hp2&Hst2&Hw2&Hn2&Hrto2&Hid2&Hl2&Hr2&Hreq2);
      [done|done|done|lia|lia|rewrite Hrto1; lia|done|done|lia|].
    exists cl2, x2. simpl. rewrite Hsend. cbn [mbind option_bind].
    repeat (split; [first [done|lia|congruence]|]). lia.
Qed.

(** C4: a pair in progress, with a count of retransmissions within the
    limit of 7, whose RTO does not leave 32 bits, is retransmitted by the
    successive calls of [ice_send_binding_request].  While the count stays
    within the limit, every call adds one to the count and doubles the
    RTO, keeps the transaction ID, and sends one request at most.  The
    call that takes the count to 8 sets the pair to Failed and sends
    nothing, so that a pair sent for the first time is Failed at the
    eighth call, after 7 retransmissions at most; the retransmission
    handler then leaves the pair alone. *)
Theorem C4_retransmission_bound (l : list (IceSession * Oracle * RtpSession))
    (p : nat) (cl : IceCheckList) (x : IceCandidatePair)
    (lc rc : IceCandidate) :
  get_pair cl p = Some x → pair_state x = ICP_InProgress →
  wait_transaction_timeout x = false →
  0 ≤ retransmissions x ≤ ICE_MAX_RETRANSMISSIONS →
  0 ≤ rto x → rto x * 2 ^ Z.of_nat (length l) < 2 ^ 32 →
  local_of cl x = Some lc → remote_of cl x = Some rc →
  (retransmissions x + Z.of_nat (length l) ≤ ICE_MAX_RETRANSMISSIONS →
   ∃ cl' x',
     retransmit l p cl = Some cl' ∧ get_pair cl' p = Some x'
     ∧ pair_state x' = ICP_InProgress
     ∧ retransmissions x' = retransmissions x + Z.of_nat (length l)
     ∧ rto x' = rto x * 2 ^ Z.of_nat (length l)
     ∧ transactionID x' = transactionID x
     ∧ (requests_sent cl' ≤ requests_sent cl + length l)%nat)
  ∧ (retransmissions x + Z.of_nat (length l) = ICE_MAX_RETRANSMISSIONS + 1 →
     ∃ cl' x',
       retransmit l p cl = Some cl' ∧ get_pair cl' p = Some x'
       ∧ pair_state x' = ICP_Failed ∧ transactionID x' = 0
       ∧ (requests_sent cl' + 1 ≤ requests_sent cl + length l)%nat
       ∧ ∀ s o rtp time,
           ice_handle_connectivity_check_retransmission s o rtp time p cl'
           = Some cl')
  ∧ (retransmissions x = ICE_MAX_RETRANSMISSIONS →
     ∀ s o rtp,
       ice_send_binding_request s o rtp p cl
       = Some (put_pair p
                 (ice_pair_set_state ICP_Failed
                    (set_retransmissions (ICE_MAX_RETRANSMISSIONS + 1) x))
                 cl)).
Proof.
  intros Hp Hst Hw Hn Hrto Hwrap Hl Hr. split; [|split].
  - intros Hlim.
    destruct (retransmit_within_limit l p cl x lc rc)
      as (cl'&x'&?&?&?&?&?&?&?&?&?&?); [done..|lia|done|done|done|done|done|].
    exists cl', x'. done.
  - revert Hwrap. induction l as [|[[s o] rtp] l0 _] using rev_ind;
      intros Hwrap Hlim.
    { simpl in Hlim. unfold ICE_MAX_RETRANSMISSIONS in *. lia. }
    rewrite length_app in *. simpl in *.
    assert (Hwrap0 : rto x * 2 ^ Z.of_nat (length l0) < 2 ^ 32).
    { replace (Z.of_nat (length l0 + 1)) with (Z.succ (Z.of_nat (length l0)))
        in Hwrap by lia.
      rewrite Z.pow_succ_r in Hwrap by lia.
      assert (0 < 2 ^ Z.of_nat (length l0)) by (apply Z.pow_pos_nonneg; lia).
      nia. }
    destruct (retransmit_within_limit l0 p cl x lc rc)
      as (cl1&x1&Hrun&Hp1&Hst1&Hw1&Hn1&_&_&_&_&Hreq1);
      [done|done|done|lia|done|done|done|done|lia|].
    assert (Hrun' : ∀ l1 l2 c, retransmit (l1 ++ l2) p c
                     = retransmit l1 p c ≫= retransmit l2 p).
    { induction l1 as [|[[? ?] ?] l1 IH]; intros l2 c; simpl; [done|].
      destruct (ice_send_binding_request _ _ _ p c); simpl; [apply IH|done]. }
    rewrite Hrun', Hrun. cbn [mbind option_bind retransmit].
    rewrite (retransmission_limit s o rtp p cl1 x1) by (done || lia).
    cbn [mbind option_bind].
    set (x2 := ice_pair_set_state ICP_Failed
                 (set_retransmissions (ICE_MAX_RETRANSMISSIONS + 1) x1)).
    assert (Hx2 : get_pair (put_pair p x2 cl1) p = Some x2)
      by (apply get_put_pair; by eexists).
    assert (Hst2 : pair_state x2 = ICP_Failed)
      by apply pair_state_set_state.
    exists (put_pair p x2 cl1), x2.
    split; [done|]. split; [done|]. split; [done|]. split; [|split].
    + unfold x2, ice_pair_set_state. destruct x1; simpl in *. by subst.
    + unfold requests_sent in *. simpl. lia.
    + intros s' o' rtp' time.
      unfold ice_handle_connectivity_check_retransmission.
      rewrite Hx2. cbn [mbind option_bind]. rewrite Hst2.
      by rewrite bool_decide_eq_false_2.
  - intros Hmax s o rtp. by apply retransmission_limit.
Qed.

(** ** The size of the check list *)

Lemma priority_ge_ext cl cl' p q :
  Forall2 (λ x x', pair_priority x' = pair_priority x)
    (cl_pair_arena cl) (cl_pair_arena cl') →
  priority_ge cl p q → priority_ge cl' p q.
Proof.
  intros Ha Hge x' y' Hx' Hy'. unfold get_pair in *.
  destruct (Forall2_lookup_r _ _ _ _ _ Ha Hx') as (x&Hx&Hpx).
  destruct (Forall2_lookup_r _ _ _ _ _ Ha Hy') as (y&Hy&Hpy).
  rewrite Hpx, Hpy. by apply Hge.
Qed.

Lemma priorities_descend_ext cl cl' l :
  Forall2 (λ x x', pair_priority x' = pair_priority x)
    (cl_pair_arena cl) (cl_pair_arena cl') →
  priorities_descend cl l → priorities_descend cl' l.
Proof.
  intros Ha Hs. unfold priorities_descend in *.
  induction Hs as [|p l Hs IH Hp]; constructor; [done|].
  eapply Forall_impl; [exact Hp|]. intros q. by apply priority_ge_ext.
Qed.

Lemma insert_sorted_descend cl l p l' :
  priorities_descend cl l →
  ms_list_insert_sorted l p (ice_compare_pair_priorities cl) = Some l' →
  priorities_descend cl l'.
Proof.
  unfold priorities_descend. intros Hs. revert l'.
  induction Hs as [|it tl Hs IH Hit]; simpl; intros l'.
  - intros [= <-]. by repeat constructor.
  - destruct (ice_compare_pair_priorities cl p it) as [r|] eqn:Hcmp; [|done].
    cbn [mbind option_bind]. unfold ice_compare_pair_priorities in Hcmp.
    destruct (get_pair cl p) as [x|] eqn:Hx; [|done].
    destruct (get_pair cl it) as [y|] eqn:Hy; [|done].
    cbn [mbind option_bind] in Hcmp. injection Hcmp as <-.
    destruct (pair_priority x <? pair_priority y) eqn:E; simpl.
    + destruct (ms_list_insert_sorted tl p _) as [l0|] eqn:Hins; [|done].
      simpl. intros [= <-]. apply Z.ltb_lt in E.
      constructor; [by apply IH|].
      apply insert_sorted_perm in Hins. rewrite Hins.
      constructor; [|done].
      intros y' x' Hy' Hx'. simplify_eq. lia.
    + intros [= <-]. apply Z.ltb_ge in E.
      constructor; [by constructor|]. constructor.
      * intros x' y' Hx' Hy'. by simplify_eq.
      * eapply Forall_impl; [exact Hit|]. intros q Hq x' z Hx' Hz.
        simplify_eq. specialize (Hq y z Hy Hz). lia.
Qed.

Lemma create_check_list_result l cl cl' :
  for_each2 ice_create_check_list l cl = Some cl' →
  cl_pair_arena cl' = cl_pair_arena cl ∧ pairs cl' = pairs cl
  ∧ check_list cl' ≡ₚ l ++ check_list cl
  ∧ (priorities_descend cl (check_list cl) →
     priorities_descend cl' (check_list cl')).
Proof.
  revert cl. induction l as [|p l IH]; simpl; intros cl Hs.
  - by injection Hs as <-.
  - destruct (ice_create_check_list p cl) as [cl0|] eqn:Hcr; [|done].
    cbn [mbind option_bind] in Hs. unfold ice_create_check_list in Hcr.
    destruct (ms_list_insert_sorted (check_list cl) p
                (ice_compare_pair_priorities cl)) as [l0|] eqn:Hins; [|done].
    cbn [mbind option_bind] in Hcr. injection Hcr as <-.
    apply IH in Hs as (Ha&Hp&Hc&Hsorted). simpl in *.
    split; [done|]. split; [done|]. split.
    + rewrite Hc. rewrite (insert_sorted_perm _ _ _ _ Hins).
      by rewrite Permutation_middle.
    + intros Hd. apply Hsorted.
      eapply (priorities_descend_ext cl);
        [apply Forall_Forall2_diag, Forall_forall; done|].
      by eapply insert_sorted_descend.
Qed.

Lemma replace_srflx_result l cl cl' :
  for_each2 ice_replace_srflx_by_base_in_pair l cl = Some cl' →
  check_list cl' = check_list cl ∧ pairs cl' = pairs cl
  ∧ Forall2 (λ x x', pair_priority x' = pair_priority x)
      (cl_pair_arena cl) (cl_pair_arena cl').
Proof.
  apply (for_each2_rel (λ a b, check_list b = check_list a
    ∧ pairs b = pairs a
    ∧ Forall2 (λ x x', pair_priority x' = pair_priority x)
        (cl_pair_arena a) (cl_pair_arena b))).
  - intros a. split; [done|]. split; [done|].
    by apply Forall_Forall2_diag, Forall_forall.
  - intros a b c (?&?&Hab) (?&?&Hbc). split; [congruence|].
    split; [congruence|].
    eapply (steps_trans (λ x x', pair_priority x' = pair_priority x));
      [|exact Hab|exact Hbc].
    simpl. intros; congruence.
  - intros p a b. unfold ice_replace_srflx_by_base_in_pair. intros Hs.
    destruct (get_pair a p) as [x|] eqn:Hx; [|done].
    cbn [mbind option_bind] in Hs.
    destruct (local_of a x) as [lc|]; [|done]. cbn [mbind option_bind] in Hs.
    destruct (bool_decide _); injection Hs as <-.
    + split; [done|]. split; [done|]. unfold put_pair; simpl.
      rewrite <- (list_insert_id (cl_pair_arena a) p x Hx) at 1.
      apply Forall2_insert;
        [by apply Forall_Forall2_diag, Forall_forall|by destruct x].
    + split; [done|]. split; [done|].
      by apply Forall_Forall2_diag, Forall_forall.
Qed.

Lemma prune_candidate_pairs_result s cl cl' :
  0 ≤ max_connectivity_checks s →
  ice_prune_candidate_pairs s cl = Some cl' →
  ∃ full,
    check_list cl' = take (Z.to_nat (max_connectivity_checks s)) full
    ∧ full ≡ₚ pairs cl' ++ check_list cl
    ∧ (priorities_descend cl (check_list cl) → priorities_descend cl' full).
Proof.
  intros Hmax. unfold ice_prune_candidate_pairs. intros Hs.
  destruct (for_each2 ice_replace_srflx_by_base_in_pair (pairs cl) cl)
    as [cl0|] eqn:H0; [|done].
  cbn [mbind option_bind] in Hs.
  destruct (ice_prune_duplicate_pairs cl0 [] (pairs cl0)) as [l|]; [|done].
  cbn [mbind option_bind] in Hs.
  destruct (for_each2 ice_create_check_list (pairs (set_pairs l cl0))
              (set_pairs l cl0)) as [cl1|] eqn:H1; [|done].
  cbn [mbind option_bind] in Hs.
  apply replace_srflx_result in H0 as (Hc0&_&Ha0).
  apply create_check_list_result in H1 as (Ha1&Hp1&Hc1&Hs1). simpl in *.
  exists (check_list cl1).
  assert (Hdesc : priorities_descend cl (check_list cl) →
                  priorities_descend cl1 (check_list cl1)).
  { intros Hd. apply Hs1. rewrite Hc0.
    eapply priorities_descend_ext; [|exact Hd]. exact Ha0. }
  unfold ms_list_size in Hs.
  destruct (Z.of_nat (length (check_list cl1)) >? max_connectivity_checks s)
    eqn:E; injection Hs as <-; simpl.
  - apply Z.gtb_lt in E. split; [f_equal; lia|].
    split; [by rewrite Hp1, Hc1, Hc0|exact Hdesc].
  - rewrite Z.gtb_ltb in E. apply Z.ltb_ge in E.
    split; [by rewrite take_ge by lia|].
    split; [by rewrite Hp1, Hc1, Hc0|done].
Qed.

(** C3 (amended): when [max_connectivity_checks] is not negative, the
    check list that [ice_prune_candidate_pairs] returns holds at most
    [max_connectivity_checks] pairs: it is the first
    [max_connectivity_checks] elements of the list [full] of the pairs
    kept by the pruning, inserted into the check list in the order of
    their priorities, so that the pairs dropped are those of lowest
    priority.  The limit is not applied after that: an event of the engine
    adds one pair at most to a check list, so that a run of [n] events
    adds [n] pairs at most. *)
Theorem C3_check_list_limit (s : IceSession) (cl cl' : IceCheckList) :
  0 ≤ max_connectivity_checks s →
  ice_prune_candidate_pairs s cl = Some cl' →
  Z.of_nat (length (check_list cl')) ≤ max_connectivity_checks s
  ∧ (∃ full,
       check_list cl' = take (Z.to_nat (max_connectivity_checks s)) full
       ∧ full ≡ₚ pairs cl' ++ check_list cl
       ∧ (priorities_descend cl (check_list cl) →
          priorities_descend cl' full))
  ∧ (∀ s1 l s2, run s1 l = Some s2 →
       Forall2 (λ a b, (length (check_list b)
                        ≤ length l + length (check_list a))%nat)
         (streams s1) (streams s2)).
Proof.
  intros Hmax Hprune.
  destruct (prune_candidate_pairs_result s cl cl' Hmax Hprune)
    as (full&Htake&Hperm&Hsorted).
  split; [|split].
  - rewrite Htake, length_take. lia.
  - by exists full.
  - intros s1 l s2 Hrun. apply run_streams_summary in Hrun.
    eapply Forall2_impl; [exact Hrun|]. by intros a b (_&_&_&Hlen&_).
Qed.

(** ** Transaction IDs *)


(** ** The success callback *)



(** * Further properties of the engine *)

(** ** Candidate priorities *)

Lemma lor_shiftl_low (a b n : Z) :
  0 ≤ n → 0 ≤ b < 2 ^ n → Z.lor (Z.shiftl a n) b = a * 2 ^ n + b.
Proof.
  intros Hn Hb. rewrite <- Z.shiftl_mul_pow2 by done.
  rewrite <- Z.lxor_lor, <- Z.add_nocarry_lxor; [done| |];
    apply Z.bits_inj'; intros i Hi; rewrite Z.land_spec, Z.bits_0;
    destruct (decide (i < n)).
  all: try (rewrite Z.shiftl_spec_low by lia; done).
  all: destruct (decide (b = 0)) as [->|];
    [by rewrite Z.bits_0, andb_false_r|].
  all: rewrite (Z.bits_above_log2 b i), andb_false_r; [done|lia|].
  all: apply Z.log2_lt_pow2; [lia|].
  all: apply Z.lt_le_trans with (2 ^ n); [lia|].
  all: apply Z.pow_le_mono_r; lia.
Qed.

Lemma candidate_priority_value (c : IceCandidate) :
  1 ≤ cand_componentID c ≤ 256 →
  cand_priority (ice_compute_candidate_priority c)
  = type_preference_values (cand_type c) * 2 ^ 24 + 65535 * 2 ^ 8
    + (256 - cand_componentID c).
Proof.
  intros Hc. unfold ice_compute_candidate_priority, set_cand_priority.
  cbn [cand_priority].
  assert (Hhigh : Z.lor (Z.shiftl (type_preference_values (cand_type c)) 24)
                    (Z.shiftl 65535 8)
                  = Z.shiftl (type_preference_values (cand_type c) * 2 ^ 16
                              + 65535) 8).
  { by destruct (cand_type c). }
  rewrite Hhigh, lor_shiftl_low by lia.
  assert (0 ≤ type_preference_values (cand_type c) ≤ 126)
    by (destruct (cand_type c); simpl; lia).
  rewrite uint_small by lia. lia.
Qed.

(** X1: the priority that [ice_compute_candidate_priority] gives to a
    candidate whose componentID is between 1 and 256: its value, which fits
    in 31 bits, and its order: the type preference comes first (host, then
    peer reflexive, server reflexive, relayed), and among the candidates of
    a type the lower componentID has the higher priority.  The other fields
    of the candidate stay. *)
Theorem candidate_priority_order (c1 c2 : IceCandidate) :
  1 ≤ cand_componentID c1 ≤ 256 → 1 ≤ cand_componentID c2 ≤ 256 →
  cand_priority (ice_compute_candidate_priority c1)
  = type_preference_values (cand_type c1) * 2 ^ 24 + 65535 * 2 ^ 8
    + (256 - cand_componentID c1)
  ∧ 0 ≤ cand_priority (ice_compute_candidate_priority c1) < 2 ^ 31
  ∧ (type_preference_values (cand_type c2)
     < type_preference_values (cand_type c1) →
     cand_priority (ice_compute_candidate_priority c2)
     < cand_priority (ice_compute_candidate_priority c1))
  ∧ (cand_type c1 = cand_type c2 →
     cand_componentID c1 < cand_componentID c2 →
     cand_priority (ice_compute_candidate_priority c2)
     < cand_priority (ice_compute_candidate_priority c1))
  ∧ set_cand_priority (cand_priority c1) (ice_compute_candidate_priority c1)
    = c1.
Proof.
  intros H1 H2. rewrite !candidate_priority_value by done.
  assert (0 ≤ type_preference_values (cand_type c1) ≤ 126)
    by (destruct (cand_type c1); simpl; lia).
  split; [done|]. split; [lia|]. split; [lia|]. split.
  - intros ->. lia.
  - by destruct c1.
Qed.

(** ** The triggered checks queue *)

(** X2: the triggered checks queue is a FIFO without duplicates: queueing a
    pair keeps the queue free of duplicates and keeps the pairs already
    queued at their positions; a pair that is queued already is not queued
    again; popping takes the head of the queue; a pair queued on an empty
    queue is the next one popped. *)
Theorem triggered_checks_queue_fifo (p : nat) (cl : IceCheckList) :
  NoDup (triggered_checks_queue cl) →
  NoDup (triggered_checks_queue (ice_check_list_queue_triggered_check p cl))
  ∧ p ∈ triggered_checks_queue (ice_check_list_queue_triggered_check p cl)
  ∧ (∀ i q, triggered_checks_queue cl !! i = Some q →
       triggered_checks_queue (ice_check_list_queue_triggered_check p cl) !! i
       = Some q)
  ∧ (p ∈ triggered_checks_queue cl →
     ice_check_list_queue_triggered_check p cl = cl)
  ∧ (ice_check_list_pop_triggered_check cl).1
    = head (triggered_checks_queue cl)
  ∧ triggered_checks_queue (ice_check_list_pop_triggered_check cl).2
    = tail (triggered_checks_queue cl)
  ∧ NoDup (triggered_checks_queue (ice_check_list_pop_triggered_check cl).2)
  ∧ (triggered_checks_queue cl = [] →
     (ice_check_list_pop_triggered_check
        (ice_check_list_queue_triggered_check p cl)).1 = Some p).
Proof.
  intros Hnd.
  unfold ice_check_list_queue_triggered_check, ice_check_list_pop_triggered_check,
    ms_list_find, ms_list_append.
  destruct (decide (p ∈ triggered_checks_queue cl)) as [Hin|Hin].
  - rewrite bool_decide_eq_true_2 by done.
    split; [done|]. split; [done|]. split; [done|]. split; [done|].
    destruct (triggered_checks_queue cl) as [|q l] eqn:E; simpl.
    + by apply elem_of_nil in Hin.
    + split; [done|]. split; [done|]. split; [by inversion Hnd|done].
  - rewrite bool_decide_eq_false_2 by done. simpl.
    split; [apply NoDup_app; repeat split; try done;
            [intros x Hx Hx'; apply list_elem_of_singleton in Hx'; by subst
            |apply NoDup_singleton]|].
    split; [apply elem_of_app; right; by left|].
    split; [intros i q Hq; by apply lookup_app_l_Some|].
    split; [done|].
    destruct (triggered_checks_queue cl) as [|q l] eqn:E; simpl.
    + repeat split; try done; rewrite ?E; try done; apply NoDup_nil_2.
    + split; [done|]. split; [done|]. split; [by inversion Hnd|done].
Qed.

(** ** Adding candidates *)

Lemma find_custom_total {A} (cmp : A → option Z) (l : list A) :
  (∀ x, x ∈ l → is_Some (cmp x)) → is_Some (ms_list_find_custom cmp l).
Proof.
  induction l as [|y l IH]; simpl; intros Hl; [done|].
  destruct (Hl y) as [r ->]; [left|]. simpl.
  destruct (r =? 0); [done|]. apply IH. intros x Hx. apply Hl. by right.
Qed.

(** X3: a local candidate is added with the type string that
    [ice_candidate_type] gives for the type [t], to a check list with fewer
    than 10 local candidates: the candidate is allocated, it has the type
    [t], the address and the port given (the IP cut at the size of its
    array), the componentID given, the priority of
    [ice_compute_candidate_priority] and no foundation; a host or relayed
    candidate is its own base, another one gets the base given.  It is the
    last local candidate, its componentID is registered, and the candidates
    that were there are unchanged, as are the remote candidates, the pairs
    and the lists of pairs. *)
Theorem add_local_candidate_lookup (t : IceCandidateType) (ip : string)
    (port componentID : Z) (base : option nat) (cl : IceCheckList) :
  (length (local_candidates cl) < 10)%nat →
  (∀ c, c ∈ componentIDs cl → is_Some (get_cand cl c)) →
  ∃ cl',
    ice_add_local_candidate (candidate_type_values t) ip port componentID
      base cl = Some (Some (length (cl_candidates cl)), cl')
    ∧ get_cand cl' (length (cl_candidates cl))
      = Some (ice_compute_candidate_priority
                {| cand_taddr :=
                     mkTaddr (strncpy ip (Nat.min (strlen ip) sizeof_ip)) port;
                   cand_type := t;
                   cand_componentID := componentID;
                   cand_priority := 0;
                   cand_foundation := EmptyString;
                   cand_base :=
                     match t with
                     | ICT_HostCandidate | ICT_RelayedCandidate =>
                         Some (length (cl_candidates cl))
                     | _ => base
                     end;
                   cand_is_default := false |})
    ∧ local_candidates cl'
      = local_candidates cl ++ [length (cl_candidates cl)]
    ∧ registered cl' componentID = true
    ∧ (∀ c cand, get_cand cl c = Some cand → get_cand cl' c = Some cand)
    ∧ remote_candidates cl' = remote_candidates cl
    ∧ cl_pair_arena cl' = cl_pair_arena cl
    ∧ pairs cl' = pairs cl ∧ check_list cl' = check_list cl
    ∧ valid_list cl' = valid_list cl.
Proof.
  intros Hlen Hids. unfold ice_add_local_candidate, ice_add_candidate.
  cbn [candidate_list]. unfold ms_list_size, ICE_MAX_NB_CANDIDATES.
  destruct (Z.of_nat (length (local_candidates cl)) >=? 10) eqn:E;
    [rewrite Z.geb_leb in E; apply Z.leb_le in E; lia|].
  set (c := length (cl_candidates cl)).
  set (cand0 := {| cand_taddr :=
                     mkTaddr (strncpy ip (Nat.min (strlen ip) sizeof_ip)) port;
                   cand_type := t; cand_componentID := componentID;
                   cand_priority := 0; cand_foundation := EmptyString;
                   cand_base := match t with
                                | ICT_HostCandidate | ICT_RelayedCandidate =>
                                    Some c
                                | _ => None
                                end;
                   cand_is_default := false |}).
  set (cand1 := ice_compute_candidate_priority
                  {| cand_taddr :=
                       mkTaddr (strncpy ip (Nat.min (strlen ip) sizeof_ip))
                         port;
                     cand_type := t; cand_componentID := componentID;
                     cand_priority := 0; cand_foundation := EmptyString;
                     cand_base := match t with
                                  | ICT_HostCandidate | ICT_RelayedCandidate =>
                                      Some c
                                  | _ => base
                                  end;
                     cand_is_default := false |}).
  set (cl1 := set_local_candidates (ms_list_append (local_candidates cl) c)
                (set_cl_candidates (cl_candidates cl ++ [cand0]) cl)).
  set (cl2 := alter_cand ice_compute_candidate_priority c
                (alter_cand
                   (λ candidate,
                      match cand_base candidate with
                      | None => set_cand_base base candidate
                      | Some _ => candidate
                      end) c cl1)).
  assert (Hparse :
    (if strcmp (candidate_type_values t) "host" =? 0
     then Some ICT_HostCandidate
     else if strcmp (candidate_type_values t) "srflx" =? 0
     then Some ICT_ServerReflexiveCandidate
     else if strcmp (candidate_type_values t) "prflx" =? 0
     then Some ICT_PeerReflexiveCandidate
     else if strcmp (candidate_type_values t) "relay" =? 0
     then Some ICT_RelayedCandidate else None) = Some t)
    by (by destruct t).
  rewrite Hparse. fold c. fold cand0. cbn [set_candidate_list].
  fold cl1. cbn beta iota. fold cl2.
  assert (Hc2 : get_cand cl2 c = Some cand1).
  { unfold cl2. rewrite !get_cand_alter_cand. unfold get_cand, cl1; simpl.
    rewrite lookup_app_r by done. unfold c. rewrite Nat.sub_diag. simpl.
    unfold cand0, cand1. by destruct t. }
  assert (Hold : ∀ c' cand, get_cand cl c' = Some cand →
                            get_cand cl2 c' = Some cand).
  { intros c' cand Hc'. unfold get_cand, cl2, cl1, alter_cand in *; simpl.
    assert (c' < c)%nat by (by eapply lookup_lt_Some).
    rewrite !list_lookup_alter_ne by lia. by apply lookup_app_l_Some. }
  unfold ice_add_componentID. rewrite Hc2. cbn [mbind option_bind].
  destruct (find_custom_total
              (ice_find_componentID cl2 (cand_componentID cand1))
              (componentIDs cl2)) as [elem Helem].
  { intros x Hx. unfold ice_find_componentID.
    destruct (Hids x Hx) as [y Hy]. by rewrite (Hold _ _ Hy). }
  rewrite Helem. cbn [mbind option_bind].
  destruct elem as [e|].
  - exists cl2. split; [done|]. split; [done|]. split; [done|].
    split; [|done].
    apply find_custom_Some in Helem as [Hin He].
    unfold ice_find_componentID in He.
    destruct (get_cand cl2 e) as [ce|] eqn:Hce; [|done].
    cbn [mbind option_bind] in He.
    change (cand_componentID cand1) with componentID in He.
    destruct (cand_componentID ce =? componentID) eqn:Eq; [|done].
    apply Z.eqb_eq in Eq. apply registered_true. by exists e, ce.
  - exists (set_componentIDs (ms_list_append (componentIDs cl2) c) cl2).
    split; [done|]. split; [done|]. split; [done|]. split; [|done].
    apply registered_true. exists c, cand1. split; [|done].
    simpl. apply elem_of_app. right. by left.
Qed.

Lemma add_remote_candidate_lookup (t : IceCandidateType) (ip : string)
    (port componentID priority : Z) (foundation : string)
    (cl : IceCheckList) :
  (length (remote_candidates cl) < 10)%nat →
  ∃ cl',
    ice_add_remote_candidate (candidate_type_values t) ip port componentID
      priority foundation cl = (Some (length (cl_candidates cl)), cl')
    ∧ get_cand cl' (length (cl_candidates cl))
      = Some (set_cand_foundation (strncpy foundation (sizeof_foundation - 1))
                ((if priority =? 0 then ice_compute_candidate_priority
                  else set_cand_priority priority)
                   {| cand_taddr :=
                        mkTaddr (strncpy ip (Nat.min (strlen ip) sizeof_ip))
                          port;
                      cand_type := t;
                      cand_componentID := componentID;
                      cand_priority := 0;
                      cand_foundation := EmptyString;
                      cand_base :=
                        match t with
                        | ICT_HostCandidate | ICT_RelayedCandidate =>
                            Some (length (cl_candidates cl))
                        | _ => None
                        end;
                      cand_is_default := false |}))
    ∧ remote_candidates cl'
      = remote_candidates cl ++ [length (cl_candidates cl)]
    ∧ (∀ c cand, get_cand cl c = Some cand → get_cand cl' c = Some cand)
    ∧ local_candidates cl' = local_candidates cl
    ∧ componentIDs cl' = componentIDs cl
    ∧ cl_pair_arena cl' = cl_pair_arena cl
    ∧ pairs cl' = pairs cl ∧ check_list cl' = check_list cl
    ∧ valid_list cl' = valid_list cl.
Proof.
  intros Hlen. unfold ice_add_remote_candidate, ice_add_candidate.
  cbn [candidate_list]. unfold ms_list_size, ICE_MAX_NB_CANDIDATES.
  destruct (Z.of_nat (length (remote_candidates cl)) >=? 10) eqn:E;
    [rewrite Z.geb_leb in E; apply Z.leb_le in E; lia|].
  set (c := length (cl_candidates cl)).
  assert (Hparse :
    (if strcmp (candidate_type_values t) "host" =? 0
     then Some ICT_HostCandidate
     else if strcmp (candidate_type_values t) "srflx" =? 0
     then Some ICT_ServerReflexiveCandidate
     else if strcmp (candidate_type_values t) "prflx" =? 0
     then Some ICT_PeerReflexiveCandidate
     else if strcmp (candidate_type_values t) "relay" =? 0
     then Some ICT_RelayedCandidate else None) = Some t)
    by (by destruct t).
  rewrite Hparse. cbn [set_candidate_list]. cbn beta iota.
  eexists. split; [done|]. split.
  - rewrite !get_cand_alter_cand. unfold get_cand; simpl.
    rewrite lookup_app_r by done. fold c. rewrite Nat.sub_diag. simpl.
    by destruct (priority =? 0).
  - split; [done|]. split; [|done].
    intros c' cand Hc'. unfold get_cand, alter_cand in *; simpl.
    assert (c' < c)%nat by (by eapply lookup_lt_Some).
    rewrite !list_lookup_alter_ne by lia. by apply lookup_app_l_Some.
Qed.

Lemma generated_foundation_fresh draws len cl l f :
  ice_generate_arbitrary_foundation draws len cl l = Some f →
  ∀ c cand, c ∈ l → get_cand cl c = Some cand →
            same_string (cand_foundation cand) f = false.
Proof.
  induction draws as [|r draws IH]; simpl; [done|].
  destruct (ms_list_find_custom _ l) as [[e|]|] eqn:Hf; [| |done]; simpl.
  - apply IH.
  - intros [= <-] c cand Hc Hcand.
    destruct (find_custom_None _ _ Hf c Hc) as (v&Hv&Hne).
    unfold ice_find_candidate_from_foundation in Hv. rewrite Hcand in Hv.
    simpl in Hv. injection Hv as <-.
    by destruct (same_string _ _).
Qed.

(** ** Peer reflexive candidates learned from binding requests *)

(** X4: a binding request received on the RTP (RTCP) socket from the transport
    address [taddr].  When [taddr] is the address of a remote candidate,
    nothing is learned and the check list stays as it is.  Otherwise a
    foundation is drawn that no remote candidate has, and a remote
    candidate of type peer reflexive is added with the address and the
    port of [taddr], the componentID 1 (2), the priority of the PRIORITY
    attribute (computed, when the attribute is 0) and that foundation; when
    the list of remote candidates is full, nothing is added. *)
Theorem learn_peer_reflexive_candidate_result (o : Oracle)
    (evt : OrtpEventData) (msg : StunMessage) (taddr : IceTransportAddress)
    (cl : IceCheckList) (componentID : Z) :
  socket_type evt = OrtpRTPSocket ∧ componentID = 1
  ∨ socket_type evt = OrtpRTCPSocket ∧ componentID = 2 →
  (∀ c,
     ms_list_find_custom (ice_find_candidate_from_transport_address cl taddr)
       (remote_candidates cl) = Some (Some c) →
     ice_learn_peer_reflexive_candidate o evt msg taddr cl = Some (None, cl))
  ∧ (∀ f,
       ms_list_find_custom (ice_find_candidate_from_transport_address cl taddr)
         (remote_candidates cl) = Some None →
       ice_generate_arbitrary_foundation (random_draws o) 32 cl
         (remote_candidates cl) = Some f →
       (∀ c cand, c ∈ remote_candidates cl → get_cand cl c = Some cand →
                  same_string (cand_foundation cand) f = false)
       ∧ ((10 ≤ length (remote_candidates cl))%nat →
          ice_learn_peer_reflexive_candidate o evt msg taddr cl
          = Some (None, cl))
       ∧ ((length (remote_candidates cl) < 10)%nat →
          ∃ cl',
            ice_learn_peer_reflexive_candidate o evt msg taddr cl
            = Some (Some (length (cl_candidates cl)), cl')
            ∧ get_cand cl' (length (cl_candidates cl))
              = Some (set_cand_foundation
                        (strncpy f (sizeof_foundation - 1))
                        ((if msg_priority msg =? 0
                          then ice_compute_candidate_priority
                          else set_cand_priority (msg_priority msg))
                           {| cand_taddr :=
                                mkTaddr
                                  (strncpy (ip taddr)
                                     (Nat.min (strlen (ip taddr)) sizeof_ip))
                                  (port taddr);
                              cand_type := ICT_PeerReflexiveCandidate;
                              cand_componentID := componentID;
                              cand_priority := 0;
                              cand_foundation := EmptyString;
                              cand_base := None;
                              cand_is_default := false |}))
            ∧ remote_candidates cl'
              = remote_candidates cl ++ [length (cl_candidates cl)]
            ∧ (∀ c cand, get_cand cl c = Some cand →
                         get_cand cl' c = Some cand)
            ∧ local_candidates cl' = local_candidates cl
            ∧ cl_pair_arena cl' = cl_pair_arena cl
            ∧ check_list cl' = check_list cl)).
Proof.
  intros Hsock.
  assert (Hlearn : ice_learn_peer_reflexive_candidate o evt msg taddr cl
    = (ms_list_find_custom (ice_find_candidate_from_transport_address cl taddr)
         (remote_candidates cl)
       ≫= λ elem,
            match elem with
            | None =>
                ice_generate_arbitrary_foundation (random_draws o) 32 cl
                  (remote_candidates cl)
                ≫= λ foundation,
                     Some (ice_add_remote_candidate "prflx" (ip taddr)
                             (port taddr) componentID (msg_priority msg)
                             foundation cl)
            | Some _ => Some (None, cl)
            end)).
  { unfold ice_learn_peer_reflexive_candidate.
    by destruct Hsock as [[-> ->]|[-> ->]]. }
  rewrite Hlearn. split.
  - by intros c ->.
  - intros f -> Hgen. rewrite Hgen. cbn [mbind option_bind].
    split; [by eapply generated_foundation_fresh|]. split.
    + intros Hfull. f_equal. unfold ice_add_remote_candidate.
      by rewrite (ice_add_candidate_full RemoteCandidates).
    + intros Hlen.
      destruct (add_remote_candidate_lookup ICT_PeerReflexiveCandidate
                  (ip taddr) (port taddr) componentID (msg_priority msg) f cl
                  Hlen) as (cl'&Hadd&Hget&Hrem&Hold&Hloc&_&Harena&_&Hcl&_).
      exists cl'. simpl in Hadd. rewrite Hadd. done.
Qed.

(** ** Binding requests that fail a check *)

Lemma check_attributes_cases rtp evt msg cl :
  ice_check_received_binding_request_attributes rtp evt msg cl = (0, cl)
  ∨ ice_check_received_binding_request_attributes rtp evt msg cl
    = (-1, ice_send_error_response rtp evt msg 4 0 cl).
Proof.
  unfold ice_check_received_binding_request_attributes.
  repeat case_match; auto.
Qed.

Lemma check_integrity_cases s rtp evt msg cl :
  ice_check_received_binding_request_integrity s rtp evt msg cl = (0, cl)
  ∨ ice_check_received_binding_request_integrity s rtp evt msg cl
    = (-1, ice_send_error_response rtp evt msg 4 1 cl).
Proof.
  unfold ice_check_received_binding_request_integrity.
  repeat case_match; auto.
Qed.

Lemma check_username_cases s rtp evt msg cl :
  ice_check_received_binding_request_username s rtp evt msg cl = (0, cl)
  ∨ ice_check_received_binding_request_username s rtp evt msg cl
    = (-1, ice_send_error_response rtp evt msg 4 1 cl).
Proof.
  unfold ice_check_received_binding_request_username.
  repeat case_match; auto.
Qed.

(** X5: a binding request that fails one of the first three checks is
    dropped.  The attributes check passes exactly when MESSAGE-INTEGRITY,
    USERNAME, FINGERPRINT, PRIORITY and one of ICE-CONTROLLING and
    ICE-CONTROLLED are present.  When a check fails, the handler returns
    the session with, on the check list that received the request, the
    error response of the check, (4,0) for a missing attribute and (4,1)
    for the integrity and the USERNAME, and nothing else: an error response
    changes only the messages sent, by that response at most. *)
Theorem invalid_binding_request_dropped (k : nat) (o : Oracle)
    (rtp : RtpSession) (evt : OrtpEventData) (msg : StunMessage)
    (src6host : string) (s : IceSession) (cl : IceCheckList) :
  get_stream k s = Some cl →
  ((ice_check_received_binding_request_attributes rtp evt msg cl).1 = 0 ↔
   hasMessageIntegrity msg = true ∧ hasUsername msg = true
   ∧ hasFingerprint msg = true ∧ hasPriority msg = true
   ∧ (hasIceControlling msg = true ∨ hasIceControlled msg = true))
  ∧ ((ice_check_received_binding_request_attributes rtp evt msg cl).1 ≠ 0 →
     ice_handle_received_binding_request k o rtp evt msg src6host s
     = Some (put_stream k (ice_send_error_response rtp evt msg 4 0 cl) s))
  ∧ ((ice_check_received_binding_request_attributes rtp evt msg cl).1 = 0 →
     (ice_check_received_binding_request_integrity s rtp evt msg cl).1 ≠ 0
     ∨ (ice_check_received_binding_request_username s rtp evt msg cl).1 ≠ 0 →
     ice_handle_received_binding_request k o rtp evt msg src6host s
     = Some (put_stream k (ice_send_error_response rtp evt msg 4 1 cl) s))
  ∧ (∀ c n,
       ice_send_error_response rtp evt msg c n cl = cl
       ∨ ice_send_error_response rtp evt msg c n cl
         = set_cl_sent (WireErrorResponse (tr_id msg) c n :: cl_sent cl) cl).
Proof.
  intros Hk. split; [|split; [|split]].
  - unfold ice_check_received_binding_request_attributes.
    destruct (hasMessageIntegrity msg), (hasUsername msg),
      (hasFingerprint msg), (hasPriority msg), (hasIceControlling msg),
      (hasIceControlled msg); simpl; intuition congruence.
  - intros Hattr. unfold ice_handle_received_binding_request.
    rewrite Hk. cbn [mbind option_bind].
    destruct (check_attributes_cases rtp evt msg cl) as [E|E];
      rewrite E in *; [done|]. done.
  - intros Hattr Hfail. unfold ice_handle_received_binding_request.
    rewrite Hk. cbn [mbind option_bind].
    rewrite (check_attributes_ok _ _ _ _ Hattr). cbn beta iota.
    change (0 <? 0) with false. cbn beta iota.
    destruct (check_integrity_cases s rtp evt msg cl) as [E|E]; rewrite E in *.
    + cbn beta iota. change (0 <? 0) with false. cbn beta iota.
      destruct (check_username_cases s rtp evt msg cl) as [E'|E'];
        rewrite E' in *; [|done].
      by destruct Hfail.
    + done.
  - intros c n. unfold ice_send_error_response, sendMessage.
    repeat case_match; auto.
Qed.

(** ** The initial states of the pairs *)




(** ** The conclusion *)

Lemma pair_concluded_refl x : pair_concluded x x.
Proof. split; [by destruct x|done]. Qed.

Lemma pair_concluded_trans x y z :
  pair_concluded x y → pair_concluded y z → pair_concluded x z.
Proof.
  intros [-> H1] [-> H2]. split; [by destruct x|].
  intros Hn. apply H2. cbn. by apply H1.
Qed.

Lemma concludes_refl cl : concludes cl cl.
Proof.
  unfold concludes. repeat split; auto using steps_refl, pair_concluded_refl.
Qed.

Lemma concludes_trans a b c : concludes a b → concludes b c → concludes a c.
Proof.
  unfold concludes.
  intros (?&?&?&?&?&?&?&?&?) (?&?&?&?&?&?&?&?&?).
  repeat split; try congruence.
  - by etrans.
  - eapply steps_trans; eauto using pair_concluded_trans.
Qed.

Lemma concludes_put_pair cl p x x' :
  get_pair cl p = Some x → pair_concluded x x' → concludes cl (put_pair p x' cl).
Proof.
  intros Hp Hs. unfold concludes, put_pair; simpl.
  repeat split; auto. eapply steps_insert; eauto using pair_concluded_refl.
Qed.

Lemma concludes_queue p cl :
  concludes cl (ice_check_list_queue_triggered_check p cl).
Proof.
  unfold ice_check_list_queue_triggered_check. case_match.
  - apply concludes_refl.
  - unfold concludes; simpl.
    repeat split; auto using steps_refl, pair_concluded_refl.
Qed.

Lemma concludes_regular_nomination vp cl cl' :
  ice_perform_regular_nomination vp cl = Some cl' → concludes cl cl'.
Proof.
  unfold ice_perform_regular_nomination. intros Hs.
  destruct (get_pair cl (valid vp)) as [v|]; [|done]. simpl in Hs.
  destruct (is_nominated v); simpl in Hs; [simplify_eq; apply concludes_refl|].
  destruct (get_pair cl (generated_from vp)) as [g|] eqn:Hg; [|done].
  simpl in Hs. simplify_eq.
  eapply concludes_trans; [|apply concludes_queue].
  eapply concludes_put_pair; [done|]. split; [by destruct g|done].
Qed.

Lemma concludes_stop_retransmission cid p cl cl' :
  ice_stop_retransmission_for_in_progress_pair cid p cl = Some cl' →
  concludes cl cl'.
Proof.
  unfold ice_stop_retransmission_for_in_progress_pair. intros Hs.
  destruct (get_pair cl p) as [x|] eqn:Hx; [|done]. simpl in Hs.
  destruct (bool_decide _); [|simplify_eq; apply concludes_refl].
  destruct (local_of cl x) as [l|]; [|done]. simpl in Hs.
  destruct (_ =? _); simplify_eq; [|apply concludes_refl].
  eapply concludes_put_pair; [done|]. split; [by destruct x|done].
Qed.

Lemma for_each2_concludes {A} (f : A → IceCheckList → option IceCheckList)
    l cl cl' :
  (∀ x a b, f x a = Some b → concludes a b) →
  for_each2 f l cl = Some cl' → concludes cl cl'.
Proof.
  intros Hf. apply for_each2_rel;
    [apply concludes_refl|apply concludes_trans|done].
Qed.

Lemma concludes_pairs vp cl cl' :
  ice_conclude_waiting_frozen_and_inprogress_pairs vp cl = Some cl' →
  concludes cl cl'.
Proof.
  unfold ice_conclude_waiting_frozen_and_inprogress_pairs. intros Hs.
  destruct (get_pair cl (valid vp)) as [v|]; [|done]. simpl in Hs.
  destruct (is_nominated v); [|simplify_eq; apply concludes_refl].
  destruct (local_of cl v) as [l|]; [|done]. simpl in Hs.
  destruct (ice_remove_waiting_and_frozen_pairs_from_list cl
              (cand_componentID l) (check_list cl)) as [l1|] eqn:E1; [|done].
  simpl in Hs.
  destruct (ice_remove_waiting_and_frozen_pairs_from_list
              (set_check_list l1 cl) (cand_componentID l)
              (triggered_checks_queue cl)) as [q|] eqn:E2; [|done].
  simpl in Hs.
  eapply concludes_trans;
    [|eapply for_each2_concludes; [|exact Hs];
      intros ? ? ? Hf; exact (concludes_stop_retransmission _ _ _ _ Hf)].
  unfold concludes; simpl.
  repeat split; auto using steps_refl, pair_concluded_refl.
  by eapply remove_from_list_sublist.
Qed.

(** The test of [ice_conclude_processing] for the Failed state. *)
Lemma finished_test_find cl l r :
  ms_list_find_custom (ice_find_not_failed_or_succeeded_pair cl) l = Some r →
  r = None ↔ Forall (pair_finished cl) l.
Proof.
  induction l as [|p l IH]; cbn [ms_list_find_custom].
  - intros [= <-]. split; [constructor|done].
  - destruct (ice_find_not_failed_or_succeeded_pair cl p) as [c|] eqn:Hc;
      [|done].
    unfold ice_find_not_failed_or_succeeded_pair in Hc.
    destruct (get_pair cl p) as [x|] eqn:Hx; [|done].
    cbn [mbind option_bind] in *. injection Hc as <-.
    destruct (decide (pair_state x = ICP_Failed ∨ pair_state x = ICP_Succeeded))
      as [Hfin|Hnot].
    + assert (lnot (bool_decide (pair_state x ≠ ICP_Failed)
                    && bool_decide (pair_state x ≠ ICP_Succeeded)) = 1) as ->.
      { destruct Hfin as [-> | ->]; done. }
      cbn [Z.eqb]. intros Hr. rewrite (IH Hr). split.
      * intros Hall. constructor; [by exists x|done].
      * by inversion 1.
    + assert (lnot (bool_decide (pair_state x ≠ ICP_Failed)
                    && bool_decide (pair_state x ≠ ICP_Succeeded)) = 0) as ->.
      { destruct (pair_state x); try done; exfalso; apply Hnot; auto. }
      cbn [Z.eqb]. intros [= <-]. split; [done|].
      inversion 1 as [|? ? (y&Hy&Hfin) _]; subst. by simplify_eq.
Qed.

Lemma finished_test cl l b r :
  for_each2 (ice_check_all_pairs_in_failed_or_succeeded_state cl) l b = Some r →
  r = true ↔ b = true ∧ (l = [] ∨ Forall (pair_finished cl) (check_list cl)).
Proof.
  revert b. induction l as [|p l IH]; cbn [for_each2]; intros b.
  - intros [= <-]. split; [auto|by intros [? _]].
  - destruct (ice_check_all_pairs_in_failed_or_succeeded_state cl p b)
      as [b'|] eqn:Hb; [|done].
    unfold ice_check_all_pairs_in_failed_or_succeeded_state in Hb.
    destruct (ms_list_find_custom _ (check_list cl)) as [e|] eqn:Hf; [|done].
    apply finished_test_find in Hf. cbn [mbind option_bind] in *.
    destruct e as [q|]; injection Hb as <-; intros Hr; rewrite (IH _ Hr).
    + split; [by intros [? _]|]. intros [_ [?|Hall]]; [done|].
      by apply Hf in Hall.
    + split; [intros [-> _]|intros [-> _]]; (split; [done|]); right; by apply Hf.
Qed.



(** The three outcomes of [ice_conclude_processing]; [cl1] is the check
    list after the nominations and the removal of the pairs that are not
    needed any more. *)
Lemma conclude_outcomes s cl cl' :
  ice_conclude_processing s cl = Some cl' →
  ∃ cl1, concludes cl cl1 ∧ same_state cl cl1 ∧
    ((all_nominated cl1
      ∧ cl' = if decide (cl_state cl1 ≠ ICL_Completed)
              then set_keepalive_time (ticker_time s)
                     (set_success_cb_calls (S (success_cb_calls cl1))
                        (set_cl_state ICL_Completed cl1))
              else cl1)
     ∨ (¬ all_nominated cl1 ∧ Forall (pair_finished cl1) (check_list cl1)
        ∧ cl' = if decide (cl_state cl1 ≠ ICL_Failed)
                then set_cl_state ICL_Failed cl1 else cl1)
     ∨ (¬ all_nominated cl1 ∧ ¬ Forall (pair_finished cl1) (check_list cl1)
        ∧ cl' = cl1)).
Proof.
  unfold ice_conclude_processing. intros Hs.
  destruct (if bool_decide (role s = IR_Controlling)
            then for_each2 ice_perform_regular_nomination (valid_list cl) cl
            else Some cl) as [cla|] eqn:Ha; [|done].
  simpl in Hs.
  assert (concludes cl cla ∧ same_state cl cla) as [Hca Hsa].
  { destruct (bool_decide _); [|simplify_eq; split; [apply concludes_refl|done]].
    split.
    - eapply for_each2_concludes; [|exact Ha].
      intros ? ? ? Hf. exact (concludes_regular_nomination _ _ _ Hf).
    - apply pairs_only_same_state.
      eapply for_each2_pairs_only; [|exact Ha].
      intros ? ? ? Hf. exact (pairs_only_regular_nomination _ _ _ Hf). }
  destruct (for_each2 ice_conclude_waiting_frozen_and_inprogress_pairs
              (valid_list cla) cla) as [cl1|] eqn:Hb; [|done].
  simpl in Hs.
  assert (concludes cla cl1 ∧ same_state cla cl1) as [Hcb Hsb].
  { eapply (for_each2_inv (λ b, concludes cla b ∧ same_state cla b));
      [|split; [apply concludes_refl|done]|exact Hb].
    intros vp a b [? ?] Hf. pose proof (concludes_pairs _ _ _ Hf).
    apply conclude_pairs_shrinks in Hf as [? ?].
    split; [by eapply concludes_trans|by eapply same_state_trans]. }
  exists cl1. split; [by eapply concludes_trans|].
  split; [by eapply same_state_trans|].
  destruct (for_each2 (ice_find_nominated_valid_pair_for_componentID cl1)
              (componentIDs cl1) true) as [r|] eqn:Hr; [|done].
  simpl in Hs. apply completion_test_all in Hr as [Hr1 Hr2].
  destruct r.
  - left. split; [auto|]. by destruct (decide _); simplify_eq.
  - right.
    destruct (for_each2 (ice_check_all_pairs_in_failed_or_succeeded_state cl1)
                (check_list cl1) true) as [r'|] eqn:Hr'; [|done].
    simpl in Hs. apply finished_test in Hr'.
    assert (r' = true ↔ Forall (pair_finished cl1) (check_list cl1)) as Hiff.
    { rewrite Hr'. split; [|auto]. intros [_ [->|?]]; [constructor|done]. }
    destruct r'.
    + left. split; [auto|]. split; [by apply Hiff|].
      by destruct (decide _); simplify_eq.
    + right. split; [auto|]. split; [|by simplify_eq].
      intros Hall. by apply Hiff in Hall.
Qed.

Lemma conclude_concludes s cl cl' :
  ice_conclude_processing s cl = Some cl' → concludes cl cl'.
Proof.
  intros Hs. apply conclude_outcomes in Hs as (cl1&Hc&_&Hcases).
  eapply concludes_trans; [exact Hc|].
  destruct Hcases as [(_&->)|[(_&_&->)|(_&_&->)]];
    try destruct (decide _); try apply concludes_refl.
  all: unfold concludes; simpl;
    repeat split; auto using steps_refl, pair_concluded_refl.
Qed.



(** ** The change of role *)

Lemma pair_reprioritised_refl x : pair_reprioritised x x.
Proof. by destruct x. Qed.

Lemma pair_reprioritised_trans x y z :
  pair_reprioritised x y → pair_reprioritised y z → pair_reprioritised x z.
Proof. unfold pair_reprioritised. intros -> ->. by destruct x. Qed.

Lemma reprioritised_refl cl : reprioritised cl cl.
Proof.
  split; [by destruct cl|]. apply steps_refl, pair_reprioritised_refl.
Qed.

Lemma reprioritised_trans a b c :
  reprioritised a b → reprioritised b c → reprioritised a c.
Proof.
  intros [Hb H1] [Hc H2]. split.
  - rewrite Hc, Hb. by destruct a.
  - eapply steps_trans; eauto using pair_reprioritised_trans.
Qed.

Lemma reprioritised_fields cl cl' :
  reprioritised cl cl' →
  cl_candidates cl' = cl_candidates cl ∧ pairs cl' = pairs cl
  ∧ check_list cl' = check_list cl.
Proof. intros [-> _]. by destruct cl. Qed.

Lemma reprioritised_pair cl cl' p x :
  reprioritised cl cl' → get_pair cl p = Some x →
  ∃ x', get_pair cl' p = Some x' ∧ pair_reprioritised x x'.
Proof.
  intros [_ HF] Hx. unfold get_pair in *.
  destruct (Forall2_lookup_l _ _ _ _ _ HF Hx) as (x'&?&?). eauto.
Qed.

Lemma reprioritised_pair_inv cl cl' p x' :
  reprioritised cl cl' → get_pair cl' p = Some x' →
  ∃ x, get_pair cl p = Some x ∧ pair_reprioritised x x'.
Proof.
  intros [_ HF] Hx. unfold get_pair in *.
  destruct (Forall2_lookup_r _ _ _ _ _ HF Hx) as (x&?&?). eauto.
Qed.

Lemma compute_pair_priority_ext r cl cl' x x' y :
  cl_candidates cl' = cl_candidates cl → pair_reprioritised x x' →
  ice_compute_pair_priority r cl x = Some y →
  ice_compute_pair_priority r cl' x' = Some (set_pair_priority (pair_priority y) x').
Proof.
  unfold ice_compute_pair_priority, local_of, remote_of, get_cand.
  intros -> -> Hy. cbn [pair_local pair_remote set_pair_priority] in *.
  destruct (pair_local x ≫= _) as [l|]; [|done]. cbn [mbind option_bind] in *.
  destruct (cl_candidates cl !! pair_remote x) as [rm|]; [|done].
  cbn [mbind option_bind] in *. destruct r; by injection Hy as <-.
Qed.

Lemma compute_pair_priority_step r cl x y :
  ice_compute_pair_priority r cl x = Some y →
  pair_reprioritised x y ∧ ice_compute_pair_priority r cl y = Some y.
Proof.
  intros Hy. assert (pair_reprioritised x y) as Hr.
  { revert Hy. unfold ice_compute_pair_priority.
    destruct (local_of cl x); [|done]. cbn [mbind option_bind].
    destruct (remote_of cl x); [|done]. cbn [mbind option_bind].
    destruct r; by intros [= <-]. }
  split; [done|].
  rewrite (compute_pair_priority_ext r cl cl x y y eq_refl Hr Hy).
  by destruct y.
Qed.

Lemma compute_pair_priority_cands r cl cl' x :
  cl_candidates cl' = cl_candidates cl →
  ice_compute_pair_priority r cl' x = ice_compute_pair_priority r cl x.
Proof.
  unfold ice_compute_pair_priority, local_of, remote_of, get_cand.
  by intros ->.
Qed.

(** After the loop of [ice_check_list_compute_pair_priorities], a pair of
    the list has the priority that [ice_compute_pair_priority] gives it for
    the role [r], and so has a pair that had it before. *)
Lemma compute_pair_priorities_result r l cl cl' :
  for_each2 (ice_compute_pair_priority_at r) l cl = Some cl' →
  reprioritised cl cl'
  ∧ ∀ p x', p ∈ l ∨ (∃ x, get_pair cl p = Some x
                         ∧ ice_compute_pair_priority r cl x = Some x) →
            get_pair cl' p = Some x' →
            ice_compute_pair_priority r cl' x' = Some x'.
Proof.
  revert cl. induction l as [|p l IH]; cbn [for_each2]; intros cl.
  - intros [= <-]. split; [apply reprioritised_refl|].
    intros p x' [Hp|(x&Hx&Hfix)] Hx'; [by apply elem_of_nil in Hp|].
    congruence.
  - destruct (ice_compute_pair_priority_at r p cl) as [cl1|] eqn:H1; [|done].
    cbn [mbind option_bind]. intros Hs. destruct (IH _ Hs) as [Hrep Hall].
    unfold ice_compute_pair_priority_at in H1.
    destruct (get_pair cl p) as [x|] eqn:Hx; [|done].
    cbn [mbind option_bind] in H1.
    destruct (ice_compute_pair_priority r cl x) as [y|] eqn:Hy; [|done].
    cbn [mbind option_bind] in H1. injection H1 as <-.
    destruct (compute_pair_priority_step _ _ _ _ Hy) as [Hxy Hyy].
    assert (reprioritised cl (put_pair p y cl)) as Hrep1.
    { split; [by destruct cl|]. cbn.
      eapply steps_insert; eauto using pair_reprioritised_refl. }
    split; [by eapply reprioritised_trans|].
    assert (get_pair (put_pair p y cl) p = Some y) as Hpy
      by (apply get_put_pair; eauto).
    intros q x' Hq Hx'. apply (Hall q x'); [|done].
    destruct (decide (q = p)) as [->|Hne].
    { right. exists y. split; [done|].
      by rewrite (compute_pair_priority_cands r cl). }
    destruct Hq as [Hq|(z&Hz&Hfix)].
    + apply elem_of_cons in Hq as [->|Hq]; [done|by left].
    + right. exists z. split.
      * unfold get_pair, put_pair in *. cbn.
        by rewrite list_lookup_insert_ne.
      * by rewrite (compute_pair_priority_cands r cl).
Qed.

Lemma set_role_streams r l l' :
  mapM (ice_check_list_compute_pair_priorities r) l = Some l' →
  Forall2 (λ cl cl', reprioritised cl cl'
             ∧ ∀ p x', p ∈ pairs cl' → get_pair cl' p = Some x' →
                       ice_compute_pair_priority r cl' x' = Some x') l l'.
Proof.
  intros Hm. apply mapM_Some in Hm. eapply Forall2_impl; [exact Hm|].
  intros cl cl' Hs. cbn in Hs.
  apply compute_pair_priorities_result in Hs as [Hrep Hall].
  split; [done|]. intros p x' Hp. apply Hall. left.
  destruct (reprioritised_fields _ _ Hrep) as (_&<-&_). done.
Qed.

(** X9: [ice_session_set_role] changes the role of the session and the
    priorities of the pairs, and nothing else: the pairs keep their states
    and their places in the check lists, which are not sorted again.  When
    the role changes, every pair of every check list gets the priority that
    [ice_compute_pair_priority] gives it for the new role; when the session
    has the role already, nothing is done. *)
Theorem set_role_recomputes_priorities (r : IceRole) (s s' : IceSession) :
  ice_session_set_role r s = Some s' →
  s' = set_streams (streams s') (set_role r s)
  ∧ Forall2 reprioritised (streams s) (streams s')
  ∧ (role s ≠ r →
     ∀ cl' p x', cl' ∈ streams s' → p ∈ pairs cl' → get_pair cl' p = Some x' →
                 ice_compute_pair_priority r cl' x' = Some x')
  ∧ (role s = r → s' = s).
Proof.
  unfold ice_session_set_role, ice_session_compute_pair_priorities.
  destruct (decide (role s ≠ r)) as [Hne|Heq].
  - cbn [role set_role streams].
    destruct (mapM _ (streams s)) as [l|] eqn:Hm; [|done].
    cbn [mbind option_bind]. intros [= <-]. split; [by destruct s|].
    apply set_role_streams in Hm. cbn [streams set_streams]. split.
    { eapply Forall2_impl; [exact Hm|]. by intros ? ? [? _]. }
    split; [|done]. intros _ cl' p x' Hin.
    apply list_elem_of_lookup in Hin as [i Hi].
    destruct (Forall2_lookup_r _ _ _ _ _ Hm Hi) as (cl&_&_&Hc'). apply Hc'.
  - apply dec_stable in Heq. intros [= <-].
    split; [destruct s; cbn in *; by subst|].
    split; [apply steps_refl, reprioritised_refl|]. done.
Qed.

Lemma set_role_stream r s s' k cl :
  ice_session_set_role r s = Some s' → get_stream k s = Some cl →
  role s' = r ∧ ∃ cl', get_stream k s' = Some cl' ∧ reprioritised cl cl'.
Proof.
  intros Hs Hk. split; [by destruct (ice_session_set_role_fields _ _ _ Hs)|].
  unfold ice_session_set_role, ice_session_compute_pair_priorities in Hs.
  destruct (decide (role s ≠ r)).
  - cbn [role set_role streams] in Hs.
    destruct (mapM _ (streams s)) as [l|] eqn:Hm; [|done].
    cbn [mbind option_bind] in Hs. injection Hs as <-.
    apply set_role_streams in Hm. unfold get_stream in *. cbn.
    destruct (Forall2_lookup_l _ _ _ _ _ Hm Hk) as (cl'&?&?&_). eauto.
  - injection Hs as <-. exists cl. split; [done|apply reprioritised_refl].
Qed.

(** ** Error responses *)

Lemma concludes_pair cl cl' p x :
  concludes cl cl' → get_pair cl p = Some x →
  ∃ x', get_pair cl' p = Some x' ∧ pair_concluded x x'.
Proof.
  intros (_&_&_&_&_&_&_&_&HF) Hx. unfold get_pair in *.
  destruct (Forall2_lookup_l _ _ _ _ _ HF Hx) as (x'&?&?). eauto.
Qed.

(** X10: an error response whose transaction ID is that of no pair of the check
    list is ignored.  Otherwise the first pair of the check list with that
    transaction ID fails; when the error is 487 (role conflict), the session
    takes the role opposite to the one the request of the pair was sent
    with, and the pair is Waiting again, without a transaction ID; with
    another error the role is kept and the pair stays Failed. *)
Theorem error_response_result (k : nat) (msg : StunMessage)
    (s s' : IceSession) (cl : IceCheckList) :
  get_stream k s = Some cl →
  ice_handle_received_error_response k msg s = Some s' →
  ∃ elem,
    ms_list_find_custom (ice_find_pair_from_transactionID cl (tr_id msg))
      (check_list cl) = Some elem
    ∧ match elem with
      | None => s' = s
      | Some p =>
          ∃ x cl' x',
            get_pair cl p = Some x ∧ get_stream k s' = Some cl'
            ∧ get_pair cl' p = Some x'
            ∧ tie_breaker s' = tie_breaker s
            ∧ if hasErrorCode msg && (errorClass msg =? 4)
                 && (errorNumber msg =? 87)
              then role s' = match pair_role x with
                             | IR_Controlling => IR_Controlled
                             | IR_Controlled => IR_Controlling
                             end
                   ∧ pair_state x' = ICP_Waiting ∧ transactionID x' = 0
              else role s' = role s
                   ∧ pair_state x' = ICP_Failed
                   ∧ transactionID x'
                     = (if decide (pair_state x = ICP_Failed)
                        then transactionID x else 0)
      end.
Proof.
  intros Hk. unfold ice_handle_received_error_response. rewrite Hk.
  cbn [mbind option_bind].
  destruct (ms_list_find_custom _ (check_list cl)) as [[p|]|]; [| |done];
    cbn [mbind option_bind]; intros Hs; [|exists None; by injection Hs as <-].
  exists (Some p). split; [done|].
  destruct (get_pair cl p) as [x|] eqn:Hp; [|done].
  cbn [mbind option_bind] in Hs.
  set (xF := ice_pair_set_state ICP_Failed x) in *.
  set (s1 := put_stream k (put_pair p xF cl) s) in *.
  assert (get_stream k s1 = Some (put_pair p xF cl)) as Hk1
    by (by eapply get_put_stream).
  assert (get_pair (put_pair p xF cl) p = Some xF) as Hp1
    by (apply get_put_pair; eauto).
  match type of Hs with
  | mbind _ ?m = _ => destruct m as [s2|] eqn:H2; [|done]
  end.
  cbn [mbind option_bind] in Hs.
  destruct (get_stream k s2) as [cl2|] eqn:Hk2; [|done].
  cbn [mbind option_bind] in Hs.
  destruct (ice_conclude_processing s2 cl2) as [cl4|] eqn:H4; [|done].
  cbn [mbind option_bind] in Hs. injection Hs as <-.
  apply conclude_concludes in H4.
  exists x, cl4. cbn [role tie_breaker put_stream set_streams].
  destruct (hasErrorCode msg && (errorClass msg =? 4)
            && (errorNumber msg =? 87)).
  - match type of H2 with
    | mbind _ ?m = _ => destruct m as [s3|] eqn:H3; [|done]
    end.
    cbn [mbind option_bind] in H2.
    assert (role s3 = match pair_role x with
                      | IR_Controlling => IR_Controlled
                      | IR_Controlled => IR_Controlling
                      end
            ∧ tie_breaker s3 = tie_breaker s
            ∧ ∃ cl3, get_stream k s3 = Some cl3
                     ∧ reprioritised (put_pair p xF cl) cl3)
      as (Hrole&Htb&cl3&Hk3&Hrep).
    { assert (pair_role xF = pair_role x) as Hr
        by apply ice_pair_set_state_fields.
      rewrite Hr in H3.
      destruct (pair_role x);
        destruct (ice_session_set_role_fields _ _ _ H3) as (?&?&_);
        destruct (set_role_stream _ _ _ _ _ H3 Hk1) as [_ ?]; done. }
    rewrite Hk3 in H2. cbn [mbind option_bind] in H2.
    destruct (reprioritised_pair _ _ _ _ Hrep Hp1) as (x3&Hx3&Hrel).
    rewrite Hx3 in H2. cbn [mbind option_bind] in H2. injection H2 as <-.
    set (xW := ice_pair_set_state ICP_Waiting x3) in *.
    erewrite get_put_stream in Hk2 by done. injection Hk2 as <-.
    assert (get_pair (ice_check_list_queue_triggered_check p
                        (put_pair p xW cl3)) p = Some xW) as Hq.
    { unfold ice_check_list_queue_triggered_check.
      destruct (ms_list_find _ _); [|unfold get_pair; cbn];
        apply get_put_pair; eauto. }
    destruct (concludes_pair _ _ _ _ H4 Hq) as (x4&Hx4&[Hc4 _]).
    exists x4. split; [done|]. split.
    { by eapply get_put_stream, get_put_stream. }
    split; [done|]. split; [done|]. split; [done|].
    rewrite Hc4. cbn [pair_state transactionID set_retransmissions
                      set_is_nominated]. subst xW.
    rewrite pair_state_set_state, transactionID_set_state.
    split; [done|]. rewrite decide_True; [done|].
    rewrite Hrel. cbn [pair_state set_pair_priority]. subst xF.
    by rewrite pair_state_set_state.
  - injection H2 as <-. rewrite Hk1 in Hk2. injection Hk2 as <-.
    destruct (concludes_pair _ _ _ _ H4 Hp1) as (x4&Hx4&[Hc4 _]).
    exists x4. split; [done|]. split; [by eapply get_put_stream|].
    split; [done|]. split; [done|]. split; [done|].
    rewrite Hc4. cbn [pair_state transactionID set_retransmissions
                      set_is_nominated]. subst xF.
    rewrite pair_state_set_state, transactionID_set_state.
    split; [done|]. destruct (decide (pair_state x = ICP_Failed)).
    + by rewrite decide_False by auto.
    + by rewrite decide_True.
Qed.

(** ** Forming the pairs *)

Lemma ice_pair_new_result s cl lc rc a b :
  get_cand cl lc = Some a → get_cand cl rc = Some b →
  ∃ x, ice_pair_new s cl lc rc = Some x
       ∧ pair_local x = Some lc ∧ pair_remote x = rc
       ∧ pair_state x = ICP_Frozen ∧ transactionID x = 0
       ∧ is_nominated x = false ∧ retransmissions x = 0
       ∧ rto x = ICE_DEFAULT_RTO_DURATION ∧ pair_role x = role s
       ∧ wait_transaction_timeout x = false
       ∧ pair_is_default x = cand_is_default a && cand_is_default b
       ∧ ice_compute_pair_priority (role s) cl x = Some x.
Proof.
  intros Ha Hb. unfold ice_pair_new.
  assert (∀ x, pair_local x = Some lc → pair_remote x = rc →
               ∃ y, ice_compute_pair_priority (role s) cl x = Some y
                    ∧ pair_reprioritised x y
                    ∧ ice_compute_pair_priority (role s) cl y = Some y)
    as Hprio.
  { intros x Hl Hr.
    destruct (ice_compute_pair_priority (role s) cl x) as [y|] eqn:Hy.
    - exists y. split; [done|]. by apply compute_pair_priority_step in Hy.
    - exfalso. revert Hy. unfold ice_compute_pair_priority, local_of, remote_of.
      rewrite Hl, Hr. cbn [mbind option_bind]. rewrite Ha, Hb.
      cbn [mbind option_bind]. by destruct (role s). }
  unfold local_of at 1. unfold remote_of at 1.
  cbn [pair_local pair_remote set_wait_transaction_timeout set_is_nominated
       set_pair_is_default].
  rewrite pair_local_set_state, pair_remote_set_state.
  cbn [pair_local pair_remote set_pair_local set_pair_remote mbind option_bind].
  rewrite Ha, Hb. cbn [mbind option_bind].
  set (x0 := set_pair_role _ _).
  destruct (Hprio x0) as (y&Hy&Hrel&Hfix).
  { unfold x0. destruct (_ && _); cbn; by rewrite pair_local_set_state. }
  { unfold x0. destruct (_ && _); cbn; by rewrite pair_remote_set_state. }
  exists y. split; [done|]. split; [|split; [|split; [|split; [|split;
    [|split; [|split; [|split; [|split; [|split; [|done]]]]]]]]]];
    rewrite Hrel; unfold x0; destruct (cand_is_default a && cand_is_default b);
    cbn; rewrite ?pair_state_set_state, ?pair_local_set_state,
      ?pair_remote_set_state; done.
Qed.

Lemma get_cand_with_pairs cl acc c : get_cand (with_pairs cl acc) c = get_cand cl c.
Proof. done. Qed.

Lemma alloc_with_pairs x cl acc :
  (alloc_pair x (with_pairs cl acc)).2 = with_pairs cl (acc ++ [x]).
Proof.
  unfold alloc_pair, with_pairs, ms_list_append. cbn.
  rewrite !length_app. cbn. rewrite Nat.add_1_r, seq_S, !app_assoc. done.
Qed.

Lemma with_pairs_nil cl : with_pairs cl [] = cl.
Proof. unfold with_pairs. cbn. rewrite !app_nil_r. by destruct cl. Qed.

Lemma form_pairs_remote s cl l a rl acc :
  get_cand cl l = Some a →
  (∀ r, r ∈ rl → is_Some (get_cand cl r)) →
  ∃ new,
    ice_form_candidate_pairs_remote s l rl (with_pairs cl acc)
    = Some (with_pairs cl (acc ++ new))
    ∧ (λ x, (pair_local x, pair_remote x)) <$> new
      = (λ lr, (Some lr.1, lr.2))
        <$> (r ← rl; if same_componentID cl l r then [(l, r)] else [])
    ∧ Forall (pair_is_new s cl) new.
Proof.
  intros Ha. revert acc. induction rl as [|r rl IH]; intros acc Hrl.
  - exists []. by rewrite app_nil_r.
  - destruct (Hrl r) as [b Hb]; [left|].
    cbn [ice_form_candidate_pairs_remote]. rewrite !get_cand_with_pairs, Ha, Hb.
    cbn [mbind option_bind]. rewrite bind_cons.
    unfold same_componentID at 1. rewrite Ha, Hb.
    destruct (cand_componentID a =? cand_componentID b).
    + destruct (ice_pair_new_result s (with_pairs cl acc) l r a b Ha Hb)
        as (x&Hx&Hl&Hr&Hst&Htx&Hn&Hre&Hrto&Hro&Hw&_&Hfix).
      rewrite Hx. cbn [mbind option_bind]. rewrite alloc_with_pairs.
      destruct (IH (acc ++ [x])) as (new&Hnew&Hmap&Hall);
        [intros; apply Hrl; by right|].
      exists (x :: new). rewrite Hnew, <- app_assoc. split; [done|]. split.
      * cbn. by rewrite Hl, Hr, Hmap.
      * constructor; [|done]. by repeat split.
    + cbn [mbind option_bind]. apply IH. intros; apply Hrl; by right.
Qed.

Lemma form_pairs_local s cl ll acc :
  (∀ c, c ∈ ll ++ remote_candidates cl → is_Some (get_cand cl c)) →
  ∃ new,
    ice_form_candidate_pairs_local s ll (with_pairs cl acc)
    = Some (with_pairs cl (acc ++ new))
    ∧ (λ x, (pair_local x, pair_remote x)) <$> new
      = (λ lr, (Some lr.1, lr.2))
        <$> (l ← ll; r ← remote_candidates cl;
             if same_componentID cl l r then [(l, r)] else [])
    ∧ Forall (pair_is_new s cl) new.
Proof.
  revert acc. induction ll as [|l ll IH]; intros acc Hc.
  - exists []. by rewrite app_nil_r.
  - destruct (Hc l) as [a Ha]; [by left|].
    cbn [ice_form_candidate_pairs_local].
    change (remote_candidates (with_pairs cl acc))
      with (remote_candidates cl).
    destruct (form_pairs_remote s cl l a (remote_candidates cl) acc Ha)
      as (new1&H1&Hmap1&Hall1).
    { intros r Hr. apply Hc. apply elem_of_app. by right. }
    rewrite H1. cbn [mbind option_bind].
    destruct (IH (acc ++ new1)) as (new2&H2&Hmap2&Hall2).
    { intros c Hin. apply Hc. apply elem_of_app in Hin as [?|?];
        apply elem_of_app; [left; by right|by right]. }
    exists (new1 ++ new2). rewrite H2, <- app_assoc. split; [done|]. split.
    + by rewrite bind_cons, !fmap_app, Hmap1, Hmap2.
    + by apply Forall_app.
Qed.

(** X11: when the pointers of the lists of candidates are valid,
    [ice_form_candidate_pairs] allocates one pair for every local and
    remote candidate with the same componentID, and no other: the new
    pairs come in the order of the local candidates, then of the remote
    ones, after the pairs that were there, which are unchanged.  A new
    pair is Frozen, not nominated, without a transaction ID, with the role
    of the session and the priority that [ice_compute_pair_priority] gives
    for that role.  The check list is not changed. *)
Theorem form_candidate_pairs_result (s : IceSession) (cl : IceCheckList) :
  (∀ c, c ∈ local_candidates cl ++ remote_candidates cl →
        is_Some (get_cand cl c)) →
  ∃ new,
    ice_form_candidate_pairs s cl = Some (with_pairs cl new)
    ∧ (λ x, (pair_local x, pair_remote x)) <$> new
      = (λ lr, (Some lr.1, lr.2)) <$> candidate_products cl
    ∧ Forall (pair_is_new s cl) new.
Proof.
  intros Hc. unfold ice_form_candidate_pairs.
  destruct (form_pairs_local s cl (local_candidates cl) [] Hc)
    as (new&Hnew&Hmap&Hall).
  rewrite with_pairs_nil in Hnew. exists new. done.
Qed.

(** ** The pace of the checks *)












(** ** Keepalive *)

Lemma keepalive_step rtp c cl l a :
  a = set_cl_sent (l ++ cl_sent cl) cl →
  ice_send_keepalive_packet_for_componentID rtp c a = Some (A := IceCheckList) a
  ∨ (∃ vp x,
      ice_send_keepalive_packet_for_componentID rtp c a
      = Some (set_cl_sent (WireIndication (valid vp) :: l ++ cl_sent cl) cl)
      ∧ vp ∈ valid_list cl ∧ get_pair cl (valid vp) = Some x
      ∧ is_nominated x = true)
  ∨ ice_send_keepalive_packet_for_componentID rtp c a = None.
Proof.
  intros ->. unfold ice_send_keepalive_packet_for_componentID.
  destruct (get_cand _ c) as [cand|]; [|by right; right].
  cbn [mbind option_bind].
  destruct (ms_list_find_custom _ _) as [[vp|]|] eqn:Hf;
    [| by left | by right; right].
  cbn [mbind option_bind].
  apply find_custom_Some in Hf as [Hin Hc].
  unfold ice_find_nominated_valid_pair_from_componentID in Hc.
  unfold ice_send_indication.
  destruct (get_pair _ (valid vp)) as [x|] eqn:Hx; [|done].
  cbn [mbind option_bind] in *.
  destruct (is_nominated x) eqn:Hn; [|done].
  destruct (local_of _ x) as [lc|]; [|done]. cbn [mbind option_bind] in *.
  destruct (_ || _); [|by left].
  destruct (remote_of _ x) as [rm|]; [|by right; right].
  cbn [mbind option_bind].
  destruct (stunEncodeMessage_ok _); [|by left].
  right; left. exists vp, x. split; [|done].
  unfold sendMessage. by destruct cl.
Qed.

(** X13: [ice_send_keepalive_packets] only sends: the check list is unchanged
    but for the wire, on which it puts one indication at most for each
    registered componentID, each of them on a nominated pair of the valid
    list. *)
Theorem keepalive_packets (rtp : RtpSession) (cl cl' : IceCheckList) :
  ice_send_keepalive_packets rtp cl = Some cl' →
  ∃ l, cl' = set_cl_sent (l ++ cl_sent cl) cl
       ∧ (length l ≤ length (componentIDs cl))%nat
       ∧ ∀ w, w ∈ l →
              ∃ vp x, w = WireIndication (valid vp) ∧ vp ∈ valid_list cl
                      ∧ get_pair cl (valid vp) = Some x
                      ∧ is_nominated x = true.
Proof.
  unfold ice_send_keepalive_packets.
  assert (∀ ids l a,
    a = set_cl_sent (l ++ cl_sent cl) cl →
    (∀ w, w ∈ l → ∃ vp x, w = WireIndication (valid vp) ∧ vp ∈ valid_list cl
                          ∧ get_pair cl (valid vp) = Some x
                          ∧ is_nominated x = true) →
    for_each2 (ice_send_keepalive_packet_for_componentID rtp) ids a
    = Some cl' →
    ∃ l', cl' = set_cl_sent (l' ++ cl_sent cl) cl
          ∧ (length l' ≤ length ids + length l)%nat
          ∧ ∀ w, w ∈ l' →
                 ∃ vp x, w = WireIndication (valid vp) ∧ vp ∈ valid_list cl
                         ∧ get_pair cl (valid vp) = Some x
                         ∧ is_nominated x = true) as Hloop.
  { induction ids as [|c ids IH]; cbn [for_each2]; intros l a Ha Hl.
    - intros [= <-]. exists l. split; [done|]. split; [cbn; lia|done].
    - destruct (keepalive_step rtp c cl l a Ha)
        as [->|[(vp&x&->&Hin&Hx&Hn)| ->]]; cbn [mbind option_bind];
        [| |done].
      + intros Hs. destruct (IH l a Ha Hl Hs) as (l'&?&?&?).
        exists l'. split; [done|]. split; [cbn; lia|done].
      + intros Hs.
        destruct (IH (WireIndication (valid vp) :: l) _ eq_refl) as (l'&?&?&?);
          [|exact Hs|].
        * intros w Hw. apply elem_of_cons in Hw as [->|Hw]; [|eauto].
          by exists vp, x.
        * exists l'. split; [done|]. split; [cbn in *; lia|done]. }
  intros Hs.
  destruct (Hloop (componentIDs cl) [] cl) as (l&?&?&?);
    [by destruct cl| |done|].
  - intros w Hw. by apply elem_of_nil in Hw.
  - exists l. split; [done|]. split; [cbn in *; lia|done].
Qed.

(** ** C strings *)

Lemma strlen_strncpy s n : strlen (strncpy s n) = Nat.min (strlen s) n.
Proof.
  revert s. induction n as [|n IH]; intros [|c t]; cbn; try done.
  - by destruct (Ascii.eqb c NUL).
  - destruct (Ascii.eqb c NUL) eqn:E; [done|]. cbn. rewrite E. by rewrite IH.
Qed.

Lemma char_code_inj c1 c2 : char_code c1 = char_code c2 → c1 = c2.
Proof.
  unfold char_code. intros Hc. apply Nat2Z.inj' in Hc || idtac.
  apply N2Z.inj in Hc. rewrite <- (ascii_N_embedding c1), <- (ascii_N_embedding c2).
  by rewrite Hc.
Qed.

(** The bytes of a C string up to its NUL. *)
Lemma strncmp_0 a b n :
  strncmp a b n = 0 ↔ strncpy a n = strncpy b n.
Proof.
  revert a b. induction n as [|n IH]; intros a b; [by destruct a, b|].
  cbn [strncmp].
  destruct a as [|c1 t1], b as [|c2 t2]; cbn [peek advance strncpy].
  - done.
  - destruct (Ascii.eqb NUL c2) eqn:E.
    + apply Ascii.eqb_eq in E as <-. done.
    + cbn. rewrite Ascii.eqb_sym, E. split; [|done].
      intros Hc. exfalso. apply Ascii.eqb_neq in E. apply E.
      apply char_code_inj. lia.
  - change (peek "") with NUL. destruct (Ascii.eqb c1 NUL) eqn:E; cbn.
    + done.
    + split; [|done].
      intros Hc. exfalso. apply Ascii.eqb_neq in E. apply E.
      apply char_code_inj. lia.
  - destruct (Ascii.eqb c1 c2) eqn:E; cbn.
    + apply Ascii.eqb_eq in E as <-.
      destruct (Ascii.eqb c1 NUL); [done|]. rewrite IH.
      split; [by intros ->|by intros [= ->]].
    + apply Ascii.eqb_neq in E. split.
      * intros Hc. exfalso. apply E, char_code_inj. lia.
      * destruct (Ascii.eqb c1 NUL) eqn:E1, (Ascii.eqb c2 NUL) eqn:E2;
          try done.
        -- apply Ascii.eqb_eq in E1, E2. congruence.
        -- intros [= ? _]. done.
Qed.

Lemma strncpy_strlen_le s n :
  (strlen s ≤ n)%nat → strncpy s n = strncpy s (strlen s).
Proof.
  revert s. induction n as [|n IH]; intros [|c t]; cbn; try done.
  - destruct (Ascii.eqb c NUL); [done|lia].
  - destruct (Ascii.eqb c NUL) eqn:E; [done|]. intros Hle.
    f_equal. apply IH. lia.
Qed.

(** [same_string a b] tells whether [a] and [b] hold the same C string. *)
Lemma same_string_spec a b :
  same_string a b = true ↔ c_string a = c_string b.
Proof.
  unfold same_string, strcmp, c_string. rewrite andb_true_iff, Nat.eqb_eq, Z.eqb_eq.
  rewrite strncmp_0. split.
  - intros [Hlen Hcmp]. rewrite <- (strncpy_strlen_le a (S (strlen a))) by lia.
    rewrite Hcmp. apply strncpy_strlen_le. lia.
  - intros Heq. assert (strlen a = strlen b) as Hlen.
    { apply (f_equal strlen) in Heq. rewrite !strlen_strncpy in Heq. lia. }
    split; [done|].
    rewrite (strncpy_strlen_le a (S (strlen a))) by lia.
    rewrite (strncpy_strlen_le b (S (strlen a))) by lia. done.
Qed.

Lemma same_string_refl a : same_string a a = true.
Proof. by apply same_string_spec. Qed.

(** ** Comparisons *)

Lemma compare_candidates_zero c1 c2 :
  ice_compare_candidates c1 c2 = 0
  ↔ cand_type c1 = cand_type c2
    ∧ port (cand_taddr c1) = port (cand_taddr c2)
    ∧ c_string (ip (cand_taddr c1)) = c_string (ip (cand_taddr c2))
    ∧ cand_componentID c1 = cand_componentID c2
    ∧ cand_priority c1 = cand_priority c2.
Proof.
  unfold ice_compare_candidates, ice_compare_transport_addresses.
  rewrite <- same_string_spec. unfold same_string.
  destruct (decide (cand_type c1 = cand_type c2)) as [Ht|Ht];
    [rewrite (bool_decide_eq_true_2 _ Ht)|rewrite (bool_decide_eq_false_2 _ Ht)];
    destruct (Z.eqb_spec (port (cand_taddr c1)) (port (cand_taddr c2))),
      (Z.eqb_spec (cand_componentID c1) (cand_componentID c2)),
      (Z.eqb_spec (cand_priority c1) (cand_priority c2)),
      ((strlen (ip (cand_taddr c1)) =? strlen (ip (cand_taddr c2)))%nat),
      (strcmp (ip (cand_taddr c1)) (ip (cand_taddr c2)) =? 0);
    cbn; intuition done.
Qed.

(** X14: two candidates compare equal exactly when they have the same
    type, the same port, the same IP address as C strings, the same
    componentID and the same priority. *)
Theorem compare_candidates_spec (c1 c2 : IceCandidate) :
  ice_compare_candidates c1 c2 = 0
  ↔ cand_type c1 = cand_type c2
    ∧ port (cand_taddr c1) = port (cand_taddr c2)
    ∧ c_string (ip (cand_taddr c1)) = c_string (ip (cand_taddr c2))
    ∧ cand_componentID c1 = cand_componentID c2
    ∧ cand_priority c1 = cand_priority c2.
Proof. apply compare_candidates_zero. Qed.



(** ** Pruning *)





(** ** The foundations of the candidates *)









Lemma strlen_c_string s : strlen (c_string s) = strlen s.
Proof. unfold c_string. rewrite strlen_strncpy. lia. Qed.








Lemma find_custom_ext {A} (cmp1 cmp2 : A → option Z) l :
  (∀ x, cmp1 x = cmp2 x) →
  ms_list_find_custom cmp1 l = ms_list_find_custom cmp2 l.
Proof.
  intros Hc. induction l as [|x l IH]; cbn; [done|]. by rewrite Hc, IH.
Qed.



Lemma get_cand_alter_ne f c c' cl :
  c' ≠ c → get_cand (alter_cand f c cl) c' = get_cand cl c'.
Proof.
  intros Hne. unfold get_cand, alter_cand. cbn.
  by rewrite list_lookup_alter_ne.
Qed.








(** ** Credentials *)

Lemma strncpy_min s n : strncpy s (Nat.min (strlen s) n) = strncpy s n.
Proof.
  revert s. induction n as [|n IH]; intros [|c t]; cbn [strlen]; try done.
  - rewrite Nat.min_0_r. by destruct (Ascii.eqb c NUL).
  - destruct (Ascii.eqb c NUL) eqn:E; cbn; rewrite E; [done|].
    by rewrite IH.
Qed.

Lemma strncpy_strncpy s n m :
  strncpy (strncpy s n) m = strncpy s (Nat.min n m).
Proof.
  revert s m. induction n as [|n IH]; intros [|c t] [|m]; cbn; try done.
  - by destruct (Ascii.eqb c NUL).
  - destruct (Ascii.eqb c NUL) eqn:E; [done|]. cbn. rewrite E.
    by rewrite IH.
Qed.

(** X17: the credentials are stored cut at 256 bytes: a user name fragment of
    256 bytes at most is read back as it was given.  The credentials of
    a check list take precedence over those of the session, which a check
    list without credentials of its own uses. *)
Theorem credentials_stored (ufrag pwd : string) (s : IceSession)
    (cl : IceCheckList) :
  ice_session_local_ufrag (ice_session_set_local_credentials ufrag pwd s)
  = strncpy ufrag ICE_MAX_UFRAG_LEN
  ∧ ice_session_local_pwd (ice_session_set_local_credentials ufrag pwd s)
    = strncpy pwd ICE_MAX_PWD_LEN
  ∧ ice_session_remote_ufrag (ice_session_set_remote_credentials ufrag pwd s)
    = Some (strncpy ufrag ICE_MAX_UFRAG_LEN)
  ∧ ice_session_remote_pwd (ice_session_set_remote_credentials ufrag pwd s)
    = Some (strncpy pwd ICE_MAX_PWD_LEN)
  ∧ strlen (strncpy ufrag ICE_MAX_UFRAG_LEN)
    = Nat.min (strlen ufrag) ICE_MAX_UFRAG_LEN
  ∧ ((strlen ufrag ≤ ICE_MAX_UFRAG_LEN)%nat →
     same_string (strncpy ufrag ICE_MAX_UFRAG_LEN) ufrag = true)
  ∧ ice_check_list_remote_ufrag s
      (ice_check_list_set_remote_credentials ufrag pwd cl)
    = Some (strncpy ufrag ICE_MAX_UFRAG_LEN)
  ∧ ice_check_list_remote_pwd s
      (ice_check_list_set_remote_credentials ufrag pwd cl)
    = Some (strncpy pwd ICE_MAX_PWD_LEN)
  ∧ (cl_remote_ufrag cl = None →
     ice_check_list_remote_ufrag
       (ice_session_set_remote_credentials ufrag pwd s) cl
     = Some (strncpy ufrag ICE_MAX_UFRAG_LEN)).
Proof.
  unfold ice_session_set_local_credentials, ice_session_set_remote_credentials,
    ice_check_list_set_remote_credentials, ice_set_credentials.
  rewrite !strncpy_min. repeat split; try done.
  - apply strlen_strncpy.
  - intros Hle. apply same_string_spec. unfold c_string.
    rewrite strlen_strncpy, strncpy_strncpy. f_equal. lia.
  - unfold ice_check_list_remote_ufrag. cbn. by intros ->.
Qed.

(** ** Default candidates *)

Lemma defaults_only_refl cl : defaults_only cl cl.
Proof.
  split; [by destruct cl|]. apply Forall_Forall2_diag, Forall_forall.
  intros x _. split; [by destruct x|done].
Qed.

Lemma defaults_only_alter cl a c :
  defaults_only cl a →
  defaults_only cl (alter_cand (set_cand_is_default true) c a).
Proof.
  intros [Ha HF]. split.
  - rewrite Ha at 1. by destruct cl.
  - cbn. apply Forall2_alter_r; [done|].
    intros x y _ _ [-> _]. split; [by destruct x|done].
Qed.

Lemma defaults_only_cand cl a c x :
  defaults_only cl a → get_cand cl c = Some x →
  ∃ y, get_cand a c = Some y ∧ y = set_cand_is_default (cand_is_default y) x
       ∧ (cand_is_default x = true → cand_is_default y = true).
Proof.
  intros [_ HF] Hx. unfold get_cand in *.
  destruct (Forall2_lookup_l _ _ _ _ _ HF Hx) as (y&?&?&?). eauto.
Qed.

Lemma defaults_only_cand_inv cl a c y :
  defaults_only cl a → get_cand a c = Some y →
  ∃ x, get_cand cl c = Some x ∧ y = set_cand_is_default (cand_is_default y) x
       ∧ (cand_is_default x = true → cand_is_default y = true).
Proof.
  intros [_ HF] Hy. unfold get_cand in *.
  destruct (Forall2_lookup_r _ _ _ _ _ HF Hy) as (x&?&?&?). eauto.
Qed.

Lemma find_type_ext cl a t i c :
  defaults_only cl a →
  ice_find_candidate_from_type_and_componentID a t i c
  = ice_find_candidate_from_type_and_componentID cl t i c.
Proof.
  intros Hd. unfold ice_find_candidate_from_type_and_componentID.
  destruct (get_cand cl c) as [x|] eqn:Hx.
  - destruct (defaults_only_cand _ _ _ _ Hd Hx) as (y&->&->&_). done.
  - destruct (get_cand a c) as [y|] eqn:Hy; [|done].
    destruct (defaults_only_cand_inv _ _ _ _ Hd Hy) as (x&?&_). congruence.
Qed.

Lemma find_type_Some cl t i lst c :
  ms_list_find_custom (ice_find_candidate_from_type_and_componentID cl t i)
    lst = Some (Some c) →
  c ∈ lst ∧ ∃ x, get_cand cl c = Some x ∧ cand_type x = t
                 ∧ cand_componentID x = i.
Proof.
  intros Hf. apply find_custom_Some in Hf as [Hin Hc]. split; [done|].
  unfold ice_find_candidate_from_type_and_componentID in Hc.
  destruct (get_cand cl c) as [x|]; [|done]. cbn in Hc. exists x.
  destruct (decide (cand_type x = t));
    [|by rewrite bool_decide_eq_false_2 in Hc].
  destruct (Z.eqb_spec (cand_componentID x) i);
    [done|by rewrite andb_false_r in Hc].
Qed.

Lemma find_type_None cl t i lst c x :
  ms_list_find_custom (ice_find_candidate_from_type_and_componentID cl t i)
    lst = Some None →
  c ∈ lst → get_cand cl c = Some x → cand_componentID x = i →
  cand_type x ≠ t.
Proof.
  intros Hf Hin Hx Hi Ht.
  destruct (find_custom_None _ _ Hf c Hin) as (r&Hr&Hne).
  unfold ice_find_candidate_from_type_and_componentID in Hr.
  rewrite Hx in Hr. cbn in Hr.
  rewrite bool_decide_eq_true_2 in Hr by done.
  apply Z.eqb_eq in Hi. rewrite Hi in Hr. by injection Hr as <-.
Qed.

Lemma find_type_total cl t i lst :
  (∀ c, c ∈ lst → is_Some (get_cand cl c)) →
  is_Some (ms_list_find_custom
             (ice_find_candidate_from_type_and_componentID cl t i) lst).
Proof.
  intros Hv. apply find_custom_total. intros c Hc.
  unfold ice_find_candidate_from_type_and_componentID.
  by destruct (Hv c Hc) as [x ->].
Qed.

(** The candidate chosen for the componentID [i] is the first one of the
    best type that the list has for [i]. *)
Lemma default_target_spec cl lst i :
  (∀ c, c ∈ lst → is_Some (get_cand cl c)) →
  ∃ tgt, default_target cl lst i = Some tgt
    ∧ match tgt with
      | Some d =>
          d ∈ lst
          ∧ ∃ y, get_cand cl d = Some y ∧ cand_componentID y = i
                 ∧ ∀ c x, c ∈ lst → get_cand cl c = Some x →
                          cand_componentID x = i →
                          default_rank (cand_type x) ≤ default_rank (cand_type y)
      | None =>
          ∀ c x, c ∈ lst → get_cand cl c = Some x → cand_componentID x = i →
                 cand_type x = ICT_PeerReflexiveCandidate
      end.
Proof.
  intros Hv. unfold default_target.
  destruct (find_type_total cl ICT_RelayedCandidate i lst Hv) as [r1 H1].
  destruct (find_type_total cl ICT_ServerReflexiveCandidate i lst Hv)
    as [r2 H2].
  destruct (find_type_total cl ICT_HostCandidate i lst Hv) as [r3 H3].
  rewrite H1. cbn [mbind option_bind].
  destruct r1 as [d|].
  { exists (Some d). split; [done|].
    apply find_type_Some in H1 as (Hin&y&Hy&Ht&Hi). split; [done|].
    exists y. split; [done|]. split; [done|]. intros c x _ _ _.
    rewrite Ht. destruct (cand_type x); cbn; lia. }
  rewrite H2. cbn [mbind option_bind].
  destruct r2 as [d|].
  { exists (Some d). split; [done|].
    apply find_type_Some in H2 as (Hin&y&Hy&Ht&Hi). split; [done|].
    exists y. split; [done|]. split; [done|]. intros c x Hc Hx Hxi.
    pose proof (find_type_None _ _ _ _ c x H1 Hc Hx Hxi).
    rewrite Ht. destruct (cand_type x); cbn; done || lia. }
  rewrite H3. destruct r3 as [d|].
  { exists (Some d). split; [done|].
    apply find_type_Some in H3 as (Hin&y&Hy&Ht&Hi). split; [done|].
    exists y. split; [done|]. split; [done|]. intros c x Hc Hx Hxi.
    pose proof (find_type_None _ _ _ _ c x H1 Hc Hx Hxi).
    pose proof (find_type_None _ _ _ _ c x H2 Hc Hx Hxi).
    rewrite Ht. destruct (cand_type x); cbn; done || lia. }
  exists None. split; [done|]. intros c x Hc Hx Hxi.
  pose proof (find_type_None _ _ _ _ c x H1 Hc Hx Hxi).
  pose proof (find_type_None _ _ _ _ c x H2 Hc Hx Hxi).
  pose proof (find_type_None _ _ _ _ c x H3 Hc Hx Hxi).
  by destruct (cand_type x).
Qed.

Lemma choose_default_step cl lst i a :
  defaults_only cl a →
  ice_choose_default_candidate lst i a
  = tgt ← default_target cl lst i;
    Some (match tgt with
          | Some c => alter_cand (set_cand_is_default true) c a
          | None => a
          end).
Proof.
  intros Hd. unfold ice_choose_default_candidate, default_target.
  rewrite (find_custom_ext
             (ice_find_candidate_from_type_and_componentID a
                ICT_RelayedCandidate i)
             (ice_find_candidate_from_type_and_componentID cl
                ICT_RelayedCandidate i))
    by (intros; by apply find_type_ext).
  rewrite (find_custom_ext
             (ice_find_candidate_from_type_and_componentID a
                ICT_ServerReflexiveCandidate i)
             (ice_find_candidate_from_type_and_componentID cl
                ICT_ServerReflexiveCandidate i))
    by (intros; by apply find_type_ext).
  rewrite (find_custom_ext
             (ice_find_candidate_from_type_and_componentID a
                ICT_HostCandidate i)
             (ice_find_candidate_from_type_and_componentID cl
                ICT_HostCandidate i))
    by (intros; by apply find_type_ext).
  destruct (ms_list_find_custom
              (ice_find_candidate_from_type_and_componentID cl
                 ICT_RelayedCandidate i) lst) as [[c|]|]; cbn; [done| |done].
  destruct (ms_list_find_custom
              (ice_find_candidate_from_type_and_componentID cl
                 ICT_ServerReflexiveCandidate i) lst) as [[c|]|]; cbn;
    [done| |done].
  by destruct (ms_list_find_custom _ lst) as [[c|]|].
Qed.

Lemma choose_default_loop cl lst ids seen a :
  (∀ c, c ∈ lst → is_Some (get_cand cl c)) →
  defaults_only cl a →
  (∀ i d, i ∈ seen → default_target cl lst i = Some (Some d) →
          ∃ y, get_cand a d = Some y ∧ cand_is_default y = true) →
  (∀ d y, get_cand a d = Some y → cand_is_default y = true →
          (∃ x, get_cand cl d = Some x ∧ cand_is_default x = true)
          ∨ ∃ i, i ∈ seen ∧ default_target cl lst i = Some (Some d)) →
  ∃ a',
    for_each2 (ice_choose_default_candidate lst) ids a = Some a'
    ∧ defaults_only cl a'
    ∧ (∀ i d, i ∈ seen ++ ids → default_target cl lst i = Some (Some d) →
              ∃ y, get_cand a' d = Some y ∧ cand_is_default y = true)
    ∧ (∀ d y, get_cand a' d = Some y → cand_is_default y = true →
              (∃ x, get_cand cl d = Some x ∧ cand_is_default x = true)
              ∨ ∃ i, i ∈ seen ++ ids
                     ∧ default_target cl lst i = Some (Some d)).
Proof.
  intros Hv. revert seen a. induction ids as [|i ids IH];
    intros seen a Hd H2 H3.
  - exists a. rewrite app_nil_r. done.
  - cbn [for_each2]. rewrite (choose_default_step cl lst i a Hd).
    destruct (default_target_spec cl lst i Hv) as (tgt&Htgt&Hspec).
    rewrite Htgt. cbn [mbind option_bind].
    set (a1 := match tgt with
               | Some c => alter_cand (set_cand_is_default true) c a
               | None => a
               end).
    assert (defaults_only cl a1) as Hd1.
    { unfold a1. destruct tgt; [by apply defaults_only_alter|done]. }
    assert (∀ d y, get_cand a d = Some y →
              ∃ y1, get_cand a1 d = Some y1
                    ∧ (cand_is_default y = true → cand_is_default y1 = true)
                    ∧ (cand_is_default y1 = true →
                       cand_is_default y = true ∨ tgt = Some d)
                    ∧ (tgt = Some d → cand_is_default y1 = true)) as Hstep.
    { intros d y Hy. unfold a1. destruct tgt as [c|]; [|exists y; clear -Hy; intuition congruence].
      destruct (decide (d = c)) as [->|Hne].
      - exists (set_cand_is_default true y). unfold get_cand, alter_cand in *.
        cbn. rewrite list_lookup_alter_eq, Hy. cbn. clear. intuition congruence.
      - exists y. rewrite get_cand_alter_ne by done.
        clear -Hy Hne. intuition congruence. }
    assert (∀ d y1, get_cand a1 d = Some y1 → ∃ y, get_cand a d = Some y)
      as Hback.
    { intros d y1 Hy1.
      destruct (defaults_only_cand_inv _ _ _ _ Hd1 Hy1) as (x&Hx&_).
      destruct (defaults_only_cand _ _ _ _ Hd Hx) as (y&?&_). eauto. }
    destruct (IH (seen ++ [i]) a1 Hd1) as (a'&Hs&Hd'&H2'&H3').
    + intros j d Hj Hjd. apply elem_of_app in Hj as [Hj|Hj].
      * destruct (H2 j d Hj Hjd) as (y&Hy&Hdef).
        destruct (Hstep d y Hy) as (y1&?&?&_). exists y1. by auto.
      * apply list_elem_of_singleton in Hj as ->. rewrite Htgt in Hjd.
        injection Hjd as ->. destruct Hspec as (_&y0&Hy0&_).
        destruct (defaults_only_cand _ _ _ _ Hd Hy0) as (y&Hy&_).
        destruct (Hstep d y Hy) as (y1&?&_&_&?). exists y1. by auto.
    + intros d y1 Hy1 Hdef. destruct (Hback d y1 Hy1) as [y Hy].
      destruct (Hstep d y Hy) as (y1'&Hy1'&_&Hor&_).
      rewrite Hy1 in Hy1'. injection Hy1' as <-.
      destruct (Hor Hdef) as [Hy_def| ->].
      * destruct (H3 d y Hy Hy_def) as [?|(j&?&?)]; [by left|right].
        exists j. split; [apply elem_of_app; by left|done].
      * right. exists i. split; [apply elem_of_app; right; by left|done].
    + exists a'. rewrite <- app_assoc in H2', H3'. done.
Qed.

Lemma elem_of_all_componentIDs i :
  i ∈ all_componentIDs ↔ ICE_MIN_COMPONENTID ≤ i ≤ ICE_MAX_COMPONENTID.
Proof.
  unfold all_componentIDs, ICE_MIN_COMPONENTID, ICE_MAX_COMPONENTID.
  rewrite list_elem_of_fmap. split.
  - intros (n&->&Hn). apply elem_of_seq in Hn. lia.
  - intros Hi. exists (Z.to_nat i). split; [lia|]. apply elem_of_seq. lia.
Qed.

(** X18: the choice of the default candidates among the valid candidates of a
    list only sets [is_default] flags, and withdraws none.  Every
    componentID from 1 to 256 for which the list has a candidate that is
    not peer reflexive gets a default candidate, of the best type that the
    list has for it: relayed, else server reflexive, else host.  A
    candidate that becomes default is the only one of its componentID to do
    so. *)
Theorem default_candidates_chosen (lst : list nat) (cl : IceCheckList) :
  (∀ c, c ∈ lst → is_Some (get_cand cl c)) →
  ∃ cl',
    ice_choose_local_or_remote_default_candidates lst cl = Some cl'
    ∧ defaults_only cl cl'
    ∧ (∀ c x, c ∈ lst → get_cand cl c = Some x →
              ICE_MIN_COMPONENTID ≤ cand_componentID x ≤ ICE_MAX_COMPONENTID →
              cand_type x ≠ ICT_PeerReflexiveCandidate →
              ∃ d y, d ∈ lst ∧ get_cand cl' d = Some y
                     ∧ cand_is_default y = true
                     ∧ cand_componentID y = cand_componentID x
                     ∧ default_rank (cand_type x) ≤ default_rank (cand_type y))
    ∧ (∀ d1 d2 x1 x2 y1 y2,
         get_cand cl d1 = Some x1 → get_cand cl d2 = Some x2 →
         cand_is_default x1 = false → cand_is_default x2 = false →
         get_cand cl' d1 = Some y1 → get_cand cl' d2 = Some y2 →
         cand_is_default y1 = true → cand_is_default y2 = true →
         cand_componentID y1 = cand_componentID y2 → d1 = d2).
Proof.
  intros Hv. unfold ice_choose_local_or_remote_default_candidates.
  destruct (choose_default_loop cl lst all_componentIDs [] cl Hv)
    as (cl'&Hs&Hd&H2&H3).
  { apply defaults_only_refl. }
  { intros i d Hi. by apply elem_of_nil in Hi. }
  { intros d y Hy Hdef. left. eauto. }
  exists cl'. split; [exact Hs|]. split; [done|]. split.
  - intros c x Hc Hx Hrange Hty.
    destruct (default_target_spec cl lst (cand_componentID x) Hv)
      as (tgt&Htgt&Hspec).
    destruct tgt as [d|]; [|by specialize (Hspec c x Hc Hx eq_refl)].
    destruct Hspec as (Hd_in&y0&Hy0&Hi&Hbest).
    destruct (H2 (cand_componentID x) d) as (y&Hy&Hdef);
      [by apply elem_of_all_componentIDs|done|].
    destruct (defaults_only_cand _ _ _ _ Hd Hy0) as (y'&Hy'&Hrel&_).
    rewrite Hy in Hy'. injection Hy' as <-.
    exists d, y. split; [done|]. split; [done|]. split; [done|].
    rewrite Hrel. cbn. split; [done|]. by apply (Hbest c x).
  - intros d1 d2 x1 x2 y1 y2 Hx1 Hx2 Hn1 Hn2 Hy1 Hy2 Hd1 Hd2 Hcid.
    assert (∀ d x y, get_cand cl d = Some x → cand_is_default x = false →
              get_cand cl' d = Some y → cand_is_default y = true →
              default_target cl lst (cand_componentID y) = Some (Some d))
      as Htarget.
    { intros d x y Hx Hn Hy Hdef.
      destruct (H3 d y Hy Hdef) as [(x'&Hx'&Hdx)|(i&_&Hi)]; [congruence|].
      destruct (default_target_spec cl lst i Hv) as (tgt&Htgt&Hspec).
      rewrite Htgt in Hi. injection Hi as ->.
      destruct Hspec as (_&y0&Hy0&Hi0&_).
      destruct (defaults_only_cand _ _ _ _ Hd Hy0) as (y'&Hy'&Hrel&_).
      rewrite Hy in Hy'. injection Hy' as <-. rewrite Hrel. cbn.
      by rewrite Hi0. }
    pose proof (Htarget d1 x1 y1 Hx1 Hn1 Hy1 Hd1) as T1.
    pose proof (Htarget d2 x2 y2 Hx2 Hn2 Hy2 Hd2) as T2.
    rewrite Hcid in T1. congruence.
Qed.

(** ** The states of the pairs after a success response *)

Lemma compare_pair_foundations_ext cl a q p y yq x xp :
  cl_candidates a = cl_candidates cl →
  get_pair cl q = Some y → get_pair a q = Some yq →
  pair_local yq = pair_local y → pair_remote yq = pair_remote y →
  get_pair cl p = Some x → get_pair a p = Some xp →
  pair_local xp = pair_local x → pair_remote xp = pair_remote x →
  ice_compare_pair_foundations a q p = ice_compare_pair_foundations cl q p.
Proof.
  intros Hc Hy Hyq Hl Hr Hx Hxp Hlx Hrx.
  unfold ice_compare_pair_foundations, local_of, remote_of, get_cand.
  rewrite Hy, Hyq, Hx, Hxp. cbn [mbind option_bind].
  by rewrite Hc, Hl, Hr, Hlx, Hrx.
Qed.

Lemma state_after_response_ends cl p l q y :
  pair_local (state_after_response cl p l q y) = pair_local y
  ∧ pair_remote (state_after_response cl p l q y) = pair_remote y.
Proof.
  unfold state_after_response. repeat destruct (decide _);
    by rewrite ?pair_local_set_state, ?pair_remote_set_state.
Qed.

Lemma states_on_response_loop cl p x l seen a :
  get_pair cl p = Some x →
  cl_candidates a = cl_candidates cl →
  length (cl_pair_arena a) = length (cl_pair_arena cl) →
  (∀ q y, get_pair cl q = Some y →
          get_pair a q = Some (state_after_response cl p seen q y)) →
  ∀ cl',
    for_each2 (ice_change_state_of_frozen_pairs_to_waiting p) l a = Some cl' →
    cl' = set_cl_pair_arena (cl_pair_arena cl') a
    ∧ ∀ q y, get_pair cl q = Some y →
             get_pair cl' q
             = Some (state_after_response cl p (seen ++ l) q y).
Proof.
  intros Hx. revert seen a. induction l as [|q0 l IH];
    intros seen a Hc Hlen Hinv cl'; cbn [for_each2].
  - intros [= <-]. rewrite app_nil_r. split; [by destruct a|done].
  - destruct (ice_change_state_of_frozen_pairs_to_waiting p q0 a)
      as [a1|] eqn:H1; [|done].
    cbn [mbind option_bind]. intros Hs.
    assert (a1 = set_cl_pair_arena (cl_pair_arena a1) a
            ∧ length (cl_pair_arena a1) = length (cl_pair_arena a)
            ∧ ∀ q y, get_pair cl q = Some y →
                     get_pair a1 q
                     = Some (state_after_response cl p (seen ++ [q0]) q y))
      as (Ha1&Hlen1&Hinv1).
    { unfold ice_change_state_of_frozen_pairs_to_waiting in H1.
      assert (∀ q y, q ≠ q0 →
                state_after_response cl p (seen ++ [q0]) q y
                = state_after_response cl p seen q y) as Hother.
      { intros q y Hne. unfold state_after_response.
        destruct (decide (q ≠ p ∧ q ∈ seen ∧ _)) as [(?&?&?&?)|Hn].
        - rewrite decide_True; [done|]. repeat split; try done.
          apply elem_of_app. by left.
        - rewrite decide_False; [done|]. intros (?&Hin&?&?). apply Hn.
          repeat split; try done.
          apply elem_of_app in Hin as [?|Hin]; [done|].
          by apply list_elem_of_singleton in Hin. }
      destruct (decide (q0 = p)) as [->|Hne].
      { rewrite bool_decide_eq_false_2 in H1 by (intros Hn; by apply Hn).
        injection H1 as <-. split; [by destruct a|]. split; [done|].
        intros q y Hy. rewrite (Hinv q y Hy). f_equal.
        destruct (decide (q = p)) as [->|?]; [|by rewrite Hother].
        unfold state_after_response.
        destruct (decide (p ≠ p ∧ p ∈ seen ∧ _)) as [[Hn _]|_]; [done|].
        by destruct (decide (p ≠ p ∧ p ∈ seen ++ [p] ∧ _)) as [[Hn _]|_]. }
      rewrite bool_decide_eq_true_2 in H1 by done.
      destruct (get_pair a q0) as [y0'|] eqn:Hy0'; [|done].
      cbn [mbind option_bind] in H1.
      assert (is_Some (get_pair cl q0)) as [y0 Hy0].
      { apply lookup_lt_is_Some. rewrite <- Hlen.
        by eapply lookup_lt_Some. }
      pose proof (Hinv q0 y0 Hy0) as Hq0. rewrite Hy0' in Hq0.
      injection Hq0 as ->.
      assert (ice_compare_pair_foundations a q0 p
              = ice_compare_pair_foundations cl q0 p) as Hcmp.
      { destruct (state_after_response_ends cl p seen q0 y0),
          (state_after_response_ends cl p seen p x).
        eapply (compare_pair_foundations_ext cl a q0 p y0 _ x _); eauto. }
      assert (∀ a2, (∀ q y, q ≠ q0 → get_pair cl q = Some y →
                            get_pair a2 q = get_pair a q) →
                get_pair a2 q0
                = Some (state_after_response cl p (seen ++ [q0]) q0 y0) →
                ∀ q y, get_pair cl q = Some y →
                       get_pair a2 q
                       = Some (state_after_response cl p (seen ++ [q0]) q y))
        as Hfin.
      { intros a2 Hsame Hnew q y Hy.
        destruct (decide (q = q0)) as [->|?]; [congruence|].
        rewrite (Hsame q y), Hother by done. by apply Hinv. }
      remember (state_after_response cl p seen q0 y0) as cur eqn:Hcur.
      assert ((q0 ∈ seen ∧ pair_state y0 = ICP_Frozen
               ∧ ice_compare_pair_foundations cl q0 p = Some 0
               ∧ cur = ice_pair_set_state ICP_Waiting y0)
              ∨ (¬ (q0 ∈ seen ∧ pair_state y0 = ICP_Frozen
                    ∧ ice_compare_pair_foundations cl q0 p = Some 0)
                 ∧ cur = y0)) as [(Hin&Hfr&Hc0&->)|(Hnot&->)].
      { rewrite Hcur. unfold state_after_response.
        destruct (decide (q0 ≠ p ∧ _)) as [(_&?&?&?)|Hn]; [by left|right].
        rewrite decide_False by done. split; [|done].
        intros (?&?&?). by apply Hn. }
      - (* queued before: the pair is Waiting already *)
        rewrite pair_state_set_state in H1.
        rewrite bool_decide_eq_false_2 in H1 by done. injection H1 as <-.
        split; [by destruct a|]. split; [done|].
        apply Hfin; [done|]. rewrite Hy0'. f_equal.
        unfold state_after_response. rewrite decide_True; [done|].
        repeat split; try done. apply elem_of_app. by left.
      - destruct (decide (pair_state y0 = ICP_Frozen)) as [Hfr|Hfr];
          [rewrite bool_decide_eq_true_2 in H1 by done
          |rewrite bool_decide_eq_false_2 in H1 by done].
        + rewrite Hcmp in H1.
          destruct (ice_compare_pair_foundations cl q0 p) as [r|] eqn:Hr;
            [|done].
          cbn [mbind option_bind] in H1.
          destruct (Z.eqb_spec r 0) as [->|Hr0]; injection H1 as <-.
          * split; [by destruct a|]. split; [cbn; by rewrite length_insert|].
            apply Hfin.
            { intros q y ? _. unfold get_pair, put_pair. cbn.
              by rewrite list_lookup_insert_ne. }
            rewrite get_put_pair by eauto. f_equal.
            unfold state_after_response. rewrite decide_True; [done|].
            repeat split; try done. apply elem_of_app. right. by left.
          * split; [by destruct a|]. split; [done|].
            apply Hfin; [done|]. rewrite Hy0'. f_equal.
            unfold state_after_response.
            rewrite decide_False by (intros (_&_&_&?); congruence).
            by rewrite decide_False.
        + injection H1 as <-. split; [by destruct a|]. split; [done|].
          apply Hfin; [done|]. rewrite Hy0'. f_equal.
          unfold state_after_response.
          rewrite decide_False by (by intros (_&_&?&_)).
          by rewrite decide_False. }
    destruct (IH (seen ++ [q0]) a1) with (cl' := cl') as [Hcl' Hall];
      [by rewrite Ha1, <- Hc|congruence|done|done|].
    split; [rewrite Hcl', Ha1; by destruct a|].
    intros q y Hy. rewrite <- app_assoc in Hall. by apply Hall.
Qed.

(** X19: a success response for the pair [p]: the pair becomes Succeeded, every
    other pair of the check list that is Frozen and has the foundations of
    [p] becomes Waiting, and nothing else changes. *)
Theorem pair_states_on_binding_response (p : nat) (x : IceCandidatePair)
    (cl cl' : IceCheckList) :
  get_pair cl p = Some x →
  ice_update_pair_states_on_binding_response p cl = Some cl' →
  cl' = set_cl_pair_arena (cl_pair_arena cl') cl
  ∧ get_pair cl' p = Some (ice_pair_set_state ICP_Succeeded x)
  ∧ ∀ q y, q ≠ p → get_pair cl q = Some y →
           get_pair cl' q
           = Some (if decide (q ∈ check_list cl ∧ pair_state y = ICP_Frozen
                              ∧ ice_compare_pair_foundations cl q p = Some 0)
                   then ice_pair_set_state ICP_Waiting y else y).
Proof.
  intros Hx. unfold ice_update_pair_states_on_binding_response.
  rewrite Hx. cbn [mbind option_bind]. intros Hs.
  change (check_list (put_pair p (ice_pair_set_state ICP_Succeeded x) cl))
    with (check_list cl) in Hs.
  destruct (states_on_response_loop cl p x (check_list cl) []
              (put_pair p (ice_pair_set_state ICP_Succeeded x) cl) Hx)
    with (cl' := cl') as [Hcl' Hall]; [done|cbn; by rewrite length_insert| |done|].
  { intros q y Hy. unfold state_after_response.
    rewrite decide_False by (intros (_&Hin&_); by apply elem_of_nil in Hin).
    destruct (decide (q = p)) as [->|Hne].
    - rewrite get_put_pair by eauto. congruence.
    - unfold get_pair, put_pair in *. cbn.
      by rewrite list_lookup_insert_ne. }
  cbn [app] in Hall. split; [rewrite Hcl'; by destruct cl|]. split.
  - rewrite (Hall p x Hx). unfold state_after_response.
    rewrite decide_False by (intros [Hn _]; by apply Hn).
    by rewrite decide_True.
  - intros q y Hne Hy. rewrite (Hall q y Hy). unfold state_after_response.
    f_equal. destruct (decide (q ∈ check_list cl ∧ _)) as [(?&?&?)|Hn].
    + by rewrite decide_True.
    + rewrite decide_False by (intros (_&?&?&?); by apply Hn).
      by rewrite decide_False.
Qed.

(** ** The result of the negotiation *)

Lemma nominated_pair_found cl i vp :
  ms_list_find_custom (ice_find_nominated_valid_pair_from_componentID cl i)
    (valid_list cl) = Some (Some vp) →
  vp ∈ valid_list cl
  ∧ ∃ x l, get_pair cl (valid vp) = Some x ∧ is_nominated x = true
           ∧ local_of cl x = Some l ∧ cand_componentID l = i.
Proof.
  intros Hf. apply find_custom_Some in Hf as [Hin Hc]. split; [done|].
  unfold ice_find_nominated_valid_pair_from_componentID in Hc.
  destruct (get_pair cl (valid vp)) as [x|] eqn:Hx; [|done]. cbn in Hc.
  destruct (is_nominated x) eqn:Hn; [|done].
  destruct (local_of cl x) as [l|] eqn:Hl; [|done]. cbn in Hc.
  destruct (Z.eqb_spec (cand_componentID l) i); [|by cbn in Hc].
  by exists x, l.
Qed.

Lemma valid_pairs_loop cl ids acc ps :
  for_each2 (ice_get_valid_pair_for_componentID cl) ids acc = Some ps →
  ∀ p, p ∈ ps ↔
       p ∈ acc
       ∨ ∃ c cand vp,
           c ∈ ids ∧ get_cand cl c = Some cand
           ∧ ms_list_find_custom
               (ice_find_nominated_valid_pair_from_componentID cl
                  (cand_componentID cand)) (valid_list cl) = Some (Some vp)
           ∧ p = valid vp.
Proof.
  revert acc. induction ids as [|c ids IH]; intros acc; cbn [for_each2].
  - intros [= <-] p. split; [by left|]. intros [?|(c&?&?&Hc&_)]; [done|].
    by apply elem_of_nil in Hc.
  - destruct (ice_get_valid_pair_for_componentID cl c acc) as [acc1|] eqn:H1;
      [|done].
    cbn [mbind option_bind]. intros Hs p. rewrite (IH _ Hs p).
    unfold ice_get_valid_pair_for_componentID in H1.
    destruct (get_cand cl c) as [cand|] eqn:Hc; [|done].
    cbn [mbind option_bind] in H1.
    destruct (ms_list_find_custom _ (valid_list cl)) as [[vp|]|] eqn:Hf;
      [| |done]; cbn [mbind option_bind] in H1; injection H1 as <-.
    + unfold ms_list_append. rewrite elem_of_app, list_elem_of_singleton.
      split.
      * intros [[? | ->]|(c'&cand'&vp'&?&?&?&?)]; [by left| |].
        -- right. exists c, cand, vp. split; [left|done].
        -- right. exists c', cand', vp'. split; [by right|done].
      * intros [?|(c'&cand'&vp'&Hin&?&?&?)]; [by left; left|].
        apply elem_of_cons in Hin as [->|Hin].
        -- left. right. congruence.
        -- right. by exists c', cand', vp'.
    + split.
      * intros [?|(c'&cand'&vp'&?&?&?&?)]; [by left|].
        right. exists c', cand', vp'. split; [by right|done].
      * intros [?|(c'&cand'&vp'&Hin&?&?&?)]; [by left|].
        apply elem_of_cons in Hin as [->|Hin]; [congruence|].
        right. by exists c', cand', vp'.
Qed.

Lemma length_strncpy_bytes src n : length (strncpy_bytes src n) = n.
Proof.
  revert src. induction n as [|n IH]; intros src; [done|].
  cbn. destruct src as [|c t]; [cbn; by rewrite IH|].
  destruct (Ascii.eqb c NUL); cbn; by rewrite IH.
Qed.

Lemma strncpy_into_twice dst src n d1 d2 :
  strncpy_into dst src n = Some d1 → strncpy_into d1 src n = Some d2 →
  d2 = d1.
Proof.
  unfold strncpy_into. destruct (n <=? length dst)%nat; [|done].
  intros [= <-]. rewrite length_app, length_strncpy_bytes.
  destruct (n <=? _)%nat; [|done]. intros [= <-].
  by rewrite drop_app_length' by (by rewrite length_strncpy_bytes).
Qed.

(** What [ice_get_addr_and_ports_from_valid_pair] does with a pair. *)
Lemma addr_and_ports_step cl n p ap ap1 :
  ice_get_addr_and_ports_from_valid_pair cl n p ap = Some ap1 →
  ∃ x l, get_pair cl p = Some x ∧ local_of cl x = Some l
    ∧ (cand_componentID l = 1 →
       ∃ rm, remote_of cl x = Some rm
             ∧ strncpy_into (addr ap) (ip (cand_taddr rm)) n = Some (addr ap1)
             ∧ rtp_port ap1 = port (cand_taddr rm)
             ∧ rtcp_port ap1 = rtcp_port ap)
    ∧ (cand_componentID l = 2 →
       ∃ rm, remote_of cl x = Some rm
             ∧ addr ap1 = addr ap ∧ rtp_port ap1 = rtp_port ap
             ∧ rtcp_port ap1 = port (cand_taddr rm))
    ∧ (cand_componentID l ≠ 1 → cand_componentID l ≠ 2 → ap1 = ap).
Proof.
  unfold ice_get_addr_and_ports_from_valid_pair.
  destruct (get_pair cl p) as [x|] eqn:Hx; [|done]. cbn [mbind option_bind].
  destruct (local_of cl x) as [l|] eqn:Hl; [|done]. cbn [mbind option_bind].
  intros Hs. exists x, l. split; [done|]. split; [done|].
  destruct (Z.eqb_spec (cand_componentID l) 1) as [E1|E1].
  { destruct (remote_of cl x) as [rm|] eqn:Hrm; [|done].
    cbn [mbind option_bind] in Hs.
    destruct (strncpy_into _ _ _) as [d|] eqn:Hd; [|done].
    cbn [mbind option_bind] in Hs.
    injection Hs as <-. split; [intros _; by exists rm|].
    split; [intros ?; lia|done]. }
  destruct (Z.eqb_spec (cand_componentID l) 2) as [E2|E2].
  { destruct (remote_of cl x) as [rm|] eqn:Hrm; [|done].
    cbn [mbind option_bind] in Hs.
    injection Hs as <-. split; [done|]. split; [intros _; by exists rm|done]. }
  injection Hs as <-. done.
Qed.

Lemma addr_and_ports_total cl n ps ap ap' p x l :
  for_each2 (ice_get_addr_and_ports_from_valid_pair cl n) ps ap = Some ap' →
  get_pair cl p = Some x → local_of cl x = Some l →
  cand_componentID l = 1 ∨ cand_componentID l = 2 → p ∈ ps →
  is_Some (remote_of cl x).
Proof.
  intros Hs Hx Hl Hc. revert ap Hs.
  induction ps as [|q ps IH]; intros ap; cbn [for_each2];
    [intros _ Hin; by apply elem_of_nil in Hin|].
  destruct (ice_get_addr_and_ports_from_valid_pair cl n q ap) as [ap1|]
    eqn:H1; [|done].
  cbn [mbind option_bind]. intros Hs Hin.
  apply elem_of_cons in Hin as [->|Hin]; [|by eapply IH].
  apply addr_and_ports_step in H1 as (x'&l'&Hx'&Hl'&Hc1'&Hc2'&_).
  rewrite Hx in Hx'. injection Hx' as <-. rewrite Hl in Hl'.
  injection Hl' as <-.
  destruct Hc as [E|E]; [destruct (Hc1' E) as (rm&->&_)
                        |destruct (Hc2' E) as (rm&->&_)]; done.
Qed.

Lemma rtp_loop cl n ps ap ap' p1 x1 l1 rm1 :
  get_pair cl p1 = Some x1 → local_of cl x1 = Some l1 →
  cand_componentID l1 = 1 → remote_of cl x1 = Some rm1 →
  (∀ p x l, p ∈ ps → get_pair cl p = Some x → local_of cl x = Some l →
            cand_componentID l = 1 → p = p1) →
  for_each2 (ice_get_addr_and_ports_from_valid_pair cl n) ps ap = Some ap' →
  (p1 ∈ ps →
   rtp_port ap' = port (cand_taddr rm1)
   ∧ strncpy_into (addr ap) (ip (cand_taddr rm1)) n = Some (addr ap'))
  ∧ (p1 ∉ ps → rtp_port ap' = rtp_port ap ∧ addr ap' = addr ap).
Proof.
  intros Hx1 Hl1 Hc1 Hr1. revert ap.
  induction ps as [|p ps IH]; intros ap Hone; cbn [for_each2].
  - intros [= <-]. split; [intros Hin; by apply elem_of_nil in Hin|done].
  - destruct (ice_get_addr_and_ports_from_valid_pair cl n p ap) as [ap1|]
      eqn:H1; [|done].
    cbn [mbind option_bind]. intros Hs.
    destruct (IH ap1) as [IHin IHout]; [intros; eapply Hone; eauto; by right|done|].
    apply addr_and_ports_step in H1 as (x&l&Hx&Hl&Hc1'&Hc2'&Hother).
    assert (p = p1 →
            strncpy_into (addr ap) (ip (cand_taddr rm1)) n = Some (addr ap1)
            ∧ rtp_port ap1 = port (cand_taddr rm1)) as Hfirst.
    { intros ->. rewrite Hx1 in Hx. injection Hx as <-.
      rewrite Hl1 in Hl. injection Hl as <-.
      destruct (Hc1' Hc1) as (rm&Hrm&?&?&_). rewrite Hr1 in Hrm.
      by injection Hrm as <-. }
    assert (p ≠ p1 → rtp_port ap1 = rtp_port ap ∧ addr ap1 = addr ap)
      as Hnot.
    { intros Hne.
      assert (cand_componentID l ≠ 1) as Hn1.
      { intros Hc. apply Hne. eapply Hone; eauto. left. }
      destruct (decide (cand_componentID l = 2)) as [E2|E2].
      - destruct (Hc2' E2) as (rm&_&?&?&_). done.
      - by rewrite (Hother Hn1 E2). }
    split.
    + intros Hin. destruct (decide (p1 ∈ ps)) as [Hps|Hps].
      * destruct (IHin Hps) as [Hport Haddr]. split; [done|].
        destruct (decide (p = p1)) as [Heq|Hne].
        -- destruct (Hfirst Heq) as [Hd _].
           by rewrite (strncpy_into_twice _ _ _ _ _ Hd Haddr).
        -- destruct (Hnot Hne) as [_ <-]. done.
      * apply elem_of_cons in Hin as [<-|?]; [|done].
        destruct (IHout Hps) as [-> ->]. destruct (Hfirst eq_refl). done.
    + intros Hout. apply not_elem_of_cons in Hout as [Hne Hps].
      destruct (IHout Hps) as [-> ->]. apply Hnot. congruence.
Qed.

Lemma rtcp_loop cl n ps ap ap' p2 x2 l2 rm2 :
  get_pair cl p2 = Some x2 → local_of cl x2 = Some l2 →
  cand_componentID l2 = 2 → remote_of cl x2 = Some rm2 →
  (∀ p x l, p ∈ ps → get_pair cl p = Some x → local_of cl x = Some l →
            cand_componentID l = 2 → p = p2) →
  for_each2 (ice_get_addr_and_ports_from_valid_pair cl n) ps ap = Some ap' →
  (p2 ∈ ps → rtcp_port ap' = port (cand_taddr rm2))
  ∧ (p2 ∉ ps → rtcp_port ap' = rtcp_port ap).
Proof.
  intros Hx2 Hl2 Hc2 Hr2. revert ap.
  induction ps as [|p ps IH]; intros ap Hone; cbn [for_each2].
  - intros [= <-]. split; [intros Hin; by apply elem_of_nil in Hin|done].
  - destruct (ice_get_addr_and_ports_from_valid_pair cl n p ap) as [ap1|]
      eqn:H1; [|done].
    cbn [mbind option_bind]. intros Hs.
    destruct (IH ap1) as [IHin IHout]; [intros; eapply Hone; eauto; by right|done|].
    apply addr_and_ports_step in H1 as (x&l&Hx&Hl&Hc1'&Hc2'&Hother).
    assert (p = p2 → rtcp_port ap1 = port (cand_taddr rm2)) as Hfirst.
    { intros ->. rewrite Hx2 in Hx. injection Hx as <-.
      rewrite Hl2 in Hl. injection Hl as <-.
      destruct (Hc2' Hc2) as (rm&Hrm&_&_&?). rewrite Hr2 in Hrm.
      by injection Hrm as <-. }
    assert (p ≠ p2 → rtcp_port ap1 = rtcp_port ap) as Hnot.
    { intros Hne.
      assert (cand_componentID l ≠ 2) as Hn2.
      { intros Hc. apply Hne. eapply Hone; eauto. left. }
      destruct (decide (cand_componentID l = 1)) as [E1|E1].
      - destruct (Hc1' E1) as (rm&_&_&_&?). done.
      - by rewrite (Hother E1 Hn2). }
    split.
    + intros Hin. destruct (decide (p2 ∈ ps)) as [Hps|Hps]; [by apply IHin|].
      apply elem_of_cons in Hin as [<-|?]; [|done].
      rewrite (IHout Hps). by apply Hfirst.
    + intros Hout. apply not_elem_of_cons in Hout as [Hne Hps].
      rewrite (IHout Hps). apply Hnot. congruence.
Qed.

Lemma ports_loop_none cl n ps ap ap' :
  for_each2 (ice_get_addr_and_ports_from_valid_pair cl n) ps ap = Some ap' →
  ((∀ p x l, p ∈ ps → get_pair cl p = Some x → local_of cl x = Some l →
             cand_componentID l ≠ 1) →
   rtp_port ap' = rtp_port ap ∧ addr ap' = addr ap)
  ∧ ((∀ p x l, p ∈ ps → get_pair cl p = Some x → local_of cl x = Some l →
               cand_componentID l ≠ 2) →
     rtcp_port ap' = rtcp_port ap).
Proof.
  revert ap. induction ps as [|p ps IH]; intros ap; cbn [for_each2].
  - by intros [= <-].
  - destruct (ice_get_addr_and_ports_from_valid_pair cl n p ap) as [ap1|]
      eqn:H1; [|done].
    cbn [mbind option_bind]. intros Hs. destruct (IH ap1 Hs) as [IH1 IH2].
    apply addr_and_ports_step in H1 as (x&l&Hx&Hl&Hc1'&Hc2'&Hother).
    split; intros Hnone.
    + destruct IH1 as [-> ->]; [intros; eapply Hnone; eauto; by right|].
      assert (cand_componentID l ≠ 1) as Hn1 by (eapply Hnone; eauto; left).
      destruct (decide (cand_componentID l = 2)) as [E2|E2].
      * destruct (Hc2' E2) as (rm&_&?&?&_). done.
      * by rewrite (Hother Hn1 E2).
    + rewrite IH2 by (intros; eapply Hnone; eauto; by right).
      assert (cand_componentID l ≠ 2) as Hn2 by (eapply Hnone; eauto; left).
      destruct (decide (cand_componentID l = 1)) as [E1|E1].
      * destruct (Hc1' E1) as (rm&_&_&_&?). done.
      * by rewrite (Hother E1 Hn2).
Qed.

(** X20: the remote address and ports that
    [ice_get_remote_addr_and_ports_from_valid_pairs] gives.  When the
    componentID 1 is registered and the valid list has a nominated pair for
    it, the RTP port is the port of the remote candidate of the first such
    pair, and [addr_len] bytes of its IP address are copied to the buffer;
    otherwise the buffer and the RTP port are left as they are.  The same
    holds for the componentID 2 and the RTCP port. *)
Theorem remote_addr_and_ports (cl : IceCheckList) (addr_len : nat)
    (ap ap' : Addr_Ports) :
  ice_get_remote_addr_and_ports_from_valid_pairs cl addr_len ap = Some ap' →
  (∀ vp, registered cl 1 = true →
         ms_list_find_custom
           (ice_find_nominated_valid_pair_from_componentID cl 1)
           (valid_list cl) = Some (Some vp) →
         ∃ x rm, get_pair cl (valid vp) = Some x ∧ remote_of cl x = Some rm
                 ∧ rtp_port ap' = port (cand_taddr rm)
                 ∧ strncpy_into (addr ap) (ip (cand_taddr rm)) addr_len
                   = Some (addr ap'))
  ∧ (registered cl 1 = false
     ∨ ms_list_find_custom
         (ice_find_nominated_valid_pair_from_componentID cl 1)
         (valid_list cl) = Some None →
     rtp_port ap' = rtp_port ap ∧ addr ap' = addr ap)
  ∧ (∀ vp, registered cl 2 = true →
           ms_list_find_custom
             (ice_find_nominated_valid_pair_from_componentID cl 2)
             (valid_list cl) = Some (Some vp) →
           ∃ x rm, get_pair cl (valid vp) = Some x ∧ remote_of cl x = Some rm
                   ∧ rtcp_port ap' = port (cand_taddr rm))
  ∧ (registered cl 2 = false
     ∨ ms_list_find_custom
         (ice_find_nominated_valid_pair_from_componentID cl 2)
         (valid_list cl) = Some None →
     rtcp_port ap' = rtcp_port ap).
Proof.
  unfold ice_get_remote_addr_and_ports_from_valid_pairs, ice_get_valid_pairs.
  destruct (for_each2 _ (componentIDs cl) []) as [ps|] eqn:Hps; [|done].
  cbn [mbind option_bind]. intros Hs.
  pose proof (valid_pairs_loop _ _ _ _ Hps) as Hin.
  (* a pair of the list with the componentID [i] is the nominated pair
     found for [i] *)
  assert (∀ i p x l, p ∈ ps → get_pair cl p = Some x →
            local_of cl x = Some l → cand_componentID l = i →
            registered cl i = true
            ∧ ∃ vp, ms_list_find_custom
                      (ice_find_nominated_valid_pair_from_componentID cl i)
                      (valid_list cl) = Some (Some vp) ∧ p = valid vp)
    as Hfrom.
  { intros i p x l Hp Hx Hl Hi.
    apply Hin in Hp as [Hp|(c&cand&vp&Hc&Hcand&Hf&->)];
      [by apply elem_of_nil in Hp|].
    destruct (nominated_pair_found _ _ _ Hf) as (_&x'&l'&Hx'&_&Hl'&Hcid).
    rewrite Hx in Hx'. injection Hx' as <-. rewrite Hl in Hl'.
    injection Hl' as <-. rewrite Hi in Hcid. split.
    - apply registered_true. by exists c, cand.
    - exists vp. by rewrite Hcid. }
  assert (∀ i vp, registered cl i = true →
            ms_list_find_custom
              (ice_find_nominated_valid_pair_from_componentID cl i)
              (valid_list cl) = Some (Some vp) → valid vp ∈ ps) as Hto.
  { intros i vp Hreg Hf. apply registered_true in Hreg as (c&cand&?&?&<-).
    apply Hin. right. by exists c, cand, vp. }
  destruct (ports_loop_none _ _ _ _ _ Hs) as [Hnone1 Hnone2].
  split; [|split; [|split]].
  - intros vp Hreg Hf.
    destruct (nominated_pair_found _ _ _ Hf) as (_&x&l&Hx&_&Hl&Hcid).
    destruct (addr_and_ports_total cl addr_len ps ap ap' (valid vp) x l)
      as [rm Hrm]; [done|done|done|by left|by apply (Hto 1)|].
    exists x, rm. split; [done|]. split; [done|].
    eapply (rtp_loop cl addr_len ps ap ap' (valid vp) x l rm); try done.
    + intros p x' l' Hp Hx' Hl' Hc'.
      destruct (Hfrom 1 p x' l' Hp Hx' Hl' Hc') as (_&vp'&Hf'&->). congruence.
    + by apply (Hto 1).
  - intros Hno. apply Hnone1. intros p x l Hp Hx Hl Hc.
    destruct (Hfrom 1 p x l Hp Hx Hl Hc) as (Hreg&vp&Hf&_).
    destruct Hno; congruence.
  - intros vp Hreg Hf.
    destruct (nominated_pair_found _ _ _ Hf) as (_&x&l&Hx&_&Hl&Hcid).
    destruct (addr_and_ports_total cl addr_len ps ap ap' (valid vp) x l)
      as [rm Hrm]; [done|done|done|by right|by apply (Hto 2)|].
    exists x, rm. split; [done|]. split; [done|].
    eapply (rtcp_loop cl addr_len ps ap ap' (valid vp) x l rm); try done.
    + intros p x' l' Hp Hx' Hl' Hc'.
      destruct (Hfrom 2 p x' l' Hp Hx' Hl' Hc') as (_&vp'&Hf'&->). congruence.
    + by apply (Hto 2).
  - intros Hno. apply Hnone2. intros p x l Hp Hx Hl Hc.
    destruct (Hfrom 2 p x l Hp Hx Hl Hc) as (Hreg&vp&Hf&_).
    destruct Hno; congruence.
Qed.

(** ** The bases of the server reflexive candidates *)

Lemma bases_only_refl cl : bases_only cl cl.
Proof.
  split; [by destruct cl|]. apply Forall_Forall2_diag, Forall_forall.
  intros x _. by destruct x.
Qed.

Lemma bases_only_alter cl a c b :
  bases_only cl a → bases_only cl (alter_cand (set_cand_base b) c a).
Proof.
  intros [Ha HF]. split.
  - rewrite Ha at 1. by destruct cl.
  - cbn. apply Forall2_alter_r; [done|]. intros x y _ _ ->. by destruct x.
Qed.

Lemma bases_only_cand cl a c x :
  bases_only cl a → get_cand cl c = Some x →
  ∃ y, get_cand a c = Some y ∧ y = set_cand_base (cand_base y) x.
Proof.
  intros [_ HF] Hx. unfold get_cand in *.
  destruct (Forall2_lookup_l _ _ _ _ _ HF Hx) as (y&?&?). eauto.
Qed.

Lemma bases_only_cand_inv cl a c y :
  bases_only cl a → get_cand a c = Some y →
  ∃ x, get_cand cl c = Some x ∧ y = set_cand_base (cand_base y) x.
Proof.
  intros [_ HF] Hy. unfold get_cand in *.
  destruct (Forall2_lookup_r _ _ _ _ _ HF Hy) as (x&?&?). eauto.
Qed.

Lemma find_host_ext cl a i c :
  bases_only cl a → ice_find_host_candidate a i c = ice_find_host_candidate cl i c.
Proof.
  intros Hb. unfold ice_find_host_candidate.
  destruct (get_cand cl c) as [x|] eqn:Hx.
  - destruct (bases_only_cand _ _ _ _ Hb Hx) as (y&->&->). done.
  - destruct (get_cand a c) as [y|] eqn:Hy; [|done].
    destruct (bases_only_cand_inv _ _ _ _ Hb Hy) as (x&?&_). congruence.
Qed.

Lemma find_host_Some cl i l b :
  ms_list_find_custom (ice_find_host_candidate cl i) l = Some (Some b) →
  b ∈ l ∧ ∃ y, get_cand cl b = Some y ∧ cand_type y = ICT_HostCandidate
               ∧ cand_componentID y = i.
Proof.
  intros Hf. apply find_custom_Some in Hf as [Hin Hc]. split; [done|].
  unfold ice_find_host_candidate in Hc.
  destruct (get_cand cl b) as [y|] eqn:Hy; [|done]. cbn in Hc. exists y.
  destruct (decide (cand_type y = ICT_HostCandidate));
    [|by rewrite bool_decide_eq_false_2 in Hc].
  by destruct (Z.eqb_spec (cand_componentID y) i);
    [|rewrite andb_false_r in Hc].
Qed.

Lemma base_after_fields cl c x :
  cand_type (base_after cl c x) = cand_type x
  ∧ cand_componentID (base_after cl c x) = cand_componentID x
  ∧ base_after cl c x = set_cand_base (cand_base (base_after cl c x)) x.
Proof.
  unfold base_after. destruct (ms_list_find_custom _ _) as [[b|]|];
    try destruct (decide _); by destruct x.
Qed.

Lemma base_after_cases cl c x :
  base_after cl c x = x ∨ ∃ b, base_after cl c x = set_cand_base (Some b) x.
Proof.
  unfold base_after. destruct (ms_list_find_custom _ _) as [[b|]|];
    try destruct (decide _); eauto.
Qed.

(** One step of the inner loop, for the host candidate [b] of the
    componentID [i]. *)
Lemma set_base_step cl i b c a a' :
  bases_only cl a →
  registered cl i = true →
  ms_list_find_custom (ice_find_host_candidate cl i) (local_candidates cl)
  = Some (Some b) →
  c ∈ local_candidates cl →
  (∀ c x, get_cand cl c = Some x →
          ∃ y, get_cand a c = Some y ∧ (y = x ∨ y = base_after cl c x)) →
  ice_set_base_for_srflx_candidate b c a = Some a' →
  bases_only cl a'
  ∧ ∀ c' x, get_cand cl c' = Some x →
            ∃ y y', get_cand a c' = Some y ∧ get_cand a' c' = Some y'
                    ∧ (y' = y ∨ y' = base_after cl c' x)
                    ∧ (c' = c → cand_componentID x = i →
                       y' = base_after cl c' x).
Proof.
  intros Hb Hreg Hf Hc Hinv. unfold ice_set_base_for_srflx_candidate.
  destruct (find_host_Some _ _ _ _ Hf) as (_&yb&Hyb&_&Hcid).
  destruct (bases_only_cand _ _ _ _ Hb Hyb) as (yb'&Hyb'&Hrelb).
  assert (cand_componentID yb' = i) as Hcidb by (rewrite Hrelb; by cbn).
  destruct (get_cand a c) as [y|] eqn:Hy; [|done]. cbn [mbind option_bind].
  destruct (bases_only_cand_inv _ _ _ _ Hb Hy) as (x&Hx&Hrel).
  destruct (Hinv c x Hx) as (y0&Hy0&Hcase). rewrite Hy in Hy0.
  injection Hy0 as <-.
  assert (∀ c' x', c' ≠ c → get_cand cl c' = Some x' →
            ∃ y1, get_cand a c' = Some y1) as Hrest.
  { intros c' x' _ Hx'. destruct (Hinv c' x' Hx') as (y1&?&_). eauto. }
  assert (cand_type y = cand_type x ∧ cand_componentID y = cand_componentID x)
    as [Hty Hcy] by (rewrite Hrel; by cbn).
  (* the state is not changed *)
  assert ((cand_componentID x = i → y = base_after cl c x) →
          bases_only cl a
          ∧ ∀ c' x', get_cand cl c' = Some x' →
              ∃ y1 y', get_cand a c' = Some y1 ∧ get_cand a c' = Some y'
                       ∧ (y' = y1 ∨ y' = base_after cl c' x')
                       ∧ (c' = c → cand_componentID x' = i →
                          y' = base_after cl c' x')) as Hsame.
  { intros Hdone. split; [done|]. intros c' x' Hx'.
    destruct (Hinv c' x' Hx') as (y1&Hy1&_). exists y1, y1.
    split; [done|]. split; [done|]. split; [by left|].
    intros -> Hi. rewrite Hx in Hx'. injection Hx' as <-.
    rewrite Hy in Hy1. injection Hy1 as <-. by apply Hdone. }
  assert (cand_componentID x = i →
          base_after cl c x
          = if decide (cand_type x = ICT_ServerReflexiveCandidate
                       ∧ cand_base x = None)
            then set_cand_base (Some b) x else x) as Hafter.
  { intros Hi. unfold base_after. rewrite Hi, Hf.
    destruct (decide (cand_type x = _ ∧ cand_base x = None)) as [[? ?]|Hn].
    - by rewrite decide_True.
    - rewrite decide_False; [done|]. intros (_&?&?&_). by apply Hn. }
  destruct (decide (cand_type y = ICT_ServerReflexiveCandidate)) as [Hs|Hs];
    [rewrite bool_decide_eq_true_2 by done
    |rewrite bool_decide_eq_false_2 by done; intros [= <-]; apply Hsame;
     intros Hi; rewrite (Hafter Hi), decide_False by (intros [? _]; congruence);
     destruct Hcase as [-> | ->]; [done|];
     by rewrite (Hafter Hi), decide_False by (intros [? _]; congruence)].
  destruct (decide (cand_base y = None)) as [Hbn|Hbn];
    [rewrite bool_decide_eq_true_2 by done
    |rewrite bool_decide_eq_false_2 by done; intros [= <-]; apply Hsame;
     intros Hi; destruct Hcase as [-> | ->]; [|done];
     by rewrite (Hafter Hi), decide_False by (intros [_ ?]; congruence)].
  cbn [andb]. rewrite Hyb'. cbn [mbind option_bind].
  assert (y = x) as ->.
  { destruct Hcase as [-> | Hy']; [done|].
    destruct (base_after_cases cl c x) as [Hc'|[b' Hc']];
      rewrite Hc' in Hy'; [done|]. by rewrite Hy' in Hbn. }
  destruct (Z.eqb_spec (cand_componentID x) (cand_componentID yb'))
    as [Heq|Hne]; intros [= <-].
  - split; [by apply bases_only_alter|]. intros c' x' Hx'.
    destruct (decide (c' = c)) as [->|Hne'].
    + rewrite Hx in Hx'. injection Hx' as <-.
      exists x, (set_cand_base (Some b) x). split; [done|]. split.
      { unfold get_cand, alter_cand in *. cbn.
        by rewrite list_lookup_alter_eq, Hy. }
      rewrite Hafter by congruence. rewrite decide_True by done.
      split; [by right|done].
    + destruct (Hrest c' x' Hne' Hx') as [y1 Hy1]. exists y1, y1.
      split; [done|]. split; [by rewrite get_cand_alter_ne|].
      split; [by left|done].
  - apply Hsame. intros Hi. congruence.
Qed.

Lemma set_base_loop cl i b seen L a a' :
  registered cl i = true →
  ms_list_find_custom (ice_find_host_candidate cl i) (local_candidates cl)
  = Some (Some b) →
  (∀ c, c ∈ L → c ∈ local_candidates cl) →
  bases_only cl a →
  (∀ c x, get_cand cl c = Some x →
          ∃ y, get_cand a c = Some y
               ∧ (y = x ∨ y = base_after cl c x)
               ∧ (c ∈ seen → cand_componentID x = i →
                  y = base_after cl c x)) →
  for_each2 (ice_set_base_for_srflx_candidate b) L a = Some a' →
  bases_only cl a'
  ∧ ∀ c x, get_cand cl c = Some x →
           ∃ y y', get_cand a c = Some y ∧ get_cand a' c = Some y'
                   ∧ (y' = y ∨ y' = base_after cl c x)
                   ∧ (c ∈ seen ++ L → cand_componentID x = i →
                      y' = base_after cl c x).
Proof.
  intros Hreg Hf. revert seen a.
  induction L as [|c L IH]; intros seen a HL Hb Hinv; cbn [for_each2].
  - intros [= <-]. split; [done|]. intros c x Hx.
    destruct (Hinv c x Hx) as (y&Hy&_&Hseen). exists y, y.
    rewrite app_nil_r. split; [done|]. split; [done|]. by split; [left|].
  - destruct (ice_set_base_for_srflx_candidate b c a) as [a1|] eqn:H1;
      [|done].
    cbn [mbind option_bind]. intros Hs.
    destruct (set_base_step cl i b c a a1) as [Hb1 Hstep]; try done.
    { apply HL. left. }
    { intros c' x Hx. destruct (Hinv c' x Hx) as (y&?&?&_). eauto. }
    destruct (IH (seen ++ [c]) a1) as [Hb' Hall]; try done.
    { intros c' ?. apply HL. by right. }
    { intros c' x Hx. destruct (Hinv c' x Hx) as (y&Hy&Hcase&Hseen).
      destruct (Hstep c' x Hx) as (y0&y1&Hy0&Hy1&Hcase1&Hnew).
      rewrite Hy in Hy0. injection Hy0 as <-. exists y1. split; [done|].
      split.
      - destruct Hcase1 as [-> | ->]; [done|by right].
      - intros Hin Hi. apply elem_of_app in Hin as [Hin|Hin].
        + destruct Hcase1 as [-> | ->]; [by apply Hseen|done].
        + apply list_elem_of_singleton in Hin. by apply Hnew. }
    split; [done|]. intros c' x Hx.
    destruct (Hstep c' x Hx) as (y0&y1&Hy0&Hy1&Hcase1&_).
    destruct (Hall c' x Hx) as (y1'&y'&Hy1'&Hy'&Hcase'&Hfin).
    rewrite Hy1 in Hy1'. injection Hy1' as <-. exists y0, y'.
    split; [done|]. split; [done|]. split.
    + destruct Hcase' as [-> | ->]; [done|by right].
    + by rewrite <- app_assoc in Hfin.
Qed.

Lemma set_base_outer cl ids seen a a' :
  (∀ cp, cp ∈ ids → cp ∈ componentIDs cl) →
  bases_only cl a →
  (∀ c x, get_cand cl c = Some x →
          ∃ y, get_cand a c = Some y
               ∧ (y = x ∨ y = base_after cl c x)
               ∧ ((∃ cp cand, cp ∈ seen ∧ get_cand cl cp = Some cand
                              ∧ cand_componentID cand = cand_componentID x) →
                  y = base_after cl c x)) →
  for_each2 ice_set_base_for_srflx_candidate_with_componentID ids a
  = Some a' →
  bases_only cl a'
  ∧ ∀ c x, get_cand cl c = Some x →
           ∃ y, get_cand a' c = Some y
                ∧ (y = x ∨ y = base_after cl c x)
                ∧ ((∃ cp cand, cp ∈ seen ++ ids ∧ get_cand cl cp = Some cand
                               ∧ cand_componentID cand = cand_componentID x) →
                   y = base_after cl c x).
Proof.
  revert seen a. induction ids as [|cp ids IH]; intros seen a Hids Hb Hinv;
    cbn [for_each2].
  - intros [= <-]. rewrite app_nil_r. done.
  - destruct (ice_set_base_for_srflx_candidate_with_componentID cp a)
      as [a1|] eqn:H1; [|done].
    cbn [mbind option_bind]. intros Hs.
    assert (bases_only cl a1
            ∧ ∀ c x, get_cand cl c = Some x →
                ∃ y, get_cand a1 c = Some y
                     ∧ (y = x ∨ y = base_after cl c x)
                     ∧ ((∃ cp' cand, cp' ∈ seen ++ [cp]
                                     ∧ get_cand cl cp' = Some cand
                                     ∧ cand_componentID cand
                                       = cand_componentID x) →
                        y = base_after cl c x)) as [Hb1 Hinv1].
    { unfold ice_set_base_for_srflx_candidate_with_componentID in H1.
      destruct (get_cand a cp) as [cand'|] eqn:Hcp; [|done].
      cbn [mbind option_bind] in H1.
      destruct (bases_only_cand_inv _ _ _ _ Hb Hcp) as (cand&Hcand&Hrel).
      assert (cand_componentID cand' = cand_componentID cand) as Hi
        by (rewrite Hrel; by cbn).
      rewrite Hi in H1.
      rewrite (find_custom_ext _
                 (ice_find_host_candidate cl (cand_componentID cand))) in H1
        by (intros; by apply find_host_ext).
      assert (local_candidates a = local_candidates cl) as HL
        by (destruct Hb as [-> _]; done).
      rewrite HL in H1.
      assert (registered cl (cand_componentID cand) = true) as Hreg.
      { apply registered_true. exists cp, cand. split; [|done].
        apply Hids. left. }
      (* a candidate of the componentID that is not changed has its final
         content *)
      assert (∀ c x y, get_cand cl c = Some x →
                cand_componentID x = cand_componentID cand →
                (y = x ∨ y = base_after cl c x) →
                (c ∉ local_candidates cl
                 ∨ ms_list_find_custom
                     (ice_find_host_candidate cl (cand_componentID cand))
                     (local_candidates cl) = Some None) →
                y = base_after cl c x) as Hkeep.
      { intros c x y Hx Hcx [-> | ->] Hwhy; [|done].
        unfold base_after. rewrite Hcx.
        destruct Hwhy as [Hnl| ->]; [|done].
        destruct (ms_list_find_custom _ _) as [[b|]|]; [|done..].
        rewrite decide_False; [done|]. by intros [? _]. }
      destruct (ms_list_find_custom _ (local_candidates cl))
        as [[b|]|] eqn:Hf; [| |done]; cbn [mbind option_bind] in H1.
      - destruct (set_base_loop cl (cand_componentID cand) b []
                    (local_candidates cl) a a1) as [Hb1 Hall]; try done.
        { intros c x Hx. destruct (Hinv c x Hx) as (y&?&?&_).
          exists y. split; [done|]. split; [done|].
          intros Hin. by apply elem_of_nil in Hin. }
        split; [done|]. intros c x Hx.
        destruct (Hinv c x Hx) as (y&Hy&Hcase&Hseen).
        destruct (Hall c x Hx) as (y0&y'&Hy0&Hy'&Hcase'&Hnew).
        rewrite Hy in Hy0. injection Hy0 as <-. exists y'.
        split; [done|]. split; [destruct Hcase' as [-> | ->]; by auto|].
        intros (cp'&cand0&Hin&Hc0&Hcid0).
        apply elem_of_app in Hin as [Hin|Hin].
        + destruct Hcase' as [-> | ->]; [|done]. apply Hseen. eauto.
        + apply list_elem_of_singleton in Hin as ->.
          rewrite Hcand in Hc0. injection Hc0 as <-.
          destruct (decide (c ∈ local_candidates cl)) as [Hl|Hl].
          * by apply Hnew.
          * destruct Hcase' as [-> | ->]; [|done].
            eapply Hkeep; eauto.
      - injection H1 as <-. split; [done|]. intros c x Hx.
        destruct (Hinv c x Hx) as (y&Hy&Hcase&Hseen). exists y.
        split; [done|]. split; [done|].
        intros (cp'&cand0&Hin&Hc0&Hcid0).
        apply elem_of_app in Hin as [Hin|Hin]; [apply Hseen; eauto|].
        apply list_elem_of_singleton in Hin as ->.
        rewrite Hcand in Hc0. injection Hc0 as <-.
        eapply Hkeep; eauto. }
    destruct (IH (seen ++ [cp]) a1) as [Hb' Hall]; try done.
    { intros cp' ?. apply Hids. by right. }
    split; [done|]. intros c x Hx. rewrite <- app_assoc in Hall.
    by apply Hall.
Qed.

(** X21: [ice_check_list_set_base_for_srflx_candidates] changes the bases of
    candidates only.  A local server reflexive candidate without a base,
    whose componentID is registered, gets as its base the first host
    candidate of the local candidates that has its componentID, when there
    is one; every other candidate is left as it is. *)
Theorem srflx_candidates_bases (cl cl' : IceCheckList) :
  ice_check_list_set_base_for_srflx_candidates cl = Some cl' →
  bases_only cl cl'
  ∧ ∀ c x, get_cand cl c = Some x →
           get_cand cl' c = Some (base_after cl c x).
Proof.
  unfold ice_check_list_set_base_for_srflx_candidates. intros Hs.
  destruct (set_base_outer cl (componentIDs cl) [] cl cl') as [Hb Hall];
    try done.
  { apply bases_only_refl. }
  { intros c x Hx. exists x. split; [done|]. split; [by left|].
    intros (cp&?&Hin&_). by apply elem_of_nil in Hin. }
  split; [done|]. intros c x Hx.
  destruct (Hall c x Hx) as (y&Hy&Hcase&Hseen). rewrite Hy. f_equal.
  destruct (decide (registered cl (cand_componentID x) = true)) as [Hreg|Hreg].
  - apply Hseen. apply registered_true in Hreg as (cp&cand&?&?&?).
    by exists cp, cand.
  - destruct Hcase as [-> | ->]; [|done]. unfold base_after.
    destruct (ms_list_find_custom _ _) as [[b|]|]; [|done..].
    rewrite decide_False; [done|]. by intros (_&_&_&?).
Qed.

End Properties.

(** * The properties on the sessions of [Demo] *)

Import Demo.

(** C1: a check list with one local candidate and two remote candidates of
    the same component, whose foundations are [1] and [2].  The pairing
    gives two pairs with the two pair foundations [1:2] and [1:1];
    [ice_compute_pairs_states] sets the first pair of the check list to
    Waiting and leaves the other one, the only pair of its foundation,
    Frozen. *)
Theorem C1_one_waiting_pair_for_two_foundations :
  (s ← session_two_foundations;
   cl ← get_stream 0 s;
   states ← mapM (λ p, pair_state <$> get_pair cl p) (check_list cl);
   Some (foundations cl, check_list cl, states))
  = Some ([mkFoundation "1" "2"; mkFoundation "1" "1"], [1%nat; 0%nat],
          [ICP_Waiting; ICP_Frozen]).
Proof. vm_compute. reflexivity. Qed.

(** C6: the local ufrag is [LLLLLLLL].  A binding request whose USERNAME
    is [LLLL:RRRRRRRR], and one whose USERNAME is [:RRRRRRRR], pass
    [ice_check_received_binding_request_username], which returns 0 and
    sends nothing, and the handler answers the requests with a binding
    response: [strncmp] compares the bytes before the colon only.  A
    USERNAME without a colon, or with another left part of the length of
    the local ufrag, gets the error (4,1). *)
Theorem C6_username_prefix_accepted :
  local_ufrag session0 = "LLLLLLLL"%string
  ∧ username (binding_request_message 77 1 2 5 0) = "LLLL:RRRRRRRR"%string
  ∧ username (binding_request_message 77 2 2 5 0) = ":RRRRRRRR"%string
  ∧ ice_check_received_binding_request_username session0 rtp
      (received (binding_request 77 1 2 5 0) addr2 6000)
      (binding_request_message 77 1 2 5 0) ice_check_list_new
    = (0, ice_check_list_new)
  ∧ ice_check_received_binding_request_username session0 rtp
      (received (binding_request 77 2 2 5 0) addr2 6000)
      (binding_request_message 77 2 2 5 0) ice_check_list_new
    = (0, ice_check_list_new)
  ∧ map (λ u, cl_sent (stream0 (after [EvStunPacket 0 oracle rtp
                 (received (binding_request 77 u 2 5 0) addr2 6000)])))
      [1; 2; 3; 4]
    = [[WireBindingResponse 77]; [WireBindingResponse 77];
       [WireErrorResponse 77 4 1]; [WireErrorResponse 77 4 1]].
Proof. vm_compute. repeat split. Qed.

(** C2, counterexample: the agent is Controlled with the tie-breaker 20 and
    the request carries ICE-CONTROLLED with the tie-breaker 10.  The agent
    has the greater tie-breaker; it sends no error and changes its role to
    Controlling.  With the tie-breaker 30 in the request the agent has the
    lesser tie-breaker; it keeps its role and sends the error (4,87). *)
Lemma C2_counterexample :
  map (λ tie,
         s ← session_controlled;
         '(r, s') ← ice_check_received_binding_request_role_conflict 0 rtp
                      (received (binding_request 77 0 2 tie 0) addr2 6000)
                      (binding_request_message 77 0 2 tie 0) s;
         cl' ← get_stream 0 s';
         Some (role s, tie_breaker s, r, role s', cl_sent cl'))
    [10; 30]
  = [Some (IR_Controlled, 20, 0, IR_Controlling, []);
     Some (IR_Controlled, 20, -1, IR_Controlled, [WireErrorResponse 77 4 87])].
Proof. vm_compute. reflexivity. Qed.

(** C3, counterexample: the session allows one connectivity check and its
    check list holds one pair.  A binding request from an address that is
    not a remote candidate adds a pair for the peer reflexive candidate:
    the check list holds two pairs. *)
Lemma C3_counterexample :
  (s ← session_one_check;
   cl ← get_stream 0 s;
   s' ← run s [EvStunPacket 0 oracle rtp
                 (received (binding_request 77 0 2 5 0) addr9 7000)];
   cl' ← get_stream 0 s';
   Some (max_connectivity_checks s', length (check_list cl),
         length (check_list cl')))
  = Some (1, 1%nat, 2%nat).
Proof. vm_compute. reflexivity. Qed.


(** ** The theorems at work

    The hypotheses of the theorems hold in the sessions of [Demo]. *)

Lemma C9_pair_priority_witness :
  ice_compute_pair_priority IR_Controlled (stream0 (after []))
    pair_in_progress
  = Some (set_pair_priority
            (pair_priority_formula
               (controlling_priority IR_Controlled host_local host_remote)
               (controlled_priority IR_Controlled host_local host_remote))
            pair_in_progress)
  ∧ (∃ x, ice_pair_new (after []) (stream0 (after [])) 0 1 = Some x
          ∧ pair_priority x
            = pair_priority_formula
                (controlling_priority (role (after [])) host_local host_remote)
                (controlled_priority (role (after [])) host_local host_remote))
  ∧ 0 ≤ pair_priority_formula
          (controlling_priority IR_Controlled host_local host_remote)
          (controlled_priority IR_Controlled host_local host_remote) < 2 ^ 64.
Proof.
  apply (C9_pair_priority IR_Controlled (after []) (stream0 (after []))
           pair_in_progress 0 1 host_local host_remote); by vm_compute.
Defined.

Lemma C10_candidate_lists_bounded_witness :
  (ice_add_candidate LocalCandidates "host" "10.0.0.1" 5010 3 cl_full
   = (None, cl_full)
   ∧ ice_add_local_candidate "host" "10.0.0.1" 5010 3 None cl_full
     = Some (None, cl_full))
  ∧ (ice_add_candidate RemoteCandidates "host" "10.0.0.1" 5010 3 cl_full
     = (None, cl_full)
     ∧ ice_add_remote_candidate "host" "10.0.0.1" 5010 3 0 "1" cl_full
       = (None, cl_full))
  ∧ candidates_bounded
      (ice_add_remote_candidate "host" "10.0.0.1" 5010 3 0 "1"
         (stream0 (after []))).2
  ∧ Forall candidates_bounded (streams (after first_check)).
Proof.
  destruct (C10_candidate_lists_bounded "host" "10.0.0.1" 5010 3 0 "1" None
              cl_full) as (H1&H2&_&_&H5).
  destruct (C10_candidate_lists_bounded "host" "10.0.0.1" 5010 3 0 "1" None
              (stream0 (after []))) as (_&_&H3&_&_).
  split; [apply H1; vm_compute; lia|].
  split; [apply H2; vm_compute; lia|].
  split; [apply H3; vm_compute; lia|].
  apply (H5 (after []) first_check); [|by vm_compute].
  replace (streams (after [])) with [stream0 (after [])] by by vm_compute.
  repeat constructor; vm_compute; lia.
Defined.

Lemma C5_non_symmetric_response_witness :
  ice_handle_received_binding_response (after first_check) rtp
    (received (success_response 1000 addr1 5000) addr9 6000)
    (success_response_message 1000 addr1 5000) (stream0 (after first_check))
  = Some (put_pair 0 (ice_pair_set_state ICP_Failed pair_in_progress)
            (stream0 (after first_check)))
  ∧ pair_state
    <$> get_pair (put_pair 0 (ice_pair_set_state ICP_Failed pair_in_progress)
                    (stream0 (after first_check))) 0
    = Some ICP_Failed.
Proof.
  destruct (C5_non_symmetric_response (after first_check) rtp
              (received (success_response 1000 addr1 5000) addr9 6000)
              (success_response_message 1000 addr1 5000)
              (stream0 (after first_check)) 0 pair_in_progress host_local
              host_remote) as (H1&H2&_);
    [by vm_compute..|left; by vm_compute|by split].
Defined.

Lemma C4_retransmission_bound_witness :
  (∃ cl' x',
     retransmit (replicate 7 (after first_check, oracle, rtp)) 0
       (stream0 (after first_check)) = Some cl'
     ∧ get_pair cl' 0 = Some x'
     ∧ pair_state x' = ICP_InProgress
     ∧ retransmissions x' = retransmissions pair_in_progress + 7
     ∧ rto x' = rto pair_in_progress * 2 ^ 7
     ∧ transactionID x' = transactionID pair_in_progress
     ∧ (requests_sent cl'
        ≤ requests_sent (stream0 (after first_check)) + 7)%nat)
  ∧ (∃ cl' x',
       retransmit (replicate 8 (after first_check, oracle, rtp)) 0
         (stream0 (after first_check)) = Some cl'
       ∧ get_pair cl' 0 = Some x'
       ∧ pair_state x' = ICP_Failed ∧ transactionID x' = 0
       ∧ (requests_sent cl' + 1
          ≤ requests_sent (stream0 (after first_check)) + 8)%nat
       ∧ ∀ s o rtp time,
           ice_handle_connectivity_check_retransmission s o rtp time 0 cl'
           = Some cl').
Proof.
  split.
  - destruct (C4_retransmission_bound
                (replicate 7 (after first_check, oracle, rtp)) 0
                (stream0 (after first_check)) pair_in_progress host_local
                host_remote) as (H1&_&_); [by vm_compute..|].
    apply H1. by vm_compute.
  - destruct (C4_retransmission_bound
                (replicate 8 (after first_check, oracle, rtp)) 0
                (stream0 (after first_check)) pair_in_progress host_local
                host_remote) as (_&H2&_); [by vm_compute..|].
    apply H2. by vm_compute.
Defined.

Lemma C3_check_list_limit_witness :
  Z.of_nat (length (check_list cl_pruned))
  ≤ max_connectivity_checks session_limit_1
  ∧ Forall2 (λ a b, (length (check_list b) ≤ 1 + length (check_list a))%nat)
      (streams (after []))
      (streams (after [EvStunPacket 0 oracle rtp
                         (received (binding_request 77 0 2 5 0) addr9 7000)])).
Proof.
  destruct (C3_check_list_limit session_limit_1 cl_formed cl_pruned)
    as (H1&_&H3); [by vm_compute..|].
  split; [exact H1|].
  apply (H3 (after [])
           [EvStunPacket 0 oracle rtp
              (received (binding_request 77 0 2 5 0) addr9 7000)]).
  by vm_compute.
Defined.



Lemma C2_role_conflict_witness :
  ice_check_received_binding_request_role_conflict 0 rtp
    (received (binding_request 77 0 1 5 0) addr2 6000)
    (binding_request_message 77 0 1 5 0) (after [])
  = Some (-1,
          put_stream 0
            (ice_send_error_response rtp
               (received (binding_request 77 0 1 5 0) addr2 6000)
               (binding_request_message 77 0 1 5 0) 4 87 (stream0 (after [])))
            (after []))
  ∧ cl_sent (ice_send_error_response rtp
               (received (binding_request 77 0 1 5 0) addr2 6000)
               (binding_request_message 77 0 1 5 0) 4 87 (stream0 (after [])))
    = WireErrorResponse 77 4 87 :: cl_sent (stream0 (after []))
  ∧ ice_handle_received_binding_request 0 oracle rtp
      (received (binding_request 77 0 1 5 0) addr2 6000)
      (binding_request_message 77 0 1 5 0) "10.0.0.2" (after [])
    = Some (put_stream 0
              (ice_send_error_response rtp
                 (received (binding_request 77 0 1 5 0) addr2 6000)
                 (binding_request_message 77 0 1 5 0) 4 87
                 (stream0 (after [])))
              (after []))
  ∧ ice_check_received_binding_request_role_conflict 0 rtp
      (received (binding_request 77 0 2 10 0) addr2 6000)
      (binding_request_message 77 0 2 10 0) (the_session session_controlled)
    = (λ s', (0, s'))
      <$> ice_session_set_role IR_Controlling (the_session session_controlled).
Proof.
  destruct (C2_role_conflict 0 oracle rtp
              (received (binding_request 77 0 1 5 0) addr2 6000)
              (binding_request_message 77 0 1 5 0) "10.0.0.2" (after [])
              (stream0 (after []))) as (H1&_&_&H4&H5); [by vm_compute|].
  destruct (C2_role_conflict 0 oracle rtp
              (received (binding_request 77 0 2 10 0) addr2 6000)
              (binding_request_message 77 0 2 10 0) "10.0.0.2"
              (the_session session_controlled)
              (stream0 (the_session session_controlled))) as (_&H2&_);
    [by vm_compute|].
  destruct H1 as [H1 _]; [by vm_compute..|].
  destruct H2 as [H2 _]; [by vm_compute..|].
  split; [apply H1; by vm_compute|].
  split; [apply H4; by vm_compute|].
  split; [|by apply H2].
  apply H5; [by vm_compute..|]. apply H1. by vm_compute.
Defined.

(** * The further properties on the sessions of [Demo] *)

(** Every element of a list of the fixtures satisfies a decidable
    property. *)
Ltac for_all_elements :=
  apply Forall_forall; apply (bool_decide_unpack _); by vm_compute.

Lemma candidate_priority_order_witness :
  cand_priority (ice_compute_candidate_priority host_local) = 2130706431
  ∧ cand_priority (ice_compute_candidate_priority
                     (set_cand_type ICT_RelayedCandidate host_remote))
    < cand_priority (ice_compute_candidate_priority host_local).
Proof.
  destruct (candidate_priority_order host_local
              (set_cand_type ICT_RelayedCandidate host_remote))
    as (H1&_&H3&_); [by vm_compute..|].
  split; [exact H1|]. apply H3. by vm_compute.
Defined.

Lemma triggered_checks_queue_fifo_witness :
  (ice_check_list_pop_triggered_check
     (ice_check_list_queue_triggered_check 0 (stream0 (after [])))).1
  = Some 0%nat.
Proof.
  destruct (triggered_checks_queue_fifo 0 (stream0 (after [])))
    as (_&_&_&_&_&_&_&H8); [vm_compute; constructor|].
  apply H8. by vm_compute.
Defined.

Lemma add_local_candidate_lookup_witness :
  ∃ cl',
    ice_add_local_candidate "srflx" "203.0.113.5" 7000 2 (Some 0%nat)
      (stream0 (after [])) = Some (Some 2%nat, cl')
    ∧ registered cl' 2 = true
    ∧ local_candidates cl' = [0%nat; 2%nat].
Proof.
  destruct (add_local_candidate_lookup ICT_ServerReflexiveCandidate
              "203.0.113.5" 7000 2 (Some 0%nat) (stream0 (after [])))
    as (cl'&H1&_&H3&H4&_); [vm_compute; lia|for_all_elements|].
  exists cl'. split; [exact H1|]. split; [exact H4|exact H3].
Defined.

Lemma learn_peer_reflexive_candidate_result_witness :
  ∃ cl',
    ice_learn_peer_reflexive_candidate oracle
      (received (binding_request 77 0 2 5 0) addr9 7000)
      (binding_request_message 77 0 2 5 0) (mkTaddr "203.0.113.5" 7000)
      (stream0 (after []))
    = Some (Some 2%nat, cl')
    ∧ remote_candidates cl' = [1%nat; 2%nat].
Proof.
  destruct (learn_peer_reflexive_candidate_result oracle
              (received (binding_request 77 0 2 5 0) addr9 7000)
              (binding_request_message 77 0 2 5 0)
              (mkTaddr "203.0.113.5" 7000) (stream0 (after [])) 1)
    as [_ H2]; [left; by split|].
  destruct (H2 "ff"%string) as (_&_&H3); [by vm_compute..|].
  destruct H3 as (cl'&Hl&_&Hr&_); [vm_compute; lia|].
  exists cl'. split; [exact Hl|exact Hr].
Defined.

Lemma invalid_binding_request_dropped_witness :
  ice_handle_received_binding_request 0 oracle rtp
    (received (binding_request 77 3 2 5 0) addr2 6000)
    (binding_request_message 77 3 2 5 0) "10.0.0.2" (after [])
  = Some (put_stream 0
            (ice_send_error_response rtp
               (received (binding_request 77 3 2 5 0) addr2 6000)
               (binding_request_message 77 3 2 5 0) 4 1
               (stream0 (after []))) (after [])).
Proof.
  destruct (invalid_binding_request_dropped 0 oracle rtp
              (received (binding_request 77 3 2 5 0) addr2 6000)
              (binding_request_message 77 3 2 5 0) "10.0.0.2" (after [])
              (stream0 (after []))) as (_&_&H3&_); [by vm_compute|].
  apply H3; [by vm_compute|]. right. by vm_compute.
Defined.




Lemma set_role_recomputes_priorities_witness :
  the_session (ice_session_set_role IR_Controlled (after []))
  = set_streams
      (streams (the_session (ice_session_set_role IR_Controlled (after []))))
      (set_role IR_Controlled (after []))
  ∧ Forall2 reprioritised (streams (after []))
      (streams (the_session (ice_session_set_role IR_Controlled (after [])))).
Proof.
  destruct (set_role_recomputes_priorities IR_Controlled (after [])
              (the_session (ice_session_set_role IR_Controlled (after []))))
    as (H1&H2&_); [by vm_compute|].
  split; [exact H1|exact H2].
Defined.

Lemma error_response_result_witness :
  ∃ elem,
    ms_list_find_custom
      (ice_find_pair_from_transactionID (stream0 (after first_check))
         (tr_id (error_response_message 1000 4 87)))
      (check_list (stream0 (after first_check))) = Some elem
    ∧ match elem with
      | None =>
          the_session
            (ice_handle_received_error_response 0
               (error_response_message 1000 4 87) (after first_check))
          = after first_check
      | Some p =>
          ∃ x cl' x',
            get_pair (stream0 (after first_check)) p = Some x
            ∧ get_stream 0
                (the_session
                   (ice_handle_received_error_response 0
                      (error_response_message 1000 4 87) (after first_check)))
              = Some cl'
            ∧ get_pair cl' p = Some x'
            ∧ tie_breaker
                (the_session
                   (ice_handle_received_error_response 0
                      (error_response_message 1000 4 87) (after first_check)))
              = tie_breaker (after first_check)
            ∧ if hasErrorCode (error_response_message 1000 4 87)
                 && (errorClass (error_response_message 1000 4 87) =? 4)
                 && (errorNumber (error_response_message 1000 4 87) =? 87)
              then role
                     (the_session
                        (ice_handle_received_error_response 0
                           (error_response_message 1000 4 87)
                           (after first_check)))
                   = match pair_role x with
                     | IR_Controlling => IR_Controlled
                     | IR_Controlled => IR_Controlling
                     end
                   ∧ pair_state x' = ICP_Waiting ∧ transactionID x' = 0
              else role
                     (the_session
                        (ice_handle_received_error_response 0
                           (error_response_message 1000 4 87)
                           (after first_check)))
                   = role (after first_check)
                   ∧ pair_state x' = ICP_Failed
                   ∧ transactionID x'
                     = (if decide (pair_state x = ICP_Failed)
                        then transactionID x else 0)
      end.
Proof.
  apply (error_response_result 0 (error_response_message 1000 4 87)
           (after first_check)); by vm_compute.
Defined.

Lemma form_candidate_pairs_result_witness :
  ∃ new,
    ice_form_candidate_pairs session0 (the_check_list cl_two_foundations)
    = Some (with_pairs (the_check_list cl_two_foundations) new)
    ∧ (λ x, (pair_local x, pair_remote x)) <$> new
      = (λ lr, (Some lr.1, lr.2))
        <$> candidate_products (the_check_list cl_two_foundations)
    ∧ Forall (pair_is_new session0 (the_check_list cl_two_foundations)) new.
Proof.
  apply (form_candidate_pairs_result session0
           (the_check_list cl_two_foundations)).
  for_all_elements.
Defined.


Lemma keepalive_packets_witness :
  ∃ l,
    the_check_list
      (ice_send_keepalive_packets rtp (stream0 (after nomination)))
    = set_cl_sent (l ++ cl_sent (stream0 (after nomination)))
        (stream0 (after nomination))
    ∧ (length l ≤ length (componentIDs (stream0 (after nomination))))%nat
    ∧ ∀ w, w ∈ l →
           ∃ vp x, w = WireIndication (valid vp)
                   ∧ vp ∈ valid_list (stream0 (after nomination))
                   ∧ get_pair (stream0 (after nomination)) (valid vp) = Some x
                   ∧ is_nominated x = true.
Proof.
  apply (keepalive_packets rtp (stream0 (after nomination))). by vm_compute.
Defined.



Lemma default_candidates_chosen_witness :
  ∃ cl',
    ice_choose_local_or_remote_default_candidates (local_candidates cl_raw)
      cl_raw = Some cl'
    ∧ defaults_only cl_raw cl'.
Proof.
  destruct (default_candidates_chosen (local_candidates cl_raw) cl_raw)
    as (cl'&H1&H2&_); [for_all_elements|].
  exists cl'. split; [exact H1|exact H2].
Defined.

Lemma pair_states_on_binding_response_witness :
  get_pair
    (the_check_list
       (ice_update_pair_states_on_binding_response 0
          (stream0 (after first_check)))) 0
  = Some (ice_pair_set_state ICP_Succeeded pair_in_progress).
Proof.
  destruct (pair_states_on_binding_response 0 pair_in_progress
              (stream0 (after first_check))
              (the_check_list
                 (ice_update_pair_states_on_binding_response 0
                    (stream0 (after first_check)))))
    as (_&H2&_); [by vm_compute..|exact H2].
Defined.

Lemma remote_addr_and_ports_witness :
  ∃ x rm,
    get_pair (stream0 (after nomination)) 0 = Some x
    ∧ remote_of (stream0 (after nomination)) x = Some rm
    ∧ rtp_port
        (default no_addr_ports
           (ice_get_remote_addr_and_ports_from_valid_pairs
              (stream0 (after nomination)) 16 no_addr_ports))
      = port (cand_taddr rm)
    ∧ strncpy_into (addr no_addr_ports) (ip (cand_taddr rm)) 16
      = Some (addr
                (default no_addr_ports
                   (ice_get_remote_addr_and_ports_from_valid_pairs
                      (stream0 (after nomination)) 16 no_addr_ports))).
Proof.
  destruct (remote_addr_and_ports (stream0 (after nomination)) 16
              no_addr_ports
              (default no_addr_ports
                 (ice_get_remote_addr_and_ports_from_valid_pairs
                    (stream0 (after nomination)) 16 no_addr_ports)))
    as (H1&_); [by vm_compute|].
  apply (H1 (mkValid 0 0)); by vm_compute.
Defined.

Lemma srflx_candidates_bases_witness :
  bases_only cl_raw
    (the_check_list (ice_check_list_set_base_for_srflx_candidates cl_raw))
  ∧ ∀ c x, get_cand cl_raw c = Some x →
           get_cand
             (the_check_list
                (ice_check_list_set_base_for_srflx_candidates cl_raw)) c
           = Some (base_after cl_raw c x).
Proof.
  apply (srflx_candidates_bases cl_raw). by vm_compute.
Defined.
